(** * launchtunnel-cli: the framed stream multiplexer (package [protocol])

    A shallow embedding of [protocol/frame.go], [protocol/stream.go] and
    [protocol/mux.go], and the properties of the frame codec, of the
    streams and of the multiplexer that are stated about them.  The callers
    of the multiplexer in the command line tool are embedded as well:
    [Reconnect] of package [tunnel], and [acceptStreams] and the tail of
    [runTunnelLoop] of the [expose] command.

    Conventions of the embedding.
    - A Go [byte] is a [Byte.byte]; [uint32] and [int] values are [Z], with
      the 32-bit wrap-around written out ([uint32]).
    - A [[]byte] is a [list byte]; [len] is [length].
    - A buffered channel is the list of the values it holds (oldest first)
      together with a flag that tells whether it has been closed.
    - A [*Stream] is an index into the heap of stream objects of the mux.
    - A call either returns, parks on a channel operation, or panics
      ([outcome]); every [select] takes the scheduler's choice among the
      ready cases as an argument.
    - A call is one step: the tasks of the program (the callers of the API,
      the reader task, the writer task) interleave call by call.  Where the
      code lets another task in at a point that matters, the two parts of
      the call are definitions of their own: the two sections of
      [OpenStream] that hold the lock, the part of a call that follows the
      [select] it had to wait in ([Write_resumed] and the like), and the
      wait of [Close] for the reader task ([Close_during]). *)

From Stdlib Require Import ZArith List Lia Bool.
From Stdlib Require Import Strings.Byte.
From stdpp Require Import base option list gmap strings.

Local Open Scope Z_scope.

(* ================================================================== *)
(** * Part I: the model *)
(* ================================================================== *)

(** ** Bytes and 32-bit words *)

Definition Z_of_byte (b : byte) : Z := Z.of_N (Byte.to_N b).

(** The conversion [byte(v)] of Go: the low eight bits of [v]. *)
Definition byte_of_Z (v : Z) : byte :=
  match Byte.of_N (Z.to_N (v mod 256)) with
  | Some b => b
  | None => x00
  end.

(** The conversion [uint32(v)]. *)
Definition uint32 (v : Z) : Z := v mod 2 ^ 32.

(** [binary.BigEndian.PutUint32]: the four bytes written. *)
Definition PutUint32 (v : Z) : list byte :=
  [byte_of_Z (v ≫ 24); byte_of_Z (v ≫ 16); byte_of_Z (v ≫ 8); byte_of_Z v].

(** [binary.BigEndian.Uint32] on a four-byte slice. *)
Definition Uint32 (b : list byte) : Z :=
  match b with
  | [b0; b1; b2; b3] =>
      Z.lor (Z.lor (Z.lor (Z_of_byte b3) (Z_of_byte b2 ≪ 8))
                   (Z_of_byte b1 ≪ 16))
            (Z_of_byte b0 ≪ 24)
  | _ => 0
  end.

(** ** Errors *)

(** The context that [fmt.Errorf("...: %w", err)] puts around an error. *)
Inductive errctx : Type :=
| ReadingHeader                 (* "protocol: reading frame header: %w" *)
| ReadingPayload                (* "protocol: reading frame payload: %w" *)
| BadType (t : byte)            (* "%w: 0x%02x" *)
| BadLen (n : Z)                (* "%w: %d bytes" *)
| OpeningStream (id : Z).       (* "protocol: opening stream %d: %w" *)

Inductive error : Type :=
| EOF                           (* io.EOF *)
| ErrUnexpectedEOF              (* io.ErrUnexpectedEOF *)
| ErrPayloadTooLarge
| ErrInvalidFrame
| ErrStreamClosed
| ErrMuxClosed
| ErrStreamExists
| ErrUnknownStream
| ErrTooManyStreams
| ErrCanceled                   (* ctx.Err() *)
| Wrapped (c : errctx) (e : error).

(** [errors.Unwrap] iterated: the sentinel at the bottom of the chain. *)
Fixpoint root_error (e : error) : error :=
  match e with
  | Wrapped _ e' => root_error e'
  | _ => e
  end.

(** ** frame.go *)

Module FrameCodec.

Definition FrameOpenStream : byte := x01.
Definition FrameData : byte := x02.
Definition FrameCloseStream : byte := x03.
Definition FramePing : byte := x04.
Definition FramePong : byte := x05.

Definition MaxPayloadSize : Z := 10 * 1024 * 1024.

Definition frameHeaderSize : nat := 9.

Record Frame : Type := mkFrame {
  Type_ : byte;
  StreamID : Z;
  Payload : list byte
}.

(** [EncodeFrame]: the buffer of [frameHeaderSize + pLen] bytes after the
    four writes. *)
Definition EncodeFrame (f : Frame) : list byte :=
  let pLen := Z.of_nat (length (Payload f)) in
  [Type_ f] ++ PutUint32 (StreamID f) ++ PutUint32 (uint32 pLen) ++ Payload f.

(** The [io.Reader] handed to [DecodeFrame] is a [bytes.Reader] (as in
    [readLoop] and in the tests): [unread] is what it has not delivered yet.
    [allocs] logs the sizes of the payload buffers obtained from [make]. *)
Record Dec : Type := mkDec {
  unread : list byte;
  allocs : list Z
}.

Definition NewReader (data : list byte) : Dec := mkDec data [].

(** [io.ReadFull(r, buf)] with [len(buf) = n]: the bytes read, or the error
    of a reader that ran dry ([io.EOF] when it gave nothing, otherwise
    [io.ErrUnexpectedEOF]); a dry reader has been consumed whole. *)
Definition ReadFull (n : nat) (d : Dec) : (list byte + error) * Dec :=
  if (n <=? length (unread d))%nat
  then (inl (take n (unread d)), mkDec (drop n (unread d)) (allocs d))
  else (inr (match unread d with [] => EOF | _ => ErrUnexpectedEOF end),
        mkDec [] (allocs d)).

(** [make([]byte, n)] for the payload. *)
Definition make_payload (n : Z) (d : Dec) : Dec :=
  mkDec (unread d) (allocs d ++ [n]).

Definition DecodeFrame (d : Dec) : (Frame + error) * Dec :=
  match ReadFull frameHeaderSize d with
  | (inr err, d1) => (inr (Wrapped ReadingHeader err), d1)
  | (inl hdr, d1) =>
      let fType := nth 0 hdr x00 in
      if (Z_of_byte fType <? Z_of_byte FrameOpenStream)
         || (Z_of_byte fType >? Z_of_byte FramePong)
      then (inr (Wrapped (BadType fType) ErrInvalidFrame), d1)
      else
        let streamID := Uint32 (take 4 (drop 1 hdr)) in
        let payloadLen := Uint32 (take 4 (drop 5 hdr)) in
        if payloadLen >? MaxPayloadSize
        then (inr (Wrapped (BadLen payloadLen) ErrPayloadTooLarge), d1)
        else
          let d2 := make_payload payloadLen d1 in
          if payloadLen >? 0
          then match ReadFull (Z.to_nat payloadLen) d2 with
               | (inr err, d3) => (inr (Wrapped ReadingPayload err), d3)
               | (inl payload, d3) => (inl (mkFrame fType streamID payload), d3)
               end
          else (inl (mkFrame fType streamID []), d2)
  end.

(** The four ways in which the input of [DecodeFrame] can be bad, read off
    the raw bytes. *)
Definition hdr_type (r : list byte) : Z := Z_of_byte (nth 0 r x00).
Definition hdr_len (r : list byte) : Z := Uint32 (take 4 (drop 5 r)).

Definition short_header (r : list byte) : Prop :=
  (length r < frameHeaderSize)%nat.
Definition invalid_type (r : list byte) : Prop :=
  (frameHeaderSize <= length r)%nat ∧ ¬ (1 <= hdr_type r <= 5).
Definition payload_too_large (r : list byte) : Prop :=
  (frameHeaderSize <= length r)%nat ∧ hdr_len r > MaxPayloadSize.
Definition short_payload (r : list byte) : Prop :=
  (frameHeaderSize <= length r)%nat ∧
  Z.of_nat (length r) - Z.of_nat frameHeaderSize < hdr_len r.

(** How many bytes a call took from the reader. *)
Definition consumed (before after : Dec) : nat :=
  (length (unread before) - length (unread after))%nat.

(** What [DecodeFrame] does on every input, case by case in the order of its
    checks. *)
Inductive decode_case (r : list byte) : (Frame + error) * Dec -> Prop :=
| dc_short_header e :
    short_header r -> e = EOF ∨ e = ErrUnexpectedEOF ->
    decode_case r (inr (Wrapped ReadingHeader e), mkDec [] [])
| dc_invalid_type :
    invalid_type r ->
    decode_case r (inr (Wrapped (BadType (nth 0 r x00)) ErrInvalidFrame),
                   mkDec (drop frameHeaderSize r) [])
| dc_too_large :
    ¬ short_header r -> ¬ invalid_type r -> payload_too_large r ->
    decode_case r (inr (Wrapped (BadLen (hdr_len r)) ErrPayloadTooLarge),
                   mkDec (drop frameHeaderSize r) [])
| dc_short_payload e :
    ¬ short_header r -> ¬ invalid_type r -> ¬ payload_too_large r ->
    short_payload r -> e = EOF ∨ e = ErrUnexpectedEOF ->
    decode_case r (inr (Wrapped ReadingPayload e), mkDec [] [hdr_len r])
| dc_frame f :
    ¬ short_header r -> ¬ invalid_type r -> ¬ payload_too_large r ->
    ¬ short_payload r ->
    decode_case r (inl f, mkDec (drop (frameHeaderSize + length (Payload f)) r)
                                [hdr_len r]).

End FrameCodec.

(** ** Goroutines, channels and [select] *)

(** How a call ends: it returns [a], it parks on a channel operation or on
    a [sync.Once] that another call holds, or it panics.  The state is the
    one reached at that point.  A schedule does not wake a parked call up:
    what the call does when it goes on is stated apart, for the state in
    which it goes on. *)
Inductive outcome (S A : Type) : Type :=
| Ret (a : A) (s : S)
| Block (s : S)
| Panic (s : S).
Arguments Ret {S A} a s.
Arguments Block {S A} s.
Arguments Panic {S A} s.

Definition state_of {S A} (o : outcome S A) : S :=
  match o with Ret _ s | Block s | Panic s => s end.

Definition returned {S A} (o : outcome S A) : option A :=
  match o with Ret a _ => Some a | _ => None end.

Definition bind {S A B} (c : S -> outcome S A) (k : A -> S -> outcome S B)
  : S -> outcome S B :=
  fun s => match c s with
           | Ret a s' => k a s'
           | Block s' => Block s'
           | Panic s' => Panic s'
           end.

Notation "'do' x <- c ;; k" := (bind c (fun x => k))
  (at level 10, x name, c at level 99, k at level 200, only parsing).

(** A buffered channel. *)
Record chan (A : Type) : Type := mkChan {
  buf : list A;
  cap : nat;
  chclosed : bool
}.
Arguments mkChan {A} buf cap chclosed.
Arguments buf {A} c.
Arguments cap {A} c.
Arguments chclosed {A} c.

Definition make_chan {A} (n : nat) : chan A := mkChan [] n false.

(** A send can proceed when there is room, and also on a closed channel
    (where it panics); a receive when a value is buffered or the channel is
    closed. *)
Definition send_ready {A} (c : chan A) : bool :=
  chclosed c || (length (buf c) <? cap c)%nat.

Definition recv_ready {A} (c : chan A) : bool :=
  chclosed c || (0 <? length (buf c))%nat.

(** [None]: send on a closed channel. *)
Definition chan_send {A} (x : A) (c : chan A) : option (chan A) :=
  if chclosed c then None
  else Some (mkChan (buf c ++ [x]) (cap c) (chclosed c)).

(** [v, ok := <-c] once the receive can proceed: [None] is [ok = false]. *)
Definition chan_recv {A} (c : chan A) : option A * chan A :=
  match buf c with
  | x :: rest => (Some x, mkChan rest (cap c) (chclosed c))
  | [] => (None, c)
  end.

(** [None]: close of a closed channel. *)
Definition chan_close {A} (c : chan A) : option (chan A) :=
  if chclosed c then None else Some (mkChan (buf c) (cap c) true).

(** A [select] without [default]: among the cases that can proceed the
    runtime takes one, here the one that [pick] designates; [None] when no
    case can proceed (the goroutine parks). *)
Definition select {A} (cases : list (bool * A)) (pick : nat) : option A :=
  let ready := List.filter fst cases in
  snd <$> ready !! (pick mod length ready)%nat.

(** The state of a [sync.Once]. *)
Inductive once_state : Type := OnceIdle | OnceRunning | OnceDone.

(** ** stream.go *)

Module stream.

(** The two closures a stream is built with are always [m.makeWriteFn(id)]
    and [m.makeCloseFn(id)] of its mux: they are kept as the [id] they
    captured. *)
Inductive writeFn_t : Type := makeWriteFn_of (id : Z).
Inductive closeFn_t : Type := makeCloseFn_of (id : Z).

Record Stream : Type := mkStream {
  ID : Z;
  dataCh : chan (list byte);
  readBuf : list byte;
  writeFn : writeFn_t;
  closeFn : option closeFn_t;
  closeOnce : once_state;
  closed : bool                  (* the channel [closed] has been closed *)
}.

Definition set_dataCh (v : chan (list byte)) (s : Stream) : Stream :=
  mkStream (ID s) v (readBuf s) (writeFn s) (closeFn s) (closeOnce s) (closed s).
Definition set_readBuf (v : list byte) (s : Stream) : Stream :=
  mkStream (ID s) (dataCh s) v (writeFn s) (closeFn s) (closeOnce s) (closed s).
Definition set_closeOnce (v : once_state) (s : Stream) : Stream :=
  mkStream (ID s) (dataCh s) (readBuf s) (writeFn s) (closeFn s) v (closed s).
Definition set_closed (v : bool) (s : Stream) : Stream :=
  mkStream (ID s) (dataCh s) (readBuf s) (writeFn s) (closeFn s) (closeOnce s) v.

Definition newStream (id : Z) (w : writeFn_t) (c : option closeFn_t) : Stream :=
  mkStream id (make_chan 256) [] w c OnceIdle false.

(** [n := copy(p, src)] with [len(p) = lenp]. *)
Definition copy_len (lenp : nat) (src : list byte) : nat :=
  Nat.min lenp (length src).

(** The three lines that follow a successful receive of [data] in [Read]:
    the result is [p[:n]] and [nil]. *)
Definition deliver (lenp : nat) (data : list byte) (s : Stream)
  : outcome Stream (list byte * option error) :=
  let n := copy_len lenp data in
  Ret (take n data, None)
      (if (n <? length data)%nat then set_readBuf (drop n data) s else s).

Inductive read_case : Type := case_data | case_closed.

(** [Read(p)] with [len(p) = lenp]; the result holds [p[:n]]. *)
Definition Read (lenp pick : nat) (s : Stream)
  : outcome Stream (list byte * option error) :=
  if (0 <? length (readBuf s))%nat then
    let n := copy_len lenp (readBuf s) in
    Ret (take n (readBuf s), None) (set_readBuf (drop n (readBuf s)) s)
  else
    match select [(recv_ready (dataCh s), case_data);
                  (closed s, case_closed)] pick with
    | None => Block s
    | Some case_data =>
        match chan_recv (dataCh s) with
        | (None, _) => Ret ([], Some EOF) s
        | (Some data, ch) => deliver lenp data (set_dataCh ch s)
        end
    | Some case_closed =>
        (* the inner select has a default *)
        if recv_ready (dataCh s) then
          match chan_recv (dataCh s) with
          | (None, _) => Ret ([], Some EOF) s
          | (Some data, ch) => deliver lenp data (set_dataCh ch s)
          end
        else Ret ([], Some EOF) s
    end.

Definition isClosed (s : Stream) : bool := closed s.

Definition pushData (data : list byte) (pick : nat) (s : Stream)
  : outcome Stream unit :=
  match select [(send_ready (dataCh s), case_data);
                (closed s, case_closed)] pick with
  | None => Block s
  | Some case_data =>
      match chan_send data (dataCh s) with
      | Some ch => Ret tt (set_dataCh ch s)
      | None => Panic s
      end
  | Some case_closed => Ret tt s
  end.

(** [close(s.closed)]. *)
Definition close_closed (s : Stream) : outcome Stream unit :=
  if closed s then Panic s else Ret tt (set_closed true s).

Definition closeRead (s : Stream) : outcome Stream unit :=
  match closeOnce s with
  | OnceDone => Ret tt s
  | OnceRunning => Block s
  | OnceIdle =>
      (do _ <- close_closed ;;
       fun s' => Ret tt (set_closeOnce OnceDone s'))
        (set_closeOnce OnceRunning s)
  end.

(** A schedule of calls on one stream: the reader task delivering payloads
    and the owner reading. *)
Inductive call : Type :=
| call_pushData (data : list byte) (pick : nat)
| call_Read (lenp pick : nat).

(** Runs the calls one after the other, each to its return; [None] when one
    of them does not return.  The result lists what every [Read] returned. *)
Fixpoint run (cs : list call) (s : Stream)
  : option (list (list byte * option error) * Stream) :=
  match cs with
  | [] => Some ([], s)
  | call_pushData data pick :: cs' =>
      match pushData data pick s with
      | Ret _ s' => run cs' s'
      | _ => None
      end
  | call_Read lenp pick :: cs' =>
      match Read lenp pick s with
      | Ret r s' =>
          match run cs' s' with
          | Some (rs, s'') => Some (r :: rs, s'')
          | None => None
          end
      | _ => None
      end
  end.

(** The payloads a schedule delivers, in order. *)
Definition pushed (cs : list call) : list (list byte) :=
  flat_map (fun c => match c with
                     | call_pushData data _ => [data]
                     | call_Read _ _ => []
                     end) cs.

(** What the stream still holds for the reader. *)
Definition pending (s : Stream) : list byte :=
  readBuf s ++ concat (buf (dataCh s)).

(** What no method of a stream changes: its ID and its closures; and once
    the channel [closed] is closed it stays closed. *)
Definition stream_le (s s' : Stream) : Prop :=
  ID s' = ID s ∧ writeFn s' = writeFn s ∧ closeFn s' = closeFn s
  ∧ (closed s = true -> closed s' = true).

(** The bytes that the [Read] calls of a run returned, in order. *)
Definition delivered (rs : list (list byte * option error)) : list byte :=
  concat (map fst rs).

(** [n] successive [Read] calls, the [k]-th with a buffer of [sizes k] bytes;
    [from] is the number of the first one. *)
Definition reads (sizes picks : nat -> nat) (from n : nat) : list call :=
  map (fun k => call_Read (sizes k) (picks k)) (seq from n).

(** The work left to the reader: the bytes pending and the payloads still
    to be dequeued. *)
Definition backlog (s : Stream) : nat :=
  length (readBuf s) + length (concat (buf (dataCh s))) + length (buf (dataCh s)).

End stream.

(** ** mux.go, and the methods of [Stream] that run the closures of the mux *)

Module mux.
Import FrameCodec.

(** The websocket connection as the mux sees it. *)
Record Conn : Type := mkConn {
  sent : list (list byte);       (* the messages [conn.Write] delivered *)
  broken : bool;                 (* the transport failed: writes return an error *)
  conn_closed : bool             (* [conn.Close] was called *)
}.

(** The mux with the objects it points to.  Outbound byte buffers (the
    caller's [p], the copy [Write] makes, the frames [EncodeFrame] builds)
    live in [mem] and a [[]byte] of the write path is an index into it, so
    that a caller overwriting its buffer is visible; inbound buffers are
    written once by the transport and by [DecodeFrame] and are kept by
    value.  The mutexes [mu], [wrMu] and [onPongMu] guard sections that a
    call runs in one piece and are not represented. *)
Record Mux : Type := mkMux {
  mem : list (list byte);
  heap : list stream.Stream;
  conn : Conn;
  streams : gmap Z nat;
  nextID : Z;
  isServer : bool;
  maxStreams : Z;
  acceptCh : chan nat;
  onPong : option nat;           (* the registered callback, by its name *)
  pongCalls : list nat;          (* the callbacks invoked so far *)
  closed : bool;                 (* the channel [closed] has been closed *)
  once : once_state;
  done : bool;                   (* the channel [done] has been closed *)
  writeCh : chan nat;
  writeDone : bool               (* the channel [writeDone] has been closed *)
}.

Definition set_mem v m := mkMux v (heap m) (conn m) (streams m) (nextID m)
  (isServer m) (maxStreams m) (acceptCh m) (onPong m) (pongCalls m) (closed m)
  (once m) (done m) (writeCh m) (writeDone m).
Definition set_heap v m := mkMux (mem m) v (conn m) (streams m) (nextID m)
  (isServer m) (maxStreams m) (acceptCh m) (onPong m) (pongCalls m) (closed m)
  (once m) (done m) (writeCh m) (writeDone m).
Definition set_conn v m := mkMux (mem m) (heap m) v (streams m) (nextID m)
  (isServer m) (maxStreams m) (acceptCh m) (onPong m) (pongCalls m) (closed m)
  (once m) (done m) (writeCh m) (writeDone m).
Definition set_streams v m := mkMux (mem m) (heap m) (conn m) v (nextID m)
  (isServer m) (maxStreams m) (acceptCh m) (onPong m) (pongCalls m) (closed m)
  (once m) (done m) (writeCh m) (writeDone m).
Definition set_nextID v m := mkMux (mem m) (heap m) (conn m) (streams m) v
  (isServer m) (maxStreams m) (acceptCh m) (onPong m) (pongCalls m) (closed m)
  (once m) (done m) (writeCh m) (writeDone m).
Definition set_maxStreams v m := mkMux (mem m) (heap m) (conn m) (streams m)
  (nextID m) (isServer m) v (acceptCh m) (onPong m) (pongCalls m) (closed m)
  (once m) (done m) (writeCh m) (writeDone m).
Definition set_acceptCh v m := mkMux (mem m) (heap m) (conn m) (streams m)
  (nextID m) (isServer m) (maxStreams m) v (onPong m) (pongCalls m) (closed m)
  (once m) (done m) (writeCh m) (writeDone m).
Definition set_onPong v m := mkMux (mem m) (heap m) (conn m) (streams m)
  (nextID m) (isServer m) (maxStreams m) (acceptCh m) v (pongCalls m) (closed m)
  (once m) (done m) (writeCh m) (writeDone m).
Definition set_pongCalls v m := mkMux (mem m) (heap m) (conn m) (streams m)
  (nextID m) (isServer m) (maxStreams m) (acceptCh m) (onPong m) v (closed m)
  (once m) (done m) (writeCh m) (writeDone m).
Definition set_closed v m := mkMux (mem m) (heap m) (conn m) (streams m)
  (nextID m) (isServer m) (maxStreams m) (acceptCh m) (onPong m) (pongCalls m) v
  (once m) (done m) (writeCh m) (writeDone m).
Definition set_once v m := mkMux (mem m) (heap m) (conn m) (streams m)
  (nextID m) (isServer m) (maxStreams m) (acceptCh m) (onPong m) (pongCalls m)
  (closed m) v (done m) (writeCh m) (writeDone m).
Definition set_done v m := mkMux (mem m) (heap m) (conn m) (streams m)
  (nextID m) (isServer m) (maxStreams m) (acceptCh m) (onPong m) (pongCalls m)
  (closed m) (once m) v (writeCh m) (writeDone m).
Definition set_writeCh v m := mkMux (mem m) (heap m) (conn m) (streams m)
  (nextID m) (isServer m) (maxStreams m) (acceptCh m) (onPong m) (pongCalls m)
  (closed m) (once m) (done m) v (writeDone m).
Definition set_writeDone v m := mkMux (mem m) (heap m) (conn m) (streams m)
  (nextID m) (isServer m) (maxStreams m) (acceptCh m) (onPong m) (pongCalls m)
  (closed m) (once m) (done m) (writeCh m) v.

(** A call on the mux. *)
Definition M (A : Type) : Type := Mux -> outcome Mux A.

Definition ret {A} (a : A) : M A := fun m => Ret a m.
Definition modify (f : Mux -> Mux) : M unit := fun m => Ret tt (f m).

(** The bytes of the buffer [p]; an index outside [mem] is the nil slice. *)
Definition load (m : Mux) (p : nat) : list byte := default [] (mem m !! p).

(** [make] and fill a buffer. *)
Definition alloc_buf (content : list byte) : M nat :=
  fun m => Ret (length (mem m)) (set_mem (mem m ++ [content]) m).

(** [&Stream{...}]. *)
Definition alloc_stream (s : stream.Stream) : M nat :=
  fun m => Ret (length (heap m)) (set_heap (heap m ++ [s]) m).

(** Runs a method of the stream that [r] points to. *)
Definition on_stream {A} (r : nat)
  (f : stream.Stream -> outcome stream.Stream A) : M A :=
  fun m =>
    match heap m !! r with
    | None => Panic m
    | Some s =>
        match f s with
        | Ret a s' => Ret a (set_heap (<[r := s']> (heap m)) m)
        | Block s' => Block (set_heap (<[r := s']> (heap m)) m)
        | Panic s' => Panic (set_heap (<[r := s']> (heap m)) m)
        end
    end.

(** [EncodeFrame(Frame{Type: t, StreamID: id, Payload: payload})] into a new
    buffer; [payload] is a buffer or nil. *)
Definition encode (t : byte) (id : Z) (payload : option nat) : M nat :=
  fun m =>
    alloc_buf (EncodeFrame
                 (mkFrame t id (match payload with
                                | Some p => load m p
                                | None => []
                                end))) m.

Definition NewMux (isServer : bool) : Mux :=
  mkMux [] [] (mkConn [] false false) ∅ (if isServer then 2 else 1) isServer 0
        (make_chan 32) None [] false OnceIdle false (make_chan 256) false.

Definition SetMaxStreams (n : Z) : M unit := modify (set_maxStreams n).

Definition removeStream (id : Z) : M unit :=
  modify (fun m => set_streams (delete id (streams m)) m).

Inductive ws_case : Type := ws_send | ws_closed.

(** [writeWS]: the deferred [recover] turns the panic of a send on the closed
    [writeCh] into [ErrMuxClosed]. *)
Definition writeWS (data : nat) (pick : nat) : M (option error) :=
  fun m =>
    match select [(send_ready (writeCh m), ws_send);
                  (closed m, ws_closed)] pick with
    | None => Block m
    | Some ws_send =>
        match chan_send data (writeCh m) with
        | Some ch => Ret None (set_writeCh ch m)
        | None => Ret (Some ErrMuxClosed) m
        end
    | Some ws_closed => Ret (Some ErrMuxClosed) m
    end.

Definition makeWriteFn (id : Z) (payload : nat) (pick : nat)
  : M (option error) :=
  fun m =>
    if closed m then Ret (Some ErrMuxClosed) m
    else (do frame <- encode FrameData id (Some payload) ;;
          writeWS frame pick) m.

Definition makeCloseFn (id : Z) (pick : nat) : M unit :=
  do frame <- encode FrameCloseStream id None ;;
  do _ <- writeWS frame pick ;;
  removeStream id.

Definition call_writeFn (w : stream.writeFn_t) : nat -> nat -> M (option error) :=
  match w with stream.makeWriteFn_of id => makeWriteFn id end.

Definition call_closeFn (c : stream.closeFn_t) : nat -> M unit :=
  match c with stream.makeCloseFn_of id => makeCloseFn id end.

(** [newStream(id, m.makeWriteFn(id), m.makeCloseFn(id))]. *)
Definition new_mux_stream (id : Z) : stream.Stream :=
  stream.newStream id (stream.makeWriteFn_of id) (Some (stream.makeCloseFn_of id)).

(** The first section of [OpenStream] that holds [m.mu]: the limit is
    checked and the ID is taken from the counter. *)
Definition OpenStream_admit : M (Z + error) :=
  fun m =>
    if (maxStreams m >? 0) && (Z.of_nat (size (streams m)) >=? maxStreams m)
    then Ret (inr ErrTooManyStreams) m
    else Ret (inl (nextID m)) (set_nextID (uint32 (nextID m + 2)) m).

(** [OpenStream] from [newStream] on: the second section that holds [m.mu]
    registers the stream, and the [OPEN_STREAM] frame is submitted. *)
Definition OpenStream_register (id : Z) (pick : nat)
  : M (option nat * option error) :=
  do s <- alloc_stream (new_mux_stream id) ;;
  do _ <- modify (fun m => set_streams (<[id := s]> (streams m)) m) ;;
  do frame <- encode FrameOpenStream id None ;;
  do err <- writeWS frame pick ;;
  match err with
  | Some e =>
      do _ <- removeStream id ;;
      ret (None, Some (Wrapped (OpeningStream id) e))
  | None => ret (Some s, None)
  end.

(** [OpenStream]: the stream and the error.  [m.mu] is released between
    the two sections, so that the sections of two calls can alternate;
    [OpenStream] is a call whose two sections follow each other without a
    call of another task in between. *)
Definition OpenStream (pick : nat) : M (option nat * option error) :=
  fun m =>
    if closed m then Ret (None, Some ErrMuxClosed) m
    else
      (do a <- OpenStream_admit ;;
       match a with
       | inr e => ret (None, Some e)
       | inl id => OpenStream_register id pick
       end) m.

Inductive accept_case : Type := acc_stream | acc_ctx | acc_closed.

(** [AcceptStream(ctx)]; [ctx_done] tells whether [ctx.Done()] is closed. *)
Definition AcceptStream (ctx_done : bool) (pick : nat)
  : M (option nat * option error) :=
  fun m =>
    match select [(recv_ready (acceptCh m), acc_stream);
                  (ctx_done, acc_ctx);
                  (closed m, acc_closed)] pick with
    | None => Block m
    | Some acc_stream =>
        match chan_recv (acceptCh m) with
        | (None, _) => Ret (None, Some ErrMuxClosed) m
        | (Some s, ch) => Ret (Some s, None) (set_acceptCh ch m)
        end
    | Some acc_ctx => Ret (None, Some ErrCanceled) m
    | Some acc_closed => Ret (None, Some ErrMuxClosed) m
    end.

Definition SendPing (pick : nat) : M (option error) :=
  fun m =>
    if closed m then Ret (Some ErrMuxClosed) m
    else (do frame <- encode FramePing 0 None ;; writeWS frame pick) m.

Definition OnPong (fn : nat) : M unit := modify (set_onPong (Some fn)).

(** [s.closeRead()] for every stream of the registry. *)
Fixpoint closeRead_all (rs : list nat) : M unit :=
  match rs with
  | [] => ret tt
  | r :: rs' => do _ <- on_stream r stream.closeRead ;; closeRead_all rs'
  end.

(** [conn.Write]: [false] is an error. *)
Definition conn_Write (data : list byte) : M bool :=
  fun m =>
    if broken (conn m) || conn_closed (conn m) then Ret false m
    else Ret true (set_conn (mkConn (sent (conn m) ++ [data]) (broken (conn m))
                                    (conn_closed (conn m))) m).

(** [<-m.writeDone] in [shutdown], after [writeCh] has been closed: the
    writer task takes the frames left in the queue one by one.  When it is
    the writer itself that runs [shutdown], or when one of its writes fails
    (it then calls [shutdown] and waits on the [Once] that is running),
    [writeDone] is never closed. *)
Fixpoint await_writer (from_writer : bool) (queue : list nat) : M unit :=
  fun m =>
    if writeDone m then Ret tt m
    else if from_writer then Block m
    else
      match queue with
      | [] => Ret tt (set_writeDone true m)
      | data :: rest =>
          let m' := set_writeCh (mkChan rest (cap (writeCh m))
                                        (chclosed (writeCh m))) m in
          (do ok <- conn_Write (load m data) ;;
           if ok then await_writer from_writer rest
           else fun m => Block m) m'
      end.

(** [close] of one of the channels of the mux. *)
Definition close_chan (get : Mux -> chan nat) (set : chan nat -> Mux -> Mux)
  : M unit :=
  fun m => match chan_close (get m) with
           | Some ch => Ret tt (set ch m)
           | None => Panic m
           end.

(** [close(m.closed)]. *)
Definition close_closed : M unit :=
  fun m => if closed m then Panic m else Ret tt (set_closed true m).

(** The rest of the function that [shutdown] hands to [once.Do].  Go ranges
    over the registry in an unspecified order; here the order is the one of
    [map_to_list]. *)
Definition teardown (from_writer : bool) : M unit :=
  do _ <- (fun m => closeRead_all (map snd (map_to_list (streams m))) m) ;;
  do _ <- modify (set_streams ∅) ;;
  do _ <- close_chan acceptCh set_acceptCh ;;
  do _ <- close_chan writeCh set_writeCh ;;
  do _ <- (fun m => await_writer from_writer (buf (writeCh m)) m) ;;
  modify (fun m => set_conn (mkConn (sent (conn m)) (broken (conn m)) true) m).

(** [shutdown]; [from_writer] tells whether the caller is [writeLoop]. *)
Definition shutdown (from_writer : bool) : M unit :=
  fun m =>
    match once m with
    | OnceDone => Ret tt m
    | OnceRunning => Block m
    | OnceIdle =>
        (do _ <- modify (set_once OnceRunning) ;;
         do _ <- close_closed ;;
         do _ <- teardown from_writer ;;
         modify (set_once OnceDone)) m
    end.

(** [<-m.done]: [done] is closed by the reader task only, on its way out of
    [readLoop]. *)
Definition await_done : M unit :=
  fun m => if done m then Ret tt m else Block m.

(** [Close]: [shutdown], then the wait for the reader task.  A call made
    before the reader task has left parks on [done]; since [shutdown] does
    nothing the second time, what that call does once it is woken is what
    [Close] does in the state reached by then. *)
Definition Close : M (option error) :=
  do _ <- shutdown false ;;
  do _ <- await_done ;;
  ret None.

Definition handleOpenStream (id : Z) (pick : nat) : M unit :=
  do s <- alloc_stream (new_mux_stream id) ;;
  do _ <- modify (fun m => set_streams (<[id := s]> (streams m)) m) ;;
  fun m =>
    match select [(send_ready (acceptCh m), ws_send);
                  (closed m, ws_closed)] pick with
    | None => Block m
    | Some ws_send =>
        match chan_send s (acceptCh m) with
        | Some ch => Ret tt (set_acceptCh ch m)
        | None => Panic m
        end
    | Some ws_closed => Ret tt m
    end.

Definition handleData (id : Z) (payload : list byte) (pick : nat) : M unit :=
  fun m =>
    match streams m !! id with
    | None => Ret tt m
    | Some s => on_stream s (stream.pushData payload pick) m
    end.

Definition handleCloseStream (id : Z) : M unit :=
  fun m =>
    match streams m !! id with
    | None => Ret tt m
    | Some s => (do _ <- on_stream s stream.closeRead ;; removeStream id) m
    end.

Definition handlePing (pick : nat) : M unit :=
  do frame <- encode FramePong 0 None ;;
  do _ <- writeWS frame pick ;;
  ret tt.

Definition handlePong : M unit :=
  fun m =>
    match onPong m with
    | Some fn => Ret tt (set_pongCalls (pongCalls m ++ [fn]) m)
    | None => Ret tt m
    end.

(** What [conn.Read] gives the reader task. *)
Inductive conn_read : Type :=
| read_msg (data : list byte)
| read_err.

(** The [switch f.Type] of [readLoop]. *)
Definition dispatch (f : Frame) (pick : nat) : M unit :=
  match Type_ f with
  | x01 => handleOpenStream (StreamID f) pick
  | x02 => handleData (StreamID f) (Payload f) pick
  | x03 => handleCloseStream (StreamID f)
  | x04 => handlePing pick
  | x05 => handlePong
  | _ => ret tt
  end.

(** One turn of the loop of [readLoop]; [true] when the loop goes on.  On
    its way out the deferred [close(m.done)] runs. *)
Definition readLoop_iter (ev : conn_read) (pick : nat) : M bool :=
  match ev with
  | read_err =>
      do _ <- shutdown false ;;
      do _ <- modify (set_done true) ;;
      ret false
  | read_msg data =>
      if (length data <? frameHeaderSize)%nat then ret true
      else
        match DecodeFrame (NewReader data) with
        | (inr _, _) => ret true
        | (inl f, _) =>
            fun m =>
              if closed m then Ret false (set_done true m)
              else (do _ <- dispatch f pick ;; ret true) m
        end
  end.

(** The reader task on a sequence of reads of the connection: the frames
    it dispatched, in order. *)
Fixpoint readLoop (evs : list (conn_read * nat)) : M (list Frame) :=
  match evs with
  | [] => ret []
  | (ev, pick) :: evs' =>
      do continue <- readLoop_iter ev pick ;;
      if continue then
        do fs <- readLoop evs' ;;
        ret (match ev with
             | read_msg data =>
                 if (length data <? frameHeaderSize)%nat then fs
                 else match DecodeFrame (NewReader data) with
                      | (inl f, _) => f :: fs
                      | _ => fs
                      end
             | read_err => fs
             end)
      else ret []
  end.

(** One turn of the loop of [writeLoop]; [true] when the loop goes on. *)
Definition writeLoop_iter : M bool :=
  fun m =>
    match chan_recv (writeCh m) with
    | (Some data, ch) =>
        (do ok <- conn_Write (load m data) ;;
         if ok then ret true
         else
           do _ <- shutdown true ;;
           do _ <- modify (set_writeDone true) ;;
           ret false) (set_writeCh ch m)
    | (None, _) =>
        if chclosed (writeCh m) then Ret false (set_writeDone true m)
        else Block m
    end.

(** [Stream.Write(p)] on the stream [r]. *)
Definition Write (r p pick : nat) : M (Z * option error) :=
  fun m =>
    match heap m !! r with
    | None => Panic m
    | Some s =>
        if stream.closed s then Ret (0, Some ErrStreamClosed) m
        else if stream.closed s then Ret (0, Some ErrStreamClosed) m
        else
          (do b <- alloc_buf (load m p) ;;
           do err <- call_writeFn (stream.writeFn s) b pick ;;
           match err with
           | Some e => ret (0, Some e)
           | None => ret (Z.of_nat (length (load m p)), None)
           end) m
    end.

(** [Stream.Close()] on the stream [r]. *)
Definition Stream_Close (r pick : nat) : M (option error) :=
  fun m =>
    match heap m !! r with
    | None => Panic m
    | Some s =>
        match stream.closeOnce s with
        | OnceDone => Ret None m
        | OnceRunning => Block m
        | OnceIdle =>
            (do _ <- on_stream r (fun s => Ret tt (stream.set_closeOnce OnceRunning s)) ;;
             do _ <- on_stream r stream.close_closed ;;
             do _ <- match stream.closeFn s with
                     | Some c => call_closeFn c pick
                     | None => ret tt
                     end ;;
             do _ <- on_stream r (fun s => Ret tt (stream.set_closeOnce OnceDone s)) ;;
             ret None) m
        end
    end.

(** [Stream.Read(p)] on the stream [r]. *)
Definition Stream_Read (r lenp pick : nat) : M (list byte * option error) :=
  on_stream r (stream.Read lenp pick).

(** A call that finds no case of a [select] able to proceed parks there,
    and goes on when the other tasks have brought the mux to a state in
    which one is: the four definitions that follow are the calls from that
    [select] on. *)

(** [Stream.Write] from the [select] of [writeWS] on; [frame] is the frame
    that the call has built and [n] is [len(p)]. *)
Definition Write_resumed (frame : nat) (n : Z) (pick : nat)
  : M (Z * option error) :=
  do err <- writeWS frame pick ;;
  match err with
  | Some e => ret (0, Some e)
  | None => ret (n, None)
  end.

(** [Stream.Close] on the stream [r] from the [select] of [writeWS] on;
    [id] is the ID that the close closure captured and [frame] the frame it
    has built. *)
Definition Stream_Close_resumed (r : nat) (id : Z) (frame pick : nat)
  : M (option error) :=
  do _ <- writeWS frame pick ;;
  do _ <- removeStream id ;;
  do _ <- on_stream r (fun s => Ret tt (stream.set_closeOnce OnceDone s)) ;;
  ret None.

(** The turn of [readLoop] that handles a [PING] frame, from the [select]
    of [writeWS] on; [frame] is the [PONG] frame that [handlePing] has
    built. *)
Definition handlePing_resumed (frame pick : nat) : M bool :=
  do _ <- writeWS frame pick ;;
  ret true.

(** The turn of [readLoop] that handles an [OPEN_STREAM] frame, from the
    [select] of [handleOpenStream] on; [s] is the stream it has
    registered. *)
Definition handleOpenStream_resumed (s pick : nat) : M bool :=
  fun m =>
    match select [(send_ready (acceptCh m), ws_send);
                  (closed m, ws_closed)] pick with
    | None => Block m
    | Some ws_send =>
        match chan_send s (acceptCh m) with
        | Some ch => Ret true (set_acceptCh ch m)
        | None => Panic m
        end
    | Some ws_closed => Ret true m
    end.

(** The calls that the tasks of a program make on a mux: the API, the
    turns of the reader and writer tasks, and the owner of a buffer writing
    into it. *)
Inductive call : Type :=
| call_OpenStream (pick : nat)
| call_AcceptStream (ctx_done : bool) (pick : nat)
| call_SendPing (pick : nat)
| call_OnPong (fn : nat)
| call_SetMaxStreams (n : Z)
| call_Close
| call_Read (r lenp pick : nat)
| call_Write (r p pick : nat)
| call_Stream_Close (r pick : nat)
| call_reader (ev : conn_read) (pick : nat)
| call_writer
| call_make (content : list byte)
| call_overwrite (p : nat) (content : list byte)
| call_transport_fails.

Inductive result : Type :=
| res_stream (s : option nat) (err : option error)
| res_error (err : option error)
| res_count (n : Z) (err : option error)
| res_bytes (bs : list byte) (err : option error)
| res_loop (continue : bool)
| res_buffer (p : nat)
| res_unit.

Definition fmap_outcome {A B} (f : A -> B) (o : outcome Mux A) : outcome Mux B :=
  match o with
  | Ret a m => Ret (f a) m
  | Block m => Block m
  | Panic m => Panic m
  end.

Definition step (c : call) (m : Mux) : outcome Mux result :=
  match c with
  | call_OpenStream pick =>
      fmap_outcome (fun r => res_stream r.1 r.2) (OpenStream pick m)
  | call_AcceptStream ctx_done pick =>
      fmap_outcome (fun r => res_stream r.1 r.2) (AcceptStream ctx_done pick m)
  | call_SendPing pick => fmap_outcome res_error (SendPing pick m)
  | call_OnPong fn => fmap_outcome (fun _ => res_unit) (OnPong fn m)
  | call_SetMaxStreams n => fmap_outcome (fun _ => res_unit) (SetMaxStreams n m)
  | call_Close => fmap_outcome res_error (Close m)
  | call_Read r lenp pick =>
      fmap_outcome (fun x => res_bytes x.1 x.2) (Stream_Read r lenp pick m)
  | call_Write r p pick =>
      fmap_outcome (fun x => res_count x.1 x.2) (Write r p pick m)
  | call_Stream_Close r pick => fmap_outcome res_error (Stream_Close r pick m)
  | call_reader ev pick =>
      if done m then Ret (res_loop false) m
      else fmap_outcome res_loop (readLoop_iter ev pick m)
  | call_writer =>
      if writeDone m then Ret (res_loop false) m
      else fmap_outcome res_loop (writeLoop_iter m)
  | call_make content => fmap_outcome res_buffer (alloc_buf content m)
  | call_overwrite p content =>
      Ret res_unit (set_mem (<[p := content]> (mem m)) m)
  | call_transport_fails =>
      Ret res_unit (set_conn (mkConn (sent (conn m)) true (conn_closed (conn m))) m)
  end.

(** A schedule in which every call runs to its return: for each call, in
    order, its result and the state it left.  [None] when a call parks or
    panics. *)
Fixpoint run (cs : list call) (m : Mux) : option (list (call * result * Mux)) :=
  match cs with
  | [] => Some []
  | c :: cs' =>
      match step c m with
      | Ret r m' =>
          match run cs' m' with
          | Some tr => Some ((c, r, m') :: tr)
          | None => None
          end
      | _ => None
      end
  end.

(** The state a trace ends in. *)
Definition final (m : Mux) (tr : list (call * result * Mux)) : Mux :=
  default m (last (map snd tr)).

(** A schedule in which calls may also park or panic: the state the other
    tasks go on from. *)
Definition exec (cs : list call) (m : Mux) : Mux :=
  fold_left (fun m c => state_of (step c m)) cs m.

(** [Close] when the other tasks make the calls [cs] between its
    [shutdown] and the end of its wait for [done]. *)
Definition Close_during (cs : list call) : M (option error) :=
  do _ <- shutdown false ;;
  fun m => (do _ <- await_done ;; ret None) (exec cs m).

(** The error a call returned, if any. *)
Definition result_error (r : result) : option error :=
  match r with
  | res_stream _ e | res_error e | res_count _ e | res_bytes _ e => e
  | _ => None
  end.

(** The ID of the stream an [OpenStream] call returned. *)
Definition opened_id (e : call * result * Mux) : list Z :=
  match e with
  | (call_OpenStream _, res_stream (Some s) None, m) =>
      match heap m !! s with
      | Some st => [stream.ID st]
      | None => []
      end
  | _ => []
  end.

(** The IDs of the streams that the [OpenStream] calls of a trace returned,
    in order. *)
Definition opened_ids (tr : list (call * result * Mux)) : list Z :=
  flat_map opened_id tr.

(** The first IDs of a role: [start], [start + 2], ... in 32 bits. *)
Definition first_id (isServer : bool) : Z := if isServer then 2 else 1.

Definition role_ids (isServer : bool) (n : nat) : list Z :=
  map (fun k => uint32 (first_id isServer + 2 * Z.of_nat k)) (seq 0 n).

(** The reader task handling a run of [DATA] frames for the stream [id]. *)
Fixpoint handleData_all (id : Z) (ps : list (list byte * nat)) : M unit :=
  match ps with
  | [] => ret tt
  | (payload, pick) :: ps' =>
      do _ <- handleData id payload pick ;; handleData_all id ps'
  end.

(** The ID that the write closure of a stream captured (the ID of the
    stream, for every stream that the mux builds). *)
Definition writeFn_id (s : stream.Stream) : Z :=
  match stream.writeFn s with stream.makeWriteFn_of id => id end.

(** A schedule on the accepting side that leaves an open stream behind a
    mux that is shut down: the peer opens stream 1 twice, both streams are
    accepted, the read of the connection fails (the reader task shuts the
    mux down and leaves), the mux is closed, and the owner of the first
    stream fills a buffer. *)
Definition replaced_then_shut : list call :=
  [call_reader (read_msg (EncodeFrame (mkFrame FrameOpenStream 1 []))) 0;
   call_reader (read_msg (EncodeFrame (mkFrame FrameOpenStream 1 []))) 0;
   call_AcceptStream false 0;
   call_AcceptStream false 0;
   call_reader read_err 0;
   call_Close;
   call_make [x68; x69]].

(** A schedule on the opening side: a stream is opened, its owner fills a
    buffer, the read of the connection fails, and the mux is closed. *)
Definition opened_then_shut : list call :=
  [call_OpenStream 0; call_make [x68; x69]; call_reader read_err 0; call_Close].

(** A schedule on the accepting side: the peer opens stream 1, and the read
    of the connection fails and the mux is closed before anyone accepts the
    stream. *)
Definition queued_then_shut : list call :=
  [call_reader (read_msg (EncodeFrame (mkFrame FrameOpenStream 1 []))) 0;
   call_reader read_err 0;
   call_Close].

(** The calls that run [shutdown]: [Close], the reader task when its read
    of the connection fails, and the writer task when its write fails. *)
Definition runs_shutdown (c : call) (m : Mux) : Prop :=
  c = call_Close
  ∨ (done m = false ∧ exists pick, c = call_reader read_err pick)
  ∨ (c = call_writer ∧ writeDone m = false ∧ buf (writeCh m) <> []
     ∧ broken (conn m) || conn_closed (conn m) = true).

(** The wire form of the [CLOSE_STREAM] frame of the stream [id]. *)
Definition close_frame (id : Z) : list byte :=
  EncodeFrame (mkFrame FrameCloseStream id []).

(** [Stream.Close] called once for every [pick] of the list. *)
Definition Close_calls (r : nat) (picks : list nat) : list call :=
  map (call_Stream_Close r) picks.

(** The wire form of the [PONG] frame. *)
Definition pong_frame : list byte :=
  [x05; x00; x00; x00; x00; x00; x00; x00; x00].

(** Every frame in the outbound queue is a buffer of [mem]. *)
Definition queue_in_mem (m : Mux) : Prop :=
  Forall (fun p => (p < length (mem m))%nat) (buf (writeCh m)).

(** The contents of the frames waiting in the outbound queue. *)
Definition outbox (m : Mux) : list (list byte) :=
  map (load m) (buf (writeCh m)).

(** The mux after the buffer [data] has gone to the end of the outbound
    queue. *)
Definition queued (data : nat) (m : Mux) : Mux :=
  set_writeCh (mkChan (buf (writeCh m) ++ [data]) (cap (writeCh m)) false) m.

(** The outbound queue has room; it is full. *)
Definition has_room (m : Mux) : Prop :=
  (length (buf (writeCh m)) < cap (writeCh m))%nat.
Definition queue_full (m : Mux) : Prop :=
  (cap (writeCh m) <= length (buf (writeCh m)))%nat.

(** [R] relates the state before a call to the state the call reaches,
    whether it returns, parks or panics. *)
Definition stable (R : Mux -> Mux -> Prop) {A} (c : M A) : Prop :=
  forall m, R m (state_of (c m)).

(** The counter of stream IDs is left alone. *)
Definition keeps_nextID (m m' : Mux) : Prop := nextID m' = nextID m.

(** Once closed, the channel [closed] stays closed. *)
Definition closed_stays (m m' : Mux) : Prop :=
  closed m = true -> closed m' = true.

(** As long as [closed] is open, the two queues are neither closed nor
    reopened and the [Once] of [shutdown] is not touched. *)
Definition chans_stay (m m' : Mux) : Prop :=
  closed_stays m m'
  ∧ (closed m' = false ->
     chclosed (writeCh m') = chclosed (writeCh m)
     ∧ chclosed (acceptCh m') = chclosed (acceptCh m)
     ∧ once m' = once m).

(** Stream objects are never removed from the heap, and change as
    [stream_le] says. *)
Definition heap_grows (m m' : Mux) : Prop :=
  forall r s, heap m !! r = Some s ->
    exists s', heap m' !! r = Some s' ∧ stream.stream_le s s'.

(** The buffer [q] keeps its content. *)
Definition keeps_buffer (q : nat) (m m' : Mux) : Prop :=
  forall content, mem m !! q = Some content -> mem m' !! q = Some content.

(** No call of the schedule is the owner of the buffer [q] writing into
    it. *)
Definition leaves_buffer (q : nat) (cs : list call) : Prop :=
  Forall (fun c => forall content, c <> call_overwrite q content) cs.

(** The queues of a mux are closed only by [shutdown], which closes
    [closed] first. *)
Definition queues_open (m : Mux) : Prop :=
  closed m = false ->
  chclosed (writeCh m) = false ∧ chclosed (acceptCh m) = false
  ∧ once m = OnceIdle.

End mux.

(** ** States that the statements about the mux refer to *)

Module scene.
Import FrameCodec mux.

(** The mux after a new buffer holding [content] has gone to the end of the
    outbound queue: what [EncodeFrame] followed by a successful [writeWS]
    leaves. *)
Definition enqueued (content : list byte) (m : Mux) : Mux :=
  set_writeCh (mkChan (buf (writeCh m) ++ [length (mem m)])
                      (cap (writeCh m)) false)
              (set_mem (mem m ++ [content]) m).

(** The mux is not shut down and its outbound queue has room. *)
Definition can_send (m : Mux) : Prop :=
  closed m = false ∧ chclosed (writeCh m) = false
  ∧ (length (buf (writeCh m)) < cap (writeCh m))%nat.

(** The mux is not shut down and its accept queue has room for [n] more
    streams. *)
Definition can_accept (n : nat) (m : Mux) : Prop :=
  closed m = false ∧ chclosed (acceptCh m) = false
  ∧ (length (buf (acceptCh m)) + n <= cap (acceptCh m))%nat.

(** The mux after the stream [s] has been allocated and registered under
    [id]. *)
Definition registered (id : Z) (s : stream.Stream) (m : Mux) : Mux :=
  set_streams (<[id := length (heap m)]> (streams m))
              (set_heap (heap m ++ [s]) m).

(** The wire form of the frames without payload. *)
Definition ping_frame : list byte := EncodeFrame (mkFrame FramePing 0 []).
Definition open_frame (id : Z) : list byte :=
  EncodeFrame (mkFrame FrameOpenStream id []).
Definition data_frame (id : Z) (payload : list byte) : list byte :=
  EncodeFrame (mkFrame FrameData id payload).

(** The reader task receiving one [OPEN_STREAM] frame per ID of the list. *)
Definition open_frames (ids : list Z) (pick : nat) : list (conn_read * nat) :=
  map (fun id => (read_msg (open_frame id), pick)) ids.

(** [n] calls of [AcceptStream] with a live context. *)
Definition accepts (picks : nat -> nat) (n : nat) : list call :=
  map (fun k => call_AcceptStream false (picks k)) (seq 0 n).

(** The streams that the successful [AcceptStream] calls of a trace
    returned, in order. *)
Definition accepted (tr : list (call * result * Mux)) : list nat :=
  flat_map (fun e => match e with
                     | (call_AcceptStream _ _, res_stream (Some s) None, _) => [s]
                     | _ => []
                     end) tr.

(** The transport works and [conn.Close] has not been called. *)
Definition healthy (m : Mux) : Prop :=
  broken (conn m) = false ∧ conn_closed (conn m) = false.

(** [n] turns of the writer task. *)
Definition writer_turns (n : nat) : list call := repeat call_writer n.

(** The wire form of a [CLOSE_STREAM] frame is [close_frame]; a stream
    after [Close] or [closeRead] has run on it. *)
Definition closed_stream (s : stream.Stream) : stream.Stream :=
  stream.set_closeOnce OnceDone (stream.set_closed true s).

(** No [Close] or [closeRead] of the stream is under way: its guard is
    spent and the stream closed, or its guard is fresh and the stream
    open. *)
Definition settled (s : stream.Stream) : bool :=
  match stream.closeOnce s with
  | OnceDone => stream.closed s
  | OnceIdle => negb (stream.closed s)
  | OnceRunning => false
  end.

(** Every entry of the registry points to a settled stream. *)
Definition registry_settled (m : Mux) : bool :=
  forallb (fun r => from_option settled false (heap m !! r))
          (map snd (map_to_list (streams m))).

(** The stream object at [r] is closed and its guard is spent. *)
Definition spent_at (r : nat) (m : Mux) : Prop :=
  exists s, heap m !! r = Some s
            ∧ stream.closeOnce s = OnceDone ∧ stream.closed s = true.

(** The mux after the close closure of the stream at [r], [s] as it is by
    then, has removed the registry entry of [id] and [Stream.Close] has
    spent the guard. *)
Definition Close_finished (r : nat) (id : Z) (s : stream.Stream) (m : Mux)
  : Mux :=
  set_heap (<[r := stream.set_closeOnce OnceDone s]> (heap m))
           (set_streams (delete id (streams m)) m).

(** [shutdown] has not started and the writer task has not left. *)
Definition live (m : Mux) : Prop :=
  once m = OnceIdle ∧ closed m = false ∧ chclosed (acceptCh m) = false
  ∧ chclosed (writeCh m) = false ∧ writeDone m = false.

(** The mux after a [shutdown] that went through, [h] being the stream
    objects as [closeRead] left them: every queued frame has been sent,
    in order, before the connection was closed.  [done] is as it was. *)
Definition shut_down (h : list stream.Stream) (m : Mux) : Mux :=
  set_once OnceDone
    (set_conn (mkConn (sent (conn m) ++ outbox m) false true)
       (set_writeDone true
          (set_writeCh (mkChan [] (cap (writeCh m)) true)
             (set_acceptCh (mkChan (buf (acceptCh m)) (cap (acceptCh m)) true)
                (set_streams ∅ (set_heap h (set_closed true m))))))).

(** The schedule holds no turn of the reader task. *)
Definition reader_idle (cs : list call) : Prop :=
  Forall (fun c => forall ev pick, c <> call_reader ev pick) cs.

(** [done] is left as it is. *)
Definition keeps_done (m m' : Mux) : Prop := done m' = done m.

(** Once [done] is closed it stays closed, and once [conn.Close] has been
    called the connection stays closed. *)
Definition flags_stay (m m' : Mux) : Prop :=
  (done m = true -> done m' = true)
  ∧ (conn_closed (conn m) = true -> conn_closed (conn m') = true).

(** Once [shutdown] has completed it stays completed, and the two flags
    stay. *)
Definition ended_stays (m m' : Mux) : Prop :=
  (once m = OnceDone -> once m' = OnceDone) ∧ flags_stay m m'.

(** The transport does not take writes any more. *)
Definition unusable (m : Mux) : Prop :=
  broken (conn m) || conn_closed (conn m) = true.

(** What a [shutdown] that does not get past its wait for the writer task
    leaves as it found it. *)
Definition same_core (m m' : Mux) : Prop :=
  once m' = once m ∧ closed m' = closed m ∧ writeDone m' = writeDone m
  ∧ conn m' = conn m ∧ done m' = done m.

(** The call did not return, and left the core of the mux as it was in
    [m]. *)
Definition stuck_in {A} (m : Mux) (o : outcome Mux A) : Prop :=
  returned o = None ∧ same_core m (state_of o).

(** The call did not return: it parked (or panicked) inside [shutdown],
    after [closed] was closed and before [conn.Close], holding the [Once];
    the connection and [done] are as they were in [m] and [writeDone] is
    open. *)
Definition holds_once {A} (m : Mux) (o : outcome Mux A) : Prop :=
  returned o = None
  ∧ once (state_of o) = OnceRunning ∧ closed (state_of o) = true
  ∧ writeDone (state_of o) = false
  ∧ conn (state_of o) = conn m ∧ done (state_of o) = done m.

(** While the [Once] of [shutdown] is held it stays held, [writeDone]
    stays as it is and [conn.Close] is not called. *)
Definition once_held (m m' : Mux) : Prop :=
  once m = OnceRunning ->
  once m' = OnceRunning ∧ writeDone m' = writeDone m
  ∧ conn_closed (conn m') = conn_closed (conn m).

(** The schedule holds no turn of the writer task. *)
Definition writer_idle (cs : list call) : Prop :=
  Forall (fun c => c <> call_writer) cs.

(** The mux is wedged: the [Once] of [shutdown] is held for good, so that
    [Close] does not return, and the connection is never closed by the
    mux. *)
Definition wedged (m : Mux) : Prop :=
  once m = OnceRunning ∧ writeDone m = false ∧ Close m = Block m
  ∧ forall pick, readLoop_iter read_err pick m = Block m.

(** The stream [s] was built for the ID [id]: it carries that ID and its
    two closures captured it. *)
Definition built_for (id : Z) (s : stream.Stream) : Prop :=
  stream.ID s = id
  ∧ stream.writeFn s = stream.makeWriteFn_of id
  ∧ stream.closeFn s = Some (stream.makeCloseFn_of id).

(** Every entry of the registry points to a stream object built for the
    ID it is registered under. *)
Definition registry_ok (m : Mux) : Prop :=
  forall id r, streams m !! id = Some r ->
    exists s, heap m !! r = Some s ∧ built_for id s.

(** From [m] to [m'] stream objects are kept, and an entry of the registry
    is an entry it had or points to a stream built for its ID. *)
Definition registry_step (m m' : Mux) : Prop :=
  heap_grows m m'
  ∧ forall id r, streams m' !! id = Some r ->
      streams m !! id = Some r
      ∨ exists s, heap m' !! r = Some s ∧ built_for id s.

(** A frame that [DecodeFrame] can return: a known type, a 32-bit stream
    ID and a payload within the limit. *)
Definition well_formed (f : Frame) : Prop :=
  1 <= Z_of_byte (Type_ f) <= 5
  ∧ 0 <= StreamID f < 2 ^ 32
  ∧ Z.of_nat (length (Payload f)) <= MaxPayloadSize.

(** [Write] called on the stream [r] once for each buffer of [ps]. *)
Definition writes (r : nat) (ps : list nat) (pick : nat) : list call :=
  map (fun p => call_Write r p pick) ps.

(** The reader task receiving one [DATA] frame of the stream [id] per
    payload. *)
Definition data_frames (id : Z) (payloads : list (list byte)) (pick : nat)
  : list (conn_read * nat) :=
  map (fun payload => (read_msg (data_frame id payload), pick)) payloads.

(** The stream object at [r'] is the same in [m'] as in [m]. *)
Definition untouched (r' : nat) (m m' : Mux) : Prop :=
  heap m' !! r' = heap m !! r'.

End scene.

(** ** tunnel/reconnect.go and cmd/expose.go: the callers of the mux *)

Module tunnel.
Import mux.

Definition Second : Z := 1000000000.    (* [time.Second], in nanoseconds *)
Definition initialBackoff : Z := 1 * Second.
Definition maxBackoff : Z := 30 * Second.
Definition maxAttempts : Z := 10.

(** What [Reconnect] meets at each attempt: whether its [select] takes
    [ctx.Done()] rather than the timer, and whether [dialRelay] succeeds. *)
Record world : Type := mkWorld {
  cancelled : Z -> bool;
  dial_ok : Z -> bool
}.

Inductive reconnected : Type :=
| Connected (attempt : Z)       (* the connection of that attempt, nil *)
| Cancelled                     (* nil, [ctx.Err()] *)
| GaveUp.                       (* nil, "unable to reconnect after 10 attempts" *)

(** The two statements that end a failed attempt: [backoff *= 2], capped
    at [maxBackoff]. *)
Definition next_backoff (backoff : Z) : Z :=
  let backoff := backoff * 2 in
  if backoff >? maxBackoff then maxBackoff else backoff.

(** The loop of [Reconnect] from the test of [attempt <= maxAttempts] on;
    [waits] logs the timers that fired, in order.  [None]: out of fuel. *)
Fixpoint Reconnect_loop (w : world) (fuel : nat) (attempt backoff : Z)
  (waits : list Z) : option (reconnected * list Z) :=
  match fuel with
  | O => None
  | S fuel' =>
      if attempt <=? maxAttempts then
        if cancelled w attempt then Some (Cancelled, waits)
        else
          let waits := waits ++ [backoff] in
          if dial_ok w attempt then Some (Connected attempt, waits)
          else Reconnect_loop w fuel' (attempt + 1) (next_backoff backoff) waits
      else Some (GaveUp, waits)
  end.

Definition Reconnect (w : world) (fuel : nat) : option (reconnected * list Z) :=
  Reconnect_loop w fuel 1 initialBackoff [].

(** The waits of ten failed attempts, in seconds. *)
Definition backoff_schedule : list Z :=
  map (fun s => s * Second) [1; 2; 4; 8; 16; 30; 30; 30; 30; 30].

(** The waits of [n] failed attempts in a row, the first one being
    [backoff]. *)
Fixpoint backoffs_from (backoff : Z) (n : nat) : list Z :=
  match n with
  | O => []
  | S n' => backoff :: backoffs_from (next_backoff backoff) n'
  end.

(** The attempts from [a] to [k - 1] all waited for their timer and failed
    to dial. *)
Definition failed_between (w : world) (a k : Z) : Prop :=
  forall j, a <= j < k -> cancelled w j = false ∧ dial_ok w j = false.

(** The goroutines that [acceptStreams] starts. *)
Inductive forward : Type :=
| ForwardHTTP (s : nat)
| ForwardTCP (s : nat).

(** How a call of [acceptStreams] ends. *)
Inductive accept_end : Type :=
| Exit (code : Z)
| Parked
| Crashed
| OutOfFuel.

(** [acceptStreams(ctx, mux, ..., proto, ...)]: how it ends, the forwarders
    it started, in order, and the state of the mux. *)
Fixpoint acceptStreams (fuel : nat) (ctx_done : bool) (proto : string)
  (picks : nat -> nat) (m : Mux) : accept_end * list forward * Mux :=
  match fuel with
  | O => (OutOfFuel, [], m)
  | S fuel' =>
      match AcceptStream ctx_done (picks fuel') m with
      | Block m' => (Parked, [], m')
      | Panic m' => (Crashed, [], m')
      | Ret (_, Some _) m' => (Exit (if ctx_done then 0 else 2), [], m')
      | Ret (None, None) m' => (Crashed, [], m')   (* a nil stream *)
      | Ret (Some s, None) m' =>
          let started :=
            if String.eqb proto "http" then [ForwardHTTP s]
            else if String.eqb proto "tcp" then [ForwardTCP s]
            else [] in
          let '(e, fs, m'') := acceptStreams fuel' ctx_done proto picks m' in
          (e, started ++ fs, m'')
      end
  end.

(** The forwarders that the [switch proto] starts for the streams [ss]. *)
Definition starts (proto : string) (ss : list nat) : list forward :=
  if String.eqb proto "http" then map ForwardHTTP ss
  else if String.eqb proto "tcp" then map ForwardTCP ss
  else [].

(** The mux after the first [n] streams of its accept queue have been
    taken. *)
Definition taken (n : nat) (m : Mux) : Mux :=
  set_acceptCh (mkChan (drop n (buf (acceptCh m))) (cap (acceptCh m))
                       (chclosed (acceptCh m))) m.

(** How one turn of the loop of [runTunnelLoop] ends. *)
Inductive loop_step : Type :=
| Return_nil                    (* [return nil] *)
| Exit_2                        (* [os.Exit(2)] *)
| Again (attempt : Z)           (* [conn = newConn], next turn *)
| Hang                          (* [mux.Close] has not returned *)
| Crash.                        (* a panic *)

(** The fuel that [Reconnect] is run with: one more than [maxAttempts]. *)
Definition reconnect_fuel : nat := S (Z.to_nat maxAttempts).

(** [conn.Close] called by the owner of the connection: recorded in the
    connection like the one of the mux. *)
Definition conn_Close (m : Mux) : Mux :=
  set_conn (mkConn (sent (conn m)) (broken (conn m)) true) m.

(** The turn of [runTunnelLoop] from the return of [acceptStreams] on.
    [reconnect_off] is [noReconnect || (cliCfg.AutoReconnect != nil &&
    !*cliCfg.AutoReconnect)].  The other tasks (the reader task, the writer
    task, the forwarders) go on meanwhile: [between] are the calls they make
    between [conn.Close] and [mux.Close], and [during] the calls they make
    while [mux.Close] waits for the reader task.  The best-effort
    [StopTunnel] request and the messages printed are left out. *)
Definition after_accept (exitCode : Z) (reconnect_off : bool) (w : world)
  (between during : list call) (m : Mux) : loop_step * Mux :=
  if exitCode =? 0 then
    match Close_during during (exec between (conn_Close m)) with
    | Ret _ m' => (Return_nil, m')
    | Block m' => (Hang, m')
    | Panic m' => (Crash, m')
    end
  else
    match Close_during during m with
    | Ret _ m' =>
        if reconnect_off then (Exit_2, m')
        else
          match Reconnect w reconnect_fuel with
          | Some (Connected k, _) => (Again k, m')
          | Some (_, _) => (Exit_2, m')
          | None => (Hang, m')      (* out of fuel: does not occur *)
          end
    | Block m' => (Hang, m')
    | Panic m' => (Crash, m')
    end.

(** The state in which [runTunnelLoop] calls [mux.Close]. *)
Definition at_Close (exitCode : Z) (between : list call) (m : Mux) : Mux :=
  if exitCode =? 0 then exec between (conn_Close m) else m.

End tunnel.

(* ================================================================== *)
(** * Part II: the properties *)
(* ================================================================== *)

(** ** Bytes and words *)

Lemma Z_of_byte_range b : 0 <= Z_of_byte b < 256.
Proof.
  unfold Z_of_byte. pose proof (Byte.to_N_bounded b). lia.
Qed.

Lemma byte_of_Z_of_byte b : byte_of_Z (Z_of_byte b) = b.
Proof.
  unfold byte_of_Z. pose proof (Z_of_byte_range b) as Hb.
  rewrite Z.mod_small by lia. unfold Z_of_byte.
  rewrite N2Z.id, Byte.of_to_N. reflexivity.
Qed.

Lemma Z_of_byte_of_Z v : Z_of_byte (byte_of_Z v) = v mod 256.
Proof.
  unfold byte_of_Z, Z_of_byte.
  assert (Hr : 0 <= v mod 256 < 256) by (apply Z.mod_pos_bound; lia).
  destruct (Byte.of_N (Z.to_N (v mod 256))) as [b|] eqn:E.
  - apply Byte.to_of_N in E. rewrite E. lia.
  - apply Byte.of_N_None_iff in E. lia.
Qed.

Lemma testbit_byte_field x k n :
  0 <= k -> 0 <= n ->
  Z.testbit ((x mod 2 ^ 8) ≪ k) n =
  (k <=? n) && (n <? k + 8) && Z.testbit x (n - k).
Proof.
  intros Hk Hn. rewrite Z.shiftl_spec by lia.
  destruct (Z.leb_spec k n); simpl.
  - destruct (Z.ltb_spec n (k + 8)); simpl.
    + apply Z.mod_pow2_bits_low. lia.
    + apply Z.mod_pow2_bits_high. lia.
  - apply Z.testbit_neg_r. lia.
Qed.

Lemma Uint32_PutUint32 v : 0 <= v < 2 ^ 32 -> Uint32 (PutUint32 v) = v.
Proof.
  intros Hv. unfold PutUint32, Uint32. rewrite !Z_of_byte_of_Z.
  change 256 with (2 ^ 8).
  rewrite <- (Z.shiftl_0_r (v mod 2 ^ 8)).
  apply Z.bits_inj'. intros n Hn.
  rewrite !Z.lor_spec, !testbit_byte_field by lia.
  destruct (Z.ltb_spec n 32) as [Hlt|Hge].
  - destruct (Z.leb_spec 8 n), (Z.leb_spec 16 n), (Z.leb_spec 24 n),
      (Z.leb_spec 0 n), (Z.ltb_spec n (0 + 8)), (Z.ltb_spec n (8 + 8)),
      (Z.ltb_spec n (16 + 8)), (Z.ltb_spec n (24 + 8)); try lia; simpl;
      rewrite ?orb_false_r; rewrite ?Z.shiftr_spec by lia; f_equal; lia.
  - replace (Z.testbit v n) with false.
    + destruct (Z.ltb_spec n (0 + 8)), (Z.ltb_spec n (8 + 8)),
        (Z.ltb_spec n (16 + 8)), (Z.ltb_spec n (24 + 8)); try lia;
        rewrite ?andb_false_r; reflexivity.
    + symmetry. destruct (Z.eq_dec v 0) as [->|Hz]; [apply Z.bits_0|].
      apply Z.bits_above_log2; [lia|].
      apply Z.lt_le_trans with 32; [|lia].
      apply Z.log2_lt_pow2; lia.
Qed.

(** ** The frame codec *)

Section Codec.
Import FrameCodec.

Lemma ReadFull_app (l rest : list byte) (a : list Z) :
  ReadFull (length l) (mkDec (l ++ rest) a) = (inl l, mkDec rest a).
Proof.
  unfold ReadFull; cbn [unread allocs].
  rewrite length_app.
  destruct (Nat.leb_spec (length l) (length l + length rest)) as [_|]; [|lia].
  rewrite take_app_length, drop_app_length. reflexivity.
Qed.

Lemma ReadFull_short (n : nat) (d : Dec) :
  (length (unread d) < n)%nat ->
  exists e, ReadFull n d = (inr e, mkDec [] (allocs d)) ∧
            (e = EOF ∨ e = ErrUnexpectedEOF).
Proof.
  intros H. unfold ReadFull.
  destruct (Nat.leb_spec n (length (unread d))); [lia|].
  destruct (unread d); eauto.
Qed.

Lemma ReadFull_enough (n : nat) (d : Dec) :
  (n <= length (unread d))%nat ->
  ReadFull n d = (inl (take n (unread d)), mkDec (drop n (unread d)) (allocs d)).
Proof.
  intros H. unfold ReadFull.
  destruct (Nat.leb_spec n (length (unread d))); [reflexivity|lia].
Qed.

(** Decoding what [EncodeFrame] wrote, whatever follows it in the reader. *)
Lemma DecodeFrame_EncodeFrame_app (f : Frame) (rest : list byte) (a : list Z) :
  1 <= Z_of_byte (Type_ f) <= 5 ->
  0 <= StreamID f < 2 ^ 32 ->
  Z.of_nat (length (Payload f)) <= MaxPayloadSize ->
  DecodeFrame (mkDec (EncodeFrame f ++ rest) a) =
  (inl f, mkDec rest (a ++ [Z.of_nat (length (Payload f))])).
Proof.
  intros Ht Hid Hlen. destruct f as [t id p]; cbn [Type_ StreamID Payload] in *.
  assert (Hmax : MaxPayloadSize < 2 ^ 32) by (unfold MaxPayloadSize; lia).
  unfold EncodeFrame; cbn [Type_ StreamID Payload].
  set (n := Z.of_nat (length p)) in *.
  assert (Hu : uint32 n = n) by (unfold uint32; apply Z.mod_small; lia).
  rewrite Hu.
  set (hdr := [t] ++ PutUint32 id ++ PutUint32 n).
  replace (([t] ++ PutUint32 id ++ PutUint32 n ++ p) ++ rest)
    with (hdr ++ (p ++ rest))
    by (unfold hdr; rewrite <- !app_assoc; reflexivity).
  unfold DecodeFrame.
  change frameHeaderSize with (length hdr).
  rewrite ReadFull_app.
  change (nth 0 hdr x00) with t.
  change (take 4 (drop 1 hdr)) with (PutUint32 id).
  change (take 4 (drop 5 hdr)) with (PutUint32 n).
  rewrite !Uint32_PutUint32 by lia.
  change (Z_of_byte FrameOpenStream) with 1.
  change (Z_of_byte FramePong) with 5.
  destruct (Z.ltb_spec (Z_of_byte t) 1); [lia|].
  destruct (Z.gtb_spec (Z_of_byte t) 5); [lia|].
  destruct (Z.gtb_spec n MaxPayloadSize); [lia|].
  cbn [orb]. unfold make_payload; cbn [unread allocs].
  destruct (Z.gtb_spec n 0) as [Hpos|Hzero].
  - unfold n at 1. rewrite Nat2Z.id, ReadFull_app. reflexivity.
  - destruct p; [reflexivity|]. cbn [length] in n. lia.
Qed.

(** C1. For every frame whose type is one of 0x01..0x05, whose stream ID is
    a 32-bit value and whose payload has at most 10 MiB, [DecodeFrame] on the
    bytes of [EncodeFrame] returns the frame itself (same type, same stream
    ID, same payload) and no error; the reader is left empty and the only
    buffer allocated has the length of the payload. *)
Theorem DecodeFrame_EncodeFrame (f : Frame) :
  1 <= Z_of_byte (Type_ f) <= 5 ->
  0 <= StreamID f < 2 ^ 32 ->
  Z.of_nat (length (Payload f)) <= MaxPayloadSize ->
  DecodeFrame (NewReader (EncodeFrame f)) =
  (inl f, mkDec [] [Z.of_nat (length (Payload f))]).
Proof.
  intros Ht Hid Hlen. unfold NewReader.
  rewrite <- (app_nil_r (EncodeFrame f)).
  apply (DecodeFrame_EncodeFrame_app f [] []); assumption.
Qed.

Lemma DecodeFrame_EncodeFrame_witness :
  DecodeFrame (NewReader (EncodeFrame (mkFrame FrameData 42 [x68; x69]))) =
  (inl (mkFrame FrameData 42 [x68; x69]), mkDec [] [2]).
Proof.
  apply (DecodeFrame_EncodeFrame (mkFrame FrameData 42 [x68; x69]));
    vm_compute; intuition discriminate.
Defined.

Lemma DecodeFrame_cases (r : list byte) :
  decode_case r (DecodeFrame (NewReader r)).
Proof.
  unfold DecodeFrame, NewReader.
  destruct (Nat.lt_ge_cases (length r) frameHeaderSize) as [Hs|Hl].
  { destruct (ReadFull_short frameHeaderSize (mkDec r [])) as (e & -> & He);
      [exact Hs|]. constructor; assumption. }
  assert (Hns : ¬ short_header r) by (unfold short_header; lia).
  rewrite ReadFull_enough by exact Hl. cbn [unread allocs].
  assert (Hty : nth 0 (take frameHeaderSize r) x00 = nth 0 r x00).
  { destruct r; [reflexivity|reflexivity]. }
  assert (Hpl : Uint32 (take 4 (drop 5 (take frameHeaderSize r))) = hdr_len r).
  { unfold hdr_len. rewrite !take_drop_commute, take_take. reflexivity. }
  rewrite Hty, Hpl.
  change (Z_of_byte FrameOpenStream) with 1.
  change (Z_of_byte FramePong) with 5.
  fold (hdr_type r).
  destruct (Z.ltb_spec (hdr_type r) 1) as [Hlo|Hlo]; cbn [orb].
  { apply dc_invalid_type. split; [exact Hl|lia]. }
  destruct (Z.gtb_spec (hdr_type r) 5) as [Hhi|Hhi].
  { apply dc_invalid_type. split; [exact Hl|lia]. }
  assert (Hnt : ¬ invalid_type r) by (intros [_ H]; apply H; lia).
  destruct (Z.gtb_spec (hdr_len r) MaxPayloadSize) as [Hbig|Hsmall].
  { apply dc_too_large; try assumption. split; [exact Hl|lia]. }
  assert (Hnl : ¬ payload_too_large r) by (intros [_ H]; lia).
  unfold make_payload; cbn [unread allocs app].
  destruct (Z.gtb_spec (hdr_len r) 0) as [Hpos|Hzero].
  - destruct (Nat.lt_ge_cases (length (drop frameHeaderSize r))
                              (Z.to_nat (hdr_len r))) as [Hsp|Hen].
    + destruct (ReadFull_short (Z.to_nat (hdr_len r))
                  (mkDec (drop frameHeaderSize r) [hdr_len r]))
        as (e & -> & He); [exact Hsp|].
      apply dc_short_payload; try assumption.
      split; [exact Hl|]. rewrite length_drop in Hsp. lia.
    + rewrite ReadFull_enough by exact Hen. cbn [unread allocs].
      rewrite length_drop in Hen.
      set (f := mkFrame _ _ _).
      assert (Hpf : length (Payload f) = Z.to_nat (hdr_len r)).
      { unfold f; cbn [Payload]. rewrite length_take, length_drop. lia. }
      rewrite drop_drop, <- Hpf.
      apply dc_frame; try assumption. intros [_ H]. lia.
  - set (f := mkFrame _ _ _).
    replace (drop frameHeaderSize r)
      with (drop (frameHeaderSize + length (Payload f)) r)
      by (unfold f; cbn [Payload length]; f_equal; lia).
    apply dc_frame; try assumption. intros [_ H]. lia.
Qed.

(** C2. [DecodeFrame] returns an error exactly when the input is bad in one
    of four ways: short read on the 9-byte header, type byte outside
    0x01..0x05, declared payload length above 10 MiB, short read on the
    payload.  When the error is the invalid type or the payload too large,
    exactly the 9 header bytes have been taken from the reader and no payload
    buffer has been allocated; and no call ever allocates a payload buffer
    longer than 10 MiB. *)
Theorem DecodeFrame_errors (r : list byte) :
  let res := DecodeFrame (NewReader r) in
  ((exists e, res.1 = inr e) <->
   short_header r ∨ invalid_type r ∨ payload_too_large r ∨ short_payload r)
  ∧ (forall e, res.1 = inr e ->
       root_error e = ErrInvalidFrame ∨ root_error e = ErrPayloadTooLarge ->
       (invalid_type r ∨ payload_too_large r)
       ∧ consumed (NewReader r) res.2 = frameHeaderSize
       ∧ allocs res.2 = [])
  ∧ (invalid_type r -> exists e, res.1 = inr e ∧ root_error e = ErrInvalidFrame)
  ∧ (¬ invalid_type r -> payload_too_large r ->
       exists e, res.1 = inr e ∧ root_error e = ErrPayloadTooLarge)
  ∧ Forall (fun n => n <= MaxPayloadSize) (allocs res.2).
Proof.
  cbv zeta.
  destruct (DecodeFrame_cases r)
    as [e Hs He|Ht|Hns Hnt Hl|e Hns Hnt Hnl Hp He|f Hns Hnt Hnl Hnp];
    cbn [fst snd allocs unread];
    (split; [|split; [|split; [|split]]]).
  - split; eauto.
  - intros e' [= <-] [H|H]; destruct He; subst; discriminate.
  - intros [Hl _]. unfold short_header in Hs. lia.
  - intros _ [Hl _]. unfold short_header in Hs. lia.
  - constructor.
  - split; eauto.
  - intros e' _ _. destruct Ht as [Hl Ht]. split; [left; split; assumption|].
    split; [|reflexivity].
    unfold consumed, NewReader; cbn [unread]. rewrite length_drop. lia.
  - eauto.
  - contradiction.
  - constructor.
  - split; eauto.
  - intros e' _ _. split; [right; assumption|]. split; [|reflexivity].
    destruct Hl as [Hlen _].
    unfold consumed, NewReader; cbn [unread]. rewrite length_drop. lia.
  - contradiction.
  - eauto.
  - constructor.
  - split; eauto.
  - intros e' [= <-] [H|H]; destruct He; subst; discriminate.
  - contradiction.
  - contradiction.
  - constructor; [|constructor]. unfold payload_too_large in Hnl.
    destruct Hp as [Hl _]. lia.
  - split; [intros [e He]; discriminate|].
    intros [H|[H|[H|H]]]; contradiction.
  - discriminate.
  - contradiction.
  - contradiction.
  - constructor; [|constructor]. unfold payload_too_large in Hnl.
    unfold short_header in Hns. lia.
Qed.

End Codec.

(** ** [select] *)

Lemma select_first_only {A} (b : bool) (x y : A) (pick : nat) :
  select [(b, x); (false, y)] pick = if b then Some x else None.
Proof.
  unfold select. destruct b; cbn [List.filter fst length]; [|reflexivity].
  rewrite Nat.mod_1_r. reflexivity.
Qed.

Lemma select_second_only {A} (b : bool) (x y : A) (pick : nat) :
  select [(false, x); (b, y)] pick = if b then Some y else None.
Proof.
  unfold select. destruct b; cbn [List.filter fst length]; [|reflexivity].
  rewrite Nat.mod_1_r. reflexivity.
Qed.

Lemma select_both {A} (x y : A) (pick : nat) :
  select [(true, x); (true, y)] pick = Some x ∨
  select [(true, x); (true, y)] pick = Some y.
Proof.
  unfold select; cbn [List.filter fst length].
  pose proof (Nat.mod_upper_bound pick 2 ltac:(lia)) as H.
  destruct (pick mod 2)%nat as [|[|k]]; cbn; [auto|auto|lia].
Qed.

(** What [select] takes is one of the ready cases. *)
Lemma select_Some {A} (cases : list (bool * A)) (pick : nat) (a : A) :
  select cases pick = Some a -> In (true, a) cases.
Proof.
  unfold select. intros H.
  destruct (List.filter fst cases !! (pick mod _)%nat) as [[b x]|] eqn:E;
    [|discriminate].
  cbn in H. injection H as ->.
  apply list_elem_of_lookup_2, list_elem_of_In, filter_In in E.
  destruct E as [E Hb]. cbn in Hb. subst b. exact E.
Qed.

(** [select] parks only when no case is ready. *)
Lemma select_None {A} (cases : list (bool * A)) (pick : nat) :
  select cases pick = None -> forall a, ¬ In (true, a) cases.
Proof.
  unfold select. intros H a Hin.
  assert (Hf : In (true, a) (List.filter fst cases))
    by (apply filter_In; split; [exact Hin|reflexivity]).
  destruct (List.filter fst cases) as [|c l] eqn:E; [destruct Hf|].
  assert (Hlt : (pick mod length (c :: l) < length (c :: l))%nat)
    by (apply Nat.mod_upper_bound; discriminate).
  apply lookup_lt_is_Some_2 in Hlt. destruct Hlt as [y Hy].
  rewrite Hy in H. discriminate.
Qed.

(** ** Streams *)

Section StreamProps.
Import stream.

Lemma pushData_open (data : list byte) (pick : nat) (s : Stream) :
  closed s = false -> chclosed (dataCh s) = false ->
  pushData data pick s =
  if (length (buf (dataCh s)) <? cap (dataCh s))%nat
  then Ret tt (set_dataCh (mkChan (buf (dataCh s) ++ [data]) (cap (dataCh s)) false) s)
  else Block s.
Proof.
  intros Hc Hd. unfold pushData, send_ready, chan_send.
  rewrite Hc, Hd, select_first_only. cbn [orb].
  destruct (_ <? _)%nat; reflexivity.
Qed.

Lemma take_min_length {A} (n : nat) (l : list A) :
  take (Nat.min n (length l)) l = take n l.
Proof.
  destruct (Nat.le_gt_cases n (length l)).
  - rewrite Nat.min_l by lia. reflexivity.
  - rewrite Nat.min_r by lia. rewrite (take_ge l n) by lia. apply firstn_all.
Qed.

Lemma drop_min_length {A} (n : nat) (l : list A) :
  drop (Nat.min n (length l)) l = drop n l.
Proof.
  destruct (Nat.le_gt_cases n (length l)).
  - rewrite Nat.min_l by lia. reflexivity.
  - rewrite Nat.min_r by lia. rewrite (drop_ge l n) by lia. apply drop_all.
Qed.

Lemma Read_open (lenp pick : nat) (s : Stream) :
  closed s = false -> chclosed (dataCh s) = false ->
  Read lenp pick s =
  match readBuf s, buf (dataCh s) with
  | _ :: _, _ =>
      Ret (take lenp (readBuf s), None) (set_readBuf (drop lenp (readBuf s)) s)
  | [], data :: rest =>
      Ret (take lenp data, None)
          (set_readBuf (drop lenp data)
             (set_dataCh (mkChan rest (cap (dataCh s)) false) s))
  | [], [] => Block s
  end.
Proof.
  intros Hc Hd. unfold Read, copy_len.
  rewrite take_min_length, drop_min_length.
  destruct (readBuf s) as [|b bs] eqn:Hb; cbn [length Nat.ltb Nat.leb];
    [|reflexivity].
  unfold recv_ready, chan_recv.
  rewrite Hc, Hd, select_first_only. cbn [orb].
  destruct (buf (dataCh s)) as [|data rest] eqn:Hq; [reflexivity|].
  cbn [length Nat.ltb Nat.leb]. unfold deliver, copy_len.
  rewrite take_min_length, drop_min_length.
  destruct (Nat.ltb_spec (Nat.min lenp (length data)) (length data)) as [Hlt|Hge];
    [reflexivity|].
  rewrite (drop_ge data lenp) by lia.
  unfold set_readBuf, set_dataCh; cbn. rewrite Hb. reflexivity.
Qed.

Lemma run_app (cs1 cs2 : list call) (s s1 s2 : Stream) rs1 rs2 :
  run cs1 s = Some (rs1, s1) -> run cs2 s1 = Some (rs2, s2) ->
  run (cs1 ++ cs2) s = Some (rs1 ++ rs2, s2).
Proof.
  revert s rs1. induction cs1 as [|c cs1 IH]; intros s rs1 H1 H2.
  - injection H1 as <- <-. exact H2.
  - cbn [app run] in *. destruct c as [data pick|lenp pick].
    + destruct (pushData data pick s) as [[] s0|s0|s0]; try discriminate.
      eapply IH; eassumption.
    + destruct (Read lenp pick s) as [r s0|s0|s0]; try discriminate.
      destruct (run cs1 s0) as [[rs0 s0']|] eqn:E; [|discriminate].
      injection H1 as <- <-.
      rewrite (IH s0 rs0 E H2). reflexivity.
Qed.

(** On an open stream, the bytes read so far followed by the bytes still
    held are the payloads delivered so far, in order. *)
Lemma run_order (cs : list call) :
  forall (s s' : Stream) rs,
    closed s = false -> chclosed (dataCh s) = false ->
    run cs s = Some (rs, s') ->
    delivered rs ++ pending s' = pending s ++ concat (pushed cs)
    ∧ Forall (fun r => r.2 = None) rs
    ∧ closed s' = false ∧ chclosed (dataCh s') = false.
Proof.
  induction cs as [|c cs IH]; intros s s' rs Hc Hd Hrun.
  - injection Hrun as <- <-. unfold delivered; cbn.
    rewrite app_nil_r. auto.
  - cbn [run] in Hrun. destruct c as [data pick|lenp pick].
    + rewrite pushData_open in Hrun by assumption.
      destruct (_ <? _)%nat; [|discriminate].
      apply IH in Hrun; [|assumption|reflexivity].
      destruct Hrun as (Heq & Hn & Hc' & Hd'). repeat split; try assumption.
      rewrite Heq. unfold pending, pushed; cbn.
      rewrite concat_app; cbn. rewrite app_nil_r, <- !app_assoc. reflexivity.
    + rewrite Read_open in Hrun by assumption.
      destruct (readBuf s) as [|b bs] eqn:Hb.
      * destruct (buf (dataCh s)) as [|data rest] eqn:Hq; [discriminate|].
        destruct (run cs _) as [[rs0 s0]|] eqn:E; [|discriminate].
        injection Hrun as <- <-.
        apply IH in E; [|assumption|reflexivity].
        destruct E as (Heq & Hn & Hc' & Hd'). repeat split; try assumption.
        -- unfold delivered in *; cbn [map concat fst].
           rewrite <- app_assoc, Heq. unfold pending; cbn.
           rewrite Hb, Hq; cbn.
           rewrite !app_assoc, take_drop. reflexivity.
        -- constructor; [reflexivity|assumption].
      * destruct (run cs _) as [[rs0 s0]|] eqn:E; [|discriminate].
        injection Hrun as <- <-.
        apply IH in E; [|assumption|assumption].
        destruct E as (Heq & Hn & Hc' & Hd'). repeat split; try assumption.
        -- unfold delivered in *; cbn [map concat fst].
           rewrite <- app_assoc, Heq. unfold pending; cbn.
           rewrite Hb. rewrite !app_assoc, take_drop. reflexivity.
        -- constructor; [reflexivity|assumption].
Qed.

(** Reading with buffers that are not empty drains an open stream: the
    calls return, and give every byte the stream holds. *)
Lemma reads_drain (sizes picks : nat -> nat) :
  (forall k, (0 < sizes k)%nat) ->
  forall (n : nat) (s : Stream) (from : nat),
    closed s = false -> chclosed (dataCh s) = false ->
    (backlog s <= n)%nat ->
    exists k rs s',
      run (reads sizes picks from k) s = Some (rs, s')
      ∧ delivered rs = pending s ∧ pending s' = [] ∧ buf (dataCh s') = [].
Proof.
  intros Hpos. induction n as [|n IH]; intros s from Hc Hd Hn.
  - exists 0%nat, [], s. unfold backlog in Hn.
    destruct (readBuf s) eqn:Hb; [|cbn in Hn; lia].
    destruct (buf (dataCh s)) eqn:Hq; [|cbn in Hn; lia].
    unfold pending, delivered. rewrite Hb, Hq. auto.
  - destruct (readBuf s) as [|b bs] eqn:Hb.
    + destruct (buf (dataCh s)) as [|data rest] eqn:Hq.
      * exists 0%nat, [], s. unfold pending, delivered. rewrite Hb, Hq. auto.
      * pose proof (Read_open (sizes from) (picks from) s Hc Hd) as HR.
        rewrite Hb, Hq in HR.
        set (s1 := set_readBuf _ _) in HR.
        destruct (IH s1 (S from)) as (k & rs & s' & Hrun & Hdel & Hp & Hq');
          [exact Hc|reflexivity| |].
        { unfold backlog in *. rewrite Hb, Hq in Hn. cbn in Hn |- *.
          rewrite length_app in Hn. rewrite length_drop. lia. }
        exists (S k), ((take (sizes from) data, None) :: rs), s'.
        split; [|split; [|split]]; try assumption.
        -- unfold reads in *; cbn [seq map run]. rewrite HR, Hrun. reflexivity.
        -- unfold delivered in *; cbn [map concat fst]. rewrite Hdel.
           unfold pending. rewrite Hb, Hq; cbn.
           rewrite app_assoc, take_drop. reflexivity.
    + pose proof (Read_open (sizes from) (picks from) s Hc Hd) as HR.
      rewrite Hb in HR. rewrite <- Hb in HR.
      set (s1 := set_readBuf _ _) in HR.
      destruct (IH s1 (S from)) as (k & rs & s' & Hrun & Hdel & Hp & Hq');
        [assumption|assumption| |].
      { unfold backlog in *. cbn. rewrite length_drop.
        specialize (Hpos from). rewrite Hb in *. cbn [length] in *. lia. }
      exists (S k), ((take (sizes from) (readBuf s), None) :: rs), s'.
      split; [|split; [|split]]; try assumption.
      * unfold reads in *; cbn [seq map run]. rewrite HR, Hrun. reflexivity.
      * unfold delivered in *; cbn [map concat fst]. rewrite Hdel.
        unfold pending; cbn. rewrite app_assoc, take_drop. reflexivity.
Qed.

(** C3. On a stream that stays open, whatever payloads the reader task
    delivers with [pushData], however the [Read] calls are interleaved with
    them and whatever their buffer sizes: no [Read] returns an error, and the
    bytes the [Read] calls returned, followed by the bytes the stream still
    holds, are the concatenation of the payloads in the order of delivery
    (the leftover of a payload comes out before the next payload).  Reading
    on with buffers that are not empty, of any sizes, returns the rest: the
    bytes read are then exactly the concatenation of the payloads. *)
Theorem Read_concat_pushData (id : Z) (w : writeFn_t) (c : option closeFn_t)
  (cs : list call) rs (s' : Stream) :
  run cs (newStream id w c) = Some (rs, s') ->
  delivered rs ++ pending s' = concat (pushed cs)
  ∧ Forall (fun r => r.2 = None) rs
  ∧ (pending s' = [] -> delivered rs = concat (pushed cs))
  ∧ forall sizes picks : nat -> nat,
      (forall k, (0 < sizes k)%nat) ->
      exists k rs' s'',
        run (cs ++ reads sizes picks 0 k) (newStream id w c) = Some (rs ++ rs', s'')
        ∧ delivered (rs ++ rs') = concat (pushed cs)
        ∧ pending s'' = [].
Proof.
  intros Hrun.
  destruct (run_order cs (newStream id w c) s' rs eq_refl eq_refl Hrun)
    as (Heq & Hn & Hc & Hd).
  change (pending (newStream id w c)) with (@nil byte) in Heq. cbn [app] in Heq.
  split; [exact Heq|]. split; [exact Hn|]. split.
  - intros Hp. rewrite Hp, app_nil_r in Heq. exact Heq.
  - intros sizes picks Hpos.
    destruct (reads_drain sizes picks Hpos (backlog s') s' 0%nat Hc Hd (le_n _))
      as (k & rs' & s'' & Hrun' & Hdel & Hp & _).
    exists k, rs', s''. split; [|split]; [| |exact Hp].
    + eapply run_app; eassumption.
    + unfold delivered in *. rewrite map_app, concat_app, Hdel. exact Heq.
Qed.

Lemma Read_concat_pushData_witness :
  let s0 := newStream 1 (makeWriteFn_of 1) None in
  let cs := [call_pushData [x61; x62; x63] 0; call_Read 2 0;
             call_pushData [x64] 1; call_Read 2 0; call_Read 2 1] in
  let rs := [([x61; x62], None); ([x63], None); ([x64], None)] in
  run cs s0 = Some (rs, s0)
  ∧ delivered rs ++ pending s0 = concat (pushed cs).
Proof.
  cbv zeta.
  assert (Hrun : run [call_pushData [x61; x62; x63] 0; call_Read 2 0;
                      call_pushData [x64] 1; call_Read 2 0; call_Read 2 1]
                     (newStream 1 (makeWriteFn_of 1) None)
                 = Some ([([x61; x62], None); ([x63], None); ([x64], None)],
                         newStream 1 (makeWriteFn_of 1) None))
    by (vm_compute; reflexivity).
  split; [exact Hrun|].
  exact (proj1 (Read_concat_pushData 1 (makeWriteFn_of 1) None _ _ _ Hrun)).
Defined.

Lemma stream_le_refl (s : Stream) : stream_le s s.
Proof. repeat split. auto. Qed.

Lemma stream_le_trans (a b c : Stream) :
  stream_le a b -> stream_le b c -> stream_le a c.
Proof.
  intros (? & ? & ? & ?) (? & ? & ? & ?). repeat split; try congruence. auto.
Qed.

Lemma Read_le (lenp pick : nat) (s : Stream) :
  stream_le s (state_of (Read lenp pick s)).
Proof.
  unfold Read, deliver.
  repeat match goal with
         | |- context [if ?b then _ else _] => destruct b
         | |- context [match select ?c ?p with _ => _ end] =>
             destruct (select c p) as [[]|]
         | |- context [match chan_recv ?c with _ => _ end] =>
             destruct (chan_recv c) as [[?|] ?]
         end; cbn; repeat split; auto.
Qed.

Lemma pushData_le (data : list byte) (pick : nat) (s : Stream) :
  stream_le s (state_of (pushData data pick s)).
Proof.
  unfold pushData. destruct (select _ pick) as [[]|]; try apply stream_le_refl.
  destruct (chan_send _ _); cbn; repeat split; auto.
Qed.

Lemma close_closed_le (s : Stream) : stream_le s (state_of (close_closed s)).
Proof.
  unfold close_closed. destruct (closed s); cbn; repeat split; auto.
Qed.

Lemma closeRead_le (s : Stream) : stream_le s (state_of (closeRead s)).
Proof.
  unfold closeRead, bind, close_closed.
  destruct (closeOnce s); try apply stream_le_refl.
  cbn. destruct (closed s); cbn; repeat split; auto.
Qed.

Lemma set_closeOnce_le (v : once_state) (s : Stream) :
  stream_le s (set_closeOnce v s).
Proof. repeat split. auto. Qed.

End StreamProps.

(** ** [OpenStream] as one sequence of steps *)

Section OpenStreamSteps.
Import FrameCodec mux.

(** The two sections of [OpenStream] one after the other. *)
Lemma OpenStream_steps (pick : nat) (m : Mux) :
  OpenStream pick m =
  if closed m then Ret (None, Some ErrMuxClosed) m
  else if (maxStreams m >? 0) && (Z.of_nat (size (streams m)) >=? maxStreams m)
  then Ret (None, Some ErrTooManyStreams) m
  else
    let id := nextID m in
    (do _ <- modify (set_nextID (uint32 (nextID m + 2))) ;;
     do s <- alloc_stream (new_mux_stream id) ;;
     do _ <- modify (fun m => set_streams (<[id := s]> (streams m)) m) ;;
     do frame <- encode FrameOpenStream id None ;;
     do err <- writeWS frame pick ;;
     match err with
     | Some e =>
         do _ <- removeStream id ;;
         ret (None, Some (Wrapped (OpeningStream id) e))
     | None => ret (Some s, None)
     end) m.
Proof.
  unfold OpenStream. destruct (closed m); [reflexivity|].
  unfold bind at 1, OpenStream_admit.
  destruct (_ && _); reflexivity.
Qed.

End OpenStreamSteps.

(** ** The mux: what the calls leave alone *)

Section Stable.
Import FrameCodec mux.

(** A relation between the state before a call and the state it reaches
    (returning, parked or panicking) that holds across every step that
    writes the fields listed below. *)
Variable R : Mux -> Mux -> Prop.
Hypothesis R_refl : forall m, R m m.
Hypothesis R_trans : forall a b c, R a b -> R b c -> R a c.
Hypothesis R_mem : forall m c, R m (set_mem (mem m ++ [c]) m).
Hypothesis R_alloc : forall m s, R m (set_heap (heap m ++ [s]) m).
Hypothesis R_stream : forall m r s s',
  heap m !! r = Some s -> stream.stream_le s s' ->
  R m (set_heap (<[r := s']> (heap m)) m).
Hypothesis R_conn : forall m v,
  (conn_closed (conn m) = true -> conn_closed v = true) ->
  R m (set_conn v m).
Hypothesis R_streams : forall m v, R m (set_streams v m).
Hypothesis R_maxStreams : forall m v, R m (set_maxStreams v m).
Hypothesis R_onPong : forall m v, R m (set_onPong v m).
Hypothesis R_pongCalls : forall m v, R m (set_pongCalls v m).
Hypothesis R_once : forall m v, R m (set_once v m).
Hypothesis R_done : forall m, R m (set_done true m).
Hypothesis R_writeDone : forall m v, R m (set_writeDone v m).
Hypothesis R_closed : forall m, R m (set_closed true m).
Hypothesis R_acceptCh : forall m ch,
  chclosed ch = chclosed (acceptCh m) -> R m (set_acceptCh ch m).
Hypothesis R_writeCh : forall m ch,
  chclosed ch = chclosed (writeCh m) -> R m (set_writeCh ch m).

Local Abbreviation stable := (mux.stable R).

Lemma stable_ret {A} (a : A) : stable (ret a).
Proof. intros m. apply R_refl. Qed.

Lemma stable_bind {A B} (c : M A) (k : A -> M B) :
  stable c -> (forall a, stable (k a)) -> stable (bind c k).
Proof.
  intros Hc Hk m. unfold bind. specialize (Hc m).
  destruct (c m) as [a m'|m'|m']; cbn [state_of] in *; try exact Hc.
  eapply R_trans; [exact Hc|apply Hk].
Qed.

Lemma stable_modify (f : Mux -> Mux) :
  (forall m, R m (f m)) -> stable (modify f).
Proof. intros H m. apply H. Qed.

Lemma stable_alloc_buf content : stable (alloc_buf content).
Proof. intros m. apply R_mem. Qed.

Lemma stable_alloc_stream s : stable (alloc_stream s).
Proof. intros m. apply R_alloc. Qed.

Lemma stable_on_stream {A} r (f : stream.Stream -> outcome stream.Stream A) :
  (forall s, stream.stream_le s (state_of (f s))) ->
  stable (on_stream r f).
Proof.
  intros Hf m. unfold on_stream.
  destruct (heap m !! r) as [s|] eqn:Hs; [|apply R_refl].
  specialize (Hf s).
  destruct (f s); cbn [state_of] in *; apply (R_stream m r s); assumption.
Qed.

Lemma stable_encode t id payload : stable (encode t id payload).
Proof. intros m. apply R_mem. Qed.

Lemma stable_removeStream id : stable (removeStream id).
Proof. intros m. apply R_streams. Qed.

Lemma stable_writeWS data pick : stable (writeWS data pick).
Proof.
  intros m. unfold writeWS.
  destruct (select _ pick) as [[]|]; try apply R_refl.
  unfold chan_send. destruct (chclosed (writeCh m)) eqn:E; [apply R_refl|].
  apply R_writeCh. cbn. congruence.
Qed.

Lemma stable_makeWriteFn id payload pick : stable (makeWriteFn id payload pick).
Proof.
  intros m. unfold makeWriteFn. destruct (closed m); [apply R_refl|].
  apply stable_bind; [apply stable_encode|intros; apply stable_writeWS].
Qed.

Lemma stable_makeCloseFn id pick : stable (makeCloseFn id pick).
Proof.
  unfold makeCloseFn.
  apply stable_bind; [apply stable_encode|intros frame].
  apply stable_bind; [apply stable_writeWS|intros _].
  apply stable_removeStream.
Qed.

Lemma stable_AcceptStream ctx_done pick : stable (AcceptStream ctx_done pick).
Proof.
  intros m. unfold AcceptStream.
  destruct (select _ pick) as [[]|]; try apply R_refl.
  unfold chan_recv. destruct (buf (acceptCh m)); [apply R_refl|].
  apply R_acceptCh. reflexivity.
Qed.

Lemma stable_SendPing pick : stable (SendPing pick).
Proof.
  intros m. unfold SendPing. destruct (closed m); [apply R_refl|].
  apply stable_bind; [apply stable_encode|intros; apply stable_writeWS].
Qed.

Lemma stable_closeRead_all rs : stable (closeRead_all rs).
Proof.
  induction rs as [|r rs IH]; [apply stable_ret|].
  apply stable_bind; [apply stable_on_stream, closeRead_le|intros _; exact IH].
Qed.

Lemma stable_conn_Write data : stable (conn_Write data).
Proof.
  intros m. unfold conn_Write.
  destruct (_ || _); [apply R_refl|apply R_conn; intros H; exact H].
Qed.

Lemma stable_await_writer fw queue : stable (await_writer fw queue).
Proof.
  induction queue as [|data rest IH]; intros m; cbn [await_writer].
  - destruct (writeDone m); [apply R_refl|].
    destruct fw; [apply R_refl|apply R_writeDone].
  - destruct (writeDone m); [apply R_refl|].
    destruct fw; [apply R_refl|].
    match goal with
    | |- R _ (state_of (bind _ _ ?m')) => apply R_trans with m'
    end; [apply R_writeCh; reflexivity|].
    apply stable_bind; [apply stable_conn_Write|].
    intros [|]; [exact IH|]. intros m'. apply R_refl.
Qed.

Lemma stable_handleOpenStream id pick : stable (handleOpenStream id pick).
Proof.
  unfold handleOpenStream.
  apply stable_bind; [apply stable_alloc_stream|intros s].
  apply stable_bind; [apply stable_modify; intros; apply R_streams|intros _].
  intros m. destruct (select _ pick) as [[]|]; try apply R_refl.
  unfold chan_send. destruct (chclosed (acceptCh m)) eqn:E; [apply R_refl|].
  apply R_acceptCh. cbn. congruence.
Qed.

Lemma stable_handleData id payload pick : stable (handleData id payload pick).
Proof.
  intros m. unfold handleData.
  destruct (streams m !! id); [apply stable_on_stream, pushData_le|apply R_refl].
Qed.

Lemma stable_handleCloseStream id : stable (handleCloseStream id).
Proof.
  intros m. unfold handleCloseStream.
  destruct (streams m !! id); [|apply R_refl].
  apply stable_bind;
    [apply stable_on_stream, closeRead_le|intros; apply stable_removeStream].
Qed.

Lemma stable_handlePing pick : stable (handlePing pick).
Proof.
  unfold handlePing.
  apply stable_bind; [apply stable_encode|intros frame].
  apply stable_bind; [apply stable_writeWS|intros; apply stable_ret].
Qed.

Lemma stable_handlePong : stable handlePong.
Proof.
  intros m. unfold handlePong.
  destruct (onPong m); [apply R_pongCalls|apply R_refl].
Qed.

Lemma stable_dispatch f pick : stable (dispatch f pick).
Proof.
  unfold dispatch.
  destruct (Type_ f);
    first [apply stable_ret | apply stable_handleOpenStream
          | apply stable_handleData | apply stable_handleCloseStream
          | apply stable_handlePing | apply stable_handlePong].
Qed.

Lemma stable_Write r p pick : stable (Write r p pick).
Proof.
  intros m. unfold Write.
  destruct (heap m !! r) as [s|]; [|apply R_refl].
  destruct (stream.closed s); [apply R_refl|].
  apply stable_bind; [apply stable_alloc_buf|intros b].
  apply stable_bind.
  - destruct (stream.writeFn s). apply stable_makeWriteFn.
  - intros [e|]; apply stable_ret.
Qed.

Lemma stable_Stream_Close r pick : stable (Stream_Close r pick).
Proof.
  intros m. unfold Stream_Close.
  destruct (heap m !! r) as [s|]; [|apply R_refl].
  destruct (stream.closeOnce s); try apply R_refl.
  apply stable_bind;
    [apply stable_on_stream; intros; apply set_closeOnce_le|intros _].
  apply stable_bind; [apply stable_on_stream, close_closed_le|intros _].
  apply stable_bind.
  - destruct (stream.closeFn s) as [[id]|]; [apply stable_makeCloseFn|apply stable_ret].
  - intros _. apply stable_bind; [|intros; apply stable_ret].
    apply stable_on_stream; intros; apply set_closeOnce_le.
Qed.

Lemma stable_Stream_Read r lenp pick : stable (Stream_Read r lenp pick).
Proof. apply stable_on_stream, Read_le. Qed.

(** [OpenStream] also writes [nextID]. *)
Lemma stable_OpenStream pick :
  (forall m v, R m (set_nextID v m)) -> stable (OpenStream pick).
Proof.
  intros R_nextID m. rewrite OpenStream_steps.
  destruct (closed m); [apply R_refl|].
  destruct (_ && _); [apply R_refl|].
  apply stable_bind; [apply stable_modify; intros; apply R_nextID|intros _].
  apply stable_bind; [apply stable_alloc_stream|intros s].
  apply stable_bind; [apply stable_modify; intros; apply R_streams|intros _].
  apply stable_bind; [apply stable_encode|intros frame].
  apply stable_bind; [apply stable_writeWS|intros [e|]]; [|apply stable_ret].
  apply stable_bind; [apply stable_removeStream|intros; apply stable_ret].
Qed.

(** [shutdown] also closes [acceptCh] and [writeCh]. *)
Section Closing.
Hypothesis R_close_acceptCh : forall m ch, R m (set_acceptCh ch m).
Hypothesis R_close_writeCh : forall m ch, R m (set_writeCh ch m).

Lemma stable_teardown fw : stable (teardown fw).
Proof.
  unfold teardown.
  apply stable_bind; [intros m'; apply stable_closeRead_all|intros _].
  apply stable_bind; [apply stable_modify; intros; apply R_streams|intros _].
  apply stable_bind.
  { intros m'. unfold close_chan. destruct (chan_close _); [|apply R_refl].
    apply R_close_acceptCh. }
  intros _. apply stable_bind.
  { intros m'. unfold close_chan. destruct (chan_close _); [|apply R_refl].
    apply R_close_writeCh. }
  intros _. apply stable_bind; [intros m'; apply stable_await_writer|intros _].
  apply stable_modify; intros; apply R_conn; reflexivity.
Qed.

Lemma stable_shutdown fw : stable (shutdown fw).
Proof.
  intros m. unfold shutdown. destruct (once m); try apply R_refl.
  apply stable_bind; [apply stable_modify; intros; apply R_once|intros _].
  apply stable_bind.
  { intros m'. unfold close_closed. destruct (closed m'); [apply R_refl|apply R_closed]. }
  intros _. apply stable_bind; [apply stable_teardown|intros _].
  apply stable_modify; intros; apply R_once.
Qed.

End Closing.

(** The calls that run [shutdown]. *)
Section Shutdown.
Hypothesis R_shutdown : forall fw, stable (shutdown fw).

Lemma stable_await_done : stable await_done.
Proof. intros m. unfold await_done. destruct (done m); apply R_refl. Qed.

Lemma stable_Close : stable Close.
Proof.
  unfold Close.
  apply stable_bind; [apply R_shutdown|intros _].
  apply stable_bind; [apply stable_await_done|intros _].
  apply stable_ret.
Qed.

Lemma stable_readLoop_iter ev pick : stable (readLoop_iter ev pick).
Proof.
  unfold readLoop_iter. destruct ev as [data|].
  - destruct (_ <? _)%nat; [apply stable_ret|].
    destruct (DecodeFrame _) as [[f|e] d]; [|apply stable_ret].
    intros m. destruct (closed m); [apply R_done|].
    apply stable_bind; [apply stable_dispatch|intros; apply stable_ret].
  - apply stable_bind; [apply R_shutdown|intros _].
    apply stable_bind; [apply stable_modify; intros; apply R_done|intros _].
    apply stable_ret.
Qed.

Lemma stable_writeLoop_iter : stable writeLoop_iter.
Proof.
  intros m. unfold writeLoop_iter, chan_recv.
  destruct (buf (writeCh m)) as [|data rest].
  - destruct (chclosed (writeCh m)); [apply R_writeDone|apply R_refl].
  - match goal with
    | |- R _ (state_of (bind _ _ ?m')) => apply R_trans with m'
    end; [apply R_writeCh; reflexivity|].
    apply stable_bind; [apply stable_conn_Write|intros [|]]; [apply stable_ret|].
    apply stable_bind; [apply R_shutdown|intros _].
    apply stable_bind; [apply stable_modify; intros; apply R_writeDone|intros _].
    apply stable_ret.
Qed.

End Shutdown.

End Stable.

Section Relations.
Import mux.

Lemma keeps_nextID_trans a b c :
  keeps_nextID a b -> keeps_nextID b c -> keeps_nextID a c.
Proof. unfold keeps_nextID. congruence. Qed.

Lemma closed_stays_trans a b c :
  closed_stays a b -> closed_stays b c -> closed_stays a c.
Proof. unfold closed_stays. auto. Qed.

Lemma chans_stay_refl m : chans_stay m m.
Proof. split; [intros H; exact H|auto]. Qed.

Lemma chans_stay_trans a b c :
  chans_stay a b -> chans_stay b c -> chans_stay a c.
Proof.
  intros [H1 H2] [H3 H4]. split; [unfold closed_stays in *; auto|].
  intros Hc. destruct (H4 Hc) as (E1 & E2 & E3).
  assert (Hb : closed b = false).
  { destruct (closed b) eqn:E; [|reflexivity]. rewrite (H3 E) in Hc.
    discriminate. }
  destruct (H2 Hb) as (? & ? & ?). repeat split; congruence.
Qed.

Lemma chans_stay_closed m m' : closed m' = true -> chans_stay m m'.
Proof.
  intros H. split; [intros _; exact H|]. intros H'. congruence.
Qed.

End Relations.

(** The steps common to the three relations. *)
Ltac stable_leaf :=
  intros;
  unfold mux.keeps_nextID, mux.chans_stay, mux.closed_stays in *;
  cbn in *; intuition congruence.

Section Preserved.
Import FrameCodec mux.

(** Every call but [OpenStream] leaves the counter of stream IDs alone. *)
Lemma step_keeps_nextID (c : call) (m : Mux) :
  (forall pick, c <> call_OpenStream pick) ->
  nextID (state_of (step c m)) = nextID m.
Proof.
  intros Hc.
  assert (Hfm : forall A B (f : A -> B) (o : outcome Mux A),
             state_of (fmap_outcome f o) = state_of o)
    by (intros A B f []; reflexivity).
  change (keeps_nextID m (state_of (step c m))).
  destruct c; cbn [step]; rewrite ?Hfm.
  - exfalso. eapply Hc. reflexivity.
  - apply stable_AcceptStream; stable_leaf.
  - apply stable_SendPing; stable_leaf.
  - stable_leaf.
  - stable_leaf.
  - apply stable_Close; try stable_leaf.
    intros fw. apply stable_shutdown; stable_leaf.
  - apply stable_Stream_Read; stable_leaf.
  - apply stable_Write; stable_leaf.
  - apply stable_Stream_Close; stable_leaf.
  - destruct (done m); [reflexivity|]. rewrite Hfm.
    apply stable_readLoop_iter; try stable_leaf.
    intros fw. apply stable_shutdown; stable_leaf.
  - destruct (writeDone m); [reflexivity|]. rewrite Hfm.
    apply stable_writeLoop_iter; try stable_leaf.
    intros fw. apply stable_shutdown; stable_leaf.
  - stable_leaf.
  - stable_leaf.
  - stable_leaf.
Qed.

(** No call reopens the channel [closed]. *)
Lemma step_closed_stays (c : call) (m : Mux) :
  closed m = true -> closed (state_of (step c m)) = true.
Proof.
  assert (Hfm : forall A B (f : A -> B) (o : outcome Mux A),
             state_of (fmap_outcome f o) = state_of o)
    by (intros A B f []; reflexivity).
  change (closed_stays m (state_of (step c m))).
  destruct c; cbn [step]; rewrite ?Hfm.
  - apply stable_OpenStream; stable_leaf.
  - apply stable_AcceptStream; stable_leaf.
  - apply stable_SendPing; stable_leaf.
  - stable_leaf.
  - stable_leaf.
  - apply stable_Close; try stable_leaf.
    intros fw. apply stable_shutdown; stable_leaf.
  - apply stable_Stream_Read; stable_leaf.
  - apply stable_Write; stable_leaf.
  - apply stable_Stream_Close; stable_leaf.
  - destruct (done m); [stable_leaf|]. rewrite Hfm.
    apply stable_readLoop_iter; try stable_leaf.
    intros fw. apply stable_shutdown; stable_leaf.
  - destruct (writeDone m); [stable_leaf|]. rewrite Hfm.
    apply stable_writeLoop_iter; try stable_leaf.
    intros fw. apply stable_shutdown; stable_leaf.
  - stable_leaf.
  - stable_leaf.
  - stable_leaf.
Qed.

Lemma shutdown_chans_stay fw m : chans_stay m (state_of (shutdown fw m)).
Proof.
  unfold shutdown. destruct (once m); try apply chans_stay_refl.
  unfold bind at 1, modify at 1. unfold bind at 1, close_closed.
  cbn [closed set_once]. destruct (closed m) eqn:Hc.
  - cbn [state_of]. stable_leaf.
  - apply chans_stay_closed.
    set (m2 := set_closed true (set_once OnceRunning m)).
    assert (H2 : closed m2 = true) by reflexivity.
    assert (Ht : closed_stays m2 (state_of (teardown fw m2)))
      by (apply stable_teardown; stable_leaf).
    specialize (Ht H2). unfold bind.
    destruct (teardown fw m2) as [[] m3|m3|m3]; cbn [state_of] in *; exact Ht.
Qed.

Lemma step_chans_stay (c : call) (m : Mux) : chans_stay m (state_of (step c m)).
Proof.
  assert (Hfm : forall A B (f : A -> B) (o : outcome Mux A),
             state_of (fmap_outcome f o) = state_of o)
    by (intros A B f []; reflexivity).
  pose proof chans_stay_refl as Hrefl.
  pose proof chans_stay_trans as Htrans.
  pose proof shutdown_chans_stay as Hsh.
  destruct c; cbn [step]; rewrite ?Hfm.
  - apply stable_OpenStream; solve [assumption|stable_leaf].
  - apply stable_AcceptStream; solve [assumption|stable_leaf].
  - apply stable_SendPing; solve [assumption|stable_leaf].
  - stable_leaf.
  - stable_leaf.
  - apply stable_Close; solve [assumption|stable_leaf].
  - apply stable_Stream_Read; solve [assumption|stable_leaf].
  - apply stable_Write; solve [assumption|stable_leaf].
  - apply stable_Stream_Close; solve [assumption|stable_leaf].
  - destruct (done m); [apply Hrefl|]. rewrite Hfm.
    apply stable_readLoop_iter; solve [assumption|stable_leaf].
  - destruct (writeDone m); [apply Hrefl|]. rewrite Hfm.
    apply stable_writeLoop_iter; solve [assumption|stable_leaf].
  - stable_leaf.
  - stable_leaf.
  - stable_leaf.
Qed.

Lemma chans_stay_queues_open m m' :
  chans_stay m m' -> queues_open m -> queues_open m'.
Proof.
  intros [H1 H2] Hq Hc. destruct (H2 Hc) as (-> & -> & ->). apply Hq.
  destruct (closed m) eqn:E; [|reflexivity].
  rewrite (H1 E) in Hc. discriminate.
Qed.

(** In every state that a schedule reaches the queues of an open mux are
    open. *)
Lemma step_queues_open (c : call) (m : Mux) :
  queues_open m -> queues_open (state_of (step c m)).
Proof. apply chans_stay_queues_open, step_chans_stay. Qed.

Lemma NewMux_queues_open b : queues_open (NewMux b).
Proof. intros _. repeat split; reflexivity. Qed.

Lemma exec_queues_open (cs : list call) (m : Mux) :
  queues_open m -> queues_open (exec cs m).
Proof.
  revert m. induction cs as [|c cs IH]; intros m Hm; [exact Hm|].
  apply IH, step_queues_open, Hm.
Qed.

Lemma exec_closed_stays (cs : list call) (m : Mux) :
  closed m = true -> closed (exec cs m) = true.
Proof.
  revert m. induction cs as [|c cs IH]; intros m Hm; [exact Hm|].
  apply IH, step_closed_stays, Hm.
Qed.

(** A buffer changes only when its owner writes into it. *)
Lemma step_keeps_buffer (q : nat) (c : call) (m : Mux) :
  (forall content, c <> call_overwrite q content) ->
  keeps_buffer q m (state_of (step c m)).
Proof.
  intros Hc.
  assert (Hfm : forall A B (f : A -> B) (o : outcome Mux A),
             state_of (fmap_outcome f o) = state_of o)
    by (intros A B f []; reflexivity).
  assert (Hrefl : forall a, keeps_buffer q a a) by (intros a x H; exact H).
  assert (Htrans : forall a b c0, keeps_buffer q a b -> keeps_buffer q b c0 ->
                                  keeps_buffer q a c0)
    by (intros a b c0 H1 H2 x H; apply H2, H1, H).
  assert (Happ : forall a x, keeps_buffer q a (set_mem (mem a ++ [x]) a)).
  { intros a x y H. cbn. rewrite lookup_app_l by (eapply lookup_lt_Some; eauto).
    exact H. }
  assert (Hsame : forall a b, mem b = mem a -> keeps_buffer q a b)
    by (intros a b E x H; rewrite E; exact H).
  assert (Hsh : forall fw, stable (keeps_buffer q) (shutdown fw))
    by (intros fw; apply stable_shutdown; intros;
        solve [auto | apply Hsame; reflexivity | eapply Htrans; eauto]).
  destruct c; cbn [step]; rewrite ?Hfm;
    try (first [apply stable_OpenStream | apply stable_AcceptStream
               | apply stable_SendPing | apply stable_Close
               | apply stable_Stream_Read | apply stable_Write
               | apply stable_Stream_Close];
         intros;
         solve [auto | apply Hsame; reflexivity | eapply Htrans; eauto]).
  - apply Hsame; reflexivity.
  - apply Hsame; reflexivity.
  - destruct (done m); [apply Hrefl|]. rewrite Hfm.
    apply stable_readLoop_iter; intros;
      solve [auto | apply Hsame; reflexivity | eapply Htrans; eauto].
  - destruct (writeDone m); [apply Hrefl|]. rewrite Hfm.
    apply stable_writeLoop_iter; intros;
      solve [auto | apply Hsame; reflexivity | eapply Htrans; eauto].
  - apply Happ.
  - intros x H. cbn [state_of mem set_mem].
    rewrite list_lookup_insert_ne; [exact H|].
    intros ->. eapply Hc. reflexivity.
  - apply Hsame; reflexivity.
Qed.

Lemma exec_keeps_buffer (q : nat) (cs : list call) (m : Mux) :
  leaves_buffer q cs -> keeps_buffer q m (exec cs m).
Proof.
  revert m. induction cs as [|c cs IH]; intros m Hcs; [intros x H; exact H|].
  inversion Hcs as [|? ? Hc Hcs']; subst.
  intros x H. apply (IH _ Hcs'), (step_keeps_buffer q c m Hc), H.
Qed.

(** The frame a parked call has built is still in its buffer when the call
    goes on. *)
Lemma exec_keeps_frame (q : nat) (cs : list call) (m : Mux) :
  (q < length (mem m))%nat -> leaves_buffer q cs ->
  load (exec cs m) q = load m q.
Proof.
  intros Hq Hcs. unfold load.
  destruct (lookup_lt_is_Some_2 (mem m) q Hq) as [x Hx].
  rewrite (exec_keeps_buffer q cs m Hcs x Hx), Hx. reflexivity.
Qed.

Lemma heap_grows_same m m' : heap m' = heap m -> heap_grows m m'.
Proof.
  intros H r s Hs. exists s. rewrite H. split; [exact Hs|].
  apply stream_le_refl.
Qed.

Lemma heap_grows_trans a b c :
  heap_grows a b -> heap_grows b c -> heap_grows a c.
Proof.
  intros H1 H2 r s Hs.
  destruct (H1 r s Hs) as (s1 & Hs1 & Hle1).
  destruct (H2 r s1 Hs1) as (s2 & Hs2 & Hle2).
  exists s2. split; [exact Hs2|]. eapply stream_le_trans; eassumption.
Qed.

Lemma heap_grows_alloc m s : heap_grows m (set_heap (heap m ++ [s]) m).
Proof.
  intros r s0 Hs. exists s0. split; [|apply stream_le_refl].
  cbn. rewrite lookup_app_l by (eapply lookup_lt_Some; eauto). exact Hs.
Qed.

Lemma heap_grows_stream m r s s' :
  heap m !! r = Some s -> stream.stream_le s s' ->
  heap_grows m (set_heap (<[r := s']> (heap m)) m).
Proof.
  intros Hs Hle r0 s0 Hs0. cbn.
  destruct (decide (r0 = r)) as [->|Hne].
  - exists s'. rewrite list_lookup_insert_eq by (eapply lookup_lt_Some; eauto).
    split; [reflexivity|]. congruence.
  - exists s0. rewrite list_lookup_insert_ne by congruence.
    split; [exact Hs0|apply stream_le_refl].
Qed.

Ltac heap_leaf :=
  first [ exact heap_grows_trans | exact heap_grows_alloc
        | exact heap_grows_stream
        | intros; apply heap_grows_same; reflexivity ].

(** No call removes a stream object, changes the ID of one or reopens
    one. *)
Lemma step_heap_grows (c : call) (m : Mux) : heap_grows m (state_of (step c m)).
Proof.
  assert (Hfm : forall A B (f : A -> B) (o : outcome Mux A),
             state_of (fmap_outcome f o) = state_of o)
    by (intros A B f []; reflexivity).
  destruct c; cbn [step]; rewrite ?Hfm.
  - apply stable_OpenStream; heap_leaf.
  - apply stable_AcceptStream; heap_leaf.
  - apply stable_SendPing; heap_leaf.
  - heap_leaf.
  - heap_leaf.
  - apply stable_Close; try heap_leaf.
    intros fw. apply stable_shutdown; heap_leaf.
  - apply stable_Stream_Read; heap_leaf.
  - apply stable_Write; heap_leaf.
  - apply stable_Stream_Close; heap_leaf.
  - destruct (done m); [heap_leaf|]. rewrite Hfm.
    apply stable_readLoop_iter; try heap_leaf.
    intros fw. apply stable_shutdown; heap_leaf.
  - destruct (writeDone m); [heap_leaf|]. rewrite Hfm.
    apply stable_writeLoop_iter; try heap_leaf.
    intros fw. apply stable_shutdown; heap_leaf.
  - heap_leaf.
  - heap_leaf.
  - heap_leaf.
Qed.

Lemma exec_heap_grows (cs : list call) (m : Mux) : heap_grows m (exec cs m).
Proof.
  revert m. induction cs as [|c cs IH]; intros m.
  - apply heap_grows_same. reflexivity.
  - eapply heap_grows_trans; [apply step_heap_grows|apply IH].
Qed.

End Preserved.

(** ** The outbound queue *)

Section WritePath.
Import FrameCodec mux.

(** What the outbound queue holds once the buffer [data] has gone to its
    end. *)
Lemma outbox_queued (data : nat) (m : Mux) :
  outbox (queued data m) = outbox m ++ [load m data].
Proof. unfold outbox, queued. cbn. rewrite map_app. reflexivity. Qed.

(** A frame that a parked call has built reaches the queue as it was built,
    whatever the other tasks do meanwhile, short of writing into its
    buffer. *)
Lemma parked_frame_kept (q : nat) (content : list byte) (m : Mux)
  (cs : list call) :
  (q < length (mem m))%nat -> load m q = content -> leaves_buffer q cs ->
  load (exec cs m) q = content
  ∧ outbox (queued q (exec cs m)) = outbox (exec cs m) ++ [content].
Proof.
  intros Hq Hl Hcs.
  assert (H : load (exec cs m) q = content)
    by (rewrite exec_keeps_frame by assumption; exact Hl).
  split; [exact H|]. rewrite outbox_queued, H. reflexivity.
Qed.

(** [writeWS] on a mux that is not shut down: the frame goes to the end of
    the queue, or the call parks because the queue is full. *)
Lemma writeWS_open (data pick : nat) (m : Mux) :
  closed m = false -> chclosed (writeCh m) = false ->
  writeWS data pick m =
  if (length (buf (writeCh m)) <? cap (writeCh m))%nat
  then Ret None (set_writeCh (mkChan (buf (writeCh m) ++ [data])
                                     (cap (writeCh m)) false) m)
  else Block m.
Proof.
  intros Hc Hw. unfold writeWS, send_ready, chan_send.
  rewrite Hc, Hw, select_first_only. cbn [orb].
  destruct (_ <? _)%nat; reflexivity.
Qed.

(** [writeWS] never returns another error than [ErrMuxClosed], and when it
    returns an error the state is the one it started from. *)
Lemma writeWS_error (data pick : nat) (m m' : Mux) (e : error) :
  writeWS data pick m = Ret (Some e) m' -> e = ErrMuxClosed ∧ m' = m.
Proof.
  unfold writeWS. destruct (select _ pick) as [[]|]; try discriminate.
  - destruct (chan_send data (writeCh m)); intros [= <- <-] || intros [=]; auto.
  - intros [= <- <-]. auto.
Qed.

(** Once [closed] and [writeCh] are closed, [writeWS] refuses every frame. *)
Lemma writeWS_shut (data pick : nat) (m : Mux) :
  closed m = true -> chclosed (writeCh m) = true ->
  writeWS data pick m = Ret (Some ErrMuxClosed) m.
Proof.
  intros Hc Hw. unfold writeWS, send_ready, chan_send.
  rewrite Hc, Hw. cbn [orb].
  destruct (select_both ws_send ws_closed pick) as [-> | ->]; reflexivity.
Qed.

(** [writeWS] on a closed queue: the send panics, and the deferred
    [recover] returns [ErrMuxClosed]. *)
Lemma writeWS_queue_closed (data pick : nat) (m : Mux) :
  chclosed (writeCh m) = true ->
  writeWS data pick m = Ret (Some ErrMuxClosed) m.
Proof.
  intros Hw. destruct (closed m) eqn:Hc; [apply writeWS_shut; assumption|].
  unfold writeWS, send_ready, chan_send.
  rewrite Hc, Hw, select_first_only. reflexivity.
Qed.

(** [writeWS] on a mux that has been shut down while its queue is full. *)
Lemma writeWS_closed_full (data pick : nat) (m : Mux) :
  closed m = true -> queue_full m ->
  writeWS data pick m = Ret (Some ErrMuxClosed) m.
Proof.
  intros Hc Hfull. unfold writeWS, send_ready, chan_send.
  rewrite Hc. destruct (chclosed (writeCh m)) eqn:Hw; cbn [orb].
  - destruct (select_both ws_send ws_closed pick) as [-> | ->]; reflexivity.
  - unfold queue_full in Hfull.
    destruct (Nat.ltb_spec (length (buf (writeCh m))) (cap (writeCh m))); [lia|].
    rewrite select_second_only. reflexivity.
Qed.

(** [writeWS] refuses the frame, after the mux has been shut down, whenever
    the queue is closed or full. *)
Lemma writeWS_refuses (data pick : nat) (m : Mux) :
  closed m = true -> chclosed (writeCh m) = true ∨ queue_full m ->
  writeWS data pick m = Ret (Some ErrMuxClosed) m.
Proof.
  intros Hc [Hw|Hfull];
    [apply writeWS_shut|apply writeWS_closed_full]; assumption.
Qed.

(** The three ways in which the [select] of [writeWS] ends: the frame goes
    to the end of the queue, which has room; the frame is refused, the mux
    being shut down; or the call waits, the queue being full. *)
Lemma writeWS_ends (data pick : nat) (m : Mux) :
  (writeWS data pick m = Ret None (queued data m)
   ∧ chclosed (writeCh m) = false ∧ has_room m)
  ∨ (writeWS data pick m = Ret (Some ErrMuxClosed) m
     ∧ (closed m = true ∨ chclosed (writeCh m) = true))
  ∨ (writeWS data pick m = Block m
     ∧ closed m = false ∧ chclosed (writeCh m) = false ∧ queue_full m).
Proof.
  unfold writeWS, has_room, queue_full.
  destruct (select _ pick) as [[]|] eqn:Hsel.
  - apply select_Some in Hsel. cbn in Hsel.
    destruct Hsel as [H|[H|[]]]; [|discriminate].
    injection H as H. unfold send_ready in H. unfold chan_send.
    destruct (chclosed (writeCh m)) eqn:Hw; [right; left; auto|].
    left. cbn [orb] in H. apply Nat.ltb_lt in H. auto.
  - apply select_Some in Hsel. cbn in Hsel.
    destruct Hsel as [H|[H|[]]]; [discriminate|].
    injection H as H. right. left. auto.
  - right. right. split; [reflexivity|].
    pose proof (select_None _ _ Hsel ws_send) as H1.
    pose proof (select_None _ _ Hsel ws_closed) as H2.
    cbn in H1, H2. unfold send_ready in H1.
    destruct (closed m); [exfalso; apply H2; auto|].
    destruct (chclosed (writeCh m)); [exfalso; apply H1; auto|].
    cbn [orb] in H1.
    destruct (Nat.ltb_spec (length (buf (writeCh m))) (cap (writeCh m)));
      [exfalso; apply H1; auto|auto].
Qed.

End WritePath.

(** ** Stream IDs *)

Section StreamIDs.
Import FrameCodec mux.

(** What [OpenStream] returns and what it does to the counter. *)
Lemma OpenStream_nextID (pick : nat) (m m' : Mux) r :
  queues_open m ->
  OpenStream pick m = Ret r m' ->
  match r with
  | (Some s, None) =>
      heap m' !! s = Some (new_mux_stream (nextID m))
      ∧ nextID m' = uint32 (nextID m + 2)
  | (Some _, Some _) => False
  | (None, _) => nextID m' = nextID m
  end.
Proof.
  intros Hq. rewrite OpenStream_steps.
  destruct (closed m) eqn:Hc; [intros [= <- <-]; reflexivity|].
  destruct (_ && _); [intros [= <- <-]; reflexivity|].
  destruct (Hq Hc) as (Hw & _ & _).
  unfold bind, modify, alloc_stream, encode, alloc_buf.
  rewrite writeWS_open by assumption.
  cbn [writeCh set_mem set_streams set_heap set_nextID buf cap].
  destruct (_ <? _)%nat; [|discriminate].
  unfold ret. intros [= <- <-]. cbn. split; [|reflexivity].
  apply list_lookup_middle. reflexivity.
Qed.

Lemma uint32_idem v : uint32 (uint32 v) = uint32 v.
Proof. unfold uint32. apply Z.mod_mod. lia. Qed.

Lemma uint32_add_l a b : uint32 (uint32 a + b) = uint32 (a + b).
Proof. unfold uint32. apply Zplus_mod_idemp_l. Qed.

Lemma opened_ids_from (cs : list call) :
  forall (m : Mux) tr,
    queues_open m -> uint32 (nextID m) = nextID m ->
    run cs m = Some tr ->
    opened_ids tr =
    map (fun k => uint32 (nextID m + 2 * Z.of_nat k))
        (seq 0 (length (opened_ids tr))).
Proof.
  induction cs as [|c cs IH]; intros m tr Hq Hu Hrun.
  - injection Hrun as <-. reflexivity.
  - cbn [run] in Hrun.
    destruct (step c m) as [r m'|m'|m'] eqn:Hs; try discriminate.
    destruct (run cs m') as [tr'|] eqn:Hr; [|discriminate].
    injection Hrun as <-.
    assert (Hq' : queues_open m')
      by (change m' with (state_of (Ret r m')); rewrite <- Hs;
          apply step_queues_open, Hq).
    specialize (IH m' tr' Hq').
    unfold opened_ids in *. cbn [flat_map].
    destruct c;
      try (assert (Hn : nextID m' = nextID m)
             by (change m' with (state_of (Ret r m')); rewrite <- Hs;
                 apply step_keeps_nextID; discriminate);
           cbn [opened_id app]; rewrite <- Hn; apply IH; [congruence|exact Hr]).
    cbn [step] in Hs.
    destruct (OpenStream pick m) as [[o e] m0|m0|m0] eqn:Ho; try discriminate.
    cbn [fmap_outcome fst snd] in Hs. injection Hs as <- <-.
    pose proof (OpenStream_nextID pick m m0 (o, e) Hq Ho) as Hcase.
    destruct o as [s|], e as [e|]; cbn [opened_id app] in *;
      try contradiction;
      try (rewrite <- Hcase; apply IH; [congruence|exact Hr]).
    destruct Hcase as [-> Hn].
    cbn [app length seq map stream.ID new_mux_stream stream.newStream].
    f_equal.
    + rewrite Z.mul_0_r, Z.add_0_r. symmetry. exact Hu.
    + rewrite IH at 1; [|rewrite Hn; apply uint32_idem|exact Hr].
      rewrite <- seq_shift, map_map. apply map_ext.
      intros k. rewrite Hn, uint32_add_l. f_equal. lia.
Qed.

Lemma role_ids_parity (isServer : bool) (n : nat) :
  Forall (fun id => Z.land id 1 = if isServer then 0 else 1)
         (role_ids isServer n).
Proof.
  unfold role_ids. apply Forall_map, Forall_forall. intros k _.
  change 1 with (Z.ones 1) at 1. rewrite Z.land_ones by lia.
  unfold uint32. change (2 ^ 1) with 2.
  rewrite Z.mod_mod_divide by (exists (2 ^ 31); reflexivity).
  rewrite (Z.mul_comm 2), Z.mod_add by lia.
  destruct isServer; reflexivity.
Qed.

Lemma role_ids_no_wrap (isServer : bool) (n : nat) :
  Z.of_nat n <= 2 ^ 31 - 1 ->
  role_ids isServer n =
  map (fun k => first_id isServer + 2 * Z.of_nat k) (seq 0 n).
Proof.
  intros Hn. unfold role_ids. apply map_ext_in. intros k Hk.
  apply in_seq in Hk. unfold uint32. apply Z.mod_small.
  destruct isServer; cbn [first_id]; lia.
Qed.

(** C5. In every schedule of calls on a mux (each running to its return),
    the streams that the successful [OpenStream] calls return carry, in
    order, the IDs 1, 3, 5, ... on the client (odd) side and 2, 4, 6, ... on
    the server (even) side: the first is the starting value of the role and
    each next one is 2 more, in 32-bit arithmetic; every one of them has the
    parity bit of the role. *)
Theorem OpenStream_ids (isServer : bool) (cs : list call) tr :
  run cs (NewMux isServer) = Some tr ->
  opened_ids tr = role_ids isServer (length (opened_ids tr))
  ∧ Forall (fun id => Z.land id 1 = if isServer then 0 else 1) (opened_ids tr)
  ∧ (Z.of_nat (length (opened_ids tr)) <= 2 ^ 31 - 1 ->
     opened_ids tr =
     map (fun k => first_id isServer + 2 * Z.of_nat k)
         (seq 0 (length (opened_ids tr)))).
Proof.
  intros Hrun.
  assert (Hids : opened_ids tr = role_ids isServer (length (opened_ids tr))).
  { apply (opened_ids_from cs (NewMux isServer) tr);
      [apply NewMux_queues_open|destruct isServer; reflexivity|exact Hrun]. }
  split; [exact Hids|]. split.
  - rewrite Hids. apply role_ids_parity.
  - intros Hn. rewrite Hids at 1. apply role_ids_no_wrap, Hn.
Qed.

Lemma OpenStream_ids_witness :
  exists tr,
    run [call_OpenStream 0; call_SendPing 0; call_OpenStream 1; call_writer;
         call_OpenStream 0] (NewMux false) = Some tr
    ∧ opened_ids tr = [1; 3; 5]
    ∧ Forall (fun id => Z.land id 1 = 1) (opened_ids tr).
Proof.
  eexists. split; [vm_compute; reflexivity|].
  match goal with
  | |- opened_ids ?tr = _ ∧ _ =>
      pose proof (OpenStream_ids false
                    [call_OpenStream 0; call_SendPing 0; call_OpenStream 1;
                     call_writer; call_OpenStream 0] tr eq_refl)
        as (_ & Hpar & Hids)
  end.
  split; [|exact Hpar].
  rewrite Hids; [vm_compute; reflexivity|vm_compute; discriminate].
Defined.

End StreamIDs.

(** ** The reader task *)

Section Reader.
Import FrameCodec mux.

Lemma bind_Ret {A B} (c : M A) (k : A -> M B) (m m' : Mux) (b : B) :
  bind c k m = Ret b m' ->
  exists a m1, c m = Ret a m1 ∧ k a m1 = Ret b m'.
Proof.
  unfold bind. destruct (c m) as [a m1|m1|m1]; try discriminate. eauto.
Qed.

(** C7. When the registry has no stream under [id], the reader task drops a
    [DATA] frame and a [CLOSE_STREAM] frame for [id]: the handler returns
    (it has no error to return), and the state of the mux is the one it
    started from, so that nothing was sent and the registry, the accept
    queue and the counter of stream IDs are what they were.  The same holds
    for the turn of the reader loop that receives such a frame. *)
Theorem unknown_stream_dropped (m : Mux) (id : Z) (payload : list byte)
  (pick : nat) :
  streams m !! id = None ->
  handleData id payload pick m = Ret tt m
  ∧ handleCloseStream id m = Ret tt m
  ∧ (forall f, StreamID f = id ->
       Type_ f = FrameData ∨ Type_ f = FrameCloseStream ->
       dispatch f pick m = Ret tt m)
  ∧ (closed m = false ->
     forall data f d,
       (frameHeaderSize <= length data)%nat ->
       DecodeFrame (NewReader data) = (inl f, d) ->
       StreamID f = id ->
       Type_ f = FrameData ∨ Type_ f = FrameCloseStream ->
       readLoop_iter (read_msg data) pick m = Ret true m).
Proof.
  intros Hnone.
  assert (Hd : handleData id payload pick m = Ret tt m)
    by (unfold handleData; rewrite Hnone; reflexivity).
  assert (Hc : handleCloseStream id m = Ret tt m)
    by (unfold handleCloseStream; rewrite Hnone; reflexivity).
  assert (Hdis : forall f, StreamID f = id ->
            Type_ f = FrameData ∨ Type_ f = FrameCloseStream ->
            dispatch f pick m = Ret tt m).
  { intros f Hid [Ht|Ht]; unfold dispatch; rewrite Ht, Hid.
    - unfold FrameData, handleData. rewrite Hnone. reflexivity.
    - exact Hc. }
  repeat split; try assumption.
  intros Hopen data f d Hlen Hdec Hid Ht.
  unfold readLoop_iter.
  destruct (Nat.ltb_spec (length data) frameHeaderSize); [lia|].
  rewrite Hdec, Hopen. unfold bind. rewrite (Hdis f Hid Ht). reflexivity.
Qed.

Lemma unknown_stream_dropped_witness :
  handleData 7 [x61] 0 (NewMux true) = Ret tt (NewMux true)
  ∧ handleCloseStream 7 (NewMux true) = Ret tt (NewMux true)
  ∧ readLoop_iter (read_msg (EncodeFrame (mkFrame FrameData 7 [x61]))) 0
                  (NewMux true) = Ret true (NewMux true).
Proof.
  destruct (unknown_stream_dropped (NewMux true) 7 [x61] 0 eq_refl)
    as (H1 & H2 & _ & H4).
  split; [exact H1|]. split; [exact H2|].
  apply (H4 eq_refl _ (mkFrame FrameData 7 [x61]) (mkDec [] [1]));
    [vm_compute; lia|vm_compute; reflexivity|reflexivity|left; reflexivity].
Defined.

(** A full outbound queue: 256 [PING] frames that the writer task has not
    taken yet.  The turn of the reader task that receives a [PING] frame
    then waits, with no [PONG] in the queue; the mux is closed meanwhile
    (its transport works: the 256 frames are sent); and the turn ends with
    the [PONG] dropped: none was ever put in the queue or sent. *)
Lemma PING_unanswered :
  let ping := EncodeFrame (mkFrame FramePing 0 []) in
  let m := exec (repeat (call_SendPing 0) 256) (NewMux false) in
  let turn := step (call_reader (read_msg ping) 0) m in
  let m1 := state_of turn in
  let m2 := state_of (step call_Close m1) in
  closed m = false ∧ length (buf (writeCh m)) = cap (writeCh m)
  ∧ returned turn = None ∧ writeCh m1 = writeCh m
  ∧ handlePing_resumed (length (mem m)) 0 m2 = Ret true m2
  ∧ outbox m2 = [] ∧ sent (conn m2) = repeat ping 256.
Proof. vm_compute. repeat split; reflexivity. Qed.

(** How the turn of a [PING] frame that had to wait goes on. *)
Lemma handlePing_resumed_ends (frame pick : nat) (m : Mux) :
  (handlePing_resumed frame pick m = Ret true (queued frame m)
   ∧ chclosed (writeCh m) = false ∧ has_room m)
  ∨ (handlePing_resumed frame pick m = Ret true m
     ∧ (closed m = true ∨ chclosed (writeCh m) = true))
  ∨ (handlePing_resumed frame pick m = Block m
     ∧ closed m = false ∧ chclosed (writeCh m) = false ∧ queue_full m).
Proof.
  unfold handlePing_resumed.
  destruct (writeWS_ends frame pick m) as [(E & H)|[(E & H)|(E & H)]];
    [left|right; left|right; right];
    (split; [|exact H]); unfold bind; rewrite E; reflexivity.
Qed.

(** C8 (amended).  The turn of the reader loop that receives a [PING] frame
    (the mux is not shut down, or the frame would not be handled) builds the
    [PONG] frame (type 0x05, stream ID 0, payload length 0) in a fresh
    buffer and submits it.
    - When the outbound queue is open and has room, the turn returns after
      putting exactly that one frame at the end of the queue.  Nothing else
      changes (no user callback has run), and the next inbound frame is
      handled from that state.
    - When the outbound queue is open and full, the turn waits at the
      [select] of [writeWS]: nothing has been put in the queue, no user
      callback has run, and no further inbound frame is handled.  In
      whatever state the other tasks have brought the mux to, the turn goes
      on in one of three ways: it puts that frame at the end of the queue,
      which has room, and the loop goes on; it drops the frame, the mux
      being shut down, and the loop goes on; or it waits on, the mux not
      being shut down and the queue being full.  With room in the queue of
      a mux that is not shut down it is the first; on a mux that is shut
      down, with the queue closed or full, it is the second.  The buffer
      still holds the [PONG] frame then, whatever calls were made
      meanwhile (nobody else has the buffer to write into it).
    - When the outbound queue is closed, the frame is dropped. *)
Theorem ping_answered (m : Mux) (data : list byte) (f : Frame) (d : Dec)
  (pick : nat) :
  closed m = false ->
  (frameHeaderSize <= length data)%nat ->
  DecodeFrame (NewReader data) = (inl f, d) ->
  Type_ f = FramePing ->
  let pong := length (mem m) in
  let m1 := set_mem (mem m ++ [EncodeFrame (mkFrame FramePong 0 [])]) m in
  let m' := set_writeCh (mkChan (buf (writeCh m) ++ [pong])
                                (cap (writeCh m)) false) m1 in
  (chclosed (writeCh m) = false ->
   (length (buf (writeCh m)) < cap (writeCh m))%nat ->
   readLoop_iter (read_msg data) pick m = Ret true m'
   ∧ buf (writeCh m') = buf (writeCh m) ++ [pong]
   ∧ load m' pong = pong_frame
   ∧ (forall q, (q < length (mem m))%nat -> load m' q = load m q)
   ∧ (queue_in_mem m -> outbox m' = outbox m ++ [pong_frame])
   ∧ pongCalls m' = pongCalls m
   ∧ (forall evs,
        readLoop ((read_msg data, pick) :: evs) m =
        (do fs <- readLoop evs ;; ret (f :: fs)) m'))
  ∧ (chclosed (writeCh m) = false -> queue_full m ->
     readLoop_iter (read_msg data) pick m = Block m1
     ∧ readLoop_iter (read_msg data) pick m = handlePing_resumed pong pick m1
     ∧ load m1 pong = pong_frame
     ∧ writeCh m1 = writeCh m ∧ pongCalls m1 = pongCalls m
     ∧ (forall evs, readLoop ((read_msg data, pick) :: evs) m = Block m1)
     ∧ (forall cs, leaves_buffer pong cs ->
          load (exec cs m1) pong = pong_frame
          ∧ outbox (queued pong (exec cs m1))
            = outbox (exec cs m1) ++ [pong_frame])
     ∧ forall (m2 : Mux) (pick' : nat),
         ((handlePing_resumed pong pick' m2 = Ret true (queued pong m2)
           ∧ chclosed (writeCh m2) = false ∧ has_room m2)
          ∨ (handlePing_resumed pong pick' m2 = Ret true m2
             ∧ (closed m2 = true ∨ chclosed (writeCh m2) = true))
          ∨ (handlePing_resumed pong pick' m2 = Block m2
             ∧ closed m2 = false ∧ chclosed (writeCh m2) = false
             ∧ queue_full m2))
         ∧ (closed m2 = false -> chclosed (writeCh m2) = false ->
            has_room m2 ->
            handlePing_resumed pong pick' m2 = Ret true (queued pong m2))
         ∧ (closed m2 = true ->
            chclosed (writeCh m2) = true ∨ queue_full m2 ->
            handlePing_resumed pong pick' m2 = Ret true m2))
  ∧ (chclosed (writeCh m) = true ->
     readLoop_iter (read_msg data) pick m = Ret true m1).
Proof.
  intros Hopen Hlen Hdec Ht. cbv zeta.
  set (m1 := set_mem _ m). set (m' := set_writeCh _ m1).
  assert (Hup : readLoop_iter (read_msg data) pick m
                = handlePing_resumed (length (mem m)) pick m1).
  { unfold readLoop_iter.
    destruct (Nat.ltb_spec (length data) frameHeaderSize); [lia|].
    rewrite Hdec, Hopen. unfold bind at 1, dispatch. rewrite Ht.
    unfold FramePing, handlePing, handlePing_resumed.
    unfold bind at 1 2, encode, alloc_buf. fold m1.
    unfold bind.
    destruct (writeWS (length (mem m)) pick m1) as [e m3|m3|m3]; reflexivity. }
  assert (Hpong : load m1 (length (mem m)) = pong_frame).
  { unfold load, m1; cbn. rewrite list_lookup_middle by reflexivity.
    reflexivity. }
  split; [|split].
  - intros Hw Hroom.
    assert (Hiter : readLoop_iter (read_msg data) pick m = Ret true m').
    { rewrite Hup.
      destruct (handlePing_resumed_ends (length (mem m)) pick m1)
        as [(H & _)|[(_ & [H|H])|(_ & _ & _ & H)]];
        [exact H|unfold m1 in H; cbn in H; congruence..
        |unfold queue_full, m1 in H; cbn in H; lia]. }
    assert (Hload : forall q, (q < length (mem m))%nat -> load m' q = load m q).
    { intros q Hq. unfold load, m', m1; cbn. rewrite lookup_app_l by exact Hq.
      reflexivity. }
    split; [exact Hiter|]. split; [reflexivity|]. split; [exact Hpong|].
    split; [exact Hload|]. split.
    { intros Hq. unfold outbox. cbn [m' writeCh set_writeCh buf].
      rewrite map_app. f_equal.
      - apply map_ext_in. intros q Hin. apply Hload.
        unfold queue_in_mem in Hq. rewrite Forall_forall in Hq.
        apply Hq, list_elem_of_In, Hin.
      - cbn [map]. f_equal. exact Hpong. }
    split; [reflexivity|].
    intros evs. cbn [readLoop]. unfold bind at 1. rewrite Hiter.
    destruct (Nat.ltb_spec (length data) frameHeaderSize); [lia|].
    rewrite Hdec. reflexivity.
  - intros Hw Hfull.
    assert (Hwait : readLoop_iter (read_msg data) pick m = Block m1).
    { rewrite Hup.
      destruct (handlePing_resumed_ends (length (mem m)) pick m1)
        as [(_ & _ & H)|[(_ & [H|H])|(H & _)]];
        [unfold has_room, queue_full, m1 in *; cbn in H; lia
        |unfold m1 in H; cbn in H; congruence..|exact H]. }
    split; [exact Hwait|]. split; [exact Hup|]. split; [exact Hpong|].
    split; [reflexivity|]. split; [reflexivity|]. split.
    { intros evs. cbn [readLoop]. unfold bind at 1. rewrite Hwait.
      reflexivity. }
    split.
    { intros cs Hcs. apply parked_frame_kept; [|exact Hpong|exact Hcs].
      unfold m1; cbn. rewrite length_app. cbn. lia. }
    intros m2 pick'. split; [apply handlePing_resumed_ends|]. split.
    + intros Hm2 Hw2 Hroom2.
      destruct (handlePing_resumed_ends (length (mem m)) pick' m2)
        as [(H & _)|[(_ & [H|H])|(_ & _ & _ & H)]];
        [exact H|congruence|congruence|unfold has_room, queue_full in *; lia].
    + intros Hm2 Hcase. unfold handlePing_resumed, bind.
      rewrite writeWS_refuses by assumption. reflexivity.
  - intros Hw. rewrite Hup. unfold handlePing_resumed, bind.
    rewrite writeWS_queue_closed by exact Hw. reflexivity.
Qed.

Lemma ping_answered_witness :
  readLoop_iter (read_msg (EncodeFrame (mkFrame FramePing 0 []))) 0
                (NewMux false)
  = Ret true (set_writeCh (mkChan [0%nat] 256 false)
                (set_mem [pong_frame] (NewMux false))).
Proof.
  destruct (ping_answered (NewMux false)
              (EncodeFrame (mkFrame FramePing 0 [])) (mkFrame FramePing 0 [])
              (mkDec [] [0]) 0 eq_refl) as (H & _);
    [vm_compute; lia|reflexivity|reflexivity|].
  apply H; [reflexivity|vm_compute; lia].
Defined.

(** A [DATA] frame for a registered, open stream with room in its inbound
    queue goes to the end of that queue. *)
Lemma handleData_registered (m : Mux) (id : Z) (r : nat) (s : stream.Stream)
  (payload : list byte) (pick : nat) :
  streams m !! id = Some r -> heap m !! r = Some s ->
  stream.closed s = false -> chclosed (stream.dataCh s) = false ->
  (length (buf (stream.dataCh s)) < cap (stream.dataCh s))%nat ->
  handleData id payload pick m =
  Ret tt (set_heap
            (<[r := stream.set_dataCh
                      (mkChan (buf (stream.dataCh s) ++ [payload])
                              (cap (stream.dataCh s)) false) s]> (heap m)) m).
Proof.
  intros Hreg Hs Hc Hd Hroom. unfold handleData, on_stream.
  rewrite Hreg, Hs, pushData_open by assumption.
  destruct (Nat.ltb_spec (length (buf (stream.dataCh s)))
                         (cap (stream.dataCh s))); [reflexivity|lia].
Qed.

Lemma handleData_all_registered (id : Z) (r : nat)
  (ps : list (list byte * nat)) :
  forall (m : Mux) (s : stream.Stream),
    streams m !! id = Some r -> heap m !! r = Some s ->
    stream.closed s = false -> chclosed (stream.dataCh s) = false ->
    (length (buf (stream.dataCh s)) + length ps <= cap (stream.dataCh s))%nat ->
    handleData_all id ps m =
    Ret tt (set_heap
              (<[r := stream.set_dataCh
                        (mkChan (buf (stream.dataCh s) ++ map fst ps)
                                (cap (stream.dataCh s)) false) s]> (heap m)) m).
Proof.
  induction ps as [|[payload pick] ps IH]; intros m s Hreg Hs Hc Hd Hroom.
  - cbn [handleData_all map]. unfold ret. f_equal.
    rewrite app_nil_r.
    replace (stream.set_dataCh _ s) with s
      by (destruct s as [? [? ? ?] ? ? ? ? ?]; cbn in *; subst; reflexivity).
    rewrite list_insert_id by exact Hs. destruct m; reflexivity.
  - cbn [handleData_all map length fst] in *. unfold bind.
    rewrite (handleData_registered m id r s) by (try assumption; lia).
    set (s1 := stream.set_dataCh _ s). set (m1 := set_heap _ m).
    assert (Hlt : (r < length (heap m))%nat) by (eapply lookup_lt_Some; eauto).
    rewrite (IH m1 s1); try assumption; try reflexivity.
    + unfold m1, s1; cbn. rewrite list_insert_insert_eq, <- app_assoc.
      reflexivity.
    + unfold m1; cbn. apply list_lookup_insert_eq. exact Hlt.
    + unfold s1; cbn. rewrite length_app; cbn. lia.
Qed.

(** The errors that the calls of the API return. *)
Lemma stream_Read_error (lenp pick : nat) (s s' : stream.Stream) bs e :
  stream.Read lenp pick s = Ret (bs, Some e) s' -> e = EOF.
Proof.
  unfold stream.Read, stream.deliver.
  destruct (_ <? _)%nat; [discriminate|].
  destruct (select _ pick) as [[]|]; try discriminate.
  - destruct (chan_recv _) as [[data|] ch]; [discriminate|].
    intros [= _ <- _]. reflexivity.
  - destruct (recv_ready _); [|intros [= _ <- _]; reflexivity].
    destruct (chan_recv _) as [[data|] ch]; [discriminate|].
    intros [= _ <- _]. reflexivity.
Qed.

Lemma step_errors (c : call) (m m' : Mux) (r : result) (e : error) :
  step c m = Ret r m' -> result_error r = Some e ->
  In (root_error e)
     [ErrMuxClosed; ErrTooManyStreams; ErrCanceled; EOF; ErrStreamClosed].
Proof.
  destruct c; cbn [step].
  - (* OpenStream *)
    destruct (OpenStream pick m) as [[o err] m0|m0|m0] eqn:Ho; try discriminate.
    cbn. intros [= <- <-]. cbn. intros ->.
    rewrite OpenStream_steps in Ho.
    destruct (closed m); [injection Ho as <- <- <-; cbn; tauto|].
    destruct (_ && _); [injection Ho as <- <- <-; cbn; tauto|].
    apply bind_Ret in Ho as (? & m1 & _ & Ho).
    apply bind_Ret in Ho as (? & m2 & _ & Ho).
    apply bind_Ret in Ho as (? & m3 & _ & Ho).
    apply bind_Ret in Ho as (frame & m4 & _ & Ho).
    apply bind_Ret in Ho as ([e'|] & m5 & Hw & Ho).
    + apply writeWS_error in Hw as [-> _].
      apply bind_Ret in Ho as (? & m6 & _ & Ho).
      injection Ho as <- <- <-. cbn. tauto.
    + discriminate.
  - (* AcceptStream *)
    destruct (AcceptStream ctx_done pick m) as [[o err] m0|m0|m0] eqn:Ha;
      try discriminate.
    cbn. intros [= <- <-]. cbn. intros ->.
    unfold AcceptStream in Ha.
    destruct (select _ pick) as [[]|]; try discriminate.
    + destruct (chan_recv _) as [[x|] ch]; [discriminate|].
      injection Ha as <- <- <-. cbn. tauto.
    + injection Ha as <- <- <-. cbn. tauto.
    + injection Ha as <- <- <-. cbn. tauto.
  - (* SendPing *)
    destruct (SendPing pick m) as [err m0|m0|m0] eqn:Hp; try discriminate.
    cbn. intros [= <- <-]. cbn. intros ->.
    unfold SendPing in Hp.
    destruct (closed m); [injection Hp as <- <-; cbn; tauto|].
    apply bind_Ret in Hp as (frame & m1 & _ & Hw).
    apply writeWS_error in Hw as [-> _]. cbn. tauto.
  - cbn. intros [= <- <-]. discriminate.
  - cbn. intros [= <- <-]. discriminate.
  - (* Close *)
    destruct (Close m) as [err m0|m0|m0] eqn:Hc; try discriminate.
    cbn. intros [= <- <-]. cbn. intros ->.
    unfold Close in Hc.
    apply bind_Ret in Hc as (? & m1 & _ & Hc).
    apply bind_Ret in Hc as (? & m2 & _ & Hc). discriminate.
  - (* Read *)
    destruct (Stream_Read r0 lenp pick m) as [[bs err] m0|m0|m0] eqn:Hr;
      try discriminate.
    cbn. intros [= <- <-]. cbn. intros ->.
    unfold Stream_Read, on_stream in Hr.
    destruct (heap m !! r0) as [s|]; [|discriminate].
    destruct (stream.Read lenp pick s) as [[bs' err'] s'|s'|s'] eqn:Hs;
      try discriminate.
    injection Hr as -> -> <-.
    apply stream_Read_error in Hs as ->. cbn. tauto.
  - (* Write *)
    destruct (Write r0 p pick m) as [[n err] m0|m0|m0] eqn:Hw; try discriminate.
    cbn. intros [= <- <-]. cbn. intros ->.
    unfold Write in Hw.
    destruct (heap m !! r0) as [s|]; [|discriminate].
    destruct (stream.closed s); [injection Hw as <- <- <-; cbn; tauto|].
    apply bind_Ret in Hw as (b & m1 & _ & Hw).
    apply bind_Ret in Hw as ([e'|] & m2 & Hf & Hw); [|discriminate].
    injection Hw as _ -> _.
    destruct (stream.writeFn s) as [id]. cbn [call_writeFn] in Hf.
    unfold makeWriteFn in Hf.
    destruct (closed m1); [injection Hf as <- <-; cbn; tauto|].
    apply bind_Ret in Hf as (frame & m3 & _ & Hf).
    apply writeWS_error in Hf as [-> _]. cbn. tauto.
  - (* Stream.Close *)
    destruct (Stream_Close r0 pick m) as [err m0|m0|m0] eqn:Hc; try discriminate.
    cbn. intros [= <- <-]. cbn. intros ->.
    unfold Stream_Close in Hc.
    destruct (heap m !! r0) as [s|]; [|discriminate].
    destruct (stream.closeOnce s); try discriminate.
    apply bind_Ret in Hc as (? & m1 & _ & Hc).
    apply bind_Ret in Hc as (? & m2 & _ & Hc).
    apply bind_Ret in Hc as (? & m3 & _ & Hc).
    apply bind_Ret in Hc as (? & m4 & _ & Hc). discriminate.
  - destruct (done m); [intros [= <- <-]; discriminate|].
    destruct (readLoop_iter ev pick m); try discriminate.
    cbn. intros [= <- <-]. discriminate.
  - destruct (writeDone m); [intros [= <- <-]; discriminate|].
    destruct (writeLoop_iter m); try discriminate.
    cbn. intros [= <- <-]. discriminate.
  - cbn. intros [= <- <-]. discriminate.
  - intros [= <- <-]. discriminate.
  - intros [= <- <-]. discriminate.
Qed.

(** Two ways in which an [OPEN_STREAM] frame for a registered ID is not
    followed by what one expects.
    - The peer opens stream 1 twice, both streams are accepted, and the
      owner of the first stream closes it: the close closure removes the
      registry entry of ID 1, which is the one of the second stream.  The
      second stream is open, but the [DATA] frame for ID 1 that follows is
      dropped: the turn changes nothing.
    - The peer opens 32 streams that nobody accepts, and then opens stream 1
      again: the reader task puts the new stream in the registry and waits,
      the accept queue being full; the new stream is not in the accept
      queue. *)
Lemma OPEN_STREAM_replaced_DATA_lost :
  let opening id := call_reader (read_msg (EncodeFrame (mkFrame FrameOpenStream id []))) 0 in
  let data := call_reader (read_msg (EncodeFrame (mkFrame FrameData 1 [x68; x69]))) 0 in
  let m := exec [opening 1; opening 1; call_AcceptStream false 0;
                 call_AcceptStream false 0; call_Stream_Close 0 0]
                (NewMux true) in
  let m32 := exec (map (fun k => opening (2 * Z.of_nat k + 1)) (seq 0 32))
                  (NewMux true) in
  let turn := step (opening 1) m32 in
  (stream.closed <$> heap m !! 1%nat = Some false
   ∧ streams m !! 1 = None
   ∧ step data m = Ret (res_loop true) m)
  ∧ (streams m32 !! 1 = Some 0%nat
     ∧ returned turn = None
     ∧ streams (state_of turn) !! 1 = Some 32%nat
     ∧ acceptCh (state_of turn) = acceptCh m32
     ∧ 32%nat ∉ buf (acceptCh (state_of turn))).
Proof.
  vm_compute. repeat split; try reflexivity.
  intros H. repeat (apply elem_of_cons in H as [H|H]; [discriminate|]).
  apply elem_of_nil in H. exact H.
Qed.

(** The [select] that ends [handleOpenStream], on an accept queue that is
    not closed. *)
Lemma handleOpenStream_resumed_open (s pick : nat) (m : Mux) :
  chclosed (acceptCh m) = false ->
  handleOpenStream_resumed s pick m =
  match closed m, (length (buf (acceptCh m)) <? cap (acceptCh m))%nat with
  | false, true =>
      Ret true (set_acceptCh (mkChan (buf (acceptCh m) ++ [s])
                                     (cap (acceptCh m)) false) m)
  | false, false => Block m
  | true, false => Ret true m
  | true, true =>
      match select [(true, ws_send); (true, ws_closed)] pick with
      | Some ws_closed => Ret true m
      | _ => Ret true (set_acceptCh (mkChan (buf (acceptCh m) ++ [s])
                                            (cap (acceptCh m)) false) m)
      end
  end.
Proof.
  intros Ha. unfold handleOpenStream_resumed, send_ready, chan_send.
  rewrite Ha. cbn [orb].
  destruct (closed m), (_ <? _)%nat.
  - destruct (select_both ws_send ws_closed pick) as [-> | ->]; reflexivity.
  - rewrite select_second_only. reflexivity.
  - rewrite select_first_only. reflexivity.
  - rewrite select_first_only. reflexivity.
Qed.

(** C10 (amended).  An [OPEN_STREAM] frame whose ID is already in the
    registry (the mux is not shut down, or the frame would not be handled;
    the accept queue is open): the handler builds a fresh stream and puts it
    in the registry in the place of the stream that was there.  The stream
    that was registered is a different object and is left exactly as it was
    (neither closed nor torn down).
    - When the accept queue has room, the handler returns after putting the
      new stream at the end of the accept queue; the [DATA] frames for that
      ID that follow at once, up to the 256 that the inbound queue of the
      new stream holds, go to that queue, in order.
    - When the accept queue is full, the handler waits at its [select],
      with the new stream in the registry and not in the accept queue.  In
      the state that the other tasks have brought the mux to, with the
      accept queue still open (a parked [select] goes on at the first event
      that makes one of its cases ready, and [shutdown] closes [closed]
      before it closes the accept queue), it goes on to put the new stream at the end
      of the accept queue when the mux is not shut down and the queue has
      room, returns without doing so when the mux is shut down and the queue
      is full, and waits on when the mux is not shut down and the queue is
      full.
    - In any later state of the mux, not shut down, in which the new stream
      is still the one registered under the ID, is open and has room in its
      inbound queue (which is open), a [DATA] frame for the ID goes to the
      end of that queue, and nothing else changes: the old stream gets
      nothing.  In any such state in which no stream is registered under the
      ID, a [DATA] frame for it is dropped.
    No call ever returns [ErrStreamExists]. *)
Theorem OPEN_STREAM_replaces (m : Mux) (id : Z) (old : nat)
  (s_old : stream.Stream) (pick : nat) :
  closed m = false -> chclosed (acceptCh m) = false ->
  streams m !! id = Some old -> heap m !! old = Some s_old ->
  let new := length (heap m) in
  let m1 := set_streams (<[id := new]> (streams m))
              (set_heap (heap m ++ [new_mux_stream id]) m) in
  let m' := set_acceptCh (mkChan (buf (acceptCh m) ++ [new])
                                 (cap (acceptCh m)) false) m1 in
  new <> old
  ∧ streams m1 !! id = Some new
  ∧ heap m1 !! new = Some (new_mux_stream id)
  ∧ heap m1 !! old = Some s_old
  ∧ handleOpenStream id pick m
    = fmap_outcome (fun _ => tt) (handleOpenStream_resumed new pick m1)
  ∧ ((length (buf (acceptCh m)) < cap (acceptCh m))%nat ->
     handleOpenStream id pick m = Ret tt m'
     ∧ streams m' !! id = Some new
     ∧ heap m' !! new = Some (new_mux_stream id)
     ∧ heap m' !! old = Some s_old
     ∧ (forall ps : list (list byte * nat),
          (length ps <= 256)%nat ->
          exists m'',
            handleData_all id ps m' = Ret tt m''
            ∧ (exists s_new,
                 heap m'' !! new = Some s_new
                 ∧ buf (stream.dataCh s_new) = map fst ps
                 ∧ stream.closed s_new = false)
            ∧ heap m'' !! old = Some s_old
            ∧ streams m'' !! id = Some new))
  ∧ ((cap (acceptCh m) <= length (buf (acceptCh m)))%nat ->
     handleOpenStream id pick m = Block m1
     ∧ acceptCh m1 = acceptCh m
     ∧ forall (m2 : Mux) (pick' : nat),
         chclosed (acceptCh m2) = false ->
         (closed m2 = false ->
          (length (buf (acceptCh m2)) < cap (acceptCh m2))%nat ->
          handleOpenStream_resumed new pick' m2
          = Ret true (set_acceptCh (mkChan (buf (acceptCh m2) ++ [new])
                                           (cap (acceptCh m2)) false) m2))
         ∧ (closed m2 = true ->
            (cap (acceptCh m2) <= length (buf (acceptCh m2)))%nat ->
            handleOpenStream_resumed new pick' m2 = Ret true m2)
         ∧ (closed m2 = false ->
            (cap (acceptCh m2) <= length (buf (acceptCh m2)))%nat ->
            handleOpenStream_resumed new pick' m2 = Block m2))
  ∧ (forall (m2 : Mux) (s_new : stream.Stream) (payload : list byte)
            (pick' : nat),
       closed m2 = false ->
       streams m2 !! id = Some new -> heap m2 !! new = Some s_new ->
       stream.closed s_new = false -> chclosed (stream.dataCh s_new) = false ->
       (length (buf (stream.dataCh s_new)) < cap (stream.dataCh s_new))%nat ->
       let m3 := set_heap
                   (<[new := stream.set_dataCh
                               (mkChan (buf (stream.dataCh s_new) ++ [payload])
                                       (cap (stream.dataCh s_new)) false)
                               s_new]> (heap m2)) m2 in
       handleData id payload pick' m2 = Ret tt m3
       ∧ heap m3 !! old = heap m2 !! old)
  ∧ (forall (m2 : Mux) (payload : list byte) (pick' : nat),
       closed m2 = false -> streams m2 !! id = None ->
       handleData id payload pick' m2 = Ret tt m2)
  ∧ (forall c m1 m2 r e,
       step c m1 = Ret r m2 -> result_error r = Some e ->
       root_error e <> ErrStreamExists).
Proof.
  intros Hopen Ha Hreg Hold. cbv zeta.
  set (new := length (heap m)). set (m1 := set_streams _ _).
  set (m' := set_acceptCh _ m1).
  assert (Hlt : (old < new)%nat) by (eapply lookup_lt_Some; eauto).
  assert (Hnew : heap m1 !! new = Some (new_mux_stream id))
    by (unfold m1; cbn; apply list_lookup_middle; reflexivity).
  assert (Hold' : heap m1 !! old = Some s_old)
    by (unfold m1; cbn; rewrite lookup_app_l by exact Hlt; exact Hold).
  assert (Hreg' : streams m1 !! id = Some new)
    by (unfold m1; cbn; apply lookup_insert_eq).
  assert (Hup : handleOpenStream id pick m
                = fmap_outcome (fun _ => tt) (handleOpenStream_resumed new pick m1)).
  { unfold handleOpenStream, handleOpenStream_resumed, bind, alloc_stream,
      modify, chan_send, m1, new.
    cbn [streams heap set_heap set_streams acceptCh closed].
    destruct (select _ pick) as [[]|]; [|reflexivity..].
    destruct (chclosed (acceptCh m)); reflexivity. }
  split; [lia|]. split; [exact Hreg'|]. split; [exact Hnew|].
  split; [exact Hold'|]. split; [exact Hup|].
  split; [|split; [|split; [|split]]].
  - intros Hroom.
    assert (Hret : handleOpenStream id pick m = Ret tt m').
    { rewrite Hup, handleOpenStream_resumed_open by exact Ha.
      change (closed m1) with (closed m). change (acceptCh m1) with (acceptCh m).
      rewrite Hopen.
      destruct (Nat.ltb_spec (length (buf (acceptCh m))) (cap (acceptCh m)));
        [reflexivity|lia]. }
    split; [exact Hret|]. split; [exact Hreg'|]. split; [exact Hnew|].
    split; [exact Hold'|].
    intros ps Hps.
    eexists. split.
    { apply (handleData_all_registered id new ps m' (new_mux_stream id));
        try assumption; try reflexivity; cbn; lia. }
    assert (Hlen : (new < length (heap m'))%nat)
      by (eapply lookup_lt_Some; exact Hnew).
    split; [|split].
    + eexists. split; [cbn [heap set_heap]; apply list_lookup_insert_eq, Hlen|].
      split; reflexivity.
    + cbn [heap set_heap]. rewrite list_lookup_insert_ne by lia. exact Hold'.
    + exact Hreg'.
  - intros Hfull. split; [|split; [reflexivity|]].
    + rewrite Hup, handleOpenStream_resumed_open by exact Ha.
      change (closed m1) with (closed m). change (acceptCh m1) with (acceptCh m).
      rewrite Hopen.
      destruct (Nat.ltb_spec (length (buf (acceptCh m))) (cap (acceptCh m)));
        [lia|reflexivity].
    + intros m2 pick' Ha2. rewrite handleOpenStream_resumed_open by exact Ha2.
      split; [|split].
      * intros -> Hroom2.
        destruct (Nat.ltb_spec (length (buf (acceptCh m2))) (cap (acceptCh m2)));
          [reflexivity|lia].
      * intros -> Hfull2.
        destruct (Nat.ltb_spec (length (buf (acceptCh m2))) (cap (acceptCh m2)));
          [lia|reflexivity].
      * intros -> Hfull2.
        destruct (Nat.ltb_spec (length (buf (acceptCh m2))) (cap (acceptCh m2)));
          [lia|reflexivity].
  - intros m2 s_new payload pick' _ Hr2 Hs2 Hc2 Hd2 Hroom2. cbv zeta. split.
    + apply handleData_registered; assumption.
    + cbn [heap set_heap]. apply list_lookup_insert_ne. lia.
  - intros m2 payload pick' _ Hnone. unfold handleData. rewrite Hnone.
    reflexivity.
  - intros c ma mb r e Hs He Hroot.
    pose proof (step_errors c ma mb r e Hs He) as Hin. rewrite Hroot in Hin.
    cbn in Hin. intuition discriminate.
Qed.

Lemma OPEN_STREAM_replaces_witness :
  let m := state_of (handleOpenStream 1 0 (NewMux true)) in
  exists m',
    handleOpenStream 1 0 m = Ret tt m'
    ∧ streams m' !! 1 = Some 1%nat
    ∧ heap m' !! 0%nat = Some (new_mux_stream 1)
    ∧ heap m' !! 1%nat = Some (new_mux_stream 1).
Proof.
  cbv zeta.
  destruct (OPEN_STREAM_replaces
              (state_of (handleOpenStream 1 0 (NewMux true))) 1 0
              (new_mux_stream 1) 0)
    as (_ & _ & _ & _ & _ & Hroom & _);
    try solve [reflexivity].
  destruct Hroom as (Hret & Hreg & Hnew & Hold & _); [vm_compute; lia|].
  eexists. split; [exact Hret|]. split; [exact Hreg|].
  split; [exact Hold|exact Hnew].
Defined.

End Reader.

(** ** [Stream.Write] *)

Section StreamWrite.
Import FrameCodec mux.

Lemma Write_stream_closed (m : Mux) (r p pick : nat) (s : stream.Stream) :
  heap m !! r = Some s -> stream.closed s = true ->
  Write r p pick m = Ret (0, Some ErrStreamClosed) m.
Proof. intros Hs Hc. unfold Write. rewrite Hs, Hc. reflexivity. Qed.

Lemma Write_mux_closed (m : Mux) (r p pick : nat) (s : stream.Stream) :
  heap m !! r = Some s -> stream.closed s = false -> closed m = true ->
  Write r p pick m =
  Ret (0, Some ErrMuxClosed) (set_mem (mem m ++ [load m p]) m).
Proof.
  intros Hs Hc Hm. unfold Write. rewrite Hs, Hc.
  unfold bind, alloc_buf, call_writeFn. destruct (stream.writeFn s) as [id].
  unfold makeWriteFn. cbn [closed set_mem]. rewrite Hm. reflexivity.
Qed.

(** An open stream behind a mux that is shut down: [Write] returns
    [ErrMuxClosed] and no frame is submitted, although the stream is not
    closed.  The state is reached by calls that all return. *)
Lemma Write_open_stream_shut_mux :
  match run replaced_then_shut (NewMux true) with
  | Some tr =>
      let m := final (NewMux true) tr in
      stream.closed <$> heap m !! 0%nat = Some false
      ∧ closed m = true
      ∧ returned (Write 0 0 0 m) = Some (0, Some ErrMuxClosed)
      ∧ buf (writeCh (state_of (Write 0 0 0 m))) = buf (writeCh m)
  | None => False
  end.
Proof. vm_compute. repeat split; reflexivity. Qed.

(** [Write] on an open stream of a mux that is not shut down: the copy of
    [p] and the frame are made, and the call is at the [select] of
    [writeWS]. *)
Lemma Write_upto_select (m : Mux) (r p pick : nat) (s : stream.Stream) :
  heap m !! r = Some s -> stream.closed s = false -> closed m = false ->
  Write r p pick m =
  Write_resumed (S (length (mem m))) (Z.of_nat (length (load m p))) pick
    (set_mem ((mem m ++ [load m p])
                ++ [EncodeFrame (mkFrame FrameData (writeFn_id s) (load m p))]) m).
Proof.
  intros Hs Hc Hm. unfold Write. rewrite Hs, Hc.
  unfold bind at 1, alloc_buf. unfold call_writeFn, writeFn_id.
  destruct (stream.writeFn s) as [id].
  unfold bind at 1, makeWriteFn. cbn [closed set_mem]. rewrite Hm.
  unfold bind at 1, encode, alloc_buf. cbn [mem set_mem].
  assert (Hl : load (set_mem (mem m ++ [load m p]) m) (length (mem m))
               = load m p).
  { unfold load at 1. cbn [mem set_mem].
    rewrite list_lookup_middle by reflexivity. reflexivity. }
  rewrite Hl, length_app. cbn [length].
  replace (length (mem m) + 1)%nat with (S (length (mem m))) by lia.
  unfold Write_resumed, bind.
  destruct (writeWS _ pick _) as [[e|] m'|m'|m']; reflexivity.
Qed.

(** How a [Write] that had to wait goes on. *)
Lemma Write_resumed_ends (frame : nat) (n : Z) (pick : nat) (m : Mux) :
  (Write_resumed frame n pick m = Ret (n, None) (queued frame m)
   ∧ chclosed (writeCh m) = false ∧ has_room m)
  ∨ (Write_resumed frame n pick m = Ret (0, Some ErrMuxClosed) m
     ∧ (closed m = true ∨ chclosed (writeCh m) = true))
  ∨ (Write_resumed frame n pick m = Block m
     ∧ closed m = false ∧ chclosed (writeCh m) = false ∧ queue_full m).
Proof.
  unfold Write_resumed, bind.
  destruct (writeWS_ends frame pick m) as [(-> & H)|[(-> & H)|(-> & H)]];
    [left|right; left|right; right]; (split; [reflexivity|exact H]).
Qed.

(** C4 (amended).  [Write(p)] on a stream:
    - if the stream is closed, it returns 0 and [ErrStreamClosed] and
      changes nothing;
    - if the stream is not closed but the mux is shut down ([closed] is
      closed, or the outbound queue is), it returns 0 and [ErrMuxClosed];
      only private buffers have been made, nothing is put in the queue;
    - if neither is closed and the outbound queue has room, it returns
      [len(p)] and no error after putting exactly one frame at the end of
      the outbound queue: a fresh buffer holding the [DATA] frame of the
      stream whose payload is the bytes of [p], unsplit.  The frame shares
      nothing with [p]: when the caller overwrites [p] afterwards, the
      frame and the queue do not change;
    - if neither is closed and the outbound queue is full, it has made the
      copy and that one frame and waits at the [select] of [writeWS], with
      nothing put in the queue.  In whatever state the other tasks have
      brought the mux to, the call goes on in one of three ways: it puts
      that frame at the end of the queue, which has room, and returns
      [len(p)] and no error; it returns 0 and [ErrMuxClosed] with nothing
      put in the queue, the mux being shut down; or it waits on, the mux
      not being shut down and the queue being full.  With room in the queue
      of a mux that is not shut down it is the first; on a mux that is shut
      down, with the queue closed or full, it is the second.  The buffer
      still holds that frame then, whatever calls were made meanwhile
      (nobody else has the buffer to write into it). *)
Theorem Write_submits_one_frame (m : Mux) (r p pick : nat) (s : stream.Stream) :
  heap m !! r = Some s ->
  (stream.closed s = true ->
   Write r p pick m = Ret (0, Some ErrStreamClosed) m)
  ∧ (stream.closed s = false -> closed m = true ->
     Write r p pick m =
     Ret (0, Some ErrMuxClosed) (set_mem (mem m ++ [load m p]) m))
  ∧ (stream.closed s = false -> closed m = false ->
     chclosed (writeCh m) = true ->
     let data := EncodeFrame (mkFrame FrameData (writeFn_id s) (load m p)) in
     Write r p pick m =
     Ret (0, Some ErrMuxClosed) (set_mem ((mem m ++ [load m p]) ++ [data]) m))
  ∧ (stream.closed s = false -> closed m = false ->
     chclosed (writeCh m) = false ->
     (length (buf (writeCh m)) < cap (writeCh m))%nat ->
     let data := EncodeFrame (mkFrame FrameData (writeFn_id s) (load m p)) in
     let frame := S (length (mem m)) in
     let m' := set_writeCh (mkChan (buf (writeCh m) ++ [frame])
                                   (cap (writeCh m)) false)
                 (set_mem ((mem m ++ [load m p]) ++ [data]) m) in
     Write r p pick m = Ret (Z.of_nat (length (load m p)), None) m'
     ∧ load m' frame = data
     ∧ (queue_in_mem m -> outbox m' = outbox m ++ [data])
     ∧ ((p < length (mem m))%nat ->
        forall content,
          let m2 := state_of (step (call_overwrite p content) m') in
          load m2 p = content
          ∧ load m2 frame = data
          ∧ buf (writeCh m2) = buf (writeCh m')
          ∧ (queue_in_mem m -> p ∉ buf (writeCh m) ->
             outbox m2 = outbox m')))
  ∧ (stream.closed s = false -> closed m = false ->
     chclosed (writeCh m) = false -> queue_full m ->
     let data := EncodeFrame (mkFrame FrameData (writeFn_id s) (load m p)) in
     let frame := S (length (mem m)) in
     let n := Z.of_nat (length (load m p)) in
     let m1 := set_mem ((mem m ++ [load m p]) ++ [data]) m in
     Write r p pick m = Block m1
     ∧ Write r p pick m = Write_resumed frame n pick m1
     ∧ load m1 frame = data
     ∧ writeCh m1 = writeCh m
     ∧ (forall cs, leaves_buffer frame cs ->
          load (exec cs m1) frame = data
          ∧ outbox (queued frame (exec cs m1))
            = outbox (exec cs m1) ++ [data])
     ∧ forall (m2 : Mux) (pick' : nat),
         ((Write_resumed frame n pick' m2 = Ret (n, None) (queued frame m2)
           ∧ chclosed (writeCh m2) = false ∧ has_room m2)
          ∨ (Write_resumed frame n pick' m2 = Ret (0, Some ErrMuxClosed) m2
             ∧ (closed m2 = true ∨ chclosed (writeCh m2) = true))
          ∨ (Write_resumed frame n pick' m2 = Block m2
             ∧ closed m2 = false ∧ chclosed (writeCh m2) = false
             ∧ queue_full m2))
         ∧ (closed m2 = false -> chclosed (writeCh m2) = false ->
            has_room m2 ->
            Write_resumed frame n pick' m2 = Ret (n, None) (queued frame m2))
         ∧ (closed m2 = true ->
            chclosed (writeCh m2) = true ∨ queue_full m2 ->
            Write_resumed frame n pick' m2
            = Ret (0, Some ErrMuxClosed) m2)).
Proof.
  intros Hs. split; [|split; [|split; [|split]]].
  - intros Hc. apply (Write_stream_closed m r p pick s); assumption.
  - intros Hc Hm. apply (Write_mux_closed m r p pick s); assumption.
  - intros Hc Hm Hw. cbv zeta.
    rewrite (Write_upto_select m r p pick s Hs Hc Hm).
    unfold Write_resumed, bind.
    rewrite writeWS_queue_closed by exact Hw. reflexivity.
  - intros Hc Hm Hw Hroom. cbv zeta.
    set (data := EncodeFrame _). set (m' := set_writeCh _ _).
    assert (Hframe : load m' (S (length (mem m))) = data).
    { unfold load, m'; cbn [mem set_writeCh set_mem].
      rewrite lookup_app_r by (rewrite length_app; cbn; lia).
      rewrite length_app; cbn [length].
      replace (S (length (mem m)) - (length (mem m) + 1))%nat with 0%nat by lia.
      reflexivity. }
    assert (Hold : forall q, (q < length (mem m))%nat -> load m' q = load m q).
    { intros q Hq. unfold load, m'; cbn [mem set_writeCh set_mem].
      rewrite <- app_assoc, lookup_app_l by exact Hq. reflexivity. }
    assert (Hout : queue_in_mem m -> outbox m' = outbox m ++ [data]).
    { intros Hq. unfold outbox. cbn [m' writeCh set_writeCh buf].
      rewrite map_app. cbn [map]. rewrite Hframe. f_equal.
      apply map_ext_in. intros q Hin. apply Hold.
      unfold queue_in_mem in Hq. rewrite Forall_forall in Hq.
      apply Hq, list_elem_of_In, Hin. }
    split; [|split; [exact Hframe|split; [exact Hout|]]].
    + unfold Write. rewrite Hs, Hc.
      unfold bind, alloc_buf, call_writeFn, writeFn_id in *.
      destruct (stream.writeFn s) as [id].
      unfold makeWriteFn, bind, encode, alloc_buf. cbn [closed set_mem mem].
      rewrite Hm, writeWS_open by assumption.
      cbn [writeCh set_mem buf cap mem].
      destruct (Nat.ltb_spec (length (buf (writeCh m))) (cap (writeCh m)));
        [|lia].
      unfold ret, m', data. rewrite length_app. cbn [length].
      replace (length (mem m) + 1)%nat with (S (length (mem m))) by lia.
      assert (Hl : load (set_mem (mem m ++ [load m p]) m) (length (mem m))
                   = load m p).
      { unfold load at 1. cbn [mem set_mem].
        rewrite list_lookup_middle by reflexivity. reflexivity. }
      rewrite Hl. reflexivity.
    + intros Hp content. cbn [step state_of].
      assert (Hlen : length (mem m') = S (S (length (mem m))))
        by (unfold m'; cbn; rewrite !length_app; cbn; lia).
      assert (Hothers : forall q, q <> p ->
                load (set_mem (<[p := content]> (mem m')) m') q = load m' q).
      { intros q Hq. unfold load. cbn [mem set_mem].
        rewrite list_lookup_insert_ne by congruence. reflexivity. }
      split; [|split; [|split]].
      * unfold load. cbn [mem set_mem].
        rewrite list_lookup_insert_eq by lia. reflexivity.
      * rewrite Hothers by lia. exact Hframe.
      * reflexivity.
      * intros Hq Hnotin. unfold outbox. cbn [writeCh set_mem].
        apply map_ext_in. intros q Hin. apply Hothers.
        cbn [m' writeCh set_writeCh buf] in Hin.
        apply in_app_or in Hin as [Hin|[<-|[]]]; [|lia].
        intros ->. apply Hnotin, list_elem_of_In, Hin.
  - intros Hc Hm Hw Hfull. cbv zeta.
    set (data := EncodeFrame _). set (m1 := set_mem _ m).
    pose proof (Write_upto_select m r p pick s Hs Hc Hm) as Hup.
    fold data in Hup. fold m1 in Hup.
    assert (Hwait : forall frame n,
               Write_resumed frame n pick m1 = Block m1).
    { intros frame n. unfold Write_resumed, bind.
      rewrite writeWS_open by assumption.
      unfold queue_full in Hfull. cbn [writeCh set_mem m1].
      destruct (Nat.ltb_spec (length (buf (writeCh m))) (cap (writeCh m)));
        [lia|reflexivity]. }
    assert (Hframe : load m1 (S (length (mem m))) = data).
    { unfold load, m1; cbn [mem set_mem].
      rewrite lookup_app_r by (rewrite length_app; cbn; lia).
      rewrite length_app; cbn [length].
      replace (S (length (mem m)) - (length (mem m) + 1))%nat with 0%nat by lia.
      reflexivity. }
    split; [rewrite Hup; apply Hwait|]. split; [exact Hup|].
    split; [exact Hframe|]. split; [reflexivity|]. split.
    { intros cs Hcs. apply parked_frame_kept; [|exact Hframe|exact Hcs].
      unfold m1; cbn. rewrite !length_app. cbn. lia. }
    intros m2 pick'. split; [apply Write_resumed_ends|]. split.
    + intros Hm2 Hw2 Hroom2.
      destruct (Write_resumed_ends (S (length (mem m)))
                  (Z.of_nat (length (load m p))) pick' m2)
        as [(H & _)|[(_ & [H|H])|(_ & _ & _ & H)]];
        [exact H|congruence|congruence|unfold has_room, queue_full in *; lia].
    + intros Hm2 Hcase. unfold Write_resumed, bind.
      rewrite writeWS_refuses by assumption. reflexivity.
Qed.

Lemma Write_submits_one_frame_witness :
  let m := state_of (step (call_make [x68; x69])
                       (state_of (step (call_OpenStream 0) (NewMux false)))) in
  Write 0 1 0 m
  = Ret (2, None)
        (set_writeCh (mkChan (buf (writeCh m) ++ [3%nat]) 256 false)
           (set_mem ((mem m ++ [[x68; x69]])
                       ++ [EncodeFrame (mkFrame FrameData 1 [x68; x69])]) m)).
Proof.
  cbv zeta.
  destruct (Write_submits_one_frame
              (state_of (step (call_make [x68; x69])
                           (state_of (step (call_OpenStream 0) (NewMux false)))))
              0 1 0 (new_mux_stream 1) eq_refl) as (_ & _ & _ & H & _).
  apply H; solve [reflexivity | vm_compute; lia].
Defined.

End StreamWrite.

(** ** [Stream.Close], [closeRead] and [shutdown] *)

Section StreamClose.
Import FrameCodec mux.

Lemma on_stream_Ret {A} (r : nat) (f : stream.Stream -> outcome stream.Stream A)
  (m : Mux) (s s' : stream.Stream) (a : A) :
  heap m !! r = Some s -> f s = Ret a s' ->
  on_stream r f m = Ret a (set_heap (<[r := s']> (heap m)) m).
Proof. intros Hs Hf. unfold on_stream. rewrite Hs, Hf. reflexivity. Qed.

Lemma on_stream_inv {A} (r : nat) (f : stream.Stream -> outcome stream.Stream A)
  (m m' : Mux) (a : A) :
  on_stream r f m = Ret a m' ->
  exists s s', heap m !! r = Some s ∧ f s = Ret a s'
               ∧ m' = set_heap (<[r := s']> (heap m)) m.
Proof.
  unfold on_stream. destruct (heap m !! r) as [s|]; [|discriminate].
  destruct (f s) as [a' s'|s'|s'] eqn:Hf; try discriminate.
  intros [= <- <-]. eauto.
Qed.

Lemma on_stream_set (r : nat) (g : stream.Stream -> stream.Stream)
  (m : Mux) (s : stream.Stream) :
  heap m !! r = Some s ->
  on_stream r (fun s => Ret tt (g s)) m
  = Ret tt (set_heap (<[r := g s]> (heap m)) m).
Proof. intros Hs. unfold on_stream. rewrite Hs. reflexivity. Qed.

(** A [closeRead] that returns leaves the guard spent; it closes a stream
    whose guard was fresh, and does nothing to one whose guard was spent. *)
Lemma closeRead_Ret (s s' : stream.Stream) :
  stream.closeRead s = Ret tt s' ->
  stream.closeOnce s' = OnceDone
  ∧ (stream.closeOnce s = OnceIdle -> stream.closed s' = true)
  ∧ (stream.closeOnce s = OnceDone -> s' = s).
Proof.
  unfold stream.closeRead, bind, stream.close_closed.
  destruct (stream.closeOnce s) eqn:Ho; try discriminate.
  - cbn. destruct (stream.closed s); [discriminate|].
    intros [= <-]. cbn. repeat split; auto. discriminate.
  - intros [= <-]. repeat split; auto. discriminate.
Qed.

Lemma closeRead_fresh (s : stream.Stream) :
  stream.closeOnce s = OnceIdle -> stream.closed s = false ->
  stream.closeRead s =
  Ret tt (stream.set_closeOnce OnceDone (stream.set_closed true s)).
Proof.
  intros Ho Hc. unfold stream.closeRead, bind, stream.close_closed.
  rewrite Ho. cbn. rewrite Hc. reflexivity.
Qed.

Lemma closeRead_all_keeps (rs : list nat) :
  forall (m m' : Mux) (r : nat) (s : stream.Stream),
    heap m !! r = Some s -> stream.closeOnce s = OnceDone ->
    closeRead_all rs m = Ret tt m' -> heap m' !! r = Some s.
Proof.
  induction rs as [|r0 rs IH]; intros m m' r s Hs Hd Hrun.
  - injection Hrun as <-. exact Hs.
  - cbn [closeRead_all] in Hrun.
    apply bind_Ret in Hrun as ([] & m1 & H1 & Hrun).
    apply on_stream_inv in H1 as (s0 & s0' & Hs0 & Hc & ->).
    apply (IH (set_heap (<[r0 := s0']> (heap m)) m) m' r s);
      [|exact Hd|exact Hrun]. cbn.
    destruct (decide (r = r0)) as [->|Hne].
    + assert (s0 = s) by congruence. subst s0.
      apply closeRead_Ret in Hc as (_ & _ & Hsame).
      rewrite (Hsame Hd).
      rewrite list_lookup_insert_eq by (eapply lookup_lt_Some; eauto).
      reflexivity.
    + rewrite list_lookup_insert_ne by congruence. exact Hs.
Qed.

Lemma closeRead_all_spent (rs : list nat) :
  forall (m m' : Mux) (r : nat),
    In r rs -> closeRead_all rs m = Ret tt m' ->
    exists s', heap m' !! r = Some s'
               ∧ stream.closeOnce s' = OnceDone
               ∧ (forall s, heap m !! r = Some s ->
                    stream.closeOnce s = OnceIdle ∨ stream.closed s = true ->
                    stream.closed s' = true).
Proof.
  induction rs as [|r0 rs IH]; intros m m' r Hin Hrun; [destruct Hin|].
  cbn [closeRead_all] in Hrun.
  apply bind_Ret in Hrun as ([] & m1 & H1 & Hrun).
  pose proof H1 as H1'.
  apply on_stream_inv in H1 as (s0 & s0' & Hs0 & Hc & ->).
  destruct (decide (r = r0)) as [->|Hne].
  - pose proof (closeRead_Ret _ _ Hc) as (Hdone & Hidle & Hsame).
    exists s0'. split; [|split; [exact Hdone|]].
    + apply (closeRead_all_keeps rs (set_heap (<[r0 := s0']> (heap m)) m)
               m' r0 s0'); [|exact Hdone|exact Hrun].
      cbn. apply list_lookup_insert_eq. eapply lookup_lt_Some; eauto.
    + intros s Hs [Hi|Hcl]; assert (s = s0) by congruence; subst s.
      * auto.
      * pose proof (closeRead_le s0) as (_ & _ & _ & Hmono).
        rewrite Hc in Hmono. cbn in Hmono. auto.
  - destruct Hin as [->|Hin]; [congruence|].
    destruct (IH (set_heap (<[r0 := s0']> (heap m)) m) m' r Hin Hrun)
      as (s' & Hs' & Hdone & Hcl).
    exists s'. split; [exact Hs'|split; [exact Hdone|]].
    intros s Hs. apply Hcl. cbn.
    rewrite list_lookup_insert_ne by congruence. exact Hs.
Qed.

(** After [closeRead_all], [teardown] does not touch the streams. *)
Lemma teardown_Ret (fw : bool) (m m' : Mux) :
  teardown fw m = Ret tt m' ->
  exists m1,
    closeRead_all (map snd (map_to_list (streams m))) m = Ret tt m1
    ∧ heap m' = heap m1.
Proof.
  unfold teardown. intros H.
  apply bind_Ret in H as ([] & m1 & H1 & H).
  exists m1. split; [exact H1|].
  apply bind_Ret in H as ([] & m2 & H2 & H). injection H2 as <-.
  apply bind_Ret in H as ([] & m3 & H3 & H).
  apply bind_Ret in H as ([] & m4 & H4 & H).
  apply bind_Ret in H as ([] & m5 & H5 & H).
  injection H as <-. cbn [heap set_conn].
  unfold close_chan in H3, H4.
  destruct (chan_close _) in H3; [|discriminate]. injection H3 as <-.
  destruct (chan_close _) in H4; [|discriminate]. injection H4 as <-.
  assert (Hh : heap (state_of (await_writer fw
                 (buf (writeCh (set_writeCh c0 (set_acceptCh c
                    (set_streams ∅ m1)))))
                 (set_writeCh c0 (set_acceptCh c (set_streams ∅ m1)))))
               = heap m1).
  { refine (stable_await_writer (fun a b => heap b = heap a)
              _ _ _ _ _ fw _ _);
      solve [reflexivity | intros; cbn; congruence]. }
  rewrite H5 in Hh. exact Hh.
Qed.

(** A [shutdown] that runs and returns has closed the read side of every
    stream of the registry. *)
Lemma shutdown_Ret (fw : bool) (m m' : Mux) (id : Z) (r : nat) :
  once m = OnceIdle -> shutdown fw m = Ret tt m' ->
  streams m !! id = Some r ->
  exists s', heap m' !! r = Some s'
             ∧ stream.closeOnce s' = OnceDone
             ∧ (forall s, heap m !! r = Some s ->
                  stream.closeOnce s = OnceIdle ∨ stream.closed s = true ->
                  stream.closed s' = true).
Proof.
  intros Ho Hrun Hreg. unfold shutdown in Hrun. rewrite Ho in Hrun.
  apply bind_Ret in Hrun as ([] & m1 & H1 & Hrun). injection H1 as <-.
  apply bind_Ret in Hrun as ([] & m2 & H2 & Hrun).
  unfold close_closed in H2. cbn [closed set_once] in H2.
  destruct (closed m); [discriminate|]. injection H2 as <-.
  apply bind_Ret in Hrun as ([] & m3 & H3 & Hrun). injection Hrun as <-.
  apply teardown_Ret in H3 as (m4 & H4 & Hheap).
  cbn [heap set_once]. rewrite Hheap.
  cbn [streams set_closed set_once] in H4.
  apply (closeRead_all_spent _ _ m4 r) in H4; [exact H4|].
  apply in_map_iff. exists (id, r). split; [reflexivity|].
  apply list_elem_of_In, elem_of_map_to_list, Hreg.
Qed.

End StreamClose.

(** ** Streams that no [Close] is working on *)

Section Settled.
Import FrameCodec mux scene.

Lemma set_heap_heap (m : Mux) : set_heap (heap m) m = m.
Proof. destruct m; reflexivity. Qed.

Lemma closeRead_settled (s : stream.Stream) :
  settled s = true ->
  exists s', stream.closeRead s = Ret tt s'
             ∧ settled s' = true ∧ stream.closed s' = true.
Proof.
  unfold settled. intros H. destruct (stream.closeOnce s) eqn:Ho;
    [|discriminate|].
  - apply negb_true_iff in H. exists (closed_stream s).
    split; [apply closeRead_fresh; assumption|]. split; reflexivity.
  - exists s. unfold stream.closeRead. rewrite Ho.
    split; [reflexivity|]. auto.
Qed.

(** Closing settled streams goes through, touches only stream objects, and
    leaves every stream it was asked to close closed. *)
Lemma closeRead_all_settled (rs : list nat) :
  forall m : Mux,
    forallb (fun r => from_option settled false (heap m !! r)) rs = true ->
    exists h,
      closeRead_all rs m = Ret tt (set_heap h m)
      ∧ length h = length (heap m)
      ∧ (forall r s, heap m !! r = Some s -> stream.closed s = true ->
           exists s', h !! r = Some s' ∧ stream.closed s' = true)
      ∧ Forall (fun r => exists s', h !! r = Some s' ∧ stream.closed s' = true) rs.
Proof.
  induction rs as [|r rs IH]; intros m Hall.
  - exists (heap m). rewrite set_heap_heap. repeat split; eauto.
  - cbn [forallb] in Hall. apply andb_true_iff in Hall as [Hr Hall].
    destruct (heap m !! r) as [s|] eqn:Hs; [|discriminate]. cbn in Hr.
    destruct (closeRead_settled s Hr) as (s1 & Hclose & Hset1 & Hc1).
    assert (Hlt : (r < length (heap m))%nat) by (eapply lookup_lt_Some; eauto).
    set (m1 := set_heap (<[r := s1]> (heap m)) m).
    assert (Hall1 : forallb (fun r' => from_option settled false (heap m1 !! r'))
                      rs = true).
    { apply forallb_forall. intros r' Hin.
      rewrite forallb_forall in Hall. specialize (Hall r' Hin).
      unfold m1; cbn [heap set_heap].
      destruct (Nat.eq_dec r' r) as [->|Hne].
      - rewrite list_lookup_insert_eq by exact Hlt. exact Hset1.
      - rewrite list_lookup_insert_ne by congruence. exact Hall. }
    destruct (IH m1 Hall1) as (h & Hrun & Hlen & Hmono & Hrs).
    exists h. split; [|split; [|split]].
    + cbn [closeRead_all]. unfold bind.
      rewrite (on_stream_Ret r _ m s s1 tt Hs Hclose). exact Hrun.
    + rewrite Hlen. unfold m1; cbn [heap set_heap]. apply length_insert.
    + intros r' s' Hs' Hc'. apply (Hmono r' (if Nat.eq_dec r' r then s1 else s')).
      * unfold m1; cbn [heap set_heap]. destruct (Nat.eq_dec r' r) as [->|Hne].
        -- apply list_lookup_insert_eq. exact Hlt.
        -- rewrite list_lookup_insert_ne by congruence. exact Hs'.
      * destruct (Nat.eq_dec r' r); assumption.
    + constructor; [|exact Hrs]. apply (Hmono r s1); [|exact Hc1].
      unfold m1; cbn [heap set_heap]. apply list_lookup_insert_eq. exact Hlt.
Qed.

(** What a call does after [c] keeps what [c] has established. *)
Lemma bind_state {A B} (P : Mux -> Prop) (c : M A) (k : A -> M B) (m : Mux) :
  P (state_of (c m)) ->
  (forall a m1, P m1 -> P (state_of (k a m1))) ->
  P (state_of (bind c k m)).
Proof.
  intros Hc Hk. unfold bind.
  destruct (c m) as [a m1|m1|m1]; cbn [state_of] in *; try exact Hc.
  apply Hk, Hc.
Qed.

(** When no [Close] is under way on a stream of the registry, [shutdown]
    gets through its loop over the registry: every registered stream is
    closed, its guard spent, from then on, whether the wait for the writer
    task that follows ends or not. *)
Lemma shutdown_closes_registry (fw : bool) (m : Mux) (id : Z) (r : nat) :
  once m = OnceIdle -> closed m = false -> registry_settled m = true ->
  streams m !! id = Some r ->
  spent_at r (state_of (shutdown fw m)).
Proof.
  intros Ho Hc Hreg Hid. unfold shutdown. rewrite Ho.
  unfold bind at 1, modify at 1. unfold bind at 1, close_closed.
  cbn [closed set_once]. rewrite Hc.
  set (m2 := set_closed true (set_once OnceRunning m)).
  apply bind_state; [|intros _ m1 H; exact H].
  unfold teardown.
  destruct (closeRead_all_settled (map snd (map_to_list (streams m))) m2 Hreg)
    as (h & Hrun & _ & _ & _).
  assert (Hin : In r (map snd (map_to_list (streams m)))).
  { apply in_map_iff. exists (id, r). split; [reflexivity|].
    apply list_elem_of_In, elem_of_map_to_list. exact Hid. }
  assert (Hr : spent_at r (set_heap h m2)).
  { destruct (closeRead_all_spent _ m2 _ r Hin Hrun) as (s' & Hs' & Hd & Hcl).
    exists s'. split; [exact Hs'|]. split; [exact Hd|].
    unfold registry_settled in Hreg. rewrite forallb_forall in Hreg.
    specialize (Hreg r Hin). change (heap m) with (heap m2) in Hreg.
    destruct (heap m2 !! r) as [s0|] eqn:Hs0; [|discriminate].
    apply (Hcl s0 eq_refl). cbn in Hreg. unfold settled in Hreg.
    destruct (stream.closeOnce s0); [left; reflexivity|discriminate|].
    right. exact Hreg. }
  unfold bind at 1. change (streams m2) with (streams m). rewrite Hrun.
  assert (Hkeep : forall (c : M unit) m1,
             mux.stable (fun a b => heap b = heap a) c ->
             spent_at r m1 -> spent_at r (state_of (c m1))).
  { intros c m1 Hst H. unfold spent_at. rewrite (Hst m1). exact H. }
  apply Hkeep; [|exact Hr].
  assert (Hb : forall (c : M unit) (k : unit -> M unit),
             mux.stable (fun a b => heap b = heap a) c ->
             (forall a, mux.stable (fun a b => heap b = heap a) (k a)) ->
             mux.stable (fun a b => heap b = heap a) (bind c k)).
  { intros c k. apply stable_bind. intros a b c0 H1 H2. congruence. }
  assert (Hcl : forall get set,
             (forall ch m', heap (set ch m') = heap m') ->
             mux.stable (fun a b => heap b = heap a) (close_chan get set)).
  { intros get set Hset m'. unfold close_chan.
    destruct (chan_close _); cbn [state_of]; [apply Hset|reflexivity]. }
  apply Hb; [intros m'; reflexivity|intros _].
  apply Hb; [apply Hcl; reflexivity|intros _].
  apply Hb; [apply Hcl; reflexivity|intros _].
  apply Hb; [|intros _; intros m'; reflexivity].
  intros m'. refine (stable_await_writer (fun a b => heap b = heap a)
                       _ _ _ _ _ fw _ _);
    solve [reflexivity | intros; cbn; congruence].
Qed.

End Settled.

(** ** [Stream.Close] is one-shot *)

Section CloseOnce.
Import FrameCodec mux scene.

(** The first [Close] of an open stream up to the [select] of [writeWS]:
    the guard is taken, the stream is closed and the [CLOSE_STREAM] frame is
    built. *)
Lemma Stream_Close_upto_select (m : Mux) (r pick : nat) (s : stream.Stream)
  (id : Z) :
  heap m !! r = Some s ->
  stream.closeFn s = Some (stream.makeCloseFn_of id) ->
  stream.closeOnce s = OnceIdle -> stream.closed s = false ->
  Stream_Close r pick m =
  Stream_Close_resumed r id (length (mem m)) pick
    (set_heap (<[r := stream.set_closed true
                         (stream.set_closeOnce OnceRunning s)]> (heap m))
       (set_mem (mem m ++ [close_frame id]) m)).
Proof.
  intros Hs Hfn Ho Hc.
  assert (Hlt : (r < length (heap m))%nat) by (eapply lookup_lt_Some; eauto).
  unfold Stream_Close. rewrite Hs, Ho, Hfn. unfold bind at 1.
  rewrite (on_stream_set r _ m s Hs).
  unfold bind at 1.
  rewrite (on_stream_Ret r _ _ (stream.set_closeOnce OnceRunning s)
             (stream.set_closed true (stream.set_closeOnce OnceRunning s)) tt);
    [|cbn; apply list_lookup_insert_eq, Hlt
     |unfold stream.close_closed; cbn; rewrite Hc; reflexivity].
  cbn [heap set_heap]. rewrite list_insert_insert_eq.
  unfold bind at 1, call_closeFn, makeCloseFn.
  unfold bind at 1, encode, alloc_buf.
  unfold Stream_Close_resumed. cbn [mem set_heap].
  unfold bind.
  match goal with
  | |- match match writeWS _ _ ?a with _ => _ end with _ => _ end
       = match writeWS _ _ ?b with _ => _ end =>
      change a with b; destruct (writeWS (length (mem m)) pick b)
        as [e m'|m'|m']; [|reflexivity..]
  end.
  destruct (removeStream id m') as [[] m''|m''|m'']; [|reflexivity..].
  destruct (on_stream r _ m'') as [[] m3|m3|m3]; reflexivity.
Qed.

(** How a [Close] that had to wait goes on, [s] being the stream as it is
    by then. *)
Lemma Stream_Close_resumed_ends (r : nat) (id : Z) (frame pick : nat)
  (m : Mux) (s : stream.Stream) :
  heap m !! r = Some s ->
  (Stream_Close_resumed r id frame pick m
   = Ret None (Close_finished r id s (queued frame m))
   ∧ chclosed (writeCh m) = false ∧ has_room m)
  ∨ (Stream_Close_resumed r id frame pick m = Ret None (Close_finished r id s m)
     ∧ (closed m = true ∨ chclosed (writeCh m) = true))
  ∨ (Stream_Close_resumed r id frame pick m = Block m
     ∧ closed m = false ∧ chclosed (writeCh m) = false ∧ queue_full m).
Proof.
  intros Hs. unfold Stream_Close_resumed.
  destruct (writeWS_ends frame pick m) as [(E & H)|[(E & H)|(E & H)]];
    [left|right; left|right; right];
    (split; [|exact H]); unfold bind at 1; rewrite E; [| |reflexivity];
    unfold bind, removeStream, modify, ret;
    erewrite on_stream_set by (cbn; exact Hs); reflexivity.
Qed.

(** A stream that is open behind a mux that is shut down: the first local
    [Close] returns nil and so does the second, but no [CLOSE_STREAM] frame
    is put in the outbound queue or sent, by either. *)
Lemma Close_open_stream_shut_mux :
  match run replaced_then_shut (NewMux true) with
  | Some tr =>
      let m := final (NewMux true) tr in
      let m1 := state_of (Stream_Close 0 0 m) in
      let m2 := state_of (Stream_Close 0 1 m1) in
      stream.closeOnce <$> heap m !! 0%nat = Some OnceIdle
      ∧ stream.closed <$> heap m !! 0%nat = Some false
      ∧ returned (Stream_Close 0 0 m) = Some None
      ∧ returned (Stream_Close 0 1 m1) = Some None
      ∧ buf (writeCh m) = [] ∧ buf (writeCh m1) = [] ∧ buf (writeCh m2) = []
      ∧ sent (conn m2) = []
  | None => False
  end.
Proof. vm_compute. repeat split; reflexivity. Qed.

(** C6 (amended).  [Close] on a stream never returns anything but nil, and
    teardown is one-shot, under the one guard [closeOnce] that [Close] and
    [closeRead] share:
    - once the guard is spent, [Close] returns nil and changes nothing;
    - the first [Close] of an open stream, on a mux that is not shut down
      and whose outbound queue has room, puts exactly one frame at the end
      of the outbound queue, the [CLOSE_STREAM] frame of the stream, removes
      the registry entry, closes the stream and spends the guard; any number
      of further [Close] calls return nil and change nothing;
    - on a mux that is not shut down and whose outbound queue is full, the
      first [Close] of an open stream has taken the guard, closed the stream
      and built its frame, and waits at the [select] of [writeWS] with
      nothing put in the queue; every other [Close] of the stream waits for
      the guard.  In a state in which no [shutdown] is under way, the call
      goes on to return nil with the registry entry removed and the guard
      spent, after putting that one frame in the queue when the mux is not
      shut down and the queue has room, and without a frame when the mux is
      shut down and the queue is closed or full.  The buffer still holds
      that frame then, whatever calls were made meanwhile (nobody else has
      the buffer to write into it).  (While a [shutdown] is
      under way it may hold the lock of the registry, which the close
      closure needs, and wait for the guard of this stream: nothing is
      stated for that case.);
    - the first [Close] of an open stream on a mux whose outbound queue has
      been closed by [shutdown] closes the stream and spends the guard, but
      the queue refuses the frame: none is enqueued;
    - [closeRead] on an open stream (what a received [CLOSE_STREAM] runs, and
      what [shutdown] runs on every stream of the registry) closes the
      stream and spends the guard: a later [Close] enqueues nothing;
    - after a [shutdown] that found no [Close] under way on a stream of the
      registry, whether it returned or not, [Close] on a stream that was
      registered returns nil and changes nothing. *)
Theorem Close_one_shot (m : Mux) (r : nat) (s : stream.Stream) (id : Z) :
  heap m !! r = Some s ->
  stream.closeFn s = Some (stream.makeCloseFn_of id) ->
  let s' := stream.set_closeOnce OnceDone (stream.set_closed true s) in
  (forall pick e m', Stream_Close r pick m = Ret e m' -> e = None)
  ∧ (stream.closeOnce s = OnceDone ->
     forall pick, Stream_Close r pick m = Ret None m)
  ∧ (stream.closeOnce s = OnceIdle -> stream.closed s = false ->
     closed m = false -> chclosed (writeCh m) = false ->
     (length (buf (writeCh m)) < cap (writeCh m))%nat ->
     forall pick,
       let frame := length (mem m) in
       let m' := set_heap (<[r := s']> (heap m))
                   (set_streams (delete id (streams m))
                      (set_writeCh (mkChan (buf (writeCh m) ++ [frame])
                                           (cap (writeCh m)) false)
                         (set_mem (mem m ++ [close_frame id]) m))) in
       Stream_Close r pick m = Ret None m'
       ∧ buf (writeCh m') = buf (writeCh m) ++ [frame]
       ∧ load m' frame = close_frame id
       ∧ (queue_in_mem m -> outbox m' = outbox m ++ [close_frame id])
       ∧ forall picks,
           run (Close_calls r picks) m' =
           Some (map (fun pk => (call_Stream_Close r pk, res_error None, m'))
                     picks))
  ∧ (stream.closeOnce s = OnceIdle -> stream.closed s = false ->
     closed m = false -> chclosed (writeCh m) = false -> queue_full m ->
     forall pick,
       let frame := length (mem m) in
       let m1 := set_heap (<[r := stream.set_closed true
                                     (stream.set_closeOnce OnceRunning s)]>
                             (heap m))
                   (set_mem (mem m ++ [close_frame id]) m) in
       Stream_Close r pick m = Block m1
       ∧ Stream_Close r pick m = Stream_Close_resumed r id frame pick m1
       ∧ load m1 frame = close_frame id
       ∧ writeCh m1 = writeCh m ∧ streams m1 = streams m
       ∧ (forall pick', Stream_Close r pick' m1 = Block m1)
       ∧ (forall cs, leaves_buffer frame cs ->
            load (exec cs m1) frame = close_frame id
            ∧ outbox (queued frame (exec cs m1))
              = outbox (exec cs m1) ++ [close_frame id])
       ∧ forall (m2 : Mux) (s2 : stream.Stream) (pick' : nat),
           heap m2 !! r = Some s2 -> once m2 <> OnceRunning ->
           (closed m2 = false -> chclosed (writeCh m2) = false ->
            has_room m2 ->
            Stream_Close_resumed r id frame pick' m2
            = Ret None (Close_finished r id s2 (queued frame m2)))
           ∧ (closed m2 = true ->
              chclosed (writeCh m2) = true ∨ queue_full m2 ->
              Stream_Close_resumed r id frame pick' m2
              = Ret None (Close_finished r id s2 m2)))
  ∧ (stream.closeOnce s = OnceIdle -> stream.closed s = false ->
     chclosed (writeCh m) = true ->
     forall pick,
       let m' := set_heap (<[r := s']> (heap m))
                   (set_streams (delete id (streams m))
                      (set_mem (mem m ++ [close_frame id]) m)) in
       Stream_Close r pick m = Ret None m'
       ∧ writeCh m' = writeCh m ∧ conn m' = conn m)
  ∧ (stream.closeOnce s = OnceIdle -> stream.closed s = false ->
     let m1 := set_heap (<[r := s']> (heap m)) m in
     on_stream r stream.closeRead m = Ret tt m1
     ∧ (forall id0, streams m !! id0 = Some r ->
          handleCloseStream id0 m
          = Ret tt (set_streams (delete id0 (streams m)) m1)
          ∧ forall pick,
              Stream_Close r pick (set_streams (delete id0 (streams m)) m1)
              = Ret None (set_streams (delete id0 (streams m)) m1))
     ∧ forall pick, Stream_Close r pick m1 = Ret None m1)
  ∧ (forall id0 fw,
       streams m !! id0 = Some r -> once m = OnceIdle -> closed m = false ->
       registry_settled m = true ->
       forall pick,
         Stream_Close r pick (state_of (shutdown fw m))
         = Ret None (state_of (shutdown fw m))).
Proof.
  intros Hs Hfn. cbv zeta.
  assert (Hlt : (r < length (heap m))%nat) by (eapply lookup_lt_Some; eauto).
  assert (Hspent : forall m0 s0 pick,
            heap m0 !! r = Some s0 -> stream.closeOnce s0 = OnceDone ->
            Stream_Close r pick m0 = Ret None m0).
  { intros m0 s0 pick H0 Hd. unfold Stream_Close. rewrite H0, Hd. reflexivity. }
  set (m1 := set_heap (<[r := stream.set_closed true
                                (stream.set_closeOnce OnceRunning s)]> (heap m))
               (set_mem (mem m ++ [close_frame id]) m)).
  assert (Hs1 : heap m1 !! r = Some (stream.set_closed true
                                       (stream.set_closeOnce OnceRunning s)))
    by (unfold m1; cbn; apply list_lookup_insert_eq, Hlt).
  assert (Hfin : forall m0,
             heap m0 = heap m1 ->
             Close_finished r id (stream.set_closed true
                                    (stream.set_closeOnce OnceRunning s)) m0
             = set_heap (<[r := stream.set_closeOnce OnceDone
                                  (stream.set_closed true s)]> (heap m))
                 (set_streams (delete id (streams m0)) m0)).
  { intros m0 Hh. unfold Close_finished. rewrite Hh. unfold m1.
    cbn [heap set_heap set_mem]. rewrite list_insert_insert_eq. reflexivity. }
  split; [|split; [|split; [|split; [|split; [|split]]]]].
  - intros pick e m' H. unfold Stream_Close in H. rewrite Hs in H.
    destruct (stream.closeOnce s); try discriminate.
    + apply bind_Ret in H as (? & m3 & _ & H).
      apply bind_Ret in H as (? & m4 & _ & H).
      apply bind_Ret in H as (? & m5 & _ & H).
      apply bind_Ret in H as (? & m6 & _ & H).
      injection H as <- _. reflexivity.
    + injection H as <- _. reflexivity.
  - intros Hd pick. apply (Hspent m s pick Hs Hd).
  - intros Ho Hc Hm Hw Hroom pick.
    set (m' := set_heap _ (set_streams _ _)).
    assert (Hr : heap m' !! r = Some (stream.set_closeOnce OnceDone
                                        (stream.set_closed true s)))
      by (unfold m'; cbn; apply list_lookup_insert_eq, Hlt).
    assert (Hold : forall q, (q < length (mem m))%nat -> load m' q = load m q).
    { intros q Hq. unfold load, m'; cbn. rewrite lookup_app_l by exact Hq.
      reflexivity. }
    assert (Hframe : load m' (length (mem m)) = close_frame id).
    { unfold load, m'; cbn. rewrite list_lookup_middle by reflexivity.
      reflexivity. }
    split; [|split; [reflexivity|split; [exact Hframe|split]]].
    + rewrite (Stream_Close_upto_select m r pick s id Hs Hfn Ho Hc). fold m1.
      destruct (Stream_Close_resumed_ends r id (length (mem m)) pick m1 _ Hs1)
        as [(H & _)|[(_ & [H|H])|(_ & _ & _ & H)]];
        [|unfold m1 in H; cbn in H; congruence..
         |unfold queue_full, m1 in H; cbn in H; lia].
      rewrite H, Hfin by reflexivity. reflexivity.
    + intros Hq. unfold outbox. cbn [m' writeCh set_heap set_streams
                                       set_writeCh buf].
      rewrite map_app. cbn [map]. rewrite Hframe. f_equal.
      apply map_ext_in. intros q Hin. apply Hold.
      unfold queue_in_mem in Hq. rewrite Forall_forall in Hq.
      apply Hq, list_elem_of_In, Hin.
    + intros picks. unfold Close_calls.
      induction picks as [|pk picks IH]; [reflexivity|].
      cbn [map run step].
      rewrite (Hspent m' _ pk Hr eq_refl). cbn [fmap_outcome].
      rewrite IH. reflexivity.
  - intros Ho Hc Hm Hw Hfull pick.
    pose proof (Stream_Close_upto_select m r pick s id Hs Hfn Ho Hc) as Hup.
    fold m1 in Hup.
    assert (Hwait : forall pick', Stream_Close_resumed r id (length (mem m)) pick' m1
                                  = Block m1).
    { intros pick'.
      destruct (Stream_Close_resumed_ends r id (length (mem m)) pick' m1 _ Hs1)
        as [(_ & _ & H)|[(_ & [H|H])|(H & _)]];
        [unfold has_room, queue_full, m1 in *; cbn in H; lia
        |unfold m1 in H; cbn in H; congruence..|exact H]. }
    assert (Hframe : load m1 (length (mem m)) = close_frame id).
    { unfold load, m1; cbn. rewrite list_lookup_middle by reflexivity.
      reflexivity. }
    split; [rewrite Hup; apply Hwait|]. split; [exact Hup|].
    split; [exact Hframe|].
    split; [reflexivity|]. split; [reflexivity|]. split.
    { intros pick'. unfold Stream_Close. rewrite Hs1. reflexivity. }
    split.
    { intros cs Hcs. apply parked_frame_kept; [|exact Hframe|exact Hcs].
      unfold m1; cbn. rewrite length_app. cbn. lia. }
    intros m2 s2 pick' Hs2 _. split.
    + intros Hm2 Hw2 Hroom2.
      destruct (Stream_Close_resumed_ends r id (length (mem m)) pick' m2 s2 Hs2)
        as [(H & _)|[(_ & [H|H])|(_ & _ & _ & H)]];
        [exact H|congruence|congruence|unfold has_room, queue_full in *; lia].
    + intros Hm2 Hcase. unfold Stream_Close_resumed. unfold bind at 1.
      rewrite writeWS_refuses by assumption.
      unfold bind, removeStream, modify, ret.
      erewrite on_stream_set by (cbn; exact Hs2). reflexivity.
  - intros Ho Hc Hw pick.
    split; [|split; reflexivity].
    rewrite (Stream_Close_upto_select m r pick s id Hs Hfn Ho Hc). fold m1.
    unfold Stream_Close_resumed. unfold bind at 1.
    rewrite writeWS_queue_closed by exact Hw.
    unfold bind, removeStream, modify, ret.
    erewrite on_stream_set by (cbn; exact Hs1).
    unfold m1. cbn [heap set_heap set_streams set_mem].
    rewrite list_insert_insert_eq. reflexivity.
  - intros Ho Hc.
    assert (Hcr : on_stream r stream.closeRead m
                  = Ret tt (set_heap (<[r := stream.set_closeOnce OnceDone
                                                (stream.set_closed true s)]>
                                        (heap m)) m))
      by (apply (on_stream_Ret r _ m s); [exact Hs|apply closeRead_fresh; assumption]).
    split; [exact Hcr|split].
    + intros id0 Hreg. split.
      * unfold handleCloseStream. rewrite Hreg. unfold bind. rewrite Hcr.
        reflexivity.
      * intros pick.
        apply (Hspent _ (stream.set_closeOnce OnceDone
                           (stream.set_closed true s)));
          [cbn; apply list_lookup_insert_eq, Hlt|reflexivity].
    + intros pick.
      apply (Hspent _ (stream.set_closeOnce OnceDone
                         (stream.set_closed true s)));
        [cbn; apply list_lookup_insert_eq, Hlt|reflexivity].
  - intros id0 fw Hreg Ho Hc Hset pick.
    destruct (shutdown_closes_registry fw m id0 r Ho Hc Hset Hreg)
      as (s1 & Hh1 & Hd & _).
    apply (Hspent _ s1 pick Hh1 Hd).
Qed.

Lemma Close_one_shot_witness :
  let m := state_of (step (call_OpenStream 0) (NewMux false)) in
  exists m',
    Stream_Close 0 0 m = Ret None m'
    ∧ outbox m = [EncodeFrame (mkFrame FrameOpenStream 1 [])]
    ∧ outbox m' = [EncodeFrame (mkFrame FrameOpenStream 1 []); close_frame 1]
    ∧ run (Close_calls 0 [1; 2; 3]%nat) m'
      = Some [(call_Stream_Close 0 1, res_error None, m');
              (call_Stream_Close 0 2, res_error None, m');
              (call_Stream_Close 0 3, res_error None, m')].
Proof.
  cbv zeta.
  set (m := state_of (step (call_OpenStream 0) (NewMux false))).
  assert (Hs : heap m !! 0%nat = Some (new_mux_stream 1))
    by (vm_compute; reflexivity).
  destruct (Close_one_shot m 0 (new_mux_stream 1) 1 Hs eq_refl)
    as (_ & _ & Hfirst & _).
  assert (Hm : closed m = false) by (vm_compute; reflexivity).
  assert (Hw : chclosed (writeCh m) = false) by (vm_compute; reflexivity).
  assert (Hroom : (length (buf (writeCh m)) < cap (writeCh m))%nat)
    by (vm_compute; lia).
  assert (Hout0 : outbox m = [EncodeFrame (mkFrame FrameOpenStream 1 [])])
    by (vm_compute; reflexivity).
  assert (Hq : queue_in_mem m) by (vm_compute; repeat constructor).
  destruct (Hfirst eq_refl eq_refl Hm Hw Hroom 0%nat)
    as (Hret & _ & _ & Hout & Hrest).
  eexists. split; [exact Hret|]. split; [exact Hout0|].
  split; [rewrite (Hout Hq), Hout0; reflexivity|].
  apply (Hrest [1; 2; 3]%nat).
Defined.

End CloseOnce.

(** ** After shutdown *)

Section AfterShutdown.
Import FrameCodec mux.

Lemma shutdown_closes (fw : bool) (m : Mux) :
  queues_open m -> closed (state_of (shutdown fw m)) = true.
Proof.
  intros Hq. destruct (closed m) eqn:Hc.
  - apply (stable_shutdown closed_stays); solve [assumption | stable_leaf].
  - destruct (Hq Hc) as (_ & _ & Ho).
    unfold shutdown. rewrite Ho.
    unfold bind at 1, modify at 1. unfold bind at 1, close_closed.
    cbn [closed set_once]. rewrite Hc.
    set (m2 := set_closed true (set_once OnceRunning m)).
    assert (Ht : closed_stays m2 (state_of (teardown fw m2)))
      by (apply stable_teardown; stable_leaf).
    specialize (Ht eq_refl). unfold bind.
    destruct (teardown fw m2) as [[] m3|m3|m3]; cbn [state_of] in *; exact Ht.
Qed.

(** What a call does after [c] cannot reopen [closed]. *)
Lemma bind_closes {A B} (c : M A) (k : A -> M B) (m : Mux) :
  closed (state_of (c m)) = true ->
  (forall a m1, closed m1 = true -> closed (state_of (k a m1)) = true) ->
  closed (state_of (bind c k m)) = true.
Proof.
  intros Hc Hk. unfold bind.
  destruct (c m) as [a m1|m1|m1]; cbn [state_of] in *; try exact Hc.
  apply Hk, Hc.
Qed.

(** Every call that runs [shutdown] leaves [closed] closed, whether it
    returns or not. *)
Lemma runs_shutdown_closes (c : call) (m : Mux) :
  queues_open m -> runs_shutdown c m -> closed (state_of (step c m)) = true.
Proof.
  assert (Hfm : forall A B (f : A -> B) (o : outcome Mux A),
             state_of (fmap_outcome f o) = state_of o)
    by (intros A B f []; reflexivity).
  intros Hq [->|[[Hd [pick ->]]|(-> & Hwd & Hbuf & Hconn)]]; cbn [step].
  - rewrite Hfm. unfold Close. apply bind_closes; [apply shutdown_closes, Hq|].
    intros _ m1 H1. unfold bind, await_done.
    destruct (done m1); exact H1.
  - rewrite Hd, Hfm. cbn [readLoop_iter].
    apply bind_closes; [apply shutdown_closes, Hq|].
    intros _ m1 H1. exact H1.
  - rewrite Hwd, Hfm. unfold writeLoop_iter, chan_recv.
    destruct (buf (writeCh m)) as [|data rest]; [congruence|].
    unfold bind at 1, conn_Write. cbn [conn set_writeCh]. rewrite Hconn.
    apply bind_closes.
    + apply shutdown_closes. intros Hc. apply Hq in Hc. exact Hc.
    + intros _ m1 H1. exact H1.
Qed.

(** On a mux whose [closed] is closed. *)
Lemma OpenStream_closed (pick : nat) (m : Mux) :
  closed m = true -> OpenStream pick m = Ret (None, Some ErrMuxClosed) m.
Proof. intros Hc. unfold OpenStream. rewrite Hc. reflexivity. Qed.

Lemma AcceptStream_closed (ctx_done : bool) (pick : nat) (m : Mux) :
  closed m = true ->
  AcceptStream ctx_done pick m = Ret (None, Some ErrMuxClosed) m
  ∨ (ctx_done = true
     ∧ AcceptStream ctx_done pick m = Ret (None, Some ErrCanceled) m)
  ∨ (exists s rest,
       buf (acceptCh m) = s :: rest
       ∧ AcceptStream ctx_done pick m =
         Ret (Some s, None)
             (set_acceptCh (mkChan rest (cap (acceptCh m))
                                   (chclosed (acceptCh m))) m)).
Proof.
  intros Hc. unfold AcceptStream.
  destruct (select _ pick) as [[]|] eqn:Hsel.
  - unfold chan_recv. destruct (buf (acceptCh m)) as [|s rest]; [auto|].
    right. right. eauto.
  - apply select_Some in Hsel. cbn in Hsel.
    destruct Hsel as [H|[H|[H|[]]]]; try discriminate.
    injection H as <-. auto.
  - auto.
  - exfalso. apply (select_None _ _ Hsel acc_closed). cbn.
    rewrite Hc. auto.
Qed.

Lemma AcceptStream_closed_empty (pick : nat) (m : Mux) :
  closed m = true -> buf (acceptCh m) = [] ->
  AcceptStream false pick m = Ret (None, Some ErrMuxClosed) m.
Proof.
  intros Hc He.
  destruct (AcceptStream_closed false pick m Hc)
    as [H|[[H _]|(s & rest & H & _)]]; [exact H|discriminate|congruence].
Qed.

Lemma Write_closed (r p pick : nat) (m : Mux) (s : stream.Stream) :
  closed m = true -> heap m !! r = Some s ->
  exists m',
    Write r p pick m
    = Ret (0, Some (if stream.closed s then ErrStreamClosed else ErrMuxClosed)) m'
    ∧ writeCh m' = writeCh m ∧ heap m' = heap m ∧ conn m' = conn m.
Proof.
  intros Hc Hs. destruct (stream.closed s) eqn:Hcs.
  - exists m. rewrite (Write_stream_closed m r p pick s Hs Hcs). auto.
  - eexists. rewrite (Write_mux_closed m r p pick s Hs Hcs Hc). auto.
Qed.

(** What a call that runs [shutdown] does to the stream objects is what
    [shutdown] does to them, whether the call returns or not. *)
Lemma runs_shutdown_heap (c : call) (m0 : Mux) :
  runs_shutdown c m0 ->
  exists fw ma,
    once ma = once m0 ∧ closed ma = closed m0 ∧ streams ma = streams m0
    ∧ heap ma = heap m0
    ∧ heap (state_of (step c m0)) = heap (state_of (shutdown fw ma)).
Proof.
  assert (Hfm : forall A B (f : A -> B) (o : outcome Mux A),
             state_of (fmap_outcome f o) = state_of o)
    by (intros A B f []; reflexivity).
  intros [->|[[Hd [pick ->]]|(-> & Hwd & Hbuf & Hconn)]]; cbn [step].
  - exists false, m0. repeat split. rewrite Hfm. unfold Close.
    apply (bind_state (fun x => heap x = heap (state_of (shutdown false m0))));
      [reflexivity|].
    intros _ m1 H. unfold bind, await_done. destruct (done m1); exact H.
  - exists false, m0. repeat split. rewrite Hd, Hfm. cbn [readLoop_iter].
    apply (bind_state (fun x => heap x = heap (state_of (shutdown false m0))));
      [reflexivity|].
    intros _ m1 H. exact H.
  - rewrite Hwd, Hfm. unfold writeLoop_iter, chan_recv.
    destruct (buf (writeCh m0)) as [|data rest]; [congruence|].
    set (ma := set_writeCh _ m0).
    exists true, ma. repeat split.
    unfold bind at 1, conn_Write. cbn [conn set_writeCh ma]. rewrite Hconn.
    apply (bind_state (fun x => heap x = heap (state_of (shutdown true ma))));
      [reflexivity|].
    intros _ m1 H. exact H.
Qed.

(** Calls that fail although [closed] is closed, but not with
    [ErrMuxClosed]: [Write] on a stream that was in the registry when the
    mux was closed returns [ErrStreamClosed]; and [AcceptStream] may still
    hand out a stream that was waiting in the accept queue. *)
Lemma after_shutdown_other_results :
  match run opened_then_shut (NewMux false),
        run queued_then_shut (NewMux true) with
  | Some tr1, Some tr2 =>
      let m1 := final (NewMux false) tr1 in
      let m2 := final (NewMux true) tr2 in
      closed m1 = true ∧ once m1 = OnceDone
      ∧ returned (Write 0 1 0 m1) = Some (0, Some ErrStreamClosed)
      ∧ closed m2 = true ∧ once m2 = OnceDone
      ∧ returned (AcceptStream false 0 m2) = Some (Some 0%nat, None)
  | _, _ => False
  end.
Proof. vm_compute. repeat split; reflexivity. Qed.

(** C9 (amended).  After a call that runs [shutdown] ([Close], the reader
    task on a failed read, the writer task on a failed write), whether that
    call returns or not, and whatever calls follow:
    - [closed] is closed;
    - every [OpenStream] returns [ErrMuxClosed] and changes nothing;
    - no [AcceptStream] parks: it returns [ErrMuxClosed], or the error of a
      context that is done, or a stream that was still waiting in the accept
      queue; with a live context and an empty accept queue it returns
      [ErrMuxClosed];
    - every [Write] returns 0 and an error and submits no frame: the error
      is [ErrStreamClosed] when the stream is closed and [ErrMuxClosed] when
      it is still open;
    - when [shutdown] had not started before and no [Close] was under way on
      a stream of the registry, every stream that was in the registry is
      closed, so that [Write] on it returns [ErrStreamClosed].
    None of these calls parks or panics. *)
Theorem after_shutdown (m0 : Mux) (c : call) (cs : list call) :
  queues_open m0 -> runs_shutdown c m0 ->
  let m := exec cs (state_of (step c m0)) in
  closed m = true
  ∧ (forall pick, OpenStream pick m = Ret (None, Some ErrMuxClosed) m)
  ∧ (forall ctx_done pick,
       AcceptStream ctx_done pick m = Ret (None, Some ErrMuxClosed) m
       ∨ (ctx_done = true
          ∧ AcceptStream ctx_done pick m = Ret (None, Some ErrCanceled) m)
       ∨ (exists s rest,
            buf (acceptCh m) = s :: rest
            ∧ AcceptStream ctx_done pick m =
              Ret (Some s, None)
                  (set_acceptCh (mkChan rest (cap (acceptCh m))
                                        (chclosed (acceptCh m))) m)))
  ∧ (forall pick, buf (acceptCh m) = [] ->
       AcceptStream false pick m = Ret (None, Some ErrMuxClosed) m)
  ∧ (forall r p pick s, heap m !! r = Some s ->
       exists m',
         Write r p pick m
         = Ret (0, Some (if stream.closed s then ErrStreamClosed
                         else ErrMuxClosed)) m'
         ∧ writeCh m' = writeCh m ∧ heap m' = heap m ∧ conn m' = conn m)
  ∧ (forall id r,
       closed m0 = false -> scene.registry_settled m0 = true ->
       streams m0 !! id = Some r ->
       forall p pick, Write r p pick m = Ret (0, Some ErrStreamClosed) m).
Proof.
  intros Hq Htrig. cbv zeta.
  set (m := exec cs (state_of (step c m0))).
  assert (Hc : closed m = true)
    by (apply exec_closed_stays, runs_shutdown_closes; assumption).
  split; [exact Hc|].
  split; [intros pick; apply OpenStream_closed, Hc|].
  split; [intros ctx_done pick; apply AcceptStream_closed, Hc|].
  split; [intros pick He; apply AcceptStream_closed_empty; assumption|].
  split; [intros r p pick s Hs; apply Write_closed; assumption|].
  intros id r Hopen Hset Hreg p pick.
  destruct (runs_shutdown_heap c m0 Htrig) as (fw & ma & Ho & Hca & Hst & Hh & Hh1).
  destruct (Hq Hopen) as (_ & _ & Hidle).
  destruct (shutdown_closes_registry fw ma id r) as (s1 & Hs1 & _ & Hcl1);
    [congruence|congruence| |congruence|].
  { unfold scene.registry_settled in *. rewrite Hst, Hh. exact Hset. }
  rewrite <- Hh1 in Hs1.
  destruct (exec_heap_grows cs _ r s1 Hs1) as (s2 & Hs2 & _ & _ & _ & Hmono).
  apply (Write_stream_closed m r p pick s2); [exact Hs2|auto].
Qed.

Lemma after_shutdown_witness :
  let m0 := state_of (step (call_OpenStream 0) (NewMux false)) in
  let m := exec [call_SendPing 0; call_writer] (state_of (step call_Close m0)) in
  closed m = true
  ∧ OpenStream 0 m = Ret (None, Some ErrMuxClosed) m
  ∧ AcceptStream false 0 m = Ret (None, Some ErrMuxClosed) m
  ∧ Write 0 0 0 m = Ret (0, Some ErrStreamClosed) m.
Proof.
  cbv zeta.
  set (m0 := state_of (step (call_OpenStream 0) (NewMux false))).
  assert (Hq : queues_open m0) by apply step_queues_open, NewMux_queues_open.
  assert (Ht : runs_shutdown call_Close m0) by (left; reflexivity).
  destruct (after_shutdown m0 call_Close [call_SendPing 0; call_writer] Hq Ht)
    as (Hc & Ho & _ & Ha & _ & Hw).
  split; [exact Hc|]. split; [apply Ho|]. split.
  - apply Ha. vm_compute. reflexivity.
  - apply (Hw 1 0%nat); vm_compute; reflexivity.
Defined.

End AfterShutdown.

(** ** The cases of protocol_test.go, on the model *)

Section Tests.
Import FrameCodec.

(** TestEncodeFrame_HeaderSize. *)
Example test_EncodeFrame_HeaderSize :
  length (EncodeFrame (mkFrame FrameData 5 [x61; x62; x63]))
  = (frameHeaderSize + 3)%nat.
Proof. reflexivity. Qed.

(** TestDecodeFrame_InvalidType. *)
Example test_DecodeFrame_InvalidType :
  DecodeFrame (NewReader (EncodeFrame (mkFrame xff 1 [])))
  = (inr (Wrapped (BadType xff) ErrInvalidFrame), mkDec [] []).
Proof. vm_compute. reflexivity. Qed.

(** TestDecodeFrame_PayloadTooLarge: a header that declares 10 MiB + 1. *)
Example test_DecodeFrame_PayloadTooLarge :
  DecodeFrame (NewReader ([FrameData] ++ PutUint32 1
                            ++ PutUint32 (MaxPayloadSize + 1)))
  = (inr (Wrapped (BadLen (MaxPayloadSize + 1)) ErrPayloadTooLarge),
     mkDec [] []).
Proof. vm_compute. reflexivity. Qed.

(** TestDecodeFrame_ShortRead. *)
Example test_DecodeFrame_ShortRead :
  DecodeFrame (NewReader [x01; x02])
  = (inr (Wrapped ReadingHeader ErrUnexpectedEOF), mkDec [] []).
Proof. vm_compute. reflexivity. Qed.

(** TestStream_ReadAfterClose: the data pushed before [closeRead] is still
    read, and the next [Read] returns [io.EOF]. *)
Example test_Stream_ReadAfterClose :
  let s0 := stream.newStream 1 (stream.makeWriteFn_of 1) None in
  let s1 := state_of (stream.pushData [x64; x61; x74; x61] 0 s0) in
  let s2 := state_of (stream.closeRead s1) in
  forall pick,
    (pick < 2)%nat ->
    returned (stream.Read 64 pick s2) = Some ([x64; x61; x74; x61], None)
    ∧ returned (stream.Read 64 pick (state_of (stream.Read 64 pick s2)))
      = Some ([], Some EOF).
Proof.
  cbv zeta. intros [|[|pick]] H; [split; reflexivity|split; reflexivity|lia].
Qed.

(** TestStream_WriteAfterClose, TestMux_OpenAndAcceptStream and
    TestMux_StreamClose, between a client mux and a server mux: what the
    writer task of one sends is what the reader task of the other reads. *)
Example test_Mux_open_write_close :
  let c0 := mux.NewMux false in
  let c1 := state_of (mux.step (mux.call_OpenStream 0) c0) in
  let c2 := state_of (mux.step mux.call_writer c1) in
  let c3 := state_of (mux.step (mux.call_make [x68; x69]) c2) in
  let c4 := state_of (mux.step (mux.call_Write 0 1 0) c3) in
  let c5 := state_of (mux.step mux.call_writer c4) in
  let c6 := state_of (mux.step (mux.call_Stream_Close 0 0) c5) in
  let c7 := state_of (mux.step mux.call_writer c6) in
  let wire := mux.sent (mux.conn c7) in
  let s := fold_left
             (fun m msg =>
                state_of (mux.step (mux.call_reader (mux.read_msg msg) 0) m))
             (firstn 2 wire) (mux.NewMux true) in
  let s' := fold_left
              (fun m msg =>
                 state_of (mux.step (mux.call_reader (mux.read_msg msg) 0) m))
              (skipn 2 wire) s in
  length wire = 3%nat
  ∧ returned (mux.AcceptStream false 0 s) = Some (Some 0%nat, None)
  ∧ stream.ID <$> mux.heap s !! 0%nat = Some 1
  ∧ returned (mux.Stream_Read 0 128 0 s) = Some ([x68; x69], None)
  ∧ returned (mux.Stream_Read 0 128 0
                (state_of (mux.Stream_Read 0 128 0 s'))) = Some ([], Some EOF)
  ∧ returned (mux.Write 0 1 0 c7) = Some (0, Some ErrStreamClosed).
Proof. vm_compute. repeat split; reflexivity. Qed.

End Tests.

(* ================================================================== *)
(** * Part III: further properties of the code *)
(* ================================================================== *)

(** ** frame.go: what a decoded frame is *)

Ltac ltb_cases :=
  repeat match goal with
    | |- context [?a <? ?b] => destruct (Z.ltb_spec a b); try lia
    | |- context [?a <=? ?b] => destruct (Z.leb_spec a b); try lia
    end.

Section CodecMore.
Import FrameCodec.

Lemma Z_of_byte_mod b : Z_of_byte b mod 2 ^ 8 = Z_of_byte b.
Proof. apply Z.mod_small. pose proof (Z_of_byte_range b). lia. Qed.

Lemma testbit_byte_high b n : 8 <= n -> Z.testbit (Z_of_byte b) n = false.
Proof.
  intros Hn. rewrite <- Z_of_byte_mod. apply Z.mod_pow2_bits_high. lia.
Qed.

(** The bits of the word that [binary.BigEndian.Uint32] builds. *)
Lemma Uint32_testbit b0 b1 b2 b3 n :
  0 <= n ->
  Z.testbit (Uint32 [b0; b1; b2; b3]) n =
  if n <? 8 then Z.testbit (Z_of_byte b3) n
  else if n <? 16 then Z.testbit (Z_of_byte b2) (n - 8)
  else if n <? 24 then Z.testbit (Z_of_byte b1) (n - 16)
  else if n <? 32 then Z.testbit (Z_of_byte b0) (n - 24)
  else false.
Proof.
  intros Hn. unfold Uint32.
  rewrite <- (Z_of_byte_mod b0), <- (Z_of_byte_mod b1),
    <- (Z_of_byte_mod b2), <- (Z_of_byte_mod b3).
  rewrite <- (Z.shiftl_0_r (Z_of_byte b3 mod 2 ^ 8)).
  rewrite !Z.lor_spec, !testbit_byte_field by lia.
  rewrite !Z_of_byte_mod, Z.sub_0_r.
  ltb_cases; cbn [andb orb]; rewrite ?orb_false_r; reflexivity.
Qed.

Lemma Uint32_range (l : list byte) : 0 <= Uint32 l < 2 ^ 32.
Proof.
  destruct l as [|b0 [|b1 [|b2 [|b3 [|? ?]]]]]; try (cbn [Uint32]; lia).
  pose proof (Uint32_testbit b0 b1 b2 b3) as Hbit.
  set (v := Uint32 [b0; b1; b2; b3]) in *.
  assert (Hnn : 0 <= v).
  { apply Z.bits_iff_nonneg_ex. exists 32. intros n Hn.
    rewrite Hbit by lia.
    destruct (Z.ltb_spec n 8), (Z.ltb_spec n 16), (Z.ltb_spec n 24),
      (Z.ltb_spec n 32); try lia; reflexivity. }
  split; [exact Hnn|].
  destruct (Z.eq_dec v 0) as [->|Hz]; [lia|].
  apply Z.log2_lt_pow2; [lia|].
  destruct (Z.lt_ge_cases (Z.log2 v) 32) as [H|H]; [exact H|exfalso].
  assert (Hb : Z.testbit v (Z.log2 v) = true) by (apply Z.bit_log2; lia).
  rewrite Hbit in Hb by lia.
  destruct (Z.ltb_spec (Z.log2 v) 8), (Z.ltb_spec (Z.log2 v) 16),
    (Z.ltb_spec (Z.log2 v) 24), (Z.ltb_spec (Z.log2 v) 32); lia.
Qed.

Lemma byte_of_Z_eq (v : Z) (b : byte) :
  v mod 2 ^ 8 = Z_of_byte b -> byte_of_Z v = b.
Proof.
  intros H. rewrite <- (byte_of_Z_of_byte b), <- H.
  unfold byte_of_Z. change 256 with (2 ^ 8). rewrite Z.mod_mod by lia.
  reflexivity.
Qed.

(** [PutUint32] writes back the four bytes that [Uint32] read. *)
Lemma PutUint32_Uint32 b0 b1 b2 b3 :
  PutUint32 (Uint32 [b0; b1; b2; b3]) = [b0; b1; b2; b3].
Proof.
  unfold PutUint32.
  assert (H : forall k b,
             (forall n, 0 <= n < 8 ->
                        Z.testbit (Uint32 [b0; b1; b2; b3]) (n + k)
                        = Z.testbit (Z_of_byte b) n) ->
             0 <= k ->
             byte_of_Z (Uint32 [b0; b1; b2; b3] ≫ k) = b).
  { intros k b Hbits Hk. apply byte_of_Z_eq. apply Z.bits_inj'. intros n Hn.
    destruct (Z.ltb_spec n 8).
    - rewrite Z.mod_pow2_bits_low, Z.shiftr_spec by lia. apply Hbits. lia.
    - rewrite Z.mod_pow2_bits_high by lia. symmetry.
      apply testbit_byte_high. lia. }
  rewrite <- (Z.shiftr_0_r (Uint32 [b0; b1; b2; b3])) at 4.
  rewrite (H 24 b0), (H 16 b1), (H 8 b2), (H 0 b3); try lia; try reflexivity;
    intros n Hn; rewrite Uint32_testbit by lia; ltb_cases; f_equal; lia.
Qed.

End CodecMore.

Section CodecInverse.
Import FrameCodec.

(** X1. Whatever bytes [DecodeFrame] accepts are an encoding: when it returns
    a frame from a reader holding [r], then [r] is [EncodeFrame] of that
    frame followed by exactly the bytes left unread, the frame's type is one
    of the five known ones, its stream ID fits in 32 bits, its payload is at
    most 10 MiB long, and one payload buffer of exactly that length was
    allocated. *)
Theorem DecodeFrame_inverts (r : list byte) (f : Frame) (d : Dec) :
  DecodeFrame (NewReader r) = (inl f, d) ->
  r = EncodeFrame f ++ unread d
  ∧ 1 <= Z_of_byte (Type_ f) <= 5
  ∧ 0 <= StreamID f < 2 ^ 32
  ∧ Z.of_nat (length (Payload f)) <= MaxPayloadSize
  ∧ allocs d = [Z.of_nat (length (Payload f))].
Proof.
  intros H.
  destruct (Nat.lt_ge_cases (length r) frameHeaderSize) as [Hs|Hl].
  { unfold DecodeFrame in H.
    destruct (ReadFull_short frameHeaderSize (NewReader r)) as (e & He & _);
      [exact Hs|]. rewrite He in H. discriminate. }
  unfold frameHeaderSize in Hl.
  destruct r as [|t [|i0 [|i1 [|i2 [|i3 [|l0 [|l1 [|l2 [|l3 rest]]]]]]]]];
    try (cbn [length] in Hl; lia).
  clear Hl. unfold DecodeFrame, ReadFull, NewReader in H.
  cbn [unread allocs length Nat.leb frameHeaderSize firstn skipn nth] in H.
  change (Z_of_byte FrameOpenStream) with 1 in H.
  change (Z_of_byte FramePong) with 5 in H.
  destruct (Z.ltb_spec (Z_of_byte t) 1) as [Hlo|Hlo]; [discriminate|].
  destruct (Z.gtb_spec (Z_of_byte t) 5) as [Hhi|Hhi]; [discriminate|].
  cbn [orb] in H. cbv zeta in H. rewrite !take_0, !drop_0 in H.
  pose proof (Uint32_range [i0; i1; i2; i3]) as Hid.
  pose proof (Uint32_range [l0; l1; l2; l3]) as Hln.
  pose proof (PutUint32_Uint32 i0 i1 i2 i3) as Eid.
  pose proof (PutUint32_Uint32 l0 l1 l2 l3) as Eln.
  set (id := Uint32 [i0; i1; i2; i3]) in *.
  set (n := Uint32 [l0; l1; l2; l3]) in *.
  destruct (Z.gtb_spec n MaxPayloadSize) as [Hbig|Hsmall]; [discriminate|].
  unfold make_payload in H; cbn [unread allocs app] in H.
  assert (Hu : forall k : nat, Z.of_nat k = n -> PutUint32 (uint32 (Z.of_nat k))
                                             = [l0; l1; l2; l3]).
  { intros k Hk. rewrite Hk. unfold uint32. rewrite Z.mod_small by lia.
    exact Eln. }
  destruct (Z.gtb_spec n 0) as [Hpos|Hzero].
  - destruct (Nat.leb_spec (Z.to_nat n) (length rest)) as [Hen|Hsp];
      [|discriminate].
    injection H as <- <-. cbn [Type_ StreamID Payload unread allocs].
    assert (Hk : Z.of_nat (length (take (Z.to_nat n) rest)) = n)
      by (rewrite length_take; lia).
    unfold EncodeFrame; cbn [Type_ StreamID Payload].
    rewrite Eid, (Hu _ Hk), Hk. cbn [app]. rewrite take_drop.
    repeat split; try lia; reflexivity.
  - injection H as <- <-. cbn [Type_ StreamID Payload unread allocs length].
    assert (Hk : Z.of_nat 0 = n) by lia.
    unfold EncodeFrame; cbn [Type_ StreamID Payload length].
    rewrite Eid, (Hu 0%nat Hk). cbn [app].
    repeat split; try lia; try reflexivity. rewrite <- Hk. reflexivity.
Qed.

Lemma DecodeFrame_inverts_witness :
  let r := [x02; x00; x00; x00; x07; x00; x00; x00; x01; x41; x42] in
  let f := mkFrame FrameData 7 [x41] in
  r = EncodeFrame f ++ [x42]
  ∧ 1 <= Z_of_byte (Type_ f) <= 5
  ∧ 0 <= StreamID f < 2 ^ 32
  ∧ Z.of_nat (length (Payload f)) <= MaxPayloadSize
  ∧ allocs (mkDec [x42] [1]) = [Z.of_nat (length (Payload f))].
Proof.
  exact (DecodeFrame_inverts
           [x02; x00; x00; x00; x07; x00; x00; x00; x01; x41; x42]
           (mkFrame FrameData 7 [x41]) (mkDec [x42] [1]) eq_refl).
Defined.

End CodecInverse.

(** ** stream.go: reading, closed or not *)

Section StreamMore.
Import stream.

(** [Read] on any stream whose data channel is open (nothing closes it):
    the choice that [select] makes between a buffered payload and the closed
    signal does not show in the result. *)
Lemma Read_step (lenp pick : nat) (s : Stream) :
  chclosed (dataCh s) = false ->
  Read lenp pick s =
  match readBuf s, buf (dataCh s) with
  | _ :: _, _ =>
      Ret (take lenp (readBuf s), None) (set_readBuf (drop lenp (readBuf s)) s)
  | [], data :: rest =>
      Ret (take lenp data, None)
          (set_readBuf (drop lenp data)
             (set_dataCh (mkChan rest (cap (dataCh s)) false) s))
  | [], [] => if closed s then Ret ([], Some EOF) s else Block s
  end.
Proof.
  intros Hd. destruct (closed s) eqn:Hc.
  2: { rewrite Read_open by assumption.
       destruct (readBuf s), (buf (dataCh s)); reflexivity. }
  unfold Read, copy_len. rewrite take_min_length, drop_min_length.
  destruct (readBuf s) as [|b bs] eqn:Hb; cbn [length Nat.ltb Nat.leb];
    [|reflexivity].
  unfold recv_ready, chan_recv. rewrite Hc, Hd. cbn [orb].
  destruct (buf (dataCh s)) as [|data rest] eqn:Hq; cbn [length Nat.ltb Nat.leb].
  - rewrite select_second_only. reflexivity.
  - assert (Hdel : deliver lenp data (set_dataCh (mkChan rest (cap (dataCh s)) false) s)
                   = Ret (take lenp data, None)
                         (set_readBuf (drop lenp data)
                            (set_dataCh (mkChan rest (cap (dataCh s)) false) s))).
    { unfold deliver, copy_len. rewrite take_min_length, drop_min_length.
      destruct (Nat.ltb_spec (Nat.min lenp (length data)) (length data));
        [reflexivity|].
      rewrite (drop_ge data lenp) by lia.
      unfold set_readBuf, set_dataCh; cbn. rewrite Hb. reflexivity. }
    destruct (select_both case_data case_closed pick) as [-> | ->]; exact Hdel.
Qed.

(** X2. One [Read] on any stream, open or closed, whichever ready case
    [select] takes: the call never panics; when it returns data, the bytes
    returned followed by the bytes the stream still holds are the bytes it
    held before, at most [len(p)] bytes are returned and the stream held
    something; the only error is [io.EOF], returned with no bytes and no
    change of state exactly when the stream is closed and holds nothing; the
    call parks exactly when the stream is open and holds nothing.  Another
    choice of [select] gives the same outcome. *)
Theorem Read_any_pick (lenp pick : nat) (s : Stream) :
  chclosed (dataCh s) = false ->
  match Read lenp pick s with
  | Ret (bs, None) s' =>
      bs ++ pending s' = pending s ∧ (length bs <= lenp)%nat
      ∧ (readBuf s = [] -> buf (dataCh s) = [] -> False)
      ∧ closed s' = closed s
  | Ret (bs, Some e) s' =>
      e = EOF ∧ bs = [] ∧ s' = s ∧ closed s = true
      ∧ readBuf s = [] ∧ buf (dataCh s) = []
  | Block s' =>
      s' = s ∧ closed s = false ∧ readBuf s = [] ∧ buf (dataCh s) = []
  | Panic _ => False
  end
  ∧ forall pick', Read lenp pick' s = Read lenp pick s.
Proof.
  intros Hd. split; [|intros pick'; rewrite !Read_step by exact Hd; reflexivity].
  rewrite Read_step by exact Hd. unfold pending.
  destruct (readBuf s) as [|b bs] eqn:Hb.
  - destruct (buf (dataCh s)) as [|data rest] eqn:Hq.
    + destruct (closed s); auto 6.
    + cbn [readBuf set_readBuf set_dataCh dataCh buf closed concat].
      rewrite app_assoc, take_drop, length_take.
      repeat split; [lia|discriminate].
  - rewrite <- Hb. cbn [readBuf set_readBuf dataCh closed].
    rewrite app_assoc, take_drop, length_take.
    repeat split; [lia|]. rewrite Hb. discriminate.
Qed.

Lemma Read_any_pick_witness :
  let s := mkStream 1 (mkChan [[x61; x62; x63]] 256 false) []
             (makeWriteFn_of 1) None OnceDone true in
  chclosed (dataCh s) = false
  ∧ match Read 2 1 s with
    | Ret (bs, None) s' =>
        bs ++ pending s' = pending s ∧ (length bs <= 2)%nat
        ∧ (readBuf s = [] -> buf (dataCh s) = [] -> False)
        ∧ closed s' = closed s
    | Ret (bs, Some e) s' =>
        e = EOF ∧ bs = [] ∧ s' = s ∧ closed s = true
        ∧ readBuf s = [] ∧ buf (dataCh s) = []
    | Block s' =>
        s' = s ∧ closed s = false ∧ readBuf s = [] ∧ buf (dataCh s) = []
    | Panic _ => False
    end.
Proof.
  cbv zeta. split; [reflexivity|].
  exact (proj1 (Read_any_pick 2 1
                  (mkStream 1 (mkChan [[x61; x62; x63]] 256 false) []
                     (makeWriteFn_of 1) None OnceDone true) eq_refl)).
Defined.

End StreamMore.

Section StreamDrain.
Import stream.

(** Reading any stream dry, with buffers that are not empty. *)
Lemma reads_drain_any (sizes picks : nat -> nat) :
  (forall k, (0 < sizes k)%nat) ->
  forall (n : nat) (s : Stream) (from : nat),
    chclosed (dataCh s) = false ->
    (backlog s <= n)%nat ->
    exists k rs s',
      run (reads sizes picks from k) s = Some (rs, s')
      ∧ delivered rs = pending s
      ∧ Forall (fun r => r.2 = None) rs
      ∧ readBuf s' = [] ∧ buf (dataCh s') = []
      ∧ closed s' = closed s ∧ chclosed (dataCh s') = false.
Proof.
  intros Hpos. induction n as [|n IH]; intros s from Hd Hn.
  - exists 0%nat, [], s. unfold backlog in Hn.
    destruct (readBuf s) eqn:Hb; [|cbn in Hn; lia].
    destruct (buf (dataCh s)) eqn:Hq; [|cbn in Hn; lia].
    unfold pending, delivered. rewrite Hb, Hq. cbn. auto 8.
  - pose proof (Read_step (sizes from) (picks from) s Hd) as HR.
    destruct (readBuf s) as [|b bs] eqn:Hb;
      [destruct (buf (dataCh s)) as [|data rest] eqn:Hq|].
    + exists 0%nat, [], s. unfold pending, delivered. rewrite Hb, Hq.
      cbn. auto 8.
    + set (s1 := set_readBuf _ _) in HR.
      destruct (IH s1 (S from)) as (k & rs & s' & Hrun & Hdel & Hn' & Hr);
        [reflexivity| |].
      { unfold backlog in *. rewrite Hb, Hq in Hn. cbn in Hn |- *.
        rewrite length_app in Hn. rewrite length_drop. lia. }
      exists (S k), ((take (sizes from) data, None) :: rs), s'.
      split; [|split; [|split; [|exact Hr]]].
      * unfold reads in *; cbn [seq map run]. rewrite HR, Hrun. reflexivity.
      * unfold delivered in *; cbn [map concat fst]. rewrite Hdel.
        unfold pending. rewrite Hb, Hq; cbn.
        rewrite app_assoc, take_drop. reflexivity.
      * constructor; [reflexivity|exact Hn'].
    + rewrite <- Hb in HR. set (s1 := set_readBuf _ _) in HR.
      destruct (IH s1 (S from)) as (k & rs & s' & Hrun & Hdel & Hn' & Hr);
        [exact Hd| |].
      { unfold backlog in *. cbn. rewrite length_drop.
        specialize (Hpos from). rewrite Hb in *. cbn [length] in *. lia. }
      exists (S k), ((take (sizes from) (readBuf s), None) :: rs), s'.
      split; [|split; [|split; [|exact Hr]]].
      * unfold reads in *; cbn [seq map run]. rewrite HR, Hrun. reflexivity.
      * unfold delivered in *; cbn [map concat fst]. rewrite Hdel.
        unfold pending; cbn. rewrite app_assoc, take_drop. reflexivity.
      * constructor; [reflexivity|exact Hn'].
Qed.

(** X3. A closed stream still gives what it holds: on a stream closed by
    [closeRead] or by [Close], successive [Read] calls with buffers that are
    not empty, of any sizes, return without error, in order, exactly the
    bytes that were left over and queued at that point; from then on every
    [Read] returns no bytes and [io.EOF] and leaves the stream as it is. *)
Theorem Read_closed_drains (s : Stream) (sizes picks : nat -> nat) :
  chclosed (dataCh s) = false ->
  closed s = true ->
  (forall k, (0 < sizes k)%nat) ->
  exists k rs s',
    run (reads sizes picks 0 k) s = Some (rs, s')
    ∧ delivered rs = pending s
    ∧ Forall (fun r => r.2 = None) rs
    ∧ forall lenp pick, Read lenp pick s' = Ret ([], Some EOF) s'.
Proof.
  intros Hd Hc Hpos.
  destruct (reads_drain_any sizes picks Hpos (backlog s) s 0%nat Hd (le_n _))
    as (k & rs & s' & Hrun & Hdel & Hn & Hb & Hq & Hc' & Hd').
  exists k, rs, s'. repeat split; try assumption.
  intros lenp pick. rewrite Read_step by exact Hd'.
  rewrite Hb, Hq, Hc', Hc. reflexivity.
Qed.

Lemma Read_closed_drains_witness :
  let s := mkStream 1 (mkChan [[x68; x65; x6c]; [x6c; x6f]] 256 false) []
             (makeWriteFn_of 1) None OnceDone true in
  exists k rs s',
    run (reads (fun _ => 2%nat) (fun k => k) 0 k) s = Some (rs, s')
    ∧ delivered rs = pending s
    ∧ Forall (fun r => r.2 = None) rs
    ∧ forall lenp pick, Read lenp pick s' = Ret ([], Some EOF) s'.
Proof.
  cbv zeta.
  apply (Read_closed_drains
           (mkStream 1 (mkChan [[x68; x65; x6c]; [x6c; x6f]] 256 false) []
              (makeWriteFn_of 1) None OnceDone true)
           (fun _ => 2%nat) (fun k => k)); [reflexivity|reflexivity|].
  intros k. lia.
Defined.

End StreamDrain.

(** ** mux.go: the reader task, frame by frame *)

Section ReaderTurn.
Import FrameCodec mux.

(** A message that starts with the encoding of a frame is dispatched as
    that frame, whatever follows it in the message. *)
Lemma readLoop_iter_frame (f : Frame) (junk : list byte) (pick : nat) (m : Mux) :
  1 <= Z_of_byte (Type_ f) <= 5 ->
  0 <= StreamID f < 2 ^ 32 ->
  Z.of_nat (length (Payload f)) <= MaxPayloadSize ->
  readLoop_iter (read_msg (EncodeFrame f ++ junk)) pick m =
  if closed m then Ret false (set_done true m)
  else (do _ <- dispatch f pick ;; ret true) m.
Proof.
  intros Ht Hid Hlen. unfold readLoop_iter, NewReader.
  rewrite DecodeFrame_EncodeFrame_app by assumption.
  replace (length (EncodeFrame f ++ junk) <? frameHeaderSize)%nat with false;
    [reflexivity|].
  symmetry. apply Nat.ltb_ge. unfold EncodeFrame, PutUint32, frameHeaderSize.
  cbn [app length]. lia.
Qed.

(** [pushData] on a closed stream never parks: the payload is queued or
    dropped, and it is dropped when the queue is full. *)
Lemma pushData_closed (data : list byte) (pick : nat) (s : stream.Stream) :
  stream.closed s = true -> chclosed (stream.dataCh s) = false ->
  stream.pushData data pick s = Ret tt s
  ∨ ((length (buf (stream.dataCh s)) < cap (stream.dataCh s))%nat
     ∧ stream.pushData data pick s =
       Ret tt (stream.set_dataCh
                 (mkChan (buf (stream.dataCh s) ++ [data])
                         (cap (stream.dataCh s)) false) s)).
Proof.
  intros Hc Hd. unfold stream.pushData, send_ready, chan_send.
  rewrite Hc, Hd. cbn [orb].
  destruct (Nat.ltb_spec (length (buf (stream.dataCh s)))
                         (cap (stream.dataCh s))) as [Hroom|Hfull].
  - destruct (select_both stream.case_data stream.case_closed pick)
      as [-> | ->]; auto.
  - rewrite select_second_only. auto.
Qed.

Lemma set_heap_same (m : Mux) (r : nat) (s : stream.Stream) :
  heap m !! r = Some s -> set_heap (<[r := s]> (heap m)) m = m.
Proof.
  intros H. rewrite list_insert_id by exact H. destruct m; reflexivity.
Qed.

(** X4. The turn of the reader task that receives a [DATA] frame for a
    registered stream, on a mux that is not shut down.  When the stream is
    open and its inbound queue has room, the payload goes to the end of that
    queue and nothing else changes.  When the stream is open and its queue
    is full, the turn does not complete: the reader task parks inside
    [pushData] with the state unchanged, so that no later frame of any
    stream is handled meanwhile.  When the stream is closed the turn always
    completes: with a full queue the payload is dropped, with room it is
    dropped or queued. *)
Theorem DATA_frame_to_stream (m : Mux) (id : Z) (r : nat) (s : stream.Stream)
  (payload : list byte) (pick : nat) :
  closed m = false ->
  streams m !! id = Some r -> heap m !! r = Some s ->
  chclosed (stream.dataCh s) = false ->
  0 <= id < 2 ^ 32 -> Z.of_nat (length payload) <= MaxPayloadSize ->
  let turn :=
    readLoop_iter (read_msg (EncodeFrame (mkFrame FrameData id payload))) pick m in
  let queued :=
    set_heap (<[r := stream.set_dataCh
                       (mkChan (buf (stream.dataCh s) ++ [payload])
                               (cap (stream.dataCh s)) false) s]> (heap m)) m in
  match stream.closed s,
        (length (buf (stream.dataCh s)) <? cap (stream.dataCh s))%nat with
  | false, true => turn = Ret true queued
  | false, false => turn = Block m
  | true, false => turn = Ret true m
  | true, true => turn = Ret true queued ∨ turn = Ret true m
  end.
Proof.
  intros Hm Hreg Hs Hd Hid Hlen turn queued.
  assert (Hturn : turn = (do _ <- handleData id payload pick ;; ret true) m).
  { unfold turn.
    rewrite <- (app_nil_r (EncodeFrame _)), readLoop_iter_frame, Hm;
      cbn [Type_ StreamID Payload]; try assumption; [reflexivity|].
    change (Z_of_byte FrameData) with 2. lia. }
  rewrite Hturn. unfold bind, handleData, on_stream. rewrite Hreg, Hs.
  destruct (stream.closed s) eqn:Hc.
  - destruct (pushData_closed payload pick s Hc Hd) as [E|[Hroom E]].
    + rewrite E, set_heap_same by exact Hs.
      destruct (_ <? _)%nat; auto.
    + rewrite E. destruct (Nat.ltb_spec (length (buf (stream.dataCh s)))
                                        (cap (stream.dataCh s))); [|lia].
      left. reflexivity.
  - rewrite pushData_open by assumption.
    destruct (_ <? _)%nat; [reflexivity|].
    rewrite set_heap_same by exact Hs. reflexivity.
Qed.

Lemma DATA_frame_to_stream_witness :
  let s := stream.mkStream 1 (mkChan (replicate 256 [x61]) 256 false) []
             (stream.makeWriteFn_of 1) (Some (stream.makeCloseFn_of 1))
             OnceIdle false in
  let m := set_streams (<[1 := 0%nat]> ∅) (set_heap [s] (NewMux false)) in
  readLoop_iter (read_msg (EncodeFrame (mkFrame FrameData 1 [x62]))) 0 m
  = Block m.
Proof.
  cbv zeta.
  set (s := stream.mkStream 1 (mkChan (replicate 256 [x61]) 256 false) []
              (stream.makeWriteFn_of 1) (Some (stream.makeCloseFn_of 1))
              OnceIdle false).
  set (m := set_streams (<[1 := 0%nat]> ∅) (set_heap [s] (NewMux false))).
  assert (Hreg : streams m !! 1 = Some 0%nat) by (vm_compute; reflexivity).
  assert (Hlen : Z.of_nat (length [x62]) <= MaxPayloadSize)
    by (vm_compute; discriminate).
  exact (DATA_frame_to_stream m 1 0%nat s [x62] 0 eq_refl Hreg eq_refl eq_refl
           ltac:(lia) Hlen).
Defined.

(** X5. A message that [DecodeFrame] rejects (fewer than 9 bytes, unknown
    type byte, declared length above 10 MiB, or fewer payload bytes than
    declared) is skipped by the reader task: the turn returns, the loop goes
    on, and the state of the mux is untouched, whether or not the mux has
    been shut down. *)
Theorem malformed_message_skipped (data : list byte) (pick : nat) (m : Mux) :
  short_header data ∨ invalid_type data ∨ payload_too_large data
  ∨ short_payload data ->
  readLoop_iter (read_msg data) pick m = Ret true m.
Proof.
  intros Hbad. unfold readLoop_iter.
  destruct (Nat.ltb_spec (length data) frameHeaderSize); [reflexivity|].
  pose proof (DecodeFrame_cases data) as Hc.
  destruct (DecodeFrame (NewReader data)) as [[f|e] d]; [|reflexivity].
  inversion Hc; subst. tauto.
Qed.

Lemma malformed_message_skipped_witness :
  readLoop_iter (read_msg [xff; x00; x00; x00; x01; x00; x00; x00; x00]) 0
                (NewMux false)
  = Ret true (NewMux false).
Proof.
  apply malformed_message_skipped. right. left.
  unfold invalid_type, hdr_type, frameHeaderSize. cbn [length nth].
  change (Z_of_byte xff) with 255. lia.
Defined.

(** X6. Bytes that follow a frame in the same websocket message are
    ignored: the turn of the reader task is the one of the frame alone. *)
Theorem trailing_bytes_ignored (f : Frame) (junk : list byte) (pick : nat)
  (m : Mux) :
  1 <= Z_of_byte (Type_ f) <= 5 ->
  0 <= StreamID f < 2 ^ 32 ->
  Z.of_nat (length (Payload f)) <= MaxPayloadSize ->
  readLoop_iter (read_msg (EncodeFrame f ++ junk)) pick m =
  readLoop_iter (read_msg (EncodeFrame f)) pick m.
Proof.
  intros Ht Hid Hlen.
  rewrite <- (app_nil_r (EncodeFrame f)) at 2.
  rewrite !readLoop_iter_frame by assumption. reflexivity.
Qed.

Lemma trailing_bytes_ignored_witness :
  readLoop_iter (read_msg (EncodeFrame (mkFrame FramePing 0 []) ++ [xff; xff]))
                0 (NewMux false)
  = readLoop_iter (read_msg (EncodeFrame (mkFrame FramePing 0 []))) 0
                  (NewMux false).
Proof.
  apply (trailing_bytes_ignored (mkFrame FramePing 0 []) [xff; xff] 0
           (NewMux false)); cbn [Type_ StreamID Payload length];
    try change (Z_of_byte FramePing) with 4; unfold MaxPayloadSize; lia.
Defined.

End ReaderTurn.

(** ** mux.go: opening streams *)

Section Opening.
Import FrameCodec mux scene.

(** Encoding a frame without payload and handing it to [writeWS], on a mux
    that can send. *)
Lemma submit_frame (t : byte) (id : Z) (pick : nat) (m : Mux) :
  can_send m ->
  (do frame <- encode t id None ;; writeWS frame pick) m
  = Ret None (enqueued (EncodeFrame (mkFrame t id [])) m).
Proof.
  intros (Hc & Hw & Hroom). unfold bind, encode, alloc_buf.
  rewrite writeWS_open by assumption. cbn [writeCh set_mem].
  destruct (Nat.ltb_spec (length (buf (writeCh m))) (cap (writeCh m)));
    [reflexivity|lia].
Qed.

Lemma submit_frame_then {B} (t : byte) (id : Z) (pick : nat) (m : Mux)
  (k : option error -> M B) :
  can_send m ->
  (do frame <- encode t id None ;; do err <- writeWS frame pick ;; k err) m
  = k None (enqueued (EncodeFrame (mkFrame t id [])) m).
Proof.
  intros Hs. pose proof (submit_frame t id pick m Hs) as H.
  unfold bind in H |- *.
  destruct (encode t id None m) as [frame m1|m1|m1]; try discriminate.
  rewrite H. reflexivity.
Qed.

(** X7. [OpenStream] on a mux that is not shut down, whose outbound queue
    has room and whose stream limit (if any) is not reached: it returns a
    new stream and no error; the stream is fresh (open, nothing to read), its
    ID is the counter's value and it is registered under that ID; the
    counter has advanced by two in 32 bits; and one [OPEN_STREAM] frame with
    that ID and no payload has gone to the end of the outbound queue.  A
    [DATA] frame that then arrives for that ID lands in the queue of the
    stream that was returned. *)
Theorem OpenStream_opens (m : Mux) (pick : nat) :
  can_send m ->
  maxStreams m <= 0 ∨ Z.of_nat (size (streams m)) < maxStreams m ->
  let id := nextID m in
  let m' := enqueued (open_frame id)
              (registered id (new_mux_stream id)
                 (set_nextID (uint32 (id + 2)) m)) in
  OpenStream pick m = Ret (Some (length (heap m)), None) m'
  ∧ heap m' !! length (heap m) = Some (stream.newStream id
                                         (stream.makeWriteFn_of id)
                                         (Some (stream.makeCloseFn_of id)))
  ∧ forall payload pick',
      handleData id payload pick' m' =
      Ret tt (set_heap (<[length (heap m) :=
                           stream.set_dataCh (mkChan [payload] 256 false)
                             (new_mux_stream id)]> (heap m')) m').
Proof.
  intros Hsend Hcap id m'. pose proof Hsend as (Hc & Hw & Hroom).
  assert (Hnew : heap m' !! length (heap m) = Some (new_mux_stream id)).
  { unfold m', enqueued, registered; cbn [heap set_writeCh set_mem set_streams
      set_heap set_nextID].
    rewrite lookup_app_r, Nat.sub_diag by lia. reflexivity. }
  split; [|split; [exact Hnew|]].
  - rewrite OpenStream_steps. rewrite Hc.
    replace ((maxStreams m >? 0) && (Z.of_nat (size (streams m)) >=? maxStreams m))
      with false
      by (destruct (Z.gtb_spec (maxStreams m) 0),
            (Z.geb_spec (Z.of_nat (size (streams m))) (maxStreams m));
          cbn [andb]; try reflexivity; lia).
    fold id. unfold bind at 1 2 3. unfold modify, alloc_stream.
    change (set_streams _ _)
      with (registered id (new_mux_stream id) (set_nextID (uint32 (id + 2)) m)).
    rewrite submit_frame_then; [reflexivity|].
    repeat split; assumption.
  - intros payload pick'.
    rewrite (handleData_registered m' id (length (heap m)) (new_mux_stream id));
      try reflexivity; try exact Hnew.
    + unfold m', enqueued, registered; cbn [streams set_writeCh set_mem
        set_streams set_heap set_nextID].
      apply lookup_insert_eq.
    + cbn. lia.
Qed.

Lemma OpenStream_opens_witness :
  let m' := enqueued (open_frame 1)
              (registered 1 (new_mux_stream 1)
                 (set_nextID (uint32 (1 + 2)) (NewMux false))) in
  OpenStream 0 (NewMux false) = Ret (Some 0%nat, None) m'
  ∧ heap m' !! 0%nat = Some (stream.newStream 1 (stream.makeWriteFn_of 1)
                               (Some (stream.makeCloseFn_of 1)))
  ∧ forall payload pick',
      handleData 1 payload pick' m' =
      Ret tt (set_heap (<[0%nat :=
                           stream.set_dataCh (mkChan [payload] 256 false)
                             (new_mux_stream 1)]> (heap m')) m').
Proof.
  cbv zeta.
  apply (OpenStream_opens (NewMux false) 0).
  - repeat split; cbn; lia.
  - left. cbn. lia.
Defined.

End Opening.

Section StreamLimit.
Import FrameCodec mux scene.

Lemma size_insert_le (id : Z) (r : nat) (reg : gmap Z nat) :
  (size (<[id := r]> reg) <= S (size reg))%nat.
Proof.
  rewrite map_size_insert. destruct (reg !! id); unfold Datatypes.id; lia.
Qed.

Lemma size_delete_le (id : Z) (reg : gmap Z nat) :
  (size (delete id reg) <= size reg)%nat.
Proof.
  rewrite map_size_delete. destruct (reg !! id); unfold Datatypes.id; lia.
Qed.

(** [OpenStream_register] on a mux that can send: the stream is registered
    and its [OPEN_STREAM] frame goes to the end of the outbound queue. *)
Lemma OpenStream_register_sends (id : Z) (pick : nat) (m : Mux) :
  can_send m ->
  OpenStream_register id pick m =
  Ret (Some (length (heap m)), None)
      (enqueued (open_frame id) (registered id (new_mux_stream id) m)).
Proof.
  intros (Hc & Hw & Hroom). unfold OpenStream_register.
  unfold bind at 1, alloc_stream. unfold bind at 1, modify.
  unfold bind at 1, encode, alloc_buf. unfold bind at 1.
  rewrite writeWS_open by assumption.
  cbn [writeCh set_mem set_streams set_heap buf cap].
  destruct (Nat.ltb_spec (length (buf (writeCh m))) (cap (writeCh m))); [|lia].
  reflexivity.
Qed.

(** X8. The stream limit set by [SetMaxStreams(n)], [n > 0], on a mux that
    is not shut down.  When the registry already holds [n] streams or more,
    [OpenStream] returns [ErrTooManyStreams] and changes nothing (no ID is
    used up).  However a call of [OpenStream] whose two sections follow each
    other without a call of another task in between ends (it returns, or
    parks on a full outbound queue), the registry afterwards holds at most
    [n] streams, or as many as before when it already held more.  Two calls
    whose first sections both run before either registers its stream both
    pass the check when one place is left: with room for their two frames
    in the outbound queue both succeed, and the registry then holds [n + 1]
    streams.  The limit does not bind the peer either: an inbound
    [OPEN_STREAM] frame for an unregistered ID adds a stream to the registry
    whatever the limit. *)
Theorem SetMaxStreams_caps_OpenStream (m : Mux) (n : Z) (pick : nat) :
  0 < n -> closed m = false ->
  let m1 := state_of (SetMaxStreams n m) in
  (n <= Z.of_nat (size (streams m)) ->
   OpenStream pick m1 = Ret (None, Some ErrTooManyStreams) m1)
  ∧ Z.of_nat (size (streams (state_of (OpenStream pick m1))))
    <= Z.max n (Z.of_nat (size (streams m)))
  ∧ (forall id pick',
       streams m !! id = None ->
       size (streams (state_of (handleOpenStream id pick' m1)))
       = S (size (streams m)))
  ∧ (Z.of_nat (size (streams m)) = n - 1 ->
     let idA := nextID m in
     let idB := uint32 (nextID m + 2) in
     streams m !! idA = None -> streams m !! idB = None -> idA <> idB ->
     chclosed (writeCh m) = false ->
     (length (buf (writeCh m)) + 2 <= cap (writeCh m))%nat ->
     forall pickA pickB,
     exists mA mB mC mD sA sB,
       OpenStream_admit m1 = Ret (inl idA) mA
       ∧ OpenStream_admit mA = Ret (inl idB) mB
       ∧ OpenStream_register idA pickA mB = Ret (Some sA, None) mC
       ∧ OpenStream_register idB pickB mC = Ret (Some sB, None) mD
       ∧ Z.of_nat (size (streams mD)) = n + 1).
Proof.
  intros Hn Hc m1.
  assert (Hm1 : m1 = set_maxStreams n m) by reflexivity.
  split; [|split; [|split]].
  - intros Hfull. rewrite OpenStream_steps. rewrite Hm1; cbn [closed maxStreams streams
      set_maxStreams]. rewrite Hc.
    destruct (Z.gtb_spec n 0), (Z.geb_spec (Z.of_nat (size (streams m))) n);
      try lia. reflexivity.
  - rewrite OpenStream_steps. rewrite Hm1; cbn [closed maxStreams streams
      set_maxStreams]. rewrite Hc.
    destruct (Z.gtb_spec n 0); [|lia].
    destruct (Z.geb_spec (Z.of_nat (size (streams m))) n) as [Hfull|Hfree];
      cbn [andb state_of streams set_maxStreams]; [lia|].
    unfold bind at 1 2 3 4. unfold modify, alloc_stream, encode, alloc_buf.
    cbn [nextID heap streams mem set_maxStreams set_nextID set_heap set_streams
      set_mem].
    set (reg := <[nextID m := length (heap m)]> (streams m)).
    assert (Hreg : (size reg <= S (size (streams m)))%nat)
      by apply size_insert_le.
    unfold bind, writeWS.
    destruct (select _ pick) as [[]|]; cbn [state_of streams set_mem set_streams].
    + destruct (chan_send _ _); unfold removeStream, modify, ret;
        cbn [state_of streams set_writeCh set_mem set_streams]; fold reg; try lia.
      pose proof (size_delete_le (nextID m) reg). lia.
    + unfold removeStream, modify, ret; cbn [state_of streams set_mem set_streams].
      fold reg. pose proof (size_delete_le (nextID m) reg). lia.
    + fold reg. lia.
  - intros id pick' Hfresh. unfold handleOpenStream, bind, alloc_stream, modify.
    cbn [heap streams set_heap set_streams].
    assert (Hs : size (<[id := length (heap m1)]> (streams m1)) = S (size (streams m)))
      by (rewrite Hm1; cbn [streams heap set_maxStreams];
          apply map_size_insert_None; exact Hfresh).
    destruct (select _ pick') as [[]|]; cbn [state_of streams];
      [destruct (chan_send _ _)| |]; cbn [state_of streams set_acceptCh];
      exact Hs.
  - intros Hsize idA idB HA HB Hne Hw Hroom pickA pickB.
    assert (Hadmit : forall m0,
               maxStreams m0 = n -> streams m0 = streams m ->
               OpenStream_admit m0
               = Ret (inl (nextID m0)) (set_nextID (uint32 (nextID m0 + 2)) m0)).
    { intros m0 Hmax Hst. unfold OpenStream_admit. rewrite Hmax, Hst.
      destruct (Z.gtb_spec n 0); [|lia].
      destruct (Z.geb_spec (Z.of_nat (size (streams m))) n); [lia|].
      reflexivity. }
    set (mA := set_nextID (uint32 (nextID m1 + 2)) m1).
    set (mB := set_nextID (uint32 (nextID mA + 2)) mA).
    set (mC := enqueued (open_frame idA) (registered idA (new_mux_stream idA) mB)).
    set (mD := enqueued (open_frame idB) (registered idB (new_mux_stream idB) mC)).
    exists mA, mB, mC, mD, (length (heap mB)), (length (heap mC)).
    split; [apply (Hadmit m1); reflexivity|].
    split; [apply (Hadmit mA); reflexivity|].
    split.
    { apply OpenStream_register_sends. repeat split; cbn; try assumption. lia. }
    split.
    { apply OpenStream_register_sends. repeat split; cbn; try assumption.
      rewrite length_app. cbn [length]. lia. }
    cbn [mD mC enqueued registered streams set_writeCh set_mem set_streams
           set_heap mB mA set_nextID].
    rewrite map_size_insert_None
      by (rewrite lookup_insert_ne by congruence; exact HB).
    rewrite map_size_insert_None by exact HA.
    rewrite Hm1. cbn [streams set_maxStreams]. lia.
Qed.

Lemma SetMaxStreams_caps_OpenStream_witness :
  let m := registered 1 (new_mux_stream 1) (NewMux false) in
  let m1 := state_of (SetMaxStreams 1 m) in
  let m0 := state_of (SetMaxStreams 1 (NewMux false)) in
  OpenStream 0 m1 = Ret (None, Some ErrTooManyStreams) m1
  ∧ Z.of_nat (size (streams (state_of (OpenStream 0 m1))))
    <= Z.max 1 (Z.of_nat (size (streams m)))
  ∧ size (streams (state_of (handleOpenStream 2 0 m1))) = S (size (streams m))
  ∧ exists mA mB mC mD sA sB,
      OpenStream_admit m0 = Ret (inl 1) mA
      ∧ OpenStream_admit mA = Ret (inl 3) mB
      ∧ OpenStream_register 1 0 mB = Ret (Some sA, None) mC
      ∧ OpenStream_register 3 0 mC = Ret (Some sB, None) mD
      ∧ Z.of_nat (size (streams mD)) = 2.
Proof.
  cbv zeta.
  set (m := registered 1 (new_mux_stream 1) (NewMux false)).
  assert (Hsize : 1 <= Z.of_nat (size (streams m))) by (vm_compute; discriminate).
  assert (Hfresh : streams m !! 2 = None) by (vm_compute; reflexivity).
  destruct (SetMaxStreams_caps_OpenStream m 1 0 ltac:(lia) eq_refl)
    as (H1 & H2 & H3 & _).
  destruct (SetMaxStreams_caps_OpenStream (NewMux false) 1 0 ltac:(lia) eq_refl)
    as (_ & _ & _ & H4).
  split; [exact (H1 Hsize)|]. split; [exact H2|].
  split; [exact (H3 2 0%nat Hfresh)|].
  apply (H4 eq_refl eq_refl eq_refl ltac:(discriminate) eq_refl
            ltac:(vm_compute; lia) 0%nat 0%nat).
Defined.

End StreamLimit.

(** ** mux.go: heartbeat *)

Section Heartbeat.
Import FrameCodec mux scene.

Lemma pong_frame_encoded : pong_frame = EncodeFrame (mkFrame FramePong 0 []).
Proof. reflexivity. Qed.

Lemma load_enqueued (content : list byte) (m : Mux) :
  load (enqueued content m) (length (mem m)) = content.
Proof.
  unfold load, enqueued; cbn [mem set_writeCh set_mem].
  rewrite lookup_app_r, Nat.sub_diag by lia. reflexivity.
Qed.

(** X9. A heartbeat between two muxes that can send.  [SendPing] on the
    first returns no error and puts one [PING] frame at the end of its
    outbound queue; the turn of the second's reader task that receives this
    frame puts one [PONG] frame at the end of its own outbound queue and
    changes nothing else; and the turn of the first's reader task that
    receives that [PONG] invokes the callback registered with [OnPong]
    exactly once, or changes nothing when none is registered. *)
Theorem ping_pong_round_trip (a b : Mux) (pa pb pk : nat) :
  can_send a -> can_send b ->
  let a1 := enqueued ping_frame a in
  let b1 := enqueued pong_frame b in
  SendPing pa a = Ret None a1
  ∧ load a1 (length (mem a)) = ping_frame
  ∧ readLoop_iter (read_msg ping_frame) pb b = Ret true b1
  ∧ load b1 (length (mem b)) = pong_frame
  ∧ readLoop_iter (read_msg pong_frame) pk a1 =
    Ret true (match onPong a with
              | Some fn => set_pongCalls (pongCalls a ++ [fn]) a1
              | None => a1
              end).
Proof.
  intros Ha Hb a1 b1.
  pose proof Ha as (Hca & _). pose proof Hb as (Hcb & _).
  split; [|split; [apply load_enqueued|split; [|split; [apply load_enqueued|]]]].
  - unfold SendPing. rewrite Hca. apply submit_frame. exact Ha.
  - unfold ping_frame.
    rewrite <- (app_nil_r (EncodeFrame _)), readLoop_iter_frame, Hcb;
      cbn [Type_ StreamID Payload length];
      try (change (Z_of_byte FramePing) with 4); try (unfold MaxPayloadSize; lia).
    unfold dispatch; cbn [Type_ FramePing]. unfold handlePing.
    unfold bind at 1. rewrite submit_frame_then by exact Hb. reflexivity.
  - rewrite pong_frame_encoded.
    rewrite <- (app_nil_r (EncodeFrame _)), readLoop_iter_frame;
      cbn [Type_ StreamID Payload length];
      try (change (Z_of_byte FramePong) with 5); try (unfold MaxPayloadSize; lia).
    change (closed a1) with (closed a). rewrite Hca.
    unfold dispatch; cbn [Type_ FramePong]. unfold bind, handlePong.
    change (onPong a1) with (onPong a). change (pongCalls a1) with (pongCalls a).
    destruct (onPong a); reflexivity.
Qed.

Lemma ping_pong_round_trip_witness :
  let a := state_of (OnPong 7 (NewMux false)) in
  let b := NewMux true in
  SendPing 0 a = Ret None (enqueued ping_frame a)
  ∧ load (enqueued ping_frame a) (length (mem a)) = ping_frame
  ∧ readLoop_iter (read_msg ping_frame) 0 b = Ret true (enqueued pong_frame b)
  ∧ load (enqueued pong_frame b) (length (mem b)) = pong_frame
  ∧ readLoop_iter (read_msg pong_frame) 0 (enqueued ping_frame a) =
    Ret true (set_pongCalls [7%nat] (enqueued ping_frame a)).
Proof.
  cbv zeta.
  apply (ping_pong_round_trip (state_of (OnPong 7 (NewMux false))) (NewMux true)
           0 0 0); repeat split; cbn; lia.
Defined.

End Heartbeat.

(** ** mux.go: accepting streams *)

Section Accepting.
Import FrameCodec mux scene.

Lemma handleOpenStream_room (id : Z) (pick : nat) (m : Mux) :
  can_accept 1 m ->
  handleOpenStream id pick m =
  Ret tt (set_acceptCh (mkChan (buf (acceptCh m) ++ [length (heap m)])
                               (cap (acceptCh m)) false)
                       (registered id (new_mux_stream id) m)).
Proof.
  intros (Hc & Ha & Hroom). unfold handleOpenStream, bind, alloc_stream, modify.
  unfold send_ready, chan_send.
  cbn [acceptCh closed heap streams set_heap set_streams].
  rewrite Hc, Ha, select_first_only. cbn [orb].
  destruct (Nat.ltb_spec (length (buf (acceptCh m))) (cap (acceptCh m)));
    [reflexivity|lia].
Qed.

Lemma readLoop_opens (pick : nat) (ids : list Z) :
  forall m : Mux,
    can_accept (length ids) m ->
    Forall (fun id => 0 <= id < 2 ^ 32) ids ->
    exists m1,
      readLoop (open_frames ids pick) m =
      Ret (map (fun id => mkFrame FrameOpenStream id []) ids) m1
      ∧ heap m1 = heap m ++ map new_mux_stream ids
      ∧ buf (acceptCh m1) = buf (acceptCh m) ++ seq (length (heap m)) (length ids)
      ∧ closed m1 = false ∧ chclosed (acceptCh m1) = false.
Proof.
  induction ids as [|id ids IH]; intros m (Hc & Ha & Hroom) Hids.
  - exists m. cbn. rewrite !app_nil_r. auto.
  - apply Forall_cons in Hids as [Hid Hids]. cbn [length] in Hroom.
    assert (Hdec : DecodeFrame (NewReader (open_frame id))
                   = (inl (mkFrame FrameOpenStream id []), mkDec [] [0])).
    { unfold open_frame, NewReader.
      rewrite <- (app_nil_r (EncodeFrame _)).
      apply (DecodeFrame_EncodeFrame_app (mkFrame FrameOpenStream id []) [] []);
        cbn [Type_ StreamID Payload length];
        try (change (Z_of_byte FrameOpenStream) with 1);
        try (unfold MaxPayloadSize); lia. }
    assert (Hturn : readLoop_iter (read_msg (open_frame id)) pick m =
                    Ret true (set_acceptCh
                                (mkChan (buf (acceptCh m) ++ [length (heap m)])
                                        (cap (acceptCh m)) false)
                                (registered id (new_mux_stream id) m))).
    { unfold open_frame.
      rewrite <- (app_nil_r (EncodeFrame _)), readLoop_iter_frame, Hc;
        cbn [Type_ StreamID Payload length];
        try (change (Z_of_byte FrameOpenStream) with 1);
        try (unfold MaxPayloadSize; lia).
      unfold dispatch; cbn [Type_ FrameOpenStream StreamID]. unfold bind.
      rewrite handleOpenStream_room by (repeat split; try assumption; lia).
      reflexivity. }
    set (m0 := set_acceptCh _ _) in Hturn.
    destruct (IH m0) as (m1 & Hrun & Hheap & Hq & Hc1 & Ha1); [|exact Hids|].
    { repeat split; try assumption. unfold m0; cbn. rewrite length_app; cbn. lia. }
    exists m1. split; [|split; [|split; [|auto]]].
    + unfold open_frames in *. cbn [map readLoop]. unfold bind at 1.
      rewrite Hturn.
      unfold bind at 1. rewrite Hrun. unfold ret.
      replace (length (open_frame id) <? frameHeaderSize)%nat with false
        by (symmetry; apply Nat.ltb_ge; unfold open_frame, EncodeFrame, PutUint32,
            frameHeaderSize; cbn [app length]; lia).
      rewrite Hdec. reflexivity.
    + rewrite Hheap. unfold m0, registered; cbn. rewrite <- app_assoc. reflexivity.
    + rewrite Hq. unfold m0, registered; cbn.
      rewrite length_app, <- app_assoc; cbn.
      replace (length (heap m) + 1)%nat with (S (length (heap m))) by lia.
      reflexivity.
Qed.

Lemma AcceptStream_live (pick : nat) (m : Mux) :
  closed m = false -> chclosed (acceptCh m) = false ->
  AcceptStream false pick m =
  match buf (acceptCh m) with
  | [] => Block m
  | r :: rest =>
      Ret (Some r, None)
          (set_acceptCh (mkChan rest (cap (acceptCh m)) false) m)
  end.
Proof.
  intros Hc Ha. unfold AcceptStream, recv_ready, chan_recv, select.
  rewrite Hc, Ha. cbn [orb].
  destruct (buf (acceptCh m)) as [|r rest]; [reflexivity|].
  cbn [length Nat.ltb Nat.leb List.filter fst]. rewrite Nat.mod_1_r.
  reflexivity.
Qed.

Lemma final_cons (m m1 : Mux) (c : call) (r : result)
  (tr : list (call * result * Mux)) :
  final m ((c, r, m1) :: tr) = final m1 tr.
Proof.
  unfold final. cbn [map snd]. rewrite last_cons.
  destruct (last (map snd tr)); reflexivity.
Qed.

Lemma accepts_run (picks : nat -> nat) (q : list nat) :
  forall (m : Mux) (from : nat),
    closed m = false -> chclosed (acceptCh m) = false ->
    buf (acceptCh m) = q ->
    exists tr,
      run (map (fun k => call_AcceptStream false (picks k)) (seq from (length q))) m
      = Some tr
      ∧ accepted tr = q ∧ heap (final m tr) = heap m.
Proof.
  induction q as [|r q IH]; intros m from Hc Ha Hq.
  - exists []. auto.
  - pose proof (AcceptStream_live (picks from) m Hc Ha) as Hacc.
    rewrite Hq in Hacc. set (m1 := set_acceptCh _ m) in Hacc.
    destruct (IH m1 (S from)) as (tr & Hrun & Hacd & Hheap);
      [exact Hc|reflexivity|reflexivity|].
    exists ((call_AcceptStream false (picks from), res_stream (Some r) None, m1)
            :: tr).
    split; [|split].
    + cbn [length seq map run step]. rewrite Hacc. cbn [fmap_outcome fst snd].
      rewrite Hrun. reflexivity.
    + unfold accepted in *. cbn [flat_map]. rewrite Hacd. reflexivity.
    + rewrite final_cons, Hheap. reflexivity.
Qed.

(** X10. Streams are accepted in the order in which the peer opened them.
    On a mux that is not shut down, with an empty accept queue: after the
    reader task has received one [OPEN_STREAM] frame for each ID of a list
    (at most the 32 that the accept queue takes), as many [AcceptStream]
    calls with a live context all return a stream and no error, whatever
    [select] picks, and the stream that the k-th call returns carries the
    k-th ID of the list. *)
Theorem AcceptStream_in_arrival_order (m : Mux) (ids : list Z) (pick : nat)
  (picks : nat -> nat) :
  can_accept (length ids) m -> buf (acceptCh m) = [] ->
  Forall (fun id => 0 <= id < 2 ^ 32) ids ->
  exists m1 tr,
    readLoop (open_frames ids pick) m =
    Ret (map (fun id => mkFrame FrameOpenStream id []) ids) m1
    ∧ run (accepts picks (length ids)) m1 = Some tr
    ∧ length (accepted tr) = length ids
    ∧ map (fun r => stream.ID <$> heap (final m1 tr) !! r) (accepted tr)
      = map Some ids.
Proof.
  intros Hacc Hempty Hids.
  destruct (readLoop_opens pick ids m Hacc Hids)
    as (m1 & Hrun & Hheap & Hq & Hc1 & Ha1).
  rewrite Hempty in Hq; cbn [app] in Hq.
  destruct (accepts_run picks (buf (acceptCh m1)) m1 0%nat Hc1 Ha1 eq_refl)
    as (tr & Htr & Hacd & Hfin).
  exists m1, tr. rewrite Hq, length_seq in Htr.
  split; [exact Hrun|]. split; [exact Htr|].
  rewrite Hacd, Hq, length_seq. split; [reflexivity|].
  rewrite Hfin, Hheap. clear.
  generalize (heap m). induction ids as [|id ids IH]; intros h; [reflexivity|].
  cbn [length seq map]. f_equal.
  - rewrite lookup_app_r, Nat.sub_diag by lia. reflexivity.
  - specialize (IH (h ++ [new_mux_stream id])).
    rewrite length_app, <- app_assoc in IH. cbn [length app] in IH.
    replace (length h + 1)%nat with (S (length h)) in IH by lia. exact IH.
Qed.

Lemma AcceptStream_in_arrival_order_witness :
  exists m1 tr,
    readLoop (open_frames [2; 6; 4] 0) (NewMux false) =
    Ret (map (fun id => mkFrame FrameOpenStream id []) [2; 6; 4]) m1
    ∧ run (accepts (fun k => k) 3) m1 = Some tr
    ∧ length (accepted tr) = 3%nat
    ∧ map (fun r => stream.ID <$> heap (final m1 tr) !! r) (accepted tr)
      = map Some [2; 6; 4].
Proof.
  apply (AcceptStream_in_arrival_order (NewMux false) [2; 6; 4] 0 (fun k => k)).
  - repeat split; cbn; lia.
  - reflexivity.
  - repeat constructor; lia.
Defined.

End Accepting.

(** ** mux.go: the writer task *)

Section Writer.
Import FrameCodec mux scene.

Lemma writeLoop_iter_sends (m : Mux) (data : nat) (rest : list nat) :
  healthy m -> buf (writeCh m) = data :: rest ->
  writeLoop_iter m =
  Ret true (set_conn (mkConn (sent (conn m) ++ [load m data]) false false)
              (set_writeCh (mkChan rest (cap (writeCh m)) (chclosed (writeCh m)))
                 m)).
Proof.
  intros (Hb & Hcl) Hq. unfold writeLoop_iter, chan_recv. rewrite Hq.
  unfold bind, conn_Write; cbn [conn set_writeCh]. rewrite Hb, Hcl. reflexivity.
Qed.

Lemma writer_turns_run (n : nat) :
  forall m : Mux,
    writeDone m = false -> healthy m ->
    (n <= length (buf (writeCh m)))%nat ->
    exists tr,
      run (writer_turns n) m = Some tr
      ∧ Forall (fun e => e.1.2 = res_loop true) tr
      ∧ sent (conn (final m tr)) = sent (conn m) ++ take n (outbox m)
      ∧ buf (writeCh (final m tr)) = drop n (buf (writeCh m))
      ∧ mem (final m tr) = mem m
      ∧ chclosed (writeCh (final m tr)) = chclosed (writeCh m)
      ∧ writeDone (final m tr) = false ∧ healthy (final m tr).
Proof.
  induction n as [|n IH]; intros m Hwd Hh Hn.
  - exists []. cbn. rewrite app_nil_r. auto 8.
  - destruct (buf (writeCh m)) as [|data rest] eqn:Hq; [cbn in Hn; lia|].
    pose proof (writeLoop_iter_sends m data rest Hh Hq) as Hturn.
    set (m1 := set_conn _ _) in Hturn.
    destruct (IH m1) as (tr & Hrun & Hres & Hsent & Hbuf & Hmem & Hcl & Hwd' & Hh');
      [exact Hwd|split; reflexivity|cbn in Hn |- *; lia|].
    exists ((call_writer, res_loop true, m1) :: tr).
    rewrite final_cons. split; [|split; [|split; [|split; [|auto]]]].
    + cbn [writer_turns repeat run step]. rewrite Hwd, Hturn.
      cbn [fmap_outcome]. fold (writer_turns n). rewrite Hrun. reflexivity.
    + constructor; [reflexivity|exact Hres].
    + rewrite Hsent. unfold outbox. rewrite Hq. cbn. rewrite <- app_assoc.
      reflexivity.
    + rewrite Hbuf. reflexivity.
Qed.

(** X11. The writer task sends the queue in order.  With a transport that
    works, [n] turns of the writer task, [n] at most the number of frames
    queued, all complete with the loop going on; the connection has then
    received exactly the first [n] queued frames, in the order in which they
    were queued, after what it had received before, and the rest of the
    queue is what remains.  Once the queue is empty the next turn parks if
    the queue is still open, and leaves the loop, closing [writeDone], if
    [shutdown] has closed the queue. *)
Theorem writer_sends_in_order (m : Mux) (n : nat) :
  writeDone m = false -> healthy m ->
  (n <= length (buf (writeCh m)))%nat ->
  exists tr,
    run (writer_turns n) m = Some tr
    ∧ Forall (fun e => e.1.2 = res_loop true) tr
    ∧ sent (conn (final m tr)) = sent (conn m) ++ take n (outbox m)
    ∧ outbox (final m tr) = drop n (outbox m)
    ∧ (n = length (buf (writeCh m)) ->
       step call_writer (final m tr) =
       if chclosed (writeCh m)
       then Ret (res_loop false) (set_writeDone true (final m tr))
       else Block (final m tr)).
Proof.
  intros Hwd Hh Hn.
  destruct (writer_turns_run n m Hwd Hh Hn)
    as (tr & Hrun & Hres & Hsent & Hbuf & Hmem & Hcl & Hwd' & Hh').
  exists tr. repeat split; try assumption.
  - unfold outbox, load. rewrite Hbuf, Hmem. symmetry. apply skipn_map.
  - intros ->. rewrite drop_all in Hbuf.
    cbn [step]. rewrite Hwd'. unfold writeLoop_iter, chan_recv.
    rewrite Hbuf, Hcl. destruct (chclosed (writeCh m)); reflexivity.
Qed.

Lemma writer_sends_in_order_witness :
  let m := enqueued pong_frame (enqueued ping_frame (NewMux false)) in
  exists tr,
    run (writer_turns 2) m = Some tr
    ∧ Forall (fun e => e.1.2 = res_loop true) tr
    ∧ sent (conn (final m tr)) = sent (conn m) ++ take 2 (outbox m)
    ∧ outbox (final m tr) = drop 2 (outbox m)
    ∧ (2%nat = length (buf (writeCh m)) ->
       step call_writer (final m tr) =
       if chclosed (writeCh m)
       then Ret (res_loop false) (set_writeDone true (final m tr))
       else Block (final m tr)).
Proof.
  cbv zeta.
  apply (writer_sends_in_order
           (enqueued pong_frame (enqueued ping_frame (NewMux false))) 2).
  - reflexivity.
  - split; reflexivity.
  - cbn. lia.
Defined.

End Writer.

(** ** mux.go and stream.go: from one end to the other *)

Section EndToEnd.
Import FrameCodec mux scene.

Lemma Write_live (m : Mux) (r p pick : nat) (s : stream.Stream) (id : Z) :
  heap m !! r = Some s -> stream.closed s = false ->
  stream.writeFn s = stream.makeWriteFn_of id ->
  can_send m ->
  Write r p pick m =
  Ret (Z.of_nat (length (load m p)), None)
      (enqueued (data_frame id (load m p)) (set_mem (mem m ++ [load m p]) m)).
Proof.
  intros Hs Hc Hw (Hm & Hq & Hroom). unfold Write. rewrite Hs, Hc.
  unfold bind, alloc_buf, call_writeFn. rewrite Hw.
  unfold makeWriteFn, bind, encode, alloc_buf. cbn [closed set_mem mem].
  rewrite Hm, writeWS_open by assumption.
  cbn [writeCh set_mem buf cap mem].
  destruct (Nat.ltb_spec (length (buf (writeCh m))) (cap (writeCh m))); [|lia].
  assert (Hl : load (set_mem (mem m ++ [load m p]) m) (length (mem m))
               = load m p).
  { unfold load at 1. cbn [mem set_mem].
    rewrite list_lookup_middle by reflexivity. reflexivity. }
  rewrite Hl. reflexivity.
Qed.

Lemma writer_turn_single (m : Mux) (data : nat) :
  writeDone m = false -> healthy m -> buf (writeCh m) = [data] ->
  exists m',
    step call_writer m = Ret (res_loop true) m'
    ∧ sent (conn m') = sent (conn m) ++ [load m data]
    ∧ buf (writeCh m') = [].
Proof.
  intros Hwd Hh Hq. eexists. cbn [step]. rewrite Hwd.
  rewrite (writeLoop_iter_sends m data []) by assumption.
  cbn [fmap_outcome]. repeat split.
Qed.

(** X12. Bytes written on one end come out of [Read] on the other.  On the
    sending mux: a stream that is not closed, whose ID is a [uint32], a mux
    that can send, an empty outbound queue, a writer task that is running
    and a transport that works; a buffer [p] of at most 10 MiB; on the
    receiving mux, which is not shut down: an open stream registered under
    the same ID that holds nothing, with an inbound queue that is open and
    has a capacity above 0.  Then [Write(p)] returns [len(p)] and no
    error, the next turn of the writer task sends exactly one message to
    the connection; the turn of the receiving reader task that gets this
    message completes; and a [Read] with a buffer of [lenp] bytes on the
    receiving stream then returns the first [lenp] bytes of [p] and no
    error, the rest of [p] staying with the stream for the next [Read]. *)
Theorem data_crosses (a b : Mux) (ra p rb : nat) (sa sb : stream.Stream)
  (id : Z) (lenp pw pr pk : nat) :
  heap a !! ra = Some sa -> stream.closed sa = false ->
  stream.writeFn sa = stream.makeWriteFn_of id ->
  can_send a -> buf (writeCh a) = [] -> writeDone a = false -> healthy a ->
  0 <= id < 2 ^ 32 -> Z.of_nat (length (load a p)) <= MaxPayloadSize ->
  closed b = false -> streams b !! id = Some rb -> heap b !! rb = Some sb ->
  stream.closed sb = false -> chclosed (stream.dataCh sb) = false ->
  stream.readBuf sb = [] -> buf (stream.dataCh sb) = [] ->
  (0 < cap (stream.dataCh sb))%nat ->
  exists a1 a2 msg b1 b2 sb',
    Write ra p pw a = Ret (Z.of_nat (length (load a p)), None) a1
    ∧ step call_writer a1 = Ret (res_loop true) a2
    ∧ sent (conn a2) = sent (conn a) ++ [msg]
    ∧ readLoop_iter (read_msg msg) pr b = Ret true b1
    ∧ Stream_Read rb lenp pk b1 = Ret (take lenp (load a p), None) b2
    ∧ heap b2 !! rb = Some sb'
    ∧ stream.pending sb' = drop lenp (load a p).
Proof.
  intros Hsa Hca Hwa Hsend Hqa Hwd Hh Hid Hlen Hcb Hreg Hsb Hcsb Hdsb Hrb
    Hqb Hcap.
  set (payload := load a p) in *.
  set (a0 := set_mem (mem a ++ [payload]) a).
  set (a1 := enqueued (data_frame id payload) a0).
  assert (Hq1 : buf (writeCh a1) = [length (mem a0)])
    by (unfold a1, enqueued, a0; cbn [writeCh set_writeCh set_mem buf];
        rewrite Hqa; reflexivity).
  destruct (writer_turn_single a1 (length (mem a0)) Hwd Hh Hq1)
    as (a2 & Hturn & Hsent & _).
  unfold a1 at 2 in Hsent. rewrite load_enqueued in Hsent.
  set (sb1 := stream.set_dataCh
                (mkChan (buf (stream.dataCh sb) ++ [payload])
                        (cap (stream.dataCh sb)) false) sb).
  set (b1 := set_heap (<[rb := sb1]> (heap b)) b).
  assert (Hlt : (rb < length (heap b))%nat) by (eapply lookup_lt_Some; eauto).
  assert (Hb1 : readLoop_iter (read_msg (data_frame id payload)) pr b
                = Ret true b1).
  { unfold data_frame.
    rewrite <- (app_nil_r (EncodeFrame _)), readLoop_iter_frame, Hcb;
      cbn [Type_ StreamID Payload]; try assumption;
      [|change (Z_of_byte FrameData) with 2; lia].
    unfold dispatch; cbn [Type_ FrameData StreamID Payload]. unfold bind.
    rewrite (handleData_registered b id rb sb)
      by (try assumption; rewrite Hqb; cbn [length]; lia).
    reflexivity. }
  set (sb2 := stream.set_readBuf (drop lenp payload)
                (stream.set_dataCh (mkChan [] (cap (stream.dataCh sb)) false)
                   sb1)).
  exists a1, a2, (data_frame id payload), b1,
    (set_heap (<[rb := sb2]> (heap b1)) b1), sb2.
  split; [apply (Write_live a ra p pw sa id); assumption|].
  split; [exact Hturn|]. split; [exact Hsent|]. split; [exact Hb1|].
  split; [|split].
  - unfold Stream_Read, on_stream.
    assert (Hl : heap b1 !! rb = Some sb1)
      by (unfold b1; cbn [heap set_heap]; apply list_lookup_insert_eq; exact Hlt).
    rewrite Hl, Read_open by reflexivity || exact Hcsb.
    unfold sb1; cbn [stream.readBuf stream.dataCh stream.set_dataCh buf cap].
    rewrite Hrb, Hqb. reflexivity.
  - cbn [heap set_heap]. apply list_lookup_insert_eq.
    unfold b1; cbn [heap set_heap]. rewrite length_insert. exact Hlt.
  - unfold stream.pending, sb2; cbn. apply app_nil_r.
Qed.

Lemma data_crosses_witness :
  let a := set_mem [[x68; x69; x21]] (set_heap [new_mux_stream 1] (NewMux false)) in
  let b := registered 1 (new_mux_stream 1) (NewMux true) in
  exists a1 a2 msg b1 b2 sb',
    Write 0 0 0 a = Ret (Z.of_nat (length (load a 0)), None) a1
    ∧ step call_writer a1 = Ret (res_loop true) a2
    ∧ sent (conn a2) = sent (conn a) ++ [msg]
    ∧ readLoop_iter (read_msg msg) 0 b = Ret true b1
    ∧ Stream_Read 0 2 0 b1 = Ret (take 2 (load a 0), None) b2
    ∧ heap b2 !! 0%nat = Some sb'
    ∧ stream.pending sb' = drop 2 (load a 0).
Proof.
  cbv zeta.
  set (a := set_mem [[x68; x69; x21]] (set_heap [new_mux_stream 1] (NewMux false))).
  set (b := registered 1 (new_mux_stream 1) (NewMux true)).
  assert (Hlen : Z.of_nat (length (load a 0)) <= MaxPayloadSize)
    by (vm_compute; discriminate).
  assert (Hreg : streams b !! 1 = Some 0%nat) by (vm_compute; reflexivity).
  apply (data_crosses a b 0 0 0 (new_mux_stream 1) (new_mux_stream 1) 1 2 0 0 0);
    try reflexivity; try exact Hlen; try exact Hreg.
  - repeat split; cbn; lia.
  - split; reflexivity.
  - lia.
  - cbn. lia.
Defined.

End EndToEnd.

Section RemoteClose.
Import FrameCodec mux scene.

(** The first [Close] of an open stream on a mux that can send. *)
Lemma Stream_Close_live (m : Mux) (r pick : nat) (s : stream.Stream) (id : Z) :
  heap m !! r = Some s ->
  stream.closeOnce s = OnceIdle -> stream.closed s = false ->
  stream.closeFn s = Some (stream.makeCloseFn_of id) ->
  can_send m ->
  Stream_Close r pick m =
  Ret None (set_heap (<[r := closed_stream s]> (heap m))
              (set_streams (delete id (streams m))
                 (enqueued (close_frame id) m))).
Proof.
  intros Hs Ho Hc Hfn Hsend.
  assert (Hlt : (r < length (heap m))%nat) by (eapply lookup_lt_Some; eauto).
  unfold Stream_Close. rewrite Hs, Ho, Hfn.
  unfold bind at 1. rewrite (on_stream_set r _ m s Hs).
  unfold bind at 1.
  rewrite (on_stream_Ret r _ _ (stream.set_closeOnce OnceRunning s)
             (stream.set_closed true (stream.set_closeOnce OnceRunning s)) tt);
    [|cbn [heap set_heap]; apply list_lookup_insert_eq, Hlt
     |unfold stream.close_closed; cbn [stream.closed stream.set_closeOnce];
      rewrite Hc; reflexivity].
  cbn [heap set_heap]. rewrite list_insert_insert_eq.
  unfold bind at 1, call_closeFn, makeCloseFn.
  rewrite submit_frame_then
    by (destruct Hsend as (? & ? & ?); repeat split; assumption).
  unfold removeStream, modify, bind, ret.
  erewrite on_stream_set
    by (cbn [heap set_heap set_streams enqueued set_writeCh set_mem];
        apply list_lookup_insert_eq, Hlt).
  cbn [heap set_heap set_streams enqueued set_writeCh set_mem].
  rewrite list_insert_insert_eq. reflexivity.
Qed.

(** X13. Closing a stream on one end ends it on the other.  On the closing
    mux: an open stream, a mux that can send, an empty outbound queue and a
    transport that works; on the other mux, which is not shut down: an open
    stream registered under the same ID.  Then [Close] returns nil and the
    next turn of the writer task sends exactly the [CLOSE_STREAM] frame of
    that ID; the turn of the other reader task that receives it completes,
    closes the registered stream and removes it from the registry, and
    nothing is sent back.  From then on [DATA] frames for that ID are
    dropped, and once the stream has been read dry [Read] returns
    [io.EOF]. *)
Theorem close_crosses (a b : Mux) (ra rb : nat) (sa sb : stream.Stream)
  (id : Z) (pc pr : nat) :
  heap a !! ra = Some sa ->
  stream.closeOnce sa = OnceIdle -> stream.closed sa = false ->
  stream.closeFn sa = Some (stream.makeCloseFn_of id) ->
  can_send a -> buf (writeCh a) = [] -> writeDone a = false -> healthy a ->
  0 <= id < 2 ^ 32 ->
  closed b = false -> streams b !! id = Some rb -> heap b !! rb = Some sb ->
  stream.closeOnce sb = OnceIdle -> stream.closed sb = false ->
  let b1 := set_streams (delete id (streams b))
              (set_heap (<[rb := closed_stream sb]> (heap b)) b) in
  exists a1 a2,
    Stream_Close ra pc a = Ret None a1
    ∧ step call_writer a1 = Ret (res_loop true) a2
    ∧ sent (conn a2) = sent (conn a) ++ [close_frame id]
    ∧ readLoop_iter (read_msg (close_frame id)) pr b = Ret true b1
    ∧ (forall payload pk, handleData id payload pk b1 = Ret tt b1)
    ∧ (chclosed (stream.dataCh sb) = false ->
       stream.readBuf sb = [] -> buf (stream.dataCh sb) = [] ->
       forall lenp pk, Stream_Read rb lenp pk b1 = Ret ([], Some EOF) b1).
Proof.
  intros Hsa Hoa Hca Hfa Hsend Hqa Hwd Hh Hid Hcb Hreg Hsb Hob Hcsb b1.
  set (a1 := set_heap (<[ra := closed_stream sa]> (heap a))
               (set_streams (delete id (streams a))
                  (enqueued (close_frame id) a))).
  assert (Hq1 : buf (writeCh a1) = [length (mem a)])
    by (unfold a1, enqueued; cbn [writeCh set_heap set_streams set_writeCh
          set_mem buf]; rewrite Hqa; reflexivity).
  destruct (writer_turn_single a1 (length (mem a)) Hwd Hh Hq1)
    as (a2 & Hturn & Hsent & _).
  assert (Hload : load a1 (length (mem a)) = close_frame id)
    by apply (load_enqueued (close_frame id) a).
  rewrite Hload in Hsent.
  assert (Hlt : (rb < length (heap b))%nat) by (eapply lookup_lt_Some; eauto).
  assert (Hrb : heap b1 !! rb = Some (closed_stream sb))
    by (unfold b1; cbn [heap set_streams set_heap];
        apply list_lookup_insert_eq, Hlt).
  exists a1, a2.
  split; [apply (Stream_Close_live a ra pc sa id); assumption|].
  split; [exact Hturn|]. split; [exact Hsent|]. split; [|split].
  - unfold close_frame.
    rewrite <- (app_nil_r (EncodeFrame _)), readLoop_iter_frame, Hcb;
      cbn [Type_ StreamID Payload length]; try assumption;
      try (change (Z_of_byte FrameCloseStream) with 3);
      try (unfold MaxPayloadSize; lia).
    unfold dispatch; cbn [Type_ FrameCloseStream StreamID].
    unfold bind at 1, handleCloseStream. rewrite Hreg. unfold bind.
    rewrite (on_stream_Ret rb _ b sb (closed_stream sb) tt Hsb)
      by (apply closeRead_fresh; assumption).
    reflexivity.
  - intros payload pk. unfold handleData.
    replace (streams b1 !! id) with (@None nat); [reflexivity|].
    unfold b1; cbn [streams set_streams]. symmetry. apply lookup_delete_eq.
  - intros Hd Hr Hq lenp pk. unfold Stream_Read, on_stream. rewrite Hrb.
    rewrite Read_step by exact Hd.
    unfold closed_stream;
      cbn [stream.readBuf stream.dataCh stream.closed stream.set_closeOnce
             stream.set_closed].
    rewrite Hr, Hq. fold (closed_stream sb).
    rewrite set_heap_same by exact Hrb. reflexivity.
Qed.

Lemma close_crosses_witness :
  let a := set_heap [new_mux_stream 1] (NewMux false) in
  let b := registered 1 (new_mux_stream 1) (NewMux true) in
  let b1 := set_streams (delete 1 (streams b))
              (set_heap (<[0%nat := closed_stream (new_mux_stream 1)]> (heap b)) b) in
  exists a1 a2,
    Stream_Close 0 0 a = Ret None a1
    ∧ step call_writer a1 = Ret (res_loop true) a2
    ∧ sent (conn a2) = sent (conn a) ++ [close_frame 1]
    ∧ readLoop_iter (read_msg (close_frame 1)) 0 b = Ret true b1
    ∧ (forall payload pk, handleData 1 payload pk b1 = Ret tt b1)
    ∧ (chclosed (stream.dataCh (new_mux_stream 1)) = false ->
       stream.readBuf (new_mux_stream 1) = [] ->
       buf (stream.dataCh (new_mux_stream 1)) = [] ->
       forall lenp pk, Stream_Read 0 lenp pk b1 = Ret ([], Some EOF) b1).
Proof.
  cbv zeta.
  set (b := registered 1 (new_mux_stream 1) (NewMux true)).
  assert (Hreg : streams b !! 1 = Some 0%nat) by (vm_compute; reflexivity).
  apply (close_crosses (set_heap [new_mux_stream 1] (NewMux false)) b 0 0
           (new_mux_stream 1) (new_mux_stream 1) 1 0 0);
    try reflexivity; try exact Hreg.
  - repeat split; cbn; lia.
  - split; reflexivity.
  - lia.
Defined.

End RemoteClose.

(** ** mux.go: the registry is keyed by ID, not by stream *)

Section Replaced.
Import FrameCodec mux scene.

(** X14. [makeCloseFn] removes the registry entry of its ID, whichever
    stream holds it.  When a stream has been replaced in the registry by
    another stream with the same ID (a second [OPEN_STREAM] frame for that
    ID), the first [Close] of the replaced stream, which is open, on a mux
    that can send (it is not shut down and its outbound queue is open and
    has room), returns nil and leaves the ID unregistered although the
    replacement has not been touched: the [DATA] and [CLOSE_STREAM] frames
    that arrive for the ID afterwards are dropped and never reach the
    replacement. *)
Theorem Close_of_replaced_unregisters (m : Mux) (old new : nat)
  (so sn : stream.Stream) (id : Z) (pick : nat) :
  heap m !! old = Some so ->
  stream.closeOnce so = OnceIdle -> stream.closed so = false ->
  stream.closeFn so = Some (stream.makeCloseFn_of id) ->
  streams m !! id = Some new -> old <> new -> heap m !! new = Some sn ->
  can_send m ->
  exists m',
    Stream_Close old pick m = Ret None m'
    ∧ streams m' !! id = None
    ∧ heap m' !! new = Some sn
    ∧ (forall payload pk, handleData id payload pk m' = Ret tt m')
    ∧ handleCloseStream id m' = Ret tt m'.
Proof.
  intros Hso Ho Hc Hfn Hreg Hne Hsn Hsend.
  eexists. split; [apply (Stream_Close_live m old pick so id); assumption|].
  assert (Hnone : streams (set_heap (<[old := closed_stream so]> (heap m))
                             (set_streams (delete id (streams m))
                                (enqueued (close_frame id) m))) !! id = None)
    by (cbn [streams set_heap set_streams]; apply lookup_delete_eq).
  split; [exact Hnone|]. split; [|split].
  - cbn [heap set_heap set_streams enqueued set_writeCh set_mem].
    rewrite list_lookup_insert_ne by exact Hne. exact Hsn.
  - intros payload pk. unfold handleData. rewrite Hnone. reflexivity.
  - unfold handleCloseStream. rewrite Hnone. reflexivity.
Qed.

Lemma Close_of_replaced_unregisters_witness :
  let m := exec [call_reader (read_msg (open_frame 1)) 0;
                 call_reader (read_msg (open_frame 1)) 0] (NewMux true) in
  exists m',
    Stream_Close 0 0 m = Ret None m'
    ∧ streams m' !! 1 = None
    ∧ heap m' !! 1%nat = Some (new_mux_stream 1)
    ∧ (forall payload pk, handleData 1 payload pk m' = Ret tt m')
    ∧ handleCloseStream 1 m' = Ret tt m'.
Proof.
  cbv zeta.
  set (m := exec _ _).
  assert (Hold : heap m !! 0%nat = Some (new_mux_stream 1))
    by (vm_compute; reflexivity).
  assert (Hnew : heap m !! 1%nat = Some (new_mux_stream 1))
    by (vm_compute; reflexivity).
  assert (Hreg : streams m !! 1 = Some 1%nat) by (vm_compute; reflexivity).
  assert (Hsend : can_send m)
    by (repeat split; [vm_compute; reflexivity..|vm_compute; lia]).
  apply (Close_of_replaced_unregisters m 0 1 (new_mux_stream 1)
           (new_mux_stream 1) 1 0 Hold eq_refl eq_refl eq_refl Hreg
           ltac:(discriminate) Hnew Hsend).
Defined.

End Replaced.

(** ** mux.go: closing the mux *)

Section Closing.
Import FrameCodec mux scene.

(** With a transport that works, [shutdown] waits while the writer task
    sends what is left in the queue, in order. *)
Lemma await_writer_healthy (q : list nat) :
  forall m : Mux,
    writeDone m = false -> healthy m -> buf (writeCh m) = q ->
    await_writer false q m =
    Ret tt (set_writeDone true
              (set_conn (mkConn (sent (conn m) ++ map (load m) q) false false)
                 (set_writeCh (mkChan [] (cap (writeCh m)) (chclosed (writeCh m)))
                    m))).
Proof.
  induction q as [|data rest IH]; intros m Hwd (Hb & Hcl) Hq.
  - cbn [await_writer]. rewrite Hwd. f_equal.
    destruct m as [? ? [? ? ?] ? ? ? ? ? ? ? ? ? ? [? ? ?] ?]. cbn in *. subst.
    rewrite app_nil_r. reflexivity.
  - cbn [await_writer]. rewrite Hwd. unfold bind, conn_Write.
    cbn [conn set_writeCh]. rewrite Hb, Hcl. cbn [orb].
    rewrite IH; [|exact Hwd|split; reflexivity|reflexivity].
    unfold set_writeDone, set_conn, set_writeCh, load; cbn.
    rewrite <- app_assoc. reflexivity.
Qed.

End Closing.

Section Ended.
Import FrameCodec mux scene.

Ltac ended_leaf :=
  intros; unfold ended_stays, flags_stay, keeps_done in *; cbn in *;
  intuition congruence.

Lemma shutdown_keeps_done (fw : bool) : mux.stable keeps_done (shutdown fw).
Proof. apply stable_shutdown; ended_leaf. Qed.

Lemma shutdown_flags_stay (fw : bool) : mux.stable flags_stay (shutdown fw).
Proof. apply stable_shutdown; ended_leaf. Qed.

Lemma shutdown_ended_stays (fw : bool) : mux.stable ended_stays (shutdown fw).
Proof.
  intros m. split; [|apply shutdown_flags_stay].
  intros Ho. unfold shutdown. rewrite Ho. exact Ho.
Qed.

(** No call reopens [done] or starts a completed [shutdown] again. *)
Lemma step_ended_stays (c : call) (m : Mux) : ended_stays m (state_of (step c m)).
Proof.
  assert (Hfm : forall A B (f : A -> B) (o : outcome Mux A),
             state_of (fmap_outcome f o) = state_of o)
    by (intros A B f []; reflexivity).
  destruct c; cbn [step]; rewrite ?Hfm.
  - apply stable_OpenStream; ended_leaf.
  - apply stable_AcceptStream; ended_leaf.
  - apply stable_SendPing; ended_leaf.
  - ended_leaf.
  - ended_leaf.
  - apply stable_Close; try ended_leaf. apply shutdown_ended_stays.
  - apply stable_Stream_Read; ended_leaf.
  - apply stable_Write; ended_leaf.
  - apply stable_Stream_Close; ended_leaf.
  - destruct (done m); [ended_leaf|]. rewrite Hfm.
    apply stable_readLoop_iter; try ended_leaf. apply shutdown_ended_stays.
  - destruct (writeDone m); [ended_leaf|]. rewrite Hfm.
    apply stable_writeLoop_iter; try ended_leaf. apply shutdown_ended_stays.
  - ended_leaf.
  - ended_leaf.
  - ended_leaf.
Qed.

Lemma exec_ended_stays (cs : list call) :
  forall m : Mux, ended_stays m (exec cs m).
Proof.
  induction cs as [|c cs IH]; intros m; [repeat split; auto|].
  cbn [exec fold_left].
  destruct (step_ended_stays c m) as (H1 & H2 & H3).
  destruct (IH (state_of (step c m))) as (H4 & H5 & H6).
  repeat split; auto.
Qed.

(** [done] is closed by the reader task and by no other call. *)
Lemma step_keeps_done (c : call) (m : Mux) :
  (forall ev pick, c <> call_reader ev pick) ->
  done (state_of (step c m)) = done m.
Proof.
  intros Hc.
  assert (Hfm : forall A B (f : A -> B) (o : outcome Mux A),
             state_of (fmap_outcome f o) = state_of o)
    by (intros A B f []; reflexivity).
  change (keeps_done m (state_of (step c m))).
  destruct c; cbn [step]; rewrite ?Hfm.
  - apply stable_OpenStream; ended_leaf.
  - apply stable_AcceptStream; ended_leaf.
  - apply stable_SendPing; ended_leaf.
  - ended_leaf.
  - ended_leaf.
  - apply stable_Close; try ended_leaf. apply shutdown_keeps_done.
  - apply stable_Stream_Read; ended_leaf.
  - apply stable_Write; ended_leaf.
  - apply stable_Stream_Close; ended_leaf.
  - exfalso. eapply Hc. reflexivity.
  - destruct (writeDone m); [ended_leaf|]. rewrite Hfm.
    apply stable_writeLoop_iter; try ended_leaf. apply shutdown_keeps_done.
  - ended_leaf.
  - ended_leaf.
  - ended_leaf.
Qed.

Lemma exec_keeps_done (cs : list call) :
  forall m : Mux, reader_idle cs -> done (exec cs m) = done m.
Proof.
  induction cs as [|c cs IH]; intros m Hidle; [reflexivity|].
  apply Forall_cons in Hidle as [Hc Hidle]. cbn [exec fold_left].
  rewrite (IH _ Hidle). apply step_keeps_done, Hc.
Qed.

(** After [shutdown] has completed, the turn of the reader task whose read
    of the connection fails closes [done]. *)
Lemma reader_leaves (pick : nat) (m : Mux) :
  once m = OnceDone ->
  done (state_of (step (call_reader read_err pick) m)) = true.
Proof.
  intros Ho. cbn [step]. destruct (done m) eqn:Hd; [exact Hd|].
  cbn [readLoop_iter]. unfold bind, shutdown. rewrite Ho. reflexivity.
Qed.

Lemma reader_leaves_later (cs cs' : list call) (pick : nat) (m : Mux) :
  once m = OnceDone ->
  done (exec (cs ++ call_reader read_err pick :: cs') m) = true.
Proof.
  intros Ho. unfold exec. rewrite fold_left_app. cbn [fold_left].
  fold (exec cs m).
  match goal with
  | |- done (fold_left _ cs' ?m1) = true =>
      change (done (exec cs' m1) = true);
      apply (proj1 (proj2 (exec_ended_stays cs' m1)))
  end.
  apply reader_leaves. apply (exec_ended_stays cs m), Ho.
Qed.

End Ended.

Section CloseMux.
Import FrameCodec mux scene.

Lemma Close_again (m : Mux) :
  once m = OnceDone -> done m = true -> Close m = Ret None m.
Proof.
  intros Ho Hd. unfold Close, bind, shutdown, await_done. rewrite Ho, Hd.
  reflexivity.
Qed.

(** [shutdown] on a mux on which it has not started, whose writer task is
    running, whose transport works and whose registered streams are
    settled. *)
Lemma shutdown_goes_through (m : Mux) :
  live m -> healthy m -> registry_settled m = true ->
  exists h,
    shutdown false m = Ret tt (shut_down h m)
    ∧ length h = length (heap m)
    ∧ (forall id r, streams m !! id = Some r ->
         exists s', h !! r = Some s' ∧ stream.closed s' = true).
Proof.
  intros (Ho & Hc & Ha & Hw & Hwd) Hh Hreg.
  set (m2 := set_closed true (set_once OnceRunning m)).
  destruct (closeRead_all_settled (map snd (map_to_list (streams m))) m2 Hreg)
    as (h & Hrun & Hlen & _ & Hall).
  exists h. split; [|split; [exact Hlen|]].
  - unfold shutdown. rewrite Ho.
    unfold bind, modify, close_closed, teardown, bind.
    cbn [closed set_once]. rewrite Hc. fold m2.
    change (streams m2) with (streams m). rewrite Hrun.
    unfold close_chan, chan_close, modify.
    cbn [acceptCh writeCh set_streams set_heap set_acceptCh].
    change (acceptCh m2) with (acceptCh m). rewrite Ha.
    cbn [acceptCh writeCh set_streams set_heap set_acceptCh].
    change (writeCh m2) with (writeCh m). rewrite Hw.
    cbn [writeCh set_writeCh buf].
    rewrite await_writer_healthy; [| exact Hwd | exact Hh | reflexivity].
    reflexivity.
  - intros id r Hreg'. rewrite Forall_forall in Hall. apply Hall.
    apply list_elem_of_In, in_map_iff. exists (id, r). split; [reflexivity|].
    apply list_elem_of_In, elem_of_map_to_list. exact Hreg'.
Qed.

(** X15. [Close] on a mux on which [shutdown] has not started, whose writer
    task is running, whose transport works, whose registered streams are
    settled and whose reader task has not left ([done] is open).  Its
    [shutdown] goes through: every frame that was waiting in the outbound
    queue has been sent to the connection, in order, before the connection
    was closed; the registry is empty, every stream that was registered is
    closed, the accept queue and the outbound queue are closed, and [closed]
    and [writeDone] are closed.  [Close] then waits for the reader task: it
    has returned nil after the calls [cs] of the other tasks exactly when
    [done] is closed by then.  [done] stays open as long as the reader task
    takes no turn, and is closed for good by the turn in which its read of
    the connection fails; from then on every [Close] returns nil and changes
    nothing. *)
Theorem Close_goes_through (m : Mux) :
  live m -> healthy m -> registry_settled m = true -> done m = false ->
  exists h,
    length h = length (heap m)
    ∧ (forall id r, streams m !! id = Some r ->
         exists s', h !! r = Some s' ∧ stream.closed s' = true)
    ∧ Close m = Block (shut_down h m)
    ∧ (forall cs,
         Close_during cs m =
         if done (exec cs (shut_down h m))
         then Ret None (exec cs (shut_down h m))
         else Block (exec cs (shut_down h m)))
    ∧ (forall cs, reader_idle cs -> done (exec cs (shut_down h m)) = false)
    ∧ (forall cs pick cs',
         let m' := exec (cs ++ call_reader read_err pick :: cs') (shut_down h m) in
         done m' = true ∧ Close m' = Ret None m').
Proof.
  intros Hlive Hh Hreg Hd.
  destruct (shutdown_goes_through m Hlive Hh Hreg) as (h & Hsh & Hlen & Hcl).
  exists h. split; [exact Hlen|]. split; [exact Hcl|].
  split; [|split; [|split]].
  - unfold Close, bind. rewrite Hsh. unfold await_done.
    change (done (shut_down h m)) with (done m). rewrite Hd. reflexivity.
  - intros cs. unfold Close_during. unfold bind at 1. rewrite Hsh.
    unfold bind, await_done. destruct (done (exec cs (shut_down h m))); reflexivity.
  - intros cs Hidle. rewrite (exec_keeps_done cs _ Hidle). exact Hd.
  - intros cs pick cs'. cbv zeta.
    assert (Hdone : done (exec (cs ++ call_reader read_err pick :: cs')
                            (shut_down h m)) = true)
      by (apply reader_leaves_later; reflexivity).
    split; [exact Hdone|].
    apply Close_again; [|exact Hdone].
    apply (exec_ended_stays _ (shut_down h m)). reflexivity.
Qed.

Lemma Close_goes_through_witness :
  let m := exec [call_OpenStream 0; call_reader (read_msg (open_frame 2)) 0;
                 call_SendPing 0] (NewMux false) in
  exists h,
    length h = length (heap m)
    ∧ (forall id r, streams m !! id = Some r ->
         exists s', h !! r = Some s' ∧ stream.closed s' = true)
    ∧ Close m = Block (shut_down h m)
    ∧ (forall cs,
         Close_during cs m =
         if done (exec cs (shut_down h m))
         then Ret None (exec cs (shut_down h m))
         else Block (exec cs (shut_down h m)))
    ∧ (forall cs, reader_idle cs -> done (exec cs (shut_down h m)) = false)
    ∧ (forall cs pick cs',
         let m' := exec (cs ++ call_reader read_err pick :: cs') (shut_down h m) in
         done m' = true ∧ Close m' = Ret None m').
Proof.
  cbv zeta. set (m := exec _ _).
  assert (Hlive : live m) by (repeat split; vm_compute; reflexivity).
  assert (Hh : healthy m) by (split; vm_compute; reflexivity).
  assert (Hreg : registry_settled m = true) by (vm_compute; reflexivity).
  assert (Hd : done m = false) by (vm_compute; reflexivity).
  exact (Close_goes_through m Hlive Hh Hreg Hd).
Defined.

End CloseMux.

(** ** mux.go: a write that fails *)

Section Wedged.
Import FrameCodec mux scene.

Lemma closeRead_all_frame (rs : list nat) :
  forall m : Mux, exists h, state_of (closeRead_all rs m) = set_heap h m.
Proof.
  induction rs as [|r rs IH]; intros m.
  - exists (heap m). symmetry. apply set_heap_heap.
  - cbn [closeRead_all]. unfold bind, on_stream.
    destruct (heap m !! r) as [s|];
      [|exists (heap m); symmetry; apply set_heap_heap].
    destruct (stream.closeRead s) as [[] s'|s'|s']; cbn [state_of]; eauto.
    destruct (IH (set_heap (<[r := s']> (heap m)) m)) as (h & Hh).
    exists h. rewrite Hh. reflexivity.
Qed.

Lemma await_writer_stuck (fw : bool) (q : list nat) (m : Mux) :
  writeDone m = false ->
  fw = true ∨ (q <> [] ∧ unusable m) ->
  stuck_in m (await_writer fw q m).
Proof.
  intros Hwd Hcase. destruct q as [|data rest]; cbn [await_writer]; rewrite Hwd.
  - destruct Hcase as [->|[Hq _]]; [|congruence].
    repeat split; reflexivity.
  - destruct fw; [repeat split; reflexivity|].
    destruct Hcase as [Hfw|[_ Hu]]; [discriminate|].
    unfold bind, conn_Write. cbn [conn set_writeCh].
    unfold unusable in Hu. rewrite Hu. repeat split; reflexivity.
Qed.

(** [shutdown] run by the writer task itself, or run by another task while
    the transport refuses a frame that is still queued, does not return. *)
Lemma teardown_stuck (fw : bool) (m : Mux) :
  writeDone m = false ->
  fw = true ∨ (buf (writeCh m) <> [] ∧ unusable m) ->
  stuck_in m (teardown fw m).
Proof.
  intros Hwd Hcase. unfold teardown. unfold bind at 1. cbv beta.
  destruct (closeRead_all_frame (map snd (map_to_list (streams m))) m) as (h & Hh).
  destruct (closeRead_all _ m) as [[] m1|m1|m1]; cbn [state_of] in Hh; subst m1;
    [|repeat split; reflexivity..].
  unfold bind at 1, modify at 1. unfold bind at 1, close_chan at 1.
  destruct (chan_close _) as [ac|]; [|repeat split; reflexivity].
  unfold bind at 1, close_chan at 1. unfold chan_close.
  cbn [writeCh set_acceptCh set_streams set_heap].
  destruct (chclosed (writeCh m)); [repeat split; reflexivity|].
  unfold bind at 1. cbn [writeCh set_writeCh buf].
  match goal with
  | |- context [await_writer fw ?q ?m'] =>
      destruct (await_writer_stuck fw q m') as (Hret & Hcore);
        [exact Hwd
        |destruct Hcase as [?|[? ?]]; [left; assumption|right; split; assumption]
        |destruct (await_writer fw q m') as [[] m2|m2|m2]; [discriminate|..]]
  end; (split; [reflexivity|exact Hcore]).
Qed.

Lemma shutdown_stuck (fw : bool) (m : Mux) :
  once m = OnceIdle -> writeDone m = false ->
  fw = true ∨ (buf (writeCh m) <> [] ∧ unusable m) ->
  holds_once m (shutdown fw m).
Proof.
  intros Ho Hwd Hcase. unfold shutdown. rewrite Ho.
  unfold bind at 1, modify at 1. unfold bind at 1, close_closed.
  cbn [closed set_once]. destruct (closed m) eqn:Hc.
  { unfold holds_once. cbn. auto 8. }
  unfold bind at 1.
  destruct (teardown_stuck fw (set_closed true (set_once OnceRunning m)) Hwd Hcase)
    as (Hret & Ho' & Hc' & Hwd' & Hconn & Hdone).
  unfold holds_once.
  destruct (teardown fw _) as [[] m2|m2|m2]; [discriminate|..];
    cbn [state_of returned] in *;
    rewrite Ho', Hc', Hwd', Hconn, Hdone; cbn; auto 8.
Qed.

Lemma once_held_wedged (m : Mux) :
  once m = OnceRunning -> writeDone m = false -> wedged m.
Proof.
  intros Ho Hwd. repeat split; try assumption.
  - unfold Close, bind, shutdown. rewrite Ho. reflexivity.
  - intros pick. unfold readLoop_iter, bind, shutdown. rewrite Ho. reflexivity.
Qed.

Lemma once_held_trans (a b c : Mux) :
  once_held a b -> once_held b c -> once_held a c.
Proof.
  unfold once_held. intros Hab Hbc Ho.
  destruct (Hab Ho) as (Hb & Hw & Hc). destruct (Hbc Hb) as (? & ? & ?).
  repeat split; congruence.
Qed.

End Wedged.

Section WedgedForGood.
Import FrameCodec mux scene.

Lemma holds_once_fmap {A B} (f : A -> B) (m : Mux) (o : outcome Mux A) :
  holds_once m o -> holds_once m (fmap_outcome f o).
Proof.
  destruct o; intros [H1 H2]; [discriminate|split; [reflexivity|exact H2]..].
Qed.

Lemma holds_once_bind {A B} (c : M A) (k : A -> M B) (m m0 : Mux) :
  holds_once m (c m0) -> holds_once m (bind c k m0).
Proof.
  unfold bind.
  destruct (c m0); intros [H1 H2];
    [discriminate|split; [reflexivity|exact H2]..].
Qed.

Ltac held_leaf :=
  intros; unfold once_held in *; cbn in *; intuition congruence.

Lemma shutdown_once_held (fw : bool) : stable once_held (shutdown fw).
Proof.
  intros m Ho. unfold shutdown. rewrite Ho. cbn. auto.
Qed.

(** Every call but a turn of the writer task leaves a held [Once] held. *)
Lemma step_once_held (c : call) (m : Mux) :
  c <> call_writer -> once_held m (state_of (step c m)).
Proof.
  intros Hc.
  assert (Hfm : forall A B (f : A -> B) (o : outcome Mux A),
             state_of (fmap_outcome f o) = state_of o)
    by (intros A B f []; reflexivity).
  destruct c; cbn [step]; rewrite ?Hfm.
  - apply stable_OpenStream; held_leaf.
  - apply stable_AcceptStream; held_leaf.
  - apply stable_SendPing; held_leaf.
  - held_leaf.
  - held_leaf.
  - apply stable_Close; try held_leaf. apply shutdown_once_held.
  - apply stable_Stream_Read; held_leaf.
  - apply stable_Write; held_leaf.
  - apply stable_Stream_Close; held_leaf.
  - destruct (done m); [held_leaf|]. rewrite Hfm.
    apply stable_readLoop_iter; try held_leaf. apply shutdown_once_held.
  - congruence.
  - held_leaf.
  - held_leaf.
  - held_leaf.
Qed.

Lemma exec_once_held (cs : list call) :
  forall m : Mux, writer_idle cs -> once_held m (exec cs m).
Proof.
  induction cs as [|c cs IH]; intros m Hidle.
  - intros Ho. auto.
  - apply Forall_cons in Hidle as [Hc Hidle]. cbn [exec fold_left].
    eapply once_held_trans; [apply step_once_held; exact Hc|].
    apply IH. exact Hidle.
Qed.

Lemma held_for_good (m m' : Mux) (cs : list call) :
  once m' = OnceRunning -> writeDone m' = false ->
  conn_closed (conn m') = conn_closed (conn m) ->
  writer_idle cs ->
  wedged (exec cs m') ∧ conn_closed (conn (exec cs m')) = conn_closed (conn m).
Proof.
  intros Ho Hwd Hcl Hidle.
  destruct (exec_once_held cs m' Hidle Ho) as (Ho' & Hwd' & Hcl').
  split; [apply once_held_wedged; congruence|congruence].
Qed.

(** X16. A write that fails wedges the mux.  When [conn.Write] fails in
    the writer task of a mux on which [shutdown] has not started, the writer
    task calls [shutdown] and never comes back from it: it waits for
    [writeDone], which only its own return would close.  At that point
    [closed] is closed but [conn.Close] has not been called, [done] and
    [writeDone] are open, and the [Once] is held.  Whatever the other tasks
    call afterwards, the [Once] stays held: [Close] parks, the reader task
    parks when its read fails, and the mux never closes the connection. *)
Theorem writer_failure_wedges (m : Mux) (data : nat) (rest : list nat) :
  once m = OnceIdle -> writeDone m = false ->
  buf (writeCh m) = data :: rest -> unusable m ->
  holds_once m (step call_writer m)
  ∧ forall cs, writer_idle cs ->
      let m' := exec cs (state_of (step call_writer m)) in
      wedged m' ∧ conn_closed (conn m') = conn_closed (conn m).
Proof.
  intros Ho Hwd Hq Hu.
  assert (Hstep : holds_once m (step call_writer m)).
  { cbn [step]. rewrite Hwd. apply holds_once_fmap.
    unfold writeLoop_iter, chan_recv. rewrite Hq.
    unfold bind at 1, conn_Write. cbn [conn set_writeCh].
    unfold unusable in Hu. rewrite Hu.
    apply holds_once_bind.
    apply (shutdown_stuck true
             (set_writeCh (mkChan rest (cap (writeCh m)) (chclosed (writeCh m))) m));
      auto. }
  split; [exact Hstep|]. intros cs Hidle.
  destruct Hstep as (_ & Ho' & _ & Hwd' & Hconn & _).
  apply held_for_good; try assumption. rewrite Hconn. reflexivity.
Qed.

Lemma writer_failure_wedges_witness :
  let m := exec [call_SendPing 0; call_transport_fails] (NewMux false) in
  holds_once m (step call_writer m)
  ∧ forall cs, writer_idle cs ->
      let m' := exec cs (state_of (step call_writer m)) in
      wedged m' ∧ conn_closed (conn m') = conn_closed (conn m).
Proof.
  cbv zeta. set (m := exec _ _).
  assert (Hq : buf (writeCh m) = [0%nat]) by (vm_compute; reflexivity).
  assert (Hu : unusable m) by (vm_compute; reflexivity).
  exact (writer_failure_wedges m 0 [] eq_refl eq_refl Hq Hu).
Defined.

(** X17. Shutting down with a frame still queued on a transport that
    fails wedges the mux as well.  On a mux on which [shutdown] has not
    started, whose outbound queue is not empty and whose transport refuses
    writes, [Close], and the turn of the reader task whose read fails, do
    not return: [shutdown] waits for the writer task, whose write fails and
    which then waits for the [Once] that [shutdown] holds.  [conn.Close] is
    not called and [done] is not closed, then or later. *)
Theorem shutdown_with_unsent_frame_wedges (m : Mux) (c : call) :
  once m = OnceIdle -> writeDone m = false -> done m = false ->
  buf (writeCh m) <> [] -> unusable m ->
  c = call_Close ∨ (exists pick, c = call_reader read_err pick) ->
  holds_once m (step c m)
  ∧ forall cs, writer_idle cs ->
      let m' := exec cs (state_of (step c m)) in
      wedged m' ∧ conn_closed (conn m') = conn_closed (conn m).
Proof.
  intros Ho Hwd Hd Hq Hu Hc.
  assert (Hshut : holds_once m (shutdown false m))
    by (apply shutdown_stuck; auto).
  assert (Hstep : holds_once m (step c m)).
  { destruct Hc as [->|[pick ->]]; cbn [step]; rewrite ?Hd;
      apply holds_once_fmap; unfold Close, readLoop_iter;
      apply holds_once_bind; exact Hshut. }
  split; [exact Hstep|]. intros cs Hidle.
  destruct Hstep as (_ & Ho' & _ & Hwd' & Hconn & _).
  apply held_for_good; try assumption. rewrite Hconn. reflexivity.
Qed.

Lemma shutdown_with_unsent_frame_wedges_witness :
  let m := exec [call_SendPing 0; call_transport_fails] (NewMux false) in
  holds_once m (step call_Close m)
  ∧ forall cs, writer_idle cs ->
      let m' := exec cs (state_of (step call_Close m)) in
      wedged m' ∧ conn_closed (conn m') = conn_closed (conn m).
Proof.
  cbv zeta. set (m := exec _ _).
  assert (Hq : buf (writeCh m) <> []) by (vm_compute; discriminate).
  assert (Hu : unusable m) by (vm_compute; reflexivity).
  exact (shutdown_with_unsent_frame_wedges m call_Close eq_refl eq_refl eq_refl
           Hq Hu (or_introl eq_refl)).
Defined.

End WedgedForGood.

(** ** stream.go and frame.go: payloads above the limit *)

Section Oversized.
Import FrameCodec mux scene.

Lemma data_frame_too_large (id : Z) (payload : list byte) :
  MaxPayloadSize < Z.of_nat (length payload) < 2 ^ 32 ->
  exists d,
    DecodeFrame (NewReader (data_frame id payload)) =
    (inr (Wrapped (BadLen (Z.of_nat (length payload))) ErrPayloadTooLarge), d).
Proof.
  intros Hlen. set (r := data_frame id payload).
  assert (Hl : hdr_len r = Z.of_nat (length payload)).
  { unfold hdr_len, r, data_frame, EncodeFrame.
    cbn [Type_ StreamID Payload]. unfold PutUint32 at 1 2.
    cbn [app firstn skipn]. rewrite take_0.
    fold (PutUint32 (uint32 (Z.of_nat (length payload)))).
    unfold uint32. rewrite Z.mod_small by lia.
    apply Uint32_PutUint32. lia. }
  assert (Hlong : (frameHeaderSize <= length r)%nat).
  { unfold r, data_frame, EncodeFrame, PutUint32, frameHeaderSize.
    cbn [app length]. lia. }
  assert (Hty : hdr_type r = 2) by reflexivity.
  assert (Hns : ¬ short_header r) by (unfold short_header; lia).
  assert (Hni : ¬ invalid_type r) by (intros [_ H]; apply H; lia).
  assert (Hbig : payload_too_large r) by (split; [exact Hlong|lia]).
  pose proof (DecodeFrame_cases r) as Hc.
  inversion Hc; try tauto.
  rewrite Hl. eauto.
Qed.

(** X18. [Write] neither splits nor refuses a payload above the 10 MiB
    limit.  On an open stream of a mux that can send, [Write(p)] with
    [len(p)] above [MaxPayloadSize] (and below 4 GiB) returns [len(p)] and no
    error after queueing a single [DATA] frame that holds all of [p]; the
    peer's [DecodeFrame] rejects that frame with [ErrPayloadTooLarge], and
    the turn of the peer's reader task that receives it skips it, with its
    state unchanged: the bytes are lost without an error on either end. *)
Theorem oversized_Write_is_lost (a : Mux) (r p pick : nat) (s : stream.Stream)
  (id : Z) :
  heap a !! r = Some s -> stream.closed s = false ->
  stream.writeFn s = stream.makeWriteFn_of id ->
  can_send a ->
  MaxPayloadSize < Z.of_nat (length (load a p)) < 2 ^ 32 ->
  Write r p pick a =
  Ret (Z.of_nat (length (load a p)), None)
      (enqueued (data_frame id (load a p)) (set_mem (mem a ++ [load a p]) a))
  ∧ (exists d,
       DecodeFrame (NewReader (data_frame id (load a p))) =
       (inr (Wrapped (BadLen (Z.of_nat (length (load a p)))) ErrPayloadTooLarge),
        d))
  ∧ forall (b : Mux) (pk : nat),
      readLoop_iter (read_msg (data_frame id (load a p))) pk b = Ret true b.
Proof.
  intros Hs Hc Hw Hsend Hlen.
  destruct (data_frame_too_large id (load a p) Hlen) as (d & Hd).
  split; [apply (Write_live a r p pick s id); assumption|].
  split; [exists d; exact Hd|].
  intros b pk. unfold readLoop_iter. rewrite Hd.
  destruct (_ <? _)%nat; reflexivity.
Qed.

Lemma oversized_Write_is_lost_witness :
  let big := replicate (Z.to_nat (MaxPayloadSize + 1)) x00 in
  let a := set_mem [big] (set_heap [new_mux_stream 1] (NewMux false)) in
  Write 0 0 0 a =
  Ret (Z.of_nat (length (load a 0)), None)
      (enqueued (data_frame 1 (load a 0)) (set_mem (mem a ++ [load a 0]) a))
  ∧ (exists d,
       DecodeFrame (NewReader (data_frame 1 (load a 0))) =
       (inr (Wrapped (BadLen (Z.of_nat (length (load a 0)))) ErrPayloadTooLarge),
        d))
  ∧ forall (b : Mux) (pk : nat),
      readLoop_iter (read_msg (data_frame 1 (load a 0))) pk b = Ret true b.
Proof.
  cbv zeta.
  set (big := replicate (Z.to_nat (MaxPayloadSize + 1)) x00).
  set (a := set_mem [big] (set_heap [new_mux_stream 1] (NewMux false))).
  assert (Hload : load a 0 = big) by reflexivity.
  assert (Hlen : MaxPayloadSize < Z.of_nat (length (load a 0)) < 2 ^ 32).
  { rewrite Hload. unfold big. rewrite length_replicate, Z2Nat.id;
      unfold MaxPayloadSize; lia. }
  assert (Hsend : can_send a) by (repeat split; cbn; lia).
  exact (oversized_Write_is_lost a 0 0 0 (new_mux_stream 1) 1 eq_refl eq_refl
           eq_refl Hsend Hlen).
Defined.

End Oversized.

(** ** tunnel/reconnect.go: reconnecting *)

Section Reconnecting.
Import tunnel.

Lemma Reconnect_loop_ends (w : world) :
  forall (fuel : nat) (attempt backoff : Z) (waits : list Z),
    1 <= attempt ->
    (Z.to_nat (maxAttempts + 1 - attempt) < fuel)%nat ->
    exists out more,
      Reconnect_loop w fuel attempt backoff waits = Some (out, waits ++ more)
      ∧ more `prefix_of`
          backoffs_from backoff (Z.to_nat (maxAttempts + 1 - attempt))
      ∧ match out with
        | Connected k =>
            attempt <= k <= maxAttempts ∧ failed_between w attempt k
            ∧ cancelled w k = false ∧ dial_ok w k = true
            ∧ Z.of_nat (length more) = k - attempt + 1
        | Cancelled =>
            exists k, attempt <= k <= maxAttempts ∧ failed_between w attempt k
                      ∧ cancelled w k = true
                      ∧ Z.of_nat (length more) = k - attempt
        | GaveUp =>
            failed_between w attempt (maxAttempts + 1)
            ∧ more = backoffs_from backoff (Z.to_nat (maxAttempts + 1 - attempt))
        end.
Proof.
  induction fuel as [|fuel IH]; intros attempt backoff waits Ha Hfuel; [lia|].
  cbn [Reconnect_loop].
  destruct (Z.leb_spec attempt maxAttempts) as [Hle|Hgt].
  2: { exists GaveUp, []. rewrite app_nil_r.
       replace (Z.to_nat (maxAttempts + 1 - attempt)) with 0%nat by lia.
       repeat split; try reflexivity; unfold failed_between; intros; lia. }
  assert (Hn : Z.to_nat (maxAttempts + 1 - attempt)
               = S (Z.to_nat (maxAttempts + 1 - (attempt + 1)))) by lia.
  rewrite Hn. cbn [backoffs_from].
  destruct (cancelled w attempt) eqn:Hc.
  { exists Cancelled, []. rewrite app_nil_r.
    split; [reflexivity|]. split; [apply prefix_nil|].
    exists attempt. cbn [length].
    repeat split; try lia; try assumption; unfold failed_between; intros; lia. }
  destruct (dial_ok w attempt) eqn:Hd.
  { exists (Connected attempt), [backoff].
    split; [reflexivity|]. split; [apply prefix_cons, prefix_nil|].
    cbn [length]. repeat split; try lia; try assumption; unfold failed_between; intros; lia. }
  destruct (IH (attempt + 1) (next_backoff backoff) (waits ++ [backoff]))
    as (out & more & Hrun & Hpre & Hout); [lia|lia|].
  exists out, (backoff :: more).
  split; [rewrite Hrun, <- app_assoc; reflexivity|].
  split; [apply prefix_cons; exact Hpre|].
  assert (Hext : forall k, failed_between w (attempt + 1) k ->
                           failed_between w attempt k).
  { intros k Hk j Hj. destruct (Z.eq_dec j attempt) as [->|Hne]; [auto|].
    apply Hk. lia. }
  destruct out as [k| |].
  - destruct Hout as (Hk & Hf & Hck & Hdk & Hlen). cbn [length].
    split; [lia|]. split; [apply Hext, Hf|].
    split; [exact Hck|]. split; [exact Hdk|lia].
  - destruct Hout as (k & Hk & Hf & Hck & Hlen). exists k. cbn [length].
    split; [lia|]. split; [apply Hext, Hf|]. split; [exact Hck|lia].
  - destruct Hout as (Hf & ->). split; [apply Hext, Hf|reflexivity].
Qed.

(** X19. [Reconnect] always ends, after at most ten attempts.  The timers
    it waits for are, in order, a prefix of 1, 2, 4, 8, 16, 30, 30, 30, 30,
    30 seconds.  It returns the connection of the first attempt whose dial
    succeeds, all earlier attempts having waited for their timer and failed;
    it returns the context's error at the first attempt at which the context
    is done, without dialing at that attempt; and it gives up exactly when
    ten attempts have waited and failed, after the whole schedule. *)
Theorem Reconnect_backoff (w : world) (fuel : nat) :
  (Z.to_nat maxAttempts < fuel)%nat ->
  exists out waits,
    Reconnect w fuel = Some (out, waits)
    ∧ waits `prefix_of` backoff_schedule
    ∧ match out with
      | Connected k =>
          1 <= k <= maxAttempts ∧ failed_between w 1 k
          ∧ cancelled w k = false ∧ dial_ok w k = true
          ∧ Z.of_nat (length waits) = k
      | Cancelled =>
          exists k, 1 <= k <= maxAttempts ∧ failed_between w 1 k
                    ∧ cancelled w k = true
                    ∧ Z.of_nat (length waits) = k - 1
      | GaveUp =>
          failed_between w 1 (maxAttempts + 1) ∧ waits = backoff_schedule
      end.
Proof.
  intros Hfuel.
  destruct (Reconnect_loop_ends w fuel 1 initialBackoff [])
    as (out & more & Hrun & Hpre & Hout); [lia|exact Hfuel|].
  change (backoffs_from initialBackoff (Z.to_nat (maxAttempts + 1 - 1)))
    with backoff_schedule in *.
  exists out, more. split; [exact Hrun|]. split; [exact Hpre|].
  destruct out as [k| |].
  - destruct Hout as (Hk & Hf & Hck & Hdk & Hlen).
    split; [lia|]. split; [exact Hf|].
    split; [exact Hck|]. split; [exact Hdk|lia].
  - destruct Hout as (k & Hk & Hf & Hck & Hlen). exists k.
    split; [lia|]. split; [exact Hf|]. split; [exact Hck|lia].
  - exact Hout.
Qed.

Lemma Reconnect_backoff_witness :
  let w := mkWorld (fun _ => false) (fun k => k =? 3) in
  exists out waits,
    Reconnect w 11 = Some (out, waits)
    ∧ waits `prefix_of` backoff_schedule
    ∧ match out with
      | Connected k =>
          1 <= k <= maxAttempts ∧ failed_between w 1 k
          ∧ cancelled w k = false ∧ dial_ok w k = true
          ∧ Z.of_nat (length waits) = k
      | Cancelled =>
          exists k, 1 <= k <= maxAttempts ∧ failed_between w 1 k
                    ∧ cancelled w k = true
                    ∧ Z.of_nat (length waits) = k - 1
      | GaveUp =>
          failed_between w 1 (maxAttempts + 1) ∧ waits = backoff_schedule
      end.
Proof.
  cbv zeta.
  apply (Reconnect_backoff (mkWorld (fun _ => false) (fun k => k =? 3)) 11).
  change (Z.to_nat maxAttempts) with 10%nat. lia.
Defined.

End Reconnecting.

(** ** cmd/expose.go: accepting and forwarding *)

Section Forwarding.
Import mux tunnel.

Lemma taken_0 (m : Mux) : taken 0 m = m.
Proof.
  unfold taken. rewrite drop_0.
  destruct m as [? ? ? ? ? ? ? [? ? ?] ? ? ? ? ? ? ?]. reflexivity.
Qed.

Lemma starts_nil (proto : string) : starts proto [] = [].
Proof.
  unfold starts. destruct (String.eqb proto "http"); [reflexivity|].
  destruct (String.eqb proto "tcp"); reflexivity.
Qed.

Lemma starts_cons (proto : string) (s : nat) (ss : list nat) :
  starts proto (s :: ss) =
  (if String.eqb proto "http" then [ForwardHTTP s]
   else if String.eqb proto "tcp" then [ForwardTCP s]
   else []) ++ starts proto ss.
Proof.
  unfold starts. destruct (String.eqb proto "http"); [reflexivity|].
  destruct (String.eqb proto "tcp"); reflexivity.
Qed.

(** X20. [acceptStreams] never crashes and, run on a mux from a given
    state, ends in one of two ways once it has taken some of the streams
    waiting in the accept queue, in queue order, and started for each of
    them the forwarder of the tunnel's protocol (none for a protocol other
    than "http" and "tcp").  Either it parks in [AcceptStream], which
    happens only with a live context on a mux that is not shut down, after
    the whole queue has been taken; or it returns, which happens only when
    the context is done or the mux is shut down, and then the exit code is 0
    exactly when the context is done and 2 otherwise. *)
Theorem acceptStreams_exit_code (fuel : nat) (ctx_done : bool) (proto : string)
  (picks : nat -> nat) (m : Mux) :
  (length (buf (acceptCh m)) < fuel)%nat ->
  exists (e : accept_end) (n : nat),
    (n <= length (buf (acceptCh m)))%nat
    ∧ acceptStreams fuel ctx_done proto picks m =
      (e, starts proto (take n (buf (acceptCh m))), taken n m)
    ∧ ((e = Exit (if ctx_done then 0 else 2)
        ∧ (ctx_done = true ∨ closed m = true ∨ chclosed (acceptCh m) = true))
       ∨ (e = Parked ∧ ctx_done = false ∧ closed m = false
          ∧ chclosed (acceptCh m) = false ∧ n = length (buf (acceptCh m)))).
Proof.
  revert m. induction fuel as [|fuel IH]; intros m Hfuel; [lia|].
  cbn [acceptStreams]. unfold AcceptStream.
  destruct (select _ (picks fuel)) as [[]|] eqn:Hsel.
  - apply select_Some in Hsel. cbn [In] in Hsel.
    assert (Hready : recv_ready (acceptCh m) = true)
      by (destruct Hsel as [H|[H|[H|[]]]]; congruence).
    unfold chan_recv. destruct (buf (acceptCh m)) as [|r rest] eqn:Hq.
    + exists (Exit (if ctx_done then 0 else 2)), 0%nat. rewrite taken_0, take_0, starts_nil.
      split; [lia|]. split; [reflexivity|]. left. split; [reflexivity|].
      right. right. unfold recv_ready in Hready. rewrite Hq in Hready.
      cbn in Hready. rewrite orb_false_r in Hready. exact Hready.
    + set (m1 := set_acceptCh _ m).
      destruct (IH m1) as (e & n & Hn & Hrun & Hend);
        [unfold m1; cbn; cbn in Hfuel; lia|].
      exists e, (S n). split; [cbn in Hn |- *; lia|].
      split.
      * rewrite Hrun. cbn [take]. rewrite starts_cons.
        unfold m1 at 1 2; cbn [acceptCh set_acceptCh buf].
        f_equal. unfold taken, m1; cbn [acceptCh set_acceptCh buf cap chclosed].
        rewrite Hq. reflexivity.
      * destruct Hend as [(He & Hwhy)|(He & Hc & Hcl & Hch & Hall)];
          [left|right]; (split; [exact He|]).
        -- exact Hwhy.
        -- repeat split; try assumption. cbn [length]. rewrite Hall.
           unfold m1; cbn. reflexivity.
  - apply select_Some in Hsel. cbn [In] in Hsel.
    assert (Hctx : ctx_done = true)
      by (destruct Hsel as [H|[H|[H|[]]]]; congruence).
    exists (Exit (if ctx_done then 0 else 2)), 0%nat. rewrite taken_0, take_0, starts_nil.
    split; [lia|]. split; [reflexivity|]. left. auto.
  - apply select_Some in Hsel. cbn [In] in Hsel.
    assert (Hcl : closed m = true)
      by (destruct Hsel as [H|[H|[H|[]]]]; congruence).
    exists (Exit (if ctx_done then 0 else 2)), 0%nat. rewrite taken_0, take_0, starts_nil.
    split; [lia|]. split; [reflexivity|]. left. auto.
  - pose proof (select_None _ _ Hsel) as Hnone.
    assert (Hr : recv_ready (acceptCh m) = false)
      by (destruct (recv_ready (acceptCh m)); [|reflexivity];
          exfalso; apply (Hnone acc_stream); left; reflexivity).
    assert (Hctx : ctx_done = false)
      by (destruct ctx_done; [|reflexivity];
          exfalso; apply (Hnone acc_ctx); right; left; reflexivity).
    assert (Hcl : closed m = false)
      by (destruct (closed m); [|reflexivity];
          exfalso; apply (Hnone acc_closed); right; right; left; reflexivity).
    unfold recv_ready in Hr. apply orb_false_iff in Hr as [Hch Hlen].
    apply Nat.ltb_ge in Hlen.
    assert (Hq : buf (acceptCh m) = [])
      by (destruct (buf (acceptCh m)); [reflexivity|cbn in Hlen; lia]).
    exists Parked, 0%nat. rewrite taken_0, take_0, starts_nil.
    split; [lia|]. split; [reflexivity|]. right.
    rewrite Hq. auto.
Qed.

Lemma acceptStreams_exit_code_witness :
  let m := set_closed true
             (set_acceptCh (mkChan [4%nat; 5%nat] 32 true) (NewMux false)) in
  exists (e : accept_end) (n : nat),
    (n <= length (buf (acceptCh m)))%nat
    ∧ acceptStreams 3 false "http" (fun _ => 0%nat) m =
      (e, starts "http" (take n (buf (acceptCh m))), taken n m)
    ∧ ((e = Exit (if false then 0 else 2)
        ∧ (false = true ∨ closed m = true ∨ chclosed (acceptCh m) = true))
       ∨ (e = Parked ∧ false = false ∧ closed m = false
          ∧ chclosed (acceptCh m) = false ∧ n = length (buf (acceptCh m)))).
Proof.
  cbv zeta.
  apply (acceptStreams_exit_code 3 false "http" (fun _ => 0%nat)
           (set_closed true
              (set_acceptCh (mkChan [4%nat; 5%nat] 32 true) (NewMux false)))).
  cbn. lia.
Defined.

End Forwarding.

(** ** cmd/expose.go: after [acceptStreams] *)

Section TunnelLoop.
Import mux scene tunnel.

(** [shutdown] up to its wait for the writer task, on a live mux whose
    registered streams are settled. *)
Lemma shutdown_upto_writer (m : Mux) :
  live m -> registry_settled m = true ->
  exists h,
    length h = length (heap m)
    ∧ shutdown false m =
      (do _ <- (do _ <- (fun m' => await_writer false (buf (writeCh m')) m') ;;
                modify (fun m' => set_conn (mkConn (sent (conn m'))
                                                   (broken (conn m')) true) m')) ;;
       modify (set_once OnceDone))
        (set_writeCh (mkChan (buf (writeCh m)) (cap (writeCh m)) true)
           (set_acceptCh (mkChan (buf (acceptCh m)) (cap (acceptCh m)) true)
              (set_streams ∅
                 (set_heap h (set_closed true (set_once OnceRunning m)))))).
Proof.
  intros (Ho & Hc & Ha & Hw & Hwd) Hreg.
  set (m2 := set_closed true (set_once OnceRunning m)).
  destruct (closeRead_all_settled (map snd (map_to_list (streams m))) m2 Hreg)
    as (h & Hrun & Hlen & _ & _).
  exists h. split; [exact Hlen|].
  unfold shutdown. rewrite Ho.
  unfold bind, modify, close_closed, teardown, bind.
  cbn [closed set_once]. rewrite Hc. fold m2.
  change (streams m2) with (streams m). rewrite Hrun.
  unfold close_chan, chan_close, modify.
  cbn [acceptCh writeCh set_streams set_heap set_acceptCh].
  change (acceptCh m2) with (acceptCh m). rewrite Ha.
  cbn [acceptCh writeCh set_streams set_heap set_acceptCh].
  change (writeCh m2) with (writeCh m). rewrite Hw.
  reflexivity.
Qed.

(** [shutdown] after the owner of the connection has closed it. *)
Lemma shutdown_after_conn_Close (m : Mux) :
  live m -> registry_settled m = true -> conn_closed (conn m) = true ->
  match buf (writeCh m) with
  | [] => exists m', shutdown false m = Ret tt m' ∧ once m' = OnceDone
                     ∧ done m' = done m
  | _ :: _ => exists m', shutdown false m = Block m' ∧ once m' = OnceRunning
  end.
Proof.
  intros Hlive Hreg Hcl.
  destruct (shutdown_upto_writer m Hlive Hreg) as (h & _ & Hshut).
  destruct Hlive as (Ho & Hc & Ha & Hw & Hwd).
  destruct (buf (writeCh m)) as [|data rest] eqn:Hq;
    rewrite Hshut; clear Hshut;
    unfold bind at 1 2; cbn [writeCh set_writeCh buf]; rewrite ?Hq;
    cbn [await_writer];
    cbn [writeDone set_writeCh set_acceptCh set_streams set_heap set_closed
           set_once]; rewrite Hwd.
  - eexists. unfold modify, bind, ret. split; [reflexivity|].
    split; reflexivity.
  - unfold bind at 1, conn_Write.
    cbn [conn set_writeCh set_acceptCh set_streams set_heap set_closed set_once].
    rewrite Hcl, orb_true_r. eexists. split; reflexivity.
Qed.

(** X21. Stopping the tunnel (the accept loop has returned 0):
    [runTunnelLoop] closes the connection and then the mux, while the other
    tasks go on.  In the state in which [mux.Close] is called, let
    [shutdown] not have started, the registered streams be settled and
    [done] be open.  When a frame is waiting in the outbound queue in that
    state, [mux.Close] does not get past [shutdown] (the write of that frame
    fails on the closed connection) and [runTunnelLoop] does not return:
    the mux stays wedged whatever the tasks other than the writer task, which
    is parked, do afterwards.  When none is waiting, [shutdown] goes
    through and [mux.Close] waits for the reader task: [runTunnelLoop] has
    not returned as long as the reader task takes no turn, and returns nil
    once the reader task has taken the turn in which its read fails. *)
Theorem graceful_stop (m : Mux) (reconnect_off : bool) (w : world)
  (between during : list call) :
  live (at_Close 0 between m) ->
  registry_settled (at_Close 0 between m) = true ->
  done (at_Close 0 between m) = false ->
  match buf (writeCh (at_Close 0 between m)) with
  | _ :: _ =>
      fst (after_accept 0 reconnect_off w between during m) = Hang
      ∧ forall cs, writer_idle cs ->
          wedged (exec cs (snd (after_accept 0 reconnect_off w between during m)))
  | [] =>
      (reader_idle during ->
       fst (after_accept 0 reconnect_off w between during m) = Hang)
      ∧ (forall pick, In (call_reader read_err pick) during ->
           fst (after_accept 0 reconnect_off w between during m) = Return_nil)
  end.
Proof.
  unfold at_Close, after_accept. cbn [Z.eqb].
  set (m1 := exec between (conn_Close m)).
  intros Hlive Hreg Hd.
  assert (Hcl : conn_closed (conn m1) = true)
    by (apply (exec_ended_stays between (conn_Close m)); reflexivity).
  pose proof (shutdown_after_conn_Close m1 Hlive Hreg Hcl) as H.
  assert (Hstuck : buf (writeCh m1) <> [] -> holds_once m1 (shutdown false m1)).
  { intros Hq. destruct Hlive as (Ho & _ & _ & _ & Hwd).
    apply shutdown_stuck; [exact Ho|exact Hwd|].
    right. split; [exact Hq|]. unfold unusable. rewrite Hcl.
    apply orb_true_r. }
  unfold Close_during. unfold bind at 1 3 5 7.
  destruct (buf (writeCh m1)).
  - destruct H as (m' & -> & Ho & Hd'). rewrite Hd in Hd'.
    unfold bind, await_done. split.
    + intros Hidle. rewrite (exec_keeps_done during m' Hidle), Hd'. reflexivity.
    + intros pick Hin. apply in_split in Hin as (cs & cs' & ->).
      rewrite (reader_leaves_later cs cs' pick m' Ho). reflexivity.
  - destruct H as (m' & Hsh & _).
    destruct (Hstuck ltac:(discriminate)) as (_ & Ho & _ & Hwd & _).
    rewrite Hsh in *. cbn [state_of fst snd] in *.
    split; [reflexivity|]. intros cs Hidle.
    apply (held_for_good m' m' cs Ho Hwd eq_refl Hidle).
Qed.

Lemma graceful_stop_witness :
  let w := mkWorld (fun _ => false) (fun _ => true) in
  fst (after_accept 0 false w [] [call_writer; call_reader read_err 0]
         (NewMux false)) = Return_nil
  ∧ fst (after_accept 0 false w [] [call_writer] (NewMux false)) = Hang
  ∧ fst (after_accept 0 false w [call_SendPing 0] [call_reader read_err 0]
           (NewMux false)) = Hang.
Proof.
  cbv zeta.
  assert (Hlive : forall between,
             (between = [] ∨ between = [call_SendPing 0]) ->
             live (at_Close 0 between (NewMux false)))
    by (intros between [-> | ->]; repeat split; vm_compute; reflexivity).
  split; [|split].
  - pose proof (graceful_stop (NewMux false) false
                  (mkWorld (fun _ => false) (fun _ => true)) []
                  [call_writer; call_reader read_err 0]
                  (Hlive [] (or_introl eq_refl)) eq_refl eq_refl) as H.
    change (buf (writeCh (at_Close 0 [] (NewMux false)))) with (@nil nat) in H.
    cbv iota in H. destruct H as [_ H]. apply (H 0%nat).
    right. left. reflexivity.
  - pose proof (graceful_stop (NewMux false) false
                  (mkWorld (fun _ => false) (fun _ => true)) [] [call_writer]
                  (Hlive [] (or_introl eq_refl)) eq_refl eq_refl) as H.
    change (buf (writeCh (at_Close 0 [] (NewMux false)))) with (@nil nat) in H.
    cbv iota in H. destruct H as [H _]. apply H.
    repeat constructor. discriminate.
  - exact (proj1 (graceful_stop (NewMux false) false
                    (mkWorld (fun _ => false) (fun _ => true)) [call_SendPing 0]
                    [call_reader read_err 0]
                    (Hlive [call_SendPing 0] (or_intror eq_refl)) eq_refl eq_refl)).
Defined.



End TunnelLoop.

(** ** mux.go: the registry and the stream objects *)

Section Registry.
Import FrameCodec mux scene.

Local Abbreviation keeps := (mux.stable registry_step).

Lemma built_for_le (id : Z) (s s' : stream.Stream) :
  stream.stream_le s s' -> built_for id s -> built_for id s'.
Proof.
  intros (Hid & Hw & Hc & _) (H1 & H2 & H3). repeat split; congruence.
Qed.

Lemma rstep_refl (m : Mux) : registry_step m m.
Proof. split; [apply heap_grows_same; reflexivity|auto]. Qed.

Lemma rstep_trans (a b c : Mux) :
  registry_step a b -> registry_step b c -> registry_step a c.
Proof.
  intros [Hg1 He1] [Hg2 He2]. split; [eapply heap_grows_trans; eassumption|].
  intros id r Hc. destruct (He2 id r Hc) as [Hb|Hnew]; [|right; exact Hnew].
  destruct (He1 id r Hb) as [Ha|(s & Hs & Hbuilt)]; [left; exact Ha|right].
  destruct (Hg2 r s Hs) as (s' & Hs' & Hle). exists s'.
  split; [exact Hs'|]. eapply built_for_le; eassumption.
Qed.

Lemma rstep_ok (m m' : Mux) :
  registry_ok m -> registry_step m m' -> registry_ok m'.
Proof.
  intros Hok [Hg He] id r Hr. destruct (He id r Hr) as [Hold|Hnew]; [|exact Hnew].
  destruct (Hok id r Hold) as (s & Hs & Hbuilt).
  destruct (Hg r s Hs) as (s' & Hs' & Hle). exists s'.
  split; [exact Hs'|]. eapply built_for_le; eassumption.
Qed.

(** A step that leaves the registry alone. *)
Lemma rstep_keep (m m' : Mux) :
  heap_grows m m' -> streams m' = streams m -> registry_step m m'.
Proof. intros Hg Hs. split; [exact Hg|]. intros id r H. left. congruence. Qed.

(** A step that only removes entries. *)
Lemma rstep_drop (m : Mux) (reg : gmap Z nat) :
  reg ⊆ streams m -> registry_step m (set_streams reg m).
Proof.
  intros Hsub. split; [apply heap_grows_same; reflexivity|].
  intros id r H. left. cbn [streams set_streams] in H.
  eapply lookup_weaken; eassumption.
Qed.

(** Allocating a stream for [id] and registering it under [id]. *)
Lemma rstep_register (id : Z) (m : Mux) :
  registry_step m (registered id (new_mux_stream id) m).
Proof.
  split; [apply (heap_grows_alloc m (new_mux_stream id))|].
  intros id' r H. unfold registered in *. cbn [streams heap set_streams set_heap] in *.
  destruct (decide (id' = id)) as [->|Hne].
  - rewrite lookup_insert_eq in H. injection H as <-. right.
    exists (new_mux_stream id).
    rewrite lookup_app_r, Nat.sub_diag by lia. repeat split.
  - rewrite lookup_insert_ne in H by congruence. left. exact H.
Qed.

Ltac reg_leaf :=
  first [ exact rstep_refl | exact rstep_trans
        | intros; apply rstep_keep;
          [first [ apply heap_grows_alloc
                 | eapply heap_grows_stream; eassumption
                 | apply heap_grows_same; reflexivity ]
          | reflexivity ] ].

Lemma keeps_removeStream (id : Z) : keeps (removeStream id).
Proof. intros m. apply rstep_drop, delete_subseteq. Qed.

Lemma keeps_makeCloseFn (id : Z) (pick : nat) : keeps (makeCloseFn id pick).
Proof.
  unfold makeCloseFn.
  apply stable_bind; [exact rstep_trans|apply stable_encode; reg_leaf|intros frame].
  apply stable_bind; [exact rstep_trans|apply stable_writeWS; reg_leaf|intros _].
  apply keeps_removeStream.
Qed.

Lemma keeps_Stream_Close (r pick : nat) : keeps (Stream_Close r pick).
Proof.
  intros m. unfold Stream_Close.
  destruct (heap m !! r) as [s|]; [|apply rstep_refl].
  destruct (stream.closeOnce s); try apply rstep_refl.
  apply stable_bind; [exact rstep_trans| |intros _].
  { apply stable_on_stream; try reg_leaf. intros; apply set_closeOnce_le. }
  apply stable_bind; [exact rstep_trans| |intros _].
  { apply stable_on_stream; try reg_leaf. apply close_closed_le. }
  apply stable_bind; [exact rstep_trans| |intros _].
  { destruct (stream.closeFn s) as [[id]|];
      [apply keeps_makeCloseFn|apply stable_ret; reg_leaf]. }
  apply stable_bind; [exact rstep_trans| |intros; apply stable_ret; reg_leaf].
  apply stable_on_stream; try reg_leaf. intros; apply set_closeOnce_le.
Qed.

Lemma keeps_handleOpenStream (id : Z) (pick : nat) :
  keeps (handleOpenStream id pick).
Proof.
  intros m. unfold handleOpenStream. unfold bind at 1 2.
  unfold alloc_stream, modify.
  change (set_streams _ _) with (registered id (new_mux_stream id) m).
  apply rstep_trans with (registered id (new_mux_stream id) m);
    [apply rstep_register|].
  destruct (select _ pick) as [[]|]; try apply rstep_refl.
  unfold chan_send. destruct (chclosed _); [apply rstep_refl|]. reg_leaf.
Qed.

Lemma keeps_handleCloseStream (id : Z) : keeps (handleCloseStream id).
Proof.
  intros m. unfold handleCloseStream.
  destruct (streams m !! id); [|apply rstep_refl].
  apply stable_bind; [exact rstep_trans| |intros; apply keeps_removeStream].
  apply stable_on_stream; try reg_leaf. apply closeRead_le.
Qed.

Lemma keeps_dispatch (f : Frame) (pick : nat) : keeps (dispatch f pick).
Proof.
  unfold dispatch.
  destruct (Type_ f);
    first [ apply keeps_handleOpenStream | apply keeps_handleCloseStream
          | apply stable_ret; reg_leaf
          | apply stable_handleData; reg_leaf
          | apply stable_handlePing; reg_leaf
          | apply stable_handlePong; reg_leaf ].
Qed.

Lemma keeps_OpenStream (pick : nat) : keeps (OpenStream pick).
Proof.
  intros m. rewrite OpenStream_steps.
  destruct (closed m); [apply rstep_refl|].
  destruct (_ && _); [apply rstep_refl|].
  unfold bind at 1 2 3. unfold modify at 1 2, alloc_stream.
  change (set_streams _ _)
    with (registered (nextID m) (new_mux_stream (nextID m))
            (set_nextID (uint32 (nextID m + 2)) m)).
  apply rstep_trans with (set_nextID (uint32 (nextID m + 2)) m); [reg_leaf|].
  eapply rstep_trans; [apply rstep_register|].
  apply stable_bind; [exact rstep_trans|apply stable_encode; reg_leaf|intros frame].
  apply stable_bind; [exact rstep_trans|apply stable_writeWS; reg_leaf|].
  intros [e|]; [|apply stable_ret; reg_leaf].
  apply stable_bind;
    [exact rstep_trans|apply keeps_removeStream|intros; apply stable_ret; reg_leaf].
Qed.

Lemma keeps_shutdown (fw : bool) : keeps (shutdown fw).
Proof.
  intros m. unfold shutdown. destruct (once m); try apply rstep_refl.
  apply stable_bind; [exact rstep_trans|apply stable_modify; reg_leaf|intros _].
  apply stable_bind; [exact rstep_trans| |intros _].
  { intros m'. unfold close_closed. destruct (closed m'); reg_leaf. }
  apply stable_bind;
    [exact rstep_trans| |intros _; apply stable_modify; reg_leaf].
  unfold teardown.
  apply stable_bind; [exact rstep_trans| |intros _].
  { intros m'. apply stable_closeRead_all; reg_leaf. }
  apply stable_bind; [exact rstep_trans| |intros _].
  { apply stable_modify. intros m'. apply rstep_drop, map_empty_subseteq. }
  apply stable_bind; [exact rstep_trans| |intros _].
  { intros m'. unfold close_chan. destruct (chan_close _); reg_leaf. }
  apply stable_bind; [exact rstep_trans| |intros _].
  { intros m'. unfold close_chan. destruct (chan_close _); reg_leaf. }
  apply stable_bind;
    [exact rstep_trans| |intros _; apply stable_modify; reg_leaf].
  intros m'. apply stable_await_writer; reg_leaf.
Qed.

Lemma keeps_readLoop_iter (ev : conn_read) (pick : nat) :
  keeps (readLoop_iter ev pick).
Proof.
  unfold readLoop_iter. destruct ev as [data|].
  - destruct (_ <? _)%nat; [apply stable_ret; reg_leaf|].
    destruct (DecodeFrame _) as [[f|e] d]; [|apply stable_ret; reg_leaf].
    intros m. destruct (closed m); [reg_leaf|].
    apply stable_bind;
      [exact rstep_trans|apply keeps_dispatch|intros; apply stable_ret; reg_leaf].
  - apply stable_bind; [exact rstep_trans|apply keeps_shutdown|intros _].
    apply stable_bind;
      [exact rstep_trans|apply stable_modify; reg_leaf
      |intros; apply stable_ret; reg_leaf].
Qed.

(** Every call keeps the registry consistent with the stream objects. *)
Lemma step_registry (c : call) (m : Mux) :
  registry_step m (state_of (step c m)).
Proof.
  assert (Hfm : forall A B (f : A -> B) (o : outcome Mux A),
             state_of (fmap_outcome f o) = state_of o)
    by (intros A B f []; reflexivity).
  destruct c; cbn [step]; rewrite ?Hfm.
  - apply keeps_OpenStream.
  - apply stable_AcceptStream; reg_leaf.
  - apply stable_SendPing; reg_leaf.
  - reg_leaf.
  - reg_leaf.
  - apply stable_Close; try reg_leaf. apply keeps_shutdown.
  - apply stable_Stream_Read; reg_leaf.
  - apply stable_Write; reg_leaf.
  - apply keeps_Stream_Close.
  - destruct (done m); [apply rstep_refl|]. rewrite Hfm.
    apply keeps_readLoop_iter.
  - destruct (writeDone m); [apply rstep_refl|]. rewrite Hfm.
    apply stable_writeLoop_iter; try reg_leaf. apply keeps_shutdown.
  - reg_leaf.
  - reg_leaf.
  - reg_leaf.
Qed.

(** X23. The registry stays consistent with the stream objects, whatever
    the tasks do: started from a new mux (or from any state in which it
    holds), after any schedule of calls of the API and of turns of the
    reader and writer tasks, returning, parked or panicked, every ID of the
    registry is registered to an existing stream object that carries this
    very ID and whose write and close closures were built for it, so that a
    [DATA] frame for an ID reaches the stream of that ID and the frames that
    stream sends bear that ID. *)
Theorem registry_consistent (cs : list call) :
  (forall m, registry_ok m -> registry_ok (exec cs m))
  ∧ forall isServer id r,
      streams (exec cs (NewMux isServer)) !! id = Some r ->
      exists s, heap (exec cs (NewMux isServer)) !! r = Some s
                ∧ stream.ID s = id ∧ writeFn_id s = id
                ∧ stream.closeFn s = Some (stream.makeCloseFn_of id).
Proof.
  assert (Hexec : forall m, registry_ok m -> registry_ok (exec cs m)).
  { induction cs as [|c cs IH]; intros m Hok; [exact Hok|].
    cbn [exec fold_left]. apply IH.
    eapply rstep_ok; [exact Hok|apply step_registry]. }
  split; [exact Hexec|]. intros isServer id r Hr.
  assert (Hnew : registry_ok (NewMux isServer))
    by (intros id' r' H; cbn in H; rewrite lookup_empty in H; discriminate).
  destruct (Hexec _ Hnew id r Hr) as (s & Hs & Hid & Hw & Hc).
  exists s. unfold writeFn_id. rewrite Hw. auto.
Qed.

End Registry.

(** ** stream.go and mux.go: one stream at a time *)

Section Isolation.
Import FrameCodec mux scene.

Variable r' : nat.

Local Abbreviation apart := (mux.stable (untouched r')).

Lemma untouched_refl (m : Mux) : untouched r' m m.
Proof. reflexivity. Qed.

Lemma untouched_trans (a b c : Mux) :
  untouched r' a b -> untouched r' b c -> untouched r' a c.
Proof. unfold untouched. congruence. Qed.

Lemma apart_on_stream {A} (r : nat)
  (f : stream.Stream -> outcome stream.Stream A) :
  r' <> r -> apart (on_stream r f).
Proof.
  intros Hne m. unfold on_stream, untouched.
  destruct (heap m !! r) as [s|]; [|reflexivity].
  destruct (f s); cbn [state_of heap set_heap];
    apply list_lookup_insert_ne; congruence.
Qed.

Ltac apart_leaf :=
  first [ exact untouched_refl | exact untouched_trans
        | intros; reflexivity ].

Lemma apart_Stream_Close (r pick : nat) : r' <> r -> apart (Stream_Close r pick).
Proof.
  intros Hne m. unfold Stream_Close.
  destruct (heap m !! r) as [s|]; [|reflexivity].
  destruct (stream.closeOnce s); try reflexivity.
  apply stable_bind; [exact untouched_trans|apply apart_on_stream, Hne|intros _].
  apply stable_bind; [exact untouched_trans|apply apart_on_stream, Hne|intros _].
  apply stable_bind; [exact untouched_trans| |intros _].
  { destruct (stream.closeFn s) as [[id]|];
      [apply stable_makeCloseFn; apart_leaf|apply stable_ret; apart_leaf]. }
  apply stable_bind;
    [exact untouched_trans|apply apart_on_stream, Hne
    |intros; apply stable_ret; apart_leaf].
Qed.

(** X24. The calls on one stream leave the other streams alone.  For a
    stream object [r'] other than the stream [r] that is read, written,
    closed, or that is registered under the ID of an arriving [DATA] or
    [CLOSE_STREAM] frame: the object [r'] is, after the call (returned,
    parked or panicked), exactly what it was before; what it holds to read,
    its closed flag and its guard have not moved.  [Write] changes no stream
    object at all. *)
Theorem streams_isolated (m : Mux) (r : nat) :
  r' <> r ->
  (forall lenp pick, untouched r' m (state_of (Stream_Read r lenp pick m)))
  ∧ (forall p pick, heap (state_of (Write r p pick m)) = heap m)
  ∧ (forall pick, untouched r' m (state_of (Stream_Close r pick m)))
  ∧ (forall id payload pick,
       streams m !! id = Some r ->
       untouched r' m (state_of (handleData id payload pick m)))
  ∧ (forall id,
       streams m !! id = Some r ->
       untouched r' m (state_of (handleCloseStream id m))).
Proof.
  intros Hne. split; [|split; [|split; [|split]]].
  - intros lenp pick. apply apart_on_stream, Hne.
  - intros p pick.
    change ((fun a b => heap b = heap a) m (state_of (Write r p pick m))).
    apply stable_Write; try (intros; reflexivity). intros; congruence.
  - intros pick. apply apart_Stream_Close, Hne.
  - intros id payload pick Hreg. unfold handleData. rewrite Hreg.
    apply apart_on_stream, Hne.
  - intros id Hreg. unfold handleCloseStream. rewrite Hreg.
    apply stable_bind;
      [exact untouched_trans|apply apart_on_stream, Hne
      |intros; apply stable_removeStream; apart_leaf].
Qed.

End Isolation.

Section IsolationWitness.
Import FrameCodec mux scene.

Lemma streams_isolated_witness :
  let m := exec [call_reader (read_msg (open_frame 1)) 0;
                 call_reader (read_msg (open_frame 3)) 0]
                (NewMux true) in
  untouched 1 m (state_of (handleData 1 [x61] 0 m))
  ∧ untouched 1 m (state_of (handleCloseStream 1 m)).
Proof.
  cbv zeta. set (m := exec _ _).
  assert (Hreg : streams m !! 1 = Some 0%nat) by (vm_compute; reflexivity).
  destruct (streams_isolated 1 m 0 ltac:(discriminate)) as (_ & _ & _ & Hd & Hc).
  split; [exact (Hd 1 [x61] 0%nat Hreg)|exact (Hc 1 Hreg)].
Defined.

End IsolationWitness.

(** ** frame.go: frames delimit themselves *)

Section SelfDelimiting.
Import FrameCodec scene.

(** X25. The encoding is self-delimiting: when two byte sequences that each
    start with the encoding of a well-formed frame are equal, the two frames
    are the same frame and what follows them is the same.  In particular
    [EncodeFrame] is injective on well-formed frames, and no encoding of a
    well-formed frame is a proper prefix of another. *)
Theorem EncodeFrame_self_delimiting (f g : Frame) (rest rest' : list byte) :
  well_formed f -> well_formed g ->
  EncodeFrame f ++ rest = EncodeFrame g ++ rest' ->
  f = g ∧ rest = rest'.
Proof.
  intros (Hft & Hfi & Hfl) (Hgt & Hgi & Hgl) Heq.
  pose proof (DecodeFrame_EncodeFrame_app f rest [] Hft Hfi Hfl) as Hf.
  pose proof (DecodeFrame_EncodeFrame_app g rest' [] Hgt Hgi Hgl) as Hg.
  rewrite Heq, Hg in Hf. injection Hf as -> ->. split; reflexivity.
Qed.

Lemma EncodeFrame_self_delimiting_witness :
  mkFrame FrameData 7 [x68; x69] = mkFrame x02 (3 + 4) (drop 1 [x00; x68; x69])
  ∧ [xff] = [xff].
Proof.
  apply (EncodeFrame_self_delimiting (mkFrame FrameData 7 [x68; x69])
           (mkFrame x02 (3 + 4) (drop 1 [x00; x68; x69])) [xff] [xff]);
    try (repeat split; cbn [Type_ StreamID Payload length drop];
         try change (Z_of_byte FrameData) with 2;
         try change (Z_of_byte x02) with 2; unfold MaxPayloadSize; lia).
Defined.

End SelfDelimiting.

(** ** stream.go and mux.go: a stream is an ordered pipe *)

Section Pipe.
Import FrameCodec mux scene.

Lemma final_nil (m : Mux) : final m [] = m.
Proof. reflexivity. Qed.

(** A run of [Write] calls on an open stream of a mux whose outbound queue
    has room for them: each returns the length of its buffer, and the
    frames are queued in the order of the calls. *)
Lemma writes_run (r : nat) (s : stream.Stream) (id : Z) (pick : nat)
  (ps : list nat) :
  forall a : Mux,
    heap a !! r = Some s -> stream.closed s = false ->
    stream.writeFn s = stream.makeWriteFn_of id ->
    closed a = false -> chclosed (writeCh a) = false ->
    (length (buf (writeCh a)) + length ps <= cap (writeCh a))%nat ->
    Forall (fun p => (p < length (mem a))%nat) ps ->
    exists tr q more,
      run (writes r ps pick) a = Some tr
      ∧ map (fun e => e.1.2) tr
        = map (fun p => res_count (Z.of_nat (length (load a p))) None) ps
      ∧ mem (final a tr) = mem a ++ more
      ∧ buf (writeCh (final a tr)) = buf (writeCh a) ++ q
      ∧ map (load (final a tr)) q = map (fun p => data_frame id (load a p)) ps
      ∧ conn (final a tr) = conn a ∧ writeDone (final a tr) = writeDone a.
Proof.
  induction ps as [|p ps IH]; intros a Hs Hc Hw Hm Hq Hroom Hin.
  - exists [], [], []. rewrite final_nil, !app_nil_r. repeat split.
  - apply Forall_cons in Hin as [Hp Hin]. cbn [length] in Hroom.
    pose proof (Write_live a r p pick s id Hs Hc Hw) as Hwrite.
    set (a1 := enqueued _ _) in Hwrite.
    assert (Hmem1 : mem a1 = mem a ++ [load a p; data_frame id (load a p)])
      by (unfold a1, enqueued; cbn [mem set_writeCh set_mem];
          rewrite <- app_assoc; reflexivity).
    assert (Hold : forall p0, (p0 < length (mem a))%nat -> load a1 p0 = load a p0).
    { intros p0 Hp0. unfold load. rewrite Hmem1, lookup_app_l by exact Hp0.
      reflexivity. }
    destruct (IH a1) as (tr & q & more & Hrun & Hres & Hmem & Hbuf & Hload
                         & Hconn & Hwd);
      [exact Hs|exact Hc|exact Hw|exact Hm|reflexivity| | |].
    { unfold a1, enqueued; cbn [writeCh set_writeCh buf cap set_mem].
      rewrite length_app; cbn [length]. lia. }
    { rewrite Hmem1, length_app. eapply Forall_impl; [exact Hin|].
      cbn. intros. lia. }
    exists ((call_Write r p pick,
             res_count (Z.of_nat (length (load a p))) None, a1) :: tr),
      (S (length (mem a)) :: q), ([load a p; data_frame id (load a p)] ++ more).
    rewrite final_cons.
    assert (Hsame : map (fun p0 => res_count (Z.of_nat (length (load a1 p0))) None) ps
                    = map (fun p0 => res_count (Z.of_nat (length (load a p0))) None) ps).
    { apply map_ext_in. intros p0 Hp0. rewrite Hold; [reflexivity|].
      rewrite Forall_forall in Hin. apply Hin, list_elem_of_In, Hp0. }
    assert (Hsame' : map (fun p0 => data_frame id (load a1 p0)) ps
                     = map (fun p0 => data_frame id (load a p0)) ps).
    { apply map_ext_in. intros p0 Hp0. rewrite Hold; [reflexivity|].
      rewrite Forall_forall in Hin. apply Hin, list_elem_of_In, Hp0. }
    split; [|split; [|split; [|split; [|split; [|split]]]]].
    + cbn [writes map run step]. rewrite Hwrite by (repeat split; try assumption; lia).
      cbn [fmap_outcome fst snd]. fold (writes r ps pick). rewrite Hrun.
      reflexivity.
    + cbn [map fst snd]. rewrite Hres, Hsame. reflexivity.
    + rewrite Hmem, Hmem1, <- app_assoc. reflexivity.
    + rewrite Hbuf. unfold a1, enqueued; cbn [writeCh set_writeCh buf set_mem mem].
      rewrite length_app, <- app_assoc; cbn [length app].
      replace (length (mem a) + 1)%nat with (S (length (mem a))) by lia.
      reflexivity.
    + cbn [map]. rewrite Hload, Hsame'. f_equal.
      unfold load. rewrite Hmem, Hmem1, <- app_assoc.
      rewrite lookup_app_r by lia.
      replace (S (length (mem a)) - length (mem a))%nat with 1%nat by lia.
      reflexivity.
    + rewrite Hconn. reflexivity.
    + rewrite Hwd. reflexivity.
Qed.

(** The reader task receiving a run of [DATA] frames for a registered open
    stream whose inbound queue has room for them. *)
Lemma readLoop_data (id : Z) (rb pick : nat) (payloads : list (list byte)) :
  forall (b : Mux) (sb : stream.Stream),
    closed b = false -> streams b !! id = Some rb -> heap b !! rb = Some sb ->
    stream.closed sb = false -> chclosed (stream.dataCh sb) = false ->
    (length (buf (stream.dataCh sb)) + length payloads
     <= cap (stream.dataCh sb))%nat ->
    0 <= id < 2 ^ 32 ->
    Forall (fun p => Z.of_nat (length p) <= MaxPayloadSize) payloads ->
    readLoop (data_frames id payloads pick) b =
    Ret (map (mkFrame FrameData id) payloads)
        (set_heap (<[rb := stream.set_dataCh
                             (mkChan (buf (stream.dataCh sb) ++ payloads)
                                     (cap (stream.dataCh sb)) false) sb]>
                     (heap b)) b).
Proof.
  induction payloads as [|p payloads IH];
    intros b sb Hcb Hreg Hsb Hc Hd Hroom Hid Hlen.
  - cbn [data_frames map readLoop]. unfold ret. f_equal.
    rewrite app_nil_r.
    replace (stream.set_dataCh _ sb) with sb
      by (destruct sb as [? [? ? ?] ? ? ? ? ?]; cbn in *; subst; reflexivity).
    symmetry. apply set_heap_same. exact Hsb.
  - apply Forall_cons in Hlen as [Hp Hlen]. cbn [length] in Hroom.
    assert (Hwf : 1 <= Z_of_byte (Type_ (mkFrame FrameData id p)) <= 5)
      by (cbn [Type_]; change (Z_of_byte FrameData) with 2; lia).
    assert (Hdec : DecodeFrame (NewReader (data_frame id p))
                   = (inl (mkFrame FrameData id p),
                      mkDec [] [Z.of_nat (length p)])).
    { unfold data_frame, NewReader. rewrite <- (app_nil_r (EncodeFrame _)).
      apply (DecodeFrame_EncodeFrame_app (mkFrame FrameData id p) [] []);
        assumption. }
    assert (Hlt : (rb < length (heap b))%nat) by (eapply lookup_lt_Some; eauto).
    set (sb1 := stream.set_dataCh
                  (mkChan (buf (stream.dataCh sb) ++ [p])
                          (cap (stream.dataCh sb)) false) sb).
    set (b1 := set_heap (<[rb := sb1]> (heap b)) b).
    assert (Hturn : readLoop_iter (read_msg (data_frame id p)) pick b
                    = Ret true b1).
    { unfold data_frame.
      rewrite <- (app_nil_r (EncodeFrame _)), readLoop_iter_frame, Hcb
        by assumption.
      unfold dispatch; cbn [Type_ FrameData StreamID Payload]. unfold bind.
      rewrite (handleData_registered b id rb sb) by (try assumption; lia).
      reflexivity. }
    unfold data_frames in *. cbn [map readLoop]. unfold bind at 1.
    rewrite Hturn. unfold bind at 1.
    rewrite (IH b1 sb1); try assumption; try reflexivity.
    + unfold ret.
      replace (length (data_frame id p) <? frameHeaderSize)%nat with false
        by (symmetry; apply Nat.ltb_ge; unfold data_frame, EncodeFrame, PutUint32,
            frameHeaderSize; cbn [app length]; lia).
      rewrite Hdec. f_equal.
      unfold b1, sb1; cbn [heap set_heap stream.dataCh stream.set_dataCh buf cap].
      rewrite list_insert_insert_eq, <- app_assoc. reflexivity.
    + unfold b1; cbn [heap set_heap]. apply list_lookup_insert_eq. exact Hlt.
    + unfold sb1; cbn [stream.dataCh stream.set_dataCh buf cap].
      rewrite length_app; cbn [length]. lia.
Qed.

(** X26. A stream is an ordered pipe.  On the sending mux: an open stream,
    a mux that is not shut down with an empty outbound queue and a transport
    that works, and buffers [ps] (no more than the 256 frames the queue
    takes, each within the payload limit).  On the receiving mux, which is
    not shut down: an open, empty stream registered under the same ID.  Then
    the [Write] calls, one per buffer, each return the length of their
    buffer and no error; as many turns of the writer task send, in order,
    one [DATA] frame per buffer; the receiving reader task handles these
    frames in order; and [Read] calls with buffers that are not empty, of
    any sizes, then return without error exactly the bytes of the buffers,
    in the order in which they were written. *)
Theorem pipe_in_order (a b : Mux) (ra rb : nat) (sa sb : stream.Stream)
  (id : Z) (ps : list nat) (pw pr : nat) (sizes picks : nat -> nat) :
  heap a !! ra = Some sa -> stream.closed sa = false ->
  stream.writeFn sa = stream.makeWriteFn_of id ->
  closed a = false -> chclosed (writeCh a) = false -> buf (writeCh a) = [] ->
  (length ps <= cap (writeCh a))%nat ->
  writeDone a = false -> healthy a ->
  Forall (fun p => (p < length (mem a))%nat) ps ->
  Forall (fun p => Z.of_nat (length (load a p)) <= MaxPayloadSize) ps ->
  0 <= id < 2 ^ 32 ->
  closed b = false -> streams b !! id = Some rb -> heap b !! rb = Some sb ->
  stream.closed sb = false -> chclosed (stream.dataCh sb) = false ->
  stream.readBuf sb = [] -> buf (stream.dataCh sb) = [] ->
  (length ps <= cap (stream.dataCh sb))%nat ->
  (forall k, (0 < sizes k)%nat) ->
  let payloads := map (load a) ps in
  exists tr1 tr2 b1 sb1 k rs s',
    run (writes ra ps pw) a = Some tr1
    ∧ map (fun e => e.1.2) tr1
      = map (fun p => res_count (Z.of_nat (length p)) None) payloads
    ∧ run (writer_turns (length ps)) (final a tr1) = Some tr2
    ∧ sent (conn (final (final a tr1) tr2))
      = sent (conn a) ++ map (data_frame id) payloads
    ∧ readLoop (data_frames id payloads pr) b
      = Ret (map (mkFrame FrameData id) payloads) b1
    ∧ heap b1 !! rb = Some sb1
    ∧ stream.run (stream.reads sizes picks 0 k) sb1 = Some (rs, s')
    ∧ stream.delivered rs = concat payloads
    ∧ Forall (fun r => r.2 = None) rs.
Proof.
  intros Hsa Hca Hwa Hma Hqa Hempty Hroom Hwd Hh Hin Hlen Hid
    Hmb Hreg Hsb Hcb Hdb Hrb Hqb Hcap Hpos payloads.
  destruct (writes_run ra sa id pw ps a Hsa Hca Hwa Hma Hqa)
    as (tr1 & q & more & Hrun1 & Hres & Hmem & Hbuf & Hload & Hconn & Hwd1);
    [rewrite Hempty; cbn [length]; lia|exact Hin|].
  rewrite Hempty in Hbuf; cbn [app] in Hbuf.
  assert (Hq : length q = length ps)
    by (apply (f_equal (@length _)) in Hload; rewrite !length_map in Hload;
        exact Hload).
  destruct (writer_turns_run (length ps) (final a tr1))
    as (tr2 & Hrun2 & _ & Hsent & _);
    [congruence
    |destruct Hh; split; congruence
    |rewrite Hbuf, Hq; lia|].
  set (sb1 := stream.set_dataCh
                (mkChan (buf (stream.dataCh sb) ++ payloads)
                        (cap (stream.dataCh sb)) false) sb).
  assert (Hlt : (rb < length (heap b))%nat) by (eapply lookup_lt_Some; eauto).
  destruct (reads_drain_any sizes picks Hpos (stream.backlog sb1) sb1 0%nat
              eq_refl (le_n _))
    as (k & rs & s' & Hreads & Hdel & Hnone & _).
  exists tr1, tr2, (set_heap (<[rb := sb1]> (heap b)) b), sb1, k, rs, s'.
  split; [exact Hrun1|]. split.
  { rewrite Hres. unfold payloads. rewrite map_map. reflexivity. }
  split; [exact Hrun2|]. split.
  { rewrite Hsent, Hconn. f_equal. unfold outbox. rewrite Hbuf, <- Hq.
    rewrite take_ge by (rewrite length_map; lia).
    rewrite Hload. unfold payloads. rewrite map_map. reflexivity. }
  split.
  { apply readLoop_data; try assumption.
    - unfold payloads. rewrite Hqb, length_map. cbn [length]. lia.
    - unfold payloads. apply Forall_map. exact Hlen. }
  split; [cbn [heap set_heap]; apply list_lookup_insert_eq; exact Hlt|].
  split; [exact Hreads|]. split; [|exact Hnone].
  rewrite Hdel. unfold stream.pending, sb1.
  cbn [stream.readBuf stream.dataCh stream.set_dataCh buf].
  rewrite Hrb, Hqb. reflexivity.
Qed.

Lemma pipe_in_order_witness :
  let a := set_mem [[x68; x65]; [x6c; x6c; x6f]]
             (set_heap [new_mux_stream 1] (NewMux false)) in
  let b := registered 1 (new_mux_stream 1) (NewMux true) in
  let payloads := map (load a) [0%nat; 1%nat] in
  exists tr1 tr2 b1 sb1 k rs s',
    run (writes 0 [0%nat; 1%nat] 0) a = Some tr1
    ∧ map (fun e => e.1.2) tr1
      = map (fun p => res_count (Z.of_nat (length p)) None) payloads
    ∧ run (writer_turns (length [0%nat; 1%nat])) (final a tr1) = Some tr2
    ∧ sent (conn (final (final a tr1) tr2))
      = sent (conn a) ++ map (data_frame 1) payloads
    ∧ readLoop (data_frames 1 payloads 0) b
      = Ret (map (mkFrame FrameData 1) payloads) b1
    ∧ heap b1 !! 0%nat = Some sb1
    ∧ stream.run (stream.reads (fun _ => 4%nat) (fun k => k) 0 k) sb1
      = Some (rs, s')
    ∧ stream.delivered rs = concat payloads
    ∧ Forall (fun r => r.2 = None) rs.
Proof.
  cbv zeta.
  set (a := set_mem [[x68; x65]; [x6c; x6c; x6f]]
              (set_heap [new_mux_stream 1] (NewMux false))).
  set (b := registered 1 (new_mux_stream 1) (NewMux true)).
  assert (Hreg : streams b !! 1 = Some 0%nat) by (vm_compute; reflexivity).
  assert (Hlen : Forall (fun p => Z.of_nat (length (load a p)) <= MaxPayloadSize)
                   [0%nat; 1%nat])
    by (repeat constructor; vm_compute; discriminate).
  assert (Hin : Forall (fun p => (p < length (mem a))%nat) [0%nat; 1%nat])
    by (repeat constructor; cbn; lia).
  apply (pipe_in_order a b 0 0 (new_mux_stream 1) (new_mux_stream 1) 1
           [0%nat; 1%nat] 0 0 (fun _ => 4%nat) (fun k => k));
    first [ reflexivity | exact Hreg | exact Hlen | exact Hin
          | split; reflexivity | intros; lia | cbn; lia ].
Defined.

End Pipe.
